(** * OpenFst core: composition engine, Connect, Invert and symbol tables

    A shallow embedding of
    - [fst/symbol-table.h]  (SymbolTableImpl::Find, SymbolTable, CompatSymbols),
    - [fst/compose.h]       (ComposeFstImplBase, ComposeFstImpl, ComposeFst),
    - [fst/invert.h]        (InvertMapper, Invert),
    - [fst/connect.h]       (SccVisitor, Connect),
    - [fst/topsort.h]       (TopOrderVisitor),
    and the properties of these functions.

    Integers of the C++ code ([int64], [StateId], [Label], [ssize_t],
    [uint64] property words) are [Z]; vectors are lists, indexed with
    stdpp's lookup; [std::map<int64,int64>] is [gmap Z Z]. *)

From Stdlib Require Import ZArith Lia.
From stdpp Require Import base option list sorting gmap strings.

Open Scope Z_scope.

(** ** Constants declared in headers outside this development *)

(** [fst/fst.h]: the "no label" and "no state" sentinels. *)
Definition kNoLabel : Z := -1.
Definition kNoStateId : Z := -1.

(** [fst/properties.h]: the sticky error bit and the "all weights are
    One or Zero" bit (with its negation). *)
Definition kError : Z := 4.
Definition kUnweighted : Z := 8589934592.   (* 0x0000000200000000 *)
Definition kWeighted : Z := 4294967296.     (* 0x0000000100000000 *)

(** [fst/weight.h]: Times is commutative. *)
Definition kCommutative : Z := 4.

(** [fst/matcher.h]: the priority of a matcher that must be the one
    matched on. *)
Definition kRequirePriority : Z := -1.

(** [FstImpl::SetProperties(props, mask)] of [fst/fst.h]: the bits of
    [mask] are replaced by those of [props], except that the error bit is
    never cleared. *)
Definition SetProperties (props mask : Z) (properties_ : Z) : Z :=
  Z.lor (Z.land properties_ (Z.lor (Z.lnot mask) kError)) (Z.land props mask).

Definition has_error (properties_ : Z) : bool := Z.testbit properties_ 2.

(** ** Symbol tables ([fst/symbol-table.h]) *)

Module SymbolTableImpl.

(** [internal::DenseSymbolMap]: only its declaration is in the header.
    The symbols are kept in a vector; an index is a position in it. *)
Record DenseSymbolMap := { dsm_symbols : list string }.

Definition size (m : DenseSymbolMap) : Z := Z.of_nat (length (dsm_symbols m)).

Definition GetSymbol (m : DenseSymbolMap) (idx : Z) : string :=
  default EmptyString (dsm_symbols m !! Z.to_nat idx).

Fixpoint index_from (key : string) (l : list string) (i : Z) : Z :=
  match l with
  | [] => -1
  | x :: l' => if decide (x = key) then i else index_from key l' (i + 1)
  end.

(** Modelled from the spec: [DenseSymbolMap::Find] is defined in
    symbol-table.cc, which is missing; it is the index of the symbol in the
    symbol list, and -1 (the map's empty marker, which
    [SymbolTableImpl::Find] tests for) when the symbol is not stored. *)
Definition DenseFind (m : DenseSymbolMap) (key : string) : Z :=
  index_from key (dsm_symbols m) 0.

Record t := {
  name_ : string;
  available_key_ : Z;
  dense_key_limit_ : Z;
  symbols_ : DenseSymbolMap;
  idx_key_ : list Z;          (* key = idx_key_[index - dense_key_limit_] *)
  key_map_ : gmap Z Z;        (* index = key_map_[key] *)
}.

(** [string Find(int64 key) const] *)
Definition Find (impl : t) (key : Z) : string :=
  let lookup_idx : option Z :=
    if bool_decide (key < 0 ∨ key >= dense_key_limit_ impl)
    then key_map_ impl !! key
    else Some key in
  match lookup_idx with
  | None => EmptyString
  | Some idx =>
      if bool_decide (idx < 0 ∨ idx >= size (symbols_ impl))
      then EmptyString
      else GetSymbol (symbols_ impl) idx
  end.

(** [int64 Find(const string& symbol) const].  [idx_key_] is indexed
    unchecked in the source; [None] stands for an index outside it. *)
Definition FindSymbol (impl : t) (symbol : string) : option Z :=
  let idx := DenseFind (symbols_ impl) symbol in
  if bool_decide (idx = -1 ∨ idx < dense_key_limit_ impl) then Some idx
  else idx_key_ impl !! Z.to_nat (idx - dense_key_limit_ impl).

Definition SetName (new_name : string) (impl : t) : t :=
  {| name_ := new_name; available_key_ := available_key_ impl;
     dense_key_limit_ := dense_key_limit_ impl; symbols_ := symbols_ impl;
     idx_key_ := idx_key_ impl; key_map_ := key_map_ impl |}.

(** [int64 GetNthKey(ssize_t pos) const] *)
Definition GetNthKey (impl : t) (pos : Z) : option Z :=
  if bool_decide (pos < 0 ∨ pos >= size (symbols_ impl)) then Some (-1)
  else if bool_decide (pos < dense_key_limit_ impl) then Some pos
  else FindSymbol impl (GetSymbol (symbols_ impl) pos).

Definition Name (impl : t) : string := name_ impl.

Definition AvailableKey (impl : t) : Z := available_key_ impl.

Definition NumSymbols (impl : t) : Z := size (symbols_ impl).

End SymbolTableImpl.

Module SymbolTable.

Definition kNoSymbol : Z := -1.

(** The public class holds a shared, reference-counted pointer to the
    implementation and clones it before a mutation when it is not the only
    owner ([MutateCheck]); a table is modelled by the value of its
    implementation, so that a copy is the table itself. *)
Record t := { impl_ : SymbolTableImpl.t }.

Definition Copy (tbl : t) : t := tbl.

(** A method is a function from the object to its result and the object
    after the call. *)
Definition SetName (new_name : string) (tbl : t) : unit * t :=
  (tt, {| impl_ := SymbolTableImpl.SetName new_name (impl_ tbl) |}).

(** [virtual string Find(int64 key) const] *)
Definition Find (key : Z) (tbl : t) : string * t :=
  (SymbolTableImpl.Find (impl_ tbl) key, tbl).

(** [virtual int64 Find(const string& symbol) const] *)
Definition FindSymbol (symbol : string) (tbl : t) : option Z * t :=
  (SymbolTableImpl.FindSymbol (impl_ tbl) symbol, tbl).

(** [virtual int64 GetNthKey(ssize_t pos) const] *)
Definition GetNthKey (pos : Z) (tbl : t) : option Z :=
  SymbolTableImpl.GetNthKey (impl_ tbl) pos.

(** [virtual size_t NumSymbols() const] *)
Definition NumSymbols (tbl : t) : Z := SymbolTableImpl.NumSymbols (impl_ tbl).

(** [virtual const string& Name() const] *)
Definition Name (tbl : t) : string := SymbolTableImpl.Name (impl_ tbl).

End SymbolTable.

(** [SymbolTableIterator]: the table it refers to, the position, the
    number of symbols at construction and the key at the position.
    [GetNthKey] reads [idx_key_] unchecked: the constructor, [Next] and
    [Reset] are partial as it is. *)
Module SymbolTableIterator.

Record t := mkIter {
  table_ : SymbolTable.t;
  pos_ : Z;
  nsymbols_ : Z;
  key_ : Z;
}.

(** [explicit SymbolTableIterator(const SymbolTable& table)] *)
Definition new (table : SymbolTable.t) : option t :=
  key ← SymbolTable.GetNthKey 0 table;
  Some (mkIter table 0 (SymbolTable.NumSymbols table) key).

Definition Done (it : t) : bool := bool_decide (pos_ it = nsymbols_ it).

Definition Value (it : t) : Z := key_ it.

Definition Symbol (it : t) : string := (SymbolTable.Find (key_ it) (table_ it)).1.

Definition Next (it : t) : option t :=
  let pos := pos_ it + 1 in
  if bool_decide (pos < nsymbols_ it) then
    key ← SymbolTable.GetNthKey pos (table_ it);
    Some (mkIter (table_ it) pos (nsymbols_ it) key)
  else Some (mkIter (table_ it) pos (nsymbols_ it) (key_ it)).

Definition Reset (it : t) : option t :=
  key ← SymbolTable.GetNthKey 0 (table_ it);
  Some (mkIter (table_ it) 0 (nsymbols_ it) key).

End SymbolTableIterator.

(** [CompatSymbols]: the labeled checksum is computed in symbol-table.cc
    (MaybeRecomputeCheckSum), which is missing; it is a parameter here, a
    function of the table.  [FLAGS_fst_compat_symbols] is the process-wide
    flag. *)
Section Compat.

Variable LabeledCheckSum : SymbolTable.t → string.
Variable FLAGS_fst_compat_symbols : bool.

Definition CompatSymbols (syms1 syms2 : option SymbolTable.t) : bool :=
  if negb FLAGS_fst_compat_symbols then true
  else match syms1, syms2 with
       | Some t1, Some t2 =>
           if decide (LabeledCheckSum t1 ≠ LabeledCheckSum t2) then false
           else true
       | _, _ => true
       end.

End Compat.

(** ** Arcs, weights and the automaton interface *)

Record Arc (W : Type) := mkArc {
  ilabel : Z;
  olabel : Z;
  weight : W;
  nextstate : Z;
}.
Arguments mkArc {W} _ _ _ _.
Arguments ilabel {W} _.
Arguments olabel {W} _.
Arguments weight {W} _.
Arguments nextstate {W} _.

(** The weight concept: [Weight::Zero()], [Weight::One()], [Plus], [Times],
    [operator==] and the static [Weight::Properties()]. *)
Class Weight (W : Type) := {
  Zero : W;
  One : W;
  Plus : W → W → W;
  Times : W → W → W;
  weight_eq_dec :: EqDecision W;
  WeightProperties : Z;
}.

(** The query interface [Fst<Arc>]. *)
Record Fst (W : Type) := mkFst {
  Start : Z;
  Final : Z → W;
  Arcs : Z → list (Arc W);          (* the arcs of a state, in ArcIterator order *)
  Properties : Z → bool → Z;        (* Properties(mask, test) *)
  InputSymbols : option SymbolTable.t;
  OutputSymbols : option SymbolTable.t;
}.
Arguments mkFst {W} _ _ _ _ _ _.
Arguments Start {W} _.
Arguments Final {W} _ _.
Arguments Arcs {W} _ _.
Arguments Properties {W} _ _ _.
Arguments InputSymbols {W} _.
Arguments OutputSymbols {W} _.

(** ** Matchers, filters and the state table ([fst/matcher.h],
    [fst/compose-filter.h], [fst/state-table.h]): the interfaces that
    compose.h consumes *)

Inductive MatchType :=
  MATCH_INPUT | MATCH_OUTPUT | MATCH_BOTH | MATCH_NONE | MATCH_UNKNOWN.

#[global] Instance MatchType_eq_dec : EqDecision MatchType.
Proof. solve_decision. Defined.

(** [fst/matcher.h]: the flag of a matcher that yields arcs only through
    [Find]. *)
Definition kRequireMatch : Z := 1.

(** A matcher bound to an automaton.  [MFind s l] is the result of
    [SetState(s); Find(l)], and [MValues s l] the arcs that [Value()] then
    returns until [Done()]. *)
Record Matcher (W : Type) := mkMatcher {
  GetFst : Fst W;
  MType : bool → MatchType;
  MFlags : Z;
  MProperties : Z → Z;
  MFinal : Z → W;
  Priority : Z → Z;
  MFind : Z → Z → bool;
  MValues : Z → Z → list (Arc W);
}.
Arguments mkMatcher {W} _ _ _ _ _ _ _ _.
Arguments GetFst {W} _.
Arguments MType {W} _ _.
Arguments MFlags {W} _.
Arguments MProperties {W} _ _.
Arguments MFinal {W} _ _.
Arguments Priority {W} _ _.
Arguments MFind {W} _ _ _.
Arguments MValues {W} _ _ _.

(** A composition state tuple: a state of each operand and a filter state. *)
Definition StateTuple (FS : Type) : Type := Z * Z * FS.

(** A composition filter.  [FilterArc] and [FilterFinal] receive their
    arguments by pointer: they return them as the call leaves them.  The
    first argument is the tuple the filter was positioned on by
    [SetState]. *)
Record ComposeFilter (W FS : Type) := mkFilter {
  FStart : FS;
  NoState : FS;
  FilterArc : StateTuple FS → Arc W → Arc W → Arc W * Arc W * FS;
  FilterFinal : StateTuple FS → W → W → W * W;
  FProperties : Z → Z;
}.
Arguments mkFilter {W FS} _ _ _ _ _.
Arguments FStart {W FS} _.
Arguments NoState {W FS} _.
Arguments FilterArc {W FS} _ _ _ _.
Arguments FilterFinal {W FS} _ _ _ _.
Arguments FProperties {W FS} _ _.

Section StateTable.

Context {FS : Type} `{EqDecision FS}.

Fixpoint find_tuple (t : StateTuple FS) (l : list (StateTuple FS)) (i : Z)
  : option Z :=
  match l with
  | [] => None
  | x :: l' => if decide (x = t) then Some i else find_tuple t l' (i + 1)
  end.

(** Modelled from the spec: the composition state table of
    fst/state-table.h, which is missing: tuples are interned to dense ids,
    issued in insertion order from 0; [FindState] is find-or-insert and
    [Tuple] recovers the tuple of an id.  The table is the list of the
    interned tuples, a tuple's id its position. *)
Definition FindState (tbl : list (StateTuple FS)) (t : StateTuple FS)
  : Z * list (StateTuple FS) :=
  match find_tuple t tbl 0 with
  | Some i => (i, tbl)
  | None => (Z.of_nat (length tbl), tbl ++ [t])
  end.

(** [Tuple(s)] indexes the table unchecked; [None] is an id the table
    never issued. *)
Definition Tuple (tbl : list (StateTuple FS)) (s : Z) : option (StateTuple FS) :=
  if bool_decide (0 <= s) then tbl !! Z.to_nat s else None.

End StateTable.

(** ** The cache ([fst/cache.h]) *)

(** Modelled from the spec: a cache entry of fst/cache.h, which is
    missing: the final weight once computed, the arcs pushed so far and the
    "arcs expanded" flag.  The eviction of entries is not modelled: an
    entry once written stays.  What is stated below of the cache is
    stated of the entry of the state that is expanded or asked for, which
    an eviction skips. *)
Record CacheState (W : Type) := mkCacheState {
  cs_final : option W;
  cs_arcs : list (Arc W);
  cs_arcs_expanded : bool;
}.
Arguments mkCacheState {W} _ _ _.
Arguments cs_final {W} _.
Arguments cs_arcs {W} _.
Arguments cs_arcs_expanded {W} _.

Section Cache.

Context {W : Type}.

Definition empty_state : CacheState W := mkCacheState None [] false.

(** [GetMutableState(s)]: the entry of [s], created when absent. *)
Definition GetMutableState (s : Z) (c : gmap Z (CacheState W)) : CacheState W :=
  default empty_state (c !! s).

Definition PushArc (s : Z) (arc : Arc W) (c : gmap Z (CacheState W))
  : gmap Z (CacheState W) :=
  let st := GetMutableState s c in
  <[s := mkCacheState (cs_final st) (cs_arcs st ++ [arc]) (cs_arcs_expanded st)]> c.

Definition SetArcs (s : Z) (c : gmap Z (CacheState W)) : gmap Z (CacheState W) :=
  let st := GetMutableState s c in
  <[s := mkCacheState (cs_final st) (cs_arcs st) true]> c.

Definition SetFinal (s : Z) (w : W) (c : gmap Z (CacheState W))
  : gmap Z (CacheState W) :=
  let st := GetMutableState s c in
  <[s := mkCacheState (Some w) (cs_arcs st) (cs_arcs_expanded st)]> c.

Definition HasArcs (s : Z) (c : gmap Z (CacheState W)) : bool :=
  cs_arcs_expanded (GetMutableState s c).

Definition HasFinal (s : Z) (c : gmap Z (CacheState W)) : bool :=
  bool_decide (is_Some (cs_final (GetMutableState s c))).

Definition CachedArcs (s : Z) (c : gmap Z (CacheState W)) : list (Arc W) :=
  cs_arcs (GetMutableState s c).

End Cache.

(** ** Delayed composition ([fst/compose.h]) *)

(** The truth value of a C++ integer used as a condition. *)
Definition nonzero (z : Z) : bool := bool_decide (z ≠ 0).

(** The mutable part of [ComposeFstImpl]: the property word and symbol
    tables of [FstImpl], the cache of [CacheBaseImpl], the state table, the
    tuple the filter is positioned on, and [match_type_]. *)
Record ComposeFstImpl (W FS : Type) := mkImpl {
  properties_ : Z;
  isymbols_ : option SymbolTable.t;
  osymbols_ : option SymbolTable.t;
  cache_store_ : gmap Z (CacheState W);
  state_table_ : list (StateTuple FS);
  filter_state_ : StateTuple FS;
  match_type_ : MatchType;
}.
Arguments mkImpl {W FS} _ _ _ _ _ _ _.
Arguments properties_ {W FS} _.
Arguments isymbols_ {W FS} _.
Arguments osymbols_ {W FS} _.
Arguments cache_store_ {W FS} _.
Arguments state_table_ {W FS} _.
Arguments filter_state_ {W FS} _.
Arguments match_type_ {W FS} _.

(** The calls [ComputeFinal] makes on the matchers and the filter. *)
Inductive Call (W FS : Type) :=
  | CallFinal1 (s1 : Z)
  | CallFinal2 (s2 : Z)
  | CallSetState (t : StateTuple FS)
  | CallFilterFinal (final1 final2 : W).
Arguments CallFinal1 {W FS} _.
Arguments CallFinal2 {W FS} _.
Arguments CallSetState {W FS} _.
Arguments CallFilterFinal {W FS} _ _.

Section Compose.

Context {W : Type} `{Weight W} {FS : Type} `{EqDecision FS}.

(** Missing from the sources: the checksum of symbol-table.cc, the flag,
    the masks and the property algebra of properties.h, and the error bit
    of the state table. *)
Variable LabeledCheckSum : SymbolTable.t → string.
Variable FLAGS_fst_compat_symbols : bool.
Variable kFstProperties kCopyProperties : Z.
Variable ComposeProperties : Z → Z → Z.
Variable StateTableError : list (StateTuple FS) → bool.

(** The filter and the two matchers, fixed at construction. *)
Variable filter_ : ComposeFilter W FS.
Variable matcher1_ matcher2_ : Matcher W.

Local Abbreviation Impl := (ComposeFstImpl W FS).

Definition fst1_ : Fst W := GetFst matcher1_.
Definition fst2_ : Fst W := GetFst matcher2_.

Definition set_properties (f : Z → Z) (impl : Impl) : Impl :=
  mkImpl (f (properties_ impl)) (isymbols_ impl) (osymbols_ impl)
         (cache_store_ impl) (state_table_ impl) (filter_state_ impl)
         (match_type_ impl).

Definition set_symbols (isyms osyms : option SymbolTable.t) (impl : Impl) : Impl :=
  mkImpl (properties_ impl) isyms osyms
         (cache_store_ impl) (state_table_ impl) (filter_state_ impl)
         (match_type_ impl).

Definition set_cache (f : gmap Z (CacheState W) → gmap Z (CacheState W))
    (impl : Impl) : Impl :=
  mkImpl (properties_ impl) (isymbols_ impl) (osymbols_ impl)
         (f (cache_store_ impl)) (state_table_ impl) (filter_state_ impl)
         (match_type_ impl).

Definition set_state_table (tbl : list (StateTuple FS)) (impl : Impl) : Impl :=
  mkImpl (properties_ impl) (isymbols_ impl) (osymbols_ impl)
         (cache_store_ impl) tbl (filter_state_ impl) (match_type_ impl).

(** [filter_->SetState(s1, s2, fs)] *)
Definition filter_SetState (t : StateTuple FS) (impl : Impl) : Impl :=
  mkImpl (properties_ impl) (isymbols_ impl) (osymbols_ impl)
         (cache_store_ impl) (state_table_ impl) t (match_type_ impl).

Definition set_match_type (mt : MatchType) (impl : Impl) : Impl :=
  mkImpl (properties_ impl) (isymbols_ impl) (osymbols_ impl)
         (cache_store_ impl) (state_table_ impl) (filter_state_ impl) mt.

(** [ComposeFstImplBase::InitBase] *)
Definition InitBase (fst1 fst2 : Fst W) (impl : Impl) : Impl :=
  let impl :=
    if negb (CompatSymbols LabeledCheckSum FLAGS_fst_compat_symbols
               (InputSymbols fst2) (OutputSymbols fst1))
    then set_properties (SetProperties kError kError) impl
    else impl in
  set_symbols (InputSymbols fst1) (OutputSymbols fst2) impl.

(** [ComposeFstImpl::SetMatchType] *)
Definition SetMatchType : MatchType :=
  if nonzero (Z.land (MFlags matcher1_) kRequireMatch) &&
     bool_decide (MType matcher1_ true ≠ MATCH_OUTPUT) then MATCH_NONE
  else if nonzero (Z.land (MFlags matcher2_) kRequireMatch) &&
          bool_decide (MType matcher2_ true ≠ MATCH_INPUT) then MATCH_NONE
  else
    let type1 := MType matcher1_ false in
    let type2 := MType matcher2_ false in
    if bool_decide (type1 = MATCH_OUTPUT) && bool_decide (type2 = MATCH_INPUT)
    then MATCH_BOTH
    else if bool_decide (type1 = MATCH_OUTPUT) then MATCH_OUTPUT
    else if bool_decide (type2 = MATCH_INPUT) then MATCH_INPUT
    else if bool_decide (MType matcher1_ true = MATCH_OUTPUT) then MATCH_OUTPUT
    else if bool_decide (MType matcher2_ true = MATCH_INPUT) then MATCH_INPUT
    else MATCH_NONE.

(** The object as the base-class constructors leave it: no property
    known, an empty cache, the filter not positioned. *)
Definition blank_impl (state_table : list (StateTuple FS)) : Impl :=
  mkImpl 0 None None ∅ state_table (kNoStateId, kNoStateId, NoState filter_)
         MATCH_NONE.

(** The constructor [ComposeFstImpl(fst1, fst2, opts)]; [state_table] is
    [opts.state_table] or a fresh table. *)
Definition new_ComposeFstImpl (fst1 fst2 : Fst W)
    (state_table : list (StateTuple FS)) : Impl :=
  let impl := InitBase fst1 fst2 (blank_impl state_table) in
  let impl := set_match_type SetMatchType impl in
  let impl :=
    if bool_decide (match_type_ impl = MATCH_NONE)
    then set_properties (SetProperties kError kError) impl else impl in
  let fprops1 := Properties fst1 kFstProperties false in
  let fprops2 := Properties fst2 kFstProperties false in
  let mprops1 := MProperties matcher1_ fprops1 in
  let mprops2 := MProperties matcher2_ fprops2 in
  let cprops := ComposeProperties mprops1 mprops2 in
  let impl :=
    set_properties (SetProperties (FProperties filter_ cprops) kCopyProperties)
                   impl in
  if StateTableError (state_table_ impl)
  then set_properties (SetProperties kError kError) impl else impl.

(** [ComposeFst::CreateBase2] *)
Definition CreateBase2 (fst1 fst2 : Fst W)
    (state_table : list (StateTuple FS)) : Impl :=
  let impl := new_ComposeFstImpl fst1 fst2 state_table in
  if negb (nonzero (Z.land WeightProperties kCommutative)) then
    let props1 := Properties fst1 kUnweighted true in
    let props2 := Properties fst2 kUnweighted true in
    if negb (nonzero (Z.land props1 kUnweighted)) &&
       negb (nonzero (Z.land props2 kUnweighted))
    then set_properties (SetProperties kError kError) impl
    else impl
  else impl.

(** [ComposeFstImpl::AddArc] *)
Definition AddArc (s : Z) (arc1 arc2 : Arc W) (f : FS) (impl : Impl) : Impl :=
  let tuple : StateTuple FS := (nextstate arc1, nextstate arc2, f) in
  let '(id, tbl) := FindState (state_table_ impl) tuple in
  let oarc := mkArc (ilabel arc1) (olabel arc2)
                    (Times (weight arc1) (weight arc2)) id in
  set_cache (PushArc s oarc) (set_state_table tbl impl).

(** One turn of the loop of [ComposeFstImpl::MatchArc], at the matcher
    value [arca]. *)
Definition MatchArc_step (s : Z) (arc : Arc W) (match_input : bool)
    (impl : Impl) (arca : Arc W) : Impl :=
  let arcb := arc in
  if match_input then
    let '(arcb, arca, f) := FilterArc filter_ (filter_state_ impl) arcb arca in
    if bool_decide (f ≠ NoState filter_) then AddArc s arcb arca f impl else impl
  else
    let '(arca, arcb, f) := FilterArc filter_ (filter_state_ impl) arca arcb in
    if bool_decide (f ≠ NoState filter_) then AddArc s arca arcb f impl else impl.

(** [ComposeFstImpl::MatchArc]; [sa] is the state [matchera] was set to. *)
Definition MatchArc (s : Z) (matchera : Matcher W) (sa : Z) (arc : Arc W)
    (match_input : bool) (impl : Impl) : Impl :=
  let label := if match_input then olabel arc else ilabel arc in
  if MFind matchera sa label
  then foldl (MatchArc_step s arc match_input) impl (MValues matchera sa label)
  else impl.

(** [ComposeFstImpl::OrderedExpand] *)
Definition OrderedExpand (s : Z) (sa : Z) (fstb : Fst W) (sb : Z)
    (matchera : Matcher W) (match_input : bool) (impl : Impl) : Impl :=
  let loop := mkArc (if match_input then 0 else kNoLabel)
                    (if match_input then kNoLabel else 0) One sb in
  let impl := MatchArc s matchera sa loop match_input impl in
  let impl :=
    foldl (fun impl arc => MatchArc s matchera sa arc match_input impl)
          impl (Arcs fstb sb) in
  set_cache (SetArcs s) impl.

(** [ComposeFstImpl::MatchInput] *)
Definition MatchInput (s1 s2 : Z) (impl : Impl) : bool * Impl :=
  match match_type_ impl with
  | MATCH_INPUT => (true, impl)
  | MATCH_OUTPUT => (false, impl)
  | _ =>
      let priority1 := Priority matcher1_ s1 in
      let priority2 := Priority matcher2_ s2 in
      if bool_decide (priority1 = kRequirePriority) &&
         bool_decide (priority2 = kRequirePriority)
      then (true, set_properties (SetProperties kError kError) impl)
      else if bool_decide (priority1 = kRequirePriority) then (false, impl)
      else if bool_decide (priority2 = kRequirePriority) then (true, impl)
      else (bool_decide (priority1 <= priority2), impl)
  end.

(** [ComposeFstImpl::Expand] *)
Definition Expand (s : Z) (impl : Impl) : option Impl :=
  match Tuple (state_table_ impl) s with
  | None => None
  | Some (s1, s2, fs) =>
      let impl := filter_SetState (s1, s2, fs) impl in
      let '(match_input, impl) := MatchInput s1 s2 impl in
      Some (if match_input
            then OrderedExpand s s2 fst1_ s1 matcher2_ true impl
            else OrderedExpand s s1 fst2_ s2 matcher1_ false impl)
  end.

(** [ComposeFstImpl::ComputeStart] *)
Definition ComputeStart (impl : Impl) : Z * Impl :=
  let s1 := Start fst1_ in
  if bool_decide (s1 = kNoStateId) then (kNoStateId, impl)
  else
    let s2 := Start fst2_ in
    if bool_decide (s2 = kNoStateId) then (kNoStateId, impl)
    else
      let '(id, tbl) := FindState (state_table_ impl) (s1, s2, FStart filter_) in
      (id, set_state_table tbl impl).

(** [ComposeFstImpl::ComputeFinal], with the calls it makes. *)
Definition ComputeFinal (s : Z) (impl : Impl)
  : option (W * list (Call W FS) * Impl) :=
  match Tuple (state_table_ impl) s with
  | None => None
  | Some (s1, s2, fs) =>
      let final1 := MFinal matcher1_ s1 in
      if bool_decide (final1 = Zero)
      then Some (final1, [CallFinal1 s1], impl)
      else
        let final2 := MFinal matcher2_ s2 in
        if bool_decide (final2 = Zero)
        then Some (final2, [CallFinal1 s1; CallFinal2 s2], impl)
        else
          let impl := filter_SetState (s1, s2, fs) impl in
          let '(final1', final2') :=
            FilterFinal filter_ (filter_state_ impl) final1 final2 in
          Some (Times final1' final2',
                [CallFinal1 s1; CallFinal2 s2; CallSetState (s1, s2, fs);
                 CallFilterFinal final1 final2],
                impl)
  end.

(** [ComposeFstImplBase::Final] *)
Definition ImplFinal (s : Z) (impl : Impl) : option (W * Impl) :=
  if HasFinal s (cache_store_ impl)
  then w ← cs_final (GetMutableState s (cache_store_ impl)); Some (w, impl)
  else
    '(w, _, impl) ← ComputeFinal s impl;
    Some (w, set_cache (SetFinal s w) impl).

(** [ComposeFstImplBase::NumArcs] and [InitArcIterator]: the arcs of [s],
    expanded on first access. *)
Definition ImplArcs (s : Z) (impl : Impl) : option (list (Arc W) * Impl) :=
  if HasArcs s (cache_store_ impl)
  then Some (CachedArcs s (cache_store_ impl), impl)
  else
    impl ← Expand s impl;
    Some (CachedArcs s (cache_store_ impl), impl).

End Compose.

(** ** The mutable automaton store ([fst/mutable-fst.h], [fst/vector-fst.h]) *)

Record VectorState (W : Type) := mkState {
  final : W;
  arcs : list (Arc W);
}.
Arguments mkState {W} _ _.
Arguments final {W} _.
Arguments arcs {W} _.

(** Modelled from the spec: the mutable store of fst/vector-fst.h, which
    is missing: an indexed state table with the arcs of each state in
    insertion order, the start state or [kNoStateId], the two optional
    symbol tables and the property word. *)
Record MutableFst (W : Type) := mkMutableFst {
  start : Z;
  states : list (VectorState W);
  isymbols : option SymbolTable.t;
  osymbols : option SymbolTable.t;
  properties : Z;
}.
Arguments mkMutableFst {W} _ _ _ _ _.
Arguments start {W} _.
Arguments states {W} _.
Arguments isymbols {W} _.
Arguments osymbols {W} _.
Arguments properties {W} _.

Section Store.

Context {W : Type} `{Weight W}.

Definition NumStates (fst : MutableFst W) : Z := Z.of_nat (length (states fst)).

Definition GetState (fst : MutableFst W) (s : Z) : option (VectorState W) :=
  if bool_decide (0 <= s) then states fst !! Z.to_nat s else None.

(** [Final(s)] and the arcs of [s]; the store is indexed unchecked in the
    source, a state outside it reads here as non-final and without arcs. *)
Definition StateFinal (fst : MutableFst W) (s : Z) : W :=
  match GetState fst s with Some st => final st | None => Zero end.

Definition StateArcs (fst : MutableFst W) (s : Z) : list (Arc W) :=
  match GetState fst s with Some st => arcs st | None => [] end.

Definition is_unit_weight (w : W) : bool :=
  bool_decide (w = One) || bool_decide (w = Zero).

(** Modelled from the spec: the property test of fst/test-properties.h,
    which is missing; of the properties it computes, only the pair
    weighted/unweighted is modelled: an automaton is unweighted when every
    arc weight and final weight is One or Zero. *)
Definition TestWeighted (fst : MutableFst W) : Z :=
  if forallb (fun st => is_unit_weight (final st) &&
                        forallb (fun a => is_unit_weight (weight a)) (arcs st))
             (states fst)
  then kUnweighted else kWeighted.

(** [Properties(mask, test)] *)
Definition StoreProperties (fst : MutableFst W) (mask : Z) (test : bool) : Z :=
  let known := properties fst in
  Z.land (if test then Z.lor known (TestWeighted fst) else known) mask.

(** The store seen through the query interface. *)
Definition as_Fst (fst : MutableFst W) : Fst W :=
  mkFst (start fst) (StateFinal fst) (StateArcs fst) (StoreProperties fst)
        (isymbols fst) (osymbols fst).

Definition SetInputSymbols (isyms : option SymbolTable.t) (fst : MutableFst W)
  : MutableFst W :=
  mkMutableFst (start fst) (states fst) isyms (osymbols fst) (properties fst).

Definition SetOutputSymbols (osyms : option SymbolTable.t) (fst : MutableFst W)
  : MutableFst W :=
  mkMutableFst (start fst) (states fst) (isymbols fst) osyms (properties fst).

Definition StoreSetProperties (props mask : Z) (fst : MutableFst W)
  : MutableFst W :=
  mkMutableFst (start fst) (states fst) (isymbols fst) (osymbols fst)
               (SetProperties props mask (properties fst)).

(** The new id of every state when the states of [dstates] are deleted:
    [kNoStateId] for a deleted state, else the number of states kept
    before it. *)
Fixpoint newid_from (dstates : list Z) (s : Z) (nstates : Z) (n : nat) : list Z :=
  match n with
  | O => []
  | S n' =>
      if bool_decide (s ∈ dstates)
      then kNoStateId :: newid_from dstates (s + 1) nstates n'
      else nstates :: newid_from dstates (s + 1) (nstates + 1) n'
  end.

Definition newid (fst : MutableFst W) (dstates : list Z) : list Z :=
  newid_from dstates 0 0 (length (states fst)).

Definition newid_of (ids : list Z) (s : Z) : Z :=
  if bool_decide (0 <= s) then default kNoStateId (ids !! Z.to_nat s)
  else kNoStateId.

Definition renumber_arcs (ids : list Z) (l : list (Arc W)) : list (Arc W) :=
  omap (fun a =>
          let t := newid_of ids (nextstate a) in
          if bool_decide (t ≠ kNoStateId)
          then Some (mkArc (ilabel a) (olabel a) (weight a) t)
          else None) l.

Fixpoint keep_states (ids : list Z) (l : list (VectorState W))
  : list (VectorState W) :=
  match ids, l with
  | id :: ids', st :: l' =>
      if bool_decide (id ≠ kNoStateId) then st :: keep_states ids' l'
      else keep_states ids' l'
  | _, _ => []
  end.

(** Modelled from the spec: [DeleteStates(dstates)] of fst/vector-fst.h,
    which is missing: the states of [dstates] are removed, the remaining
    states are renumbered densely in their order, the arcs into a removed
    state are removed and the others follow the renumbering, as does the
    start state (none when it was removed). *)
Definition DeleteStates (dstates : list Z) (fst : MutableFst W) : MutableFst W :=
  let ids := newid fst dstates in
  let kept := keep_states ids (states fst) in
  mkMutableFst
    (if bool_decide (start fst ≠ kNoStateId) then newid_of ids (start fst)
     else kNoStateId)
    (map (fun st => mkState (final st) (renumber_arcs ids (arcs st))) kept)
    (isymbols fst) (osymbols fst) (properties fst).

End Store.

(** ** Inversion ([fst/invert.h]) *)

Inductive MapFinalAction :=
  MAP_NO_SUPERFINAL | MAP_ALLOW_SUPERFINAL | MAP_REQUIRE_SUPERFINAL.

Inductive MapSymbolsAction :=
  MAP_CLEAR_SYMBOLS | MAP_COPY_SYMBOLS | MAP_NOOP_SYMBOLS.

(** The arc mapper concept of [fst/arc-map.h]. *)
Record ArcMapper (W : Type) := mkMapper {
  map_arc : Arc W → Arc W;
  FinalAction : MapFinalAction;
  InputSymbolsAction : MapSymbolsAction;
  OutputSymbolsAction : MapSymbolsAction;
  MapperProperties : Z → Z;
}.
Arguments mkMapper {W} _ _ _ _ _.
Arguments map_arc {W} _ _.
Arguments FinalAction {W} _.
Arguments InputSymbolsAction {W} _.
Arguments OutputSymbolsAction {W} _.
Arguments MapperProperties {W} _ _.

Section Invert.

Context {W : Type} `{Weight W}.

(** [InvertProperties] of properties.cc and the mask [kFstProperties] of
    properties.h are missing: parameters. *)
Variable InvertProperties : Z → Z.
Variable kFstProperties : Z.

(** [InvertMapper] *)
Definition InvertMapper : ArcMapper W :=
  mkMapper (fun arc => mkArc (olabel arc) (ilabel arc) (weight arc) (nextstate arc))
           MAP_NO_SUPERFINAL MAP_CLEAR_SYMBOLS MAP_CLEAR_SYMBOLS
           InvertProperties.

(** Modelled from the spec: [ArcMap(fst, mapper)] of fst/arc-map.h, which
    is missing, for a mapper whose final action is [MAP_NO_SUPERFINAL] (the
    other final actions add a superfinal state and are not modelled: [None]):
    the symbol tables are cleared as the mapper's symbol actions say; then,
    as in OpenFst, an automaton without a start state is left as it is;
    else every arc is replaced by its image, the final weight of a state by
    the weight of the image of the arc <0, 0, final, kNoStateId>, whose
    labels must stay 0 (else the error property is set), and the property
    word follows the mapper. *)
Definition ArcMap (mapper : ArcMapper W) (fst : MutableFst W)
  : option (MutableFst W) :=
  match FinalAction mapper with
  | MAP_NO_SUPERFINAL =>
      let isyms :=
        match InputSymbolsAction mapper with
        | MAP_CLEAR_SYMBOLS => None | _ => isymbols fst end in
      let osyms :=
        match OutputSymbolsAction mapper with
        | MAP_CLEAR_SYMBOLS => None | _ => osymbols fst end in
      if bool_decide (start fst = kNoStateId) then
        Some (mkMutableFst (start fst) (states fst) isyms osyms
                           (properties fst))
      else
        let final_arc st := map_arc mapper (mkArc 0 0 (final st) kNoStateId) in
        let bad_final st :=
          bool_decide (ilabel (final_arc st) ≠ 0 ∨ olabel (final_arc st) ≠ 0) in
        let props := Z.land (properties fst) kFstProperties in
        let props' := SetProperties (MapperProperties mapper props)
                                    kFstProperties (properties fst) in
        Some (mkMutableFst
                (start fst)
                (map (fun st => mkState (weight (final_arc st))
                                        (map (map_arc mapper) (arcs st)))
                     (states fst))
                isyms osyms
                (if existsb bad_final (states fst)
                 then SetProperties kError kError props' else props'))
  | _ => None
  end.

(** [Invert(MutableFst<Arc> *fst)] *)
Definition Invert (fst : MutableFst W) : option (MutableFst W) :=
  let input := SymbolTable.Copy <$> isymbols fst in
  let output := SymbolTable.Copy <$> osymbols fst in
  fst ← ArcMap InvertMapper fst;
  Some (SetOutputSymbols input (SetInputSymbols output fst)).

End Invert.

(** ** Connect ([fst/connect.h]) *)

(** [fst/properties.h] *)
Definition kCyclic : Z := 17179869184.             (* 0x0000000400000000 *)
Definition kAcyclic : Z := 34359738368.            (* 0x0000000800000000 *)
Definition kInitialCyclic : Z := 68719476736.      (* 0x0000001000000000 *)
Definition kInitialAcyclic : Z := 137438953472.    (* 0x0000002000000000 *)
Definition kAccessible : Z := 1099511627776.       (* 0x0000010000000000 *)
Definition kNotAccessible : Z := 2199023255552.    (* 0x0000020000000000 *)
Definition kCoAccessible : Z := 4398046511104.     (* 0x0000040000000000 *)
Definition kNotCoAccessible : Z := 8796093022208.  (* 0x0000080000000000 *)

(** Vectors indexed by a state id.  The source indexes them unchecked;
    here a read outside the vector gives the value [d] and a write outside
    it does nothing. *)
Definition vget {A : Type} (d : A) (v : list A) (i : Z) : A :=
  if bool_decide (0 <= i) then default d (v !! Z.to_nat i) else d.

Definition vset {A : Type} (v : list A) (i : Z) (x : A) : list A :=
  if bool_decide (0 <= i) then <[Z.to_nat i := x]> v else v.

(** [while (v.size() <= s) v.push_back(d)], for a vector of size [size] *)
Definition grow {A : Type} (size : nat) (s : Z) (d : A) (v : list A) : list A :=
  v ++ replicate (Z.to_nat s + 1 - size) d.

(** [SccVisitor] as [Connect] builds it: [scc_] is null, [access_] and
    [coaccess_] are the caller's vectors.  [scc_stack_] is kept with its
    back first. *)
Record SccVisitor := mkScc {
  access_ : list bool;
  coaccess_ : list bool;
  props_ : Z;
  start_ : Z;
  nstates_ : Z;
  nscc_ : Z;
  dfnumber_ : list Z;
  lowlink_ : list Z;
  onstack_ : list bool;
  scc_stack_ : list Z;
}.

Inductive Color := kDfsWhite | kDfsGrey | kDfsBlack.

#[global] Instance Color_eq_dec : EqDecision Color.
Proof. solve_decision. Defined.

(** The traversal state: the visitor and the colour of every state. *)
Record DfsState := mkDfs {
  visitor : SccVisitor;
  state_color : list Color;
}.

(** A left fold that stops at the first failure. *)
Fixpoint fold_opt {A B : Type} (f : A → B → option A) (a : A) (l : list B)
  : option A :=
  match l with
  | [] => Some a
  | x :: l' => match f a x with Some a' => fold_opt f a' l' | None => None end
  end.

Section Connect.

Context {W : Type} `{Weight W}.

(** [SccVisitor::InitVisit] *)
Definition InitVisit (fst : MutableFst W) (props : Z) : SccVisitor :=
  let props :=
    Z.lor props (Z.lor kAcyclic (Z.lor kInitialAcyclic
                   (Z.lor kAccessible kCoAccessible))) in
  let props :=
    Z.land props (Z.lnot (Z.lor kCyclic (Z.lor kInitialCyclic
                            (Z.lor kNotAccessible kNotCoAccessible)))) in
  mkScc [] [] props (start fst) 0 0 [] [] [] [].

(** [SccVisitor::InitState] *)
Definition InitState (s root : Z) (v : SccVisitor) : SccVisitor :=
  let scc_stack := s :: scc_stack_ v in
  let size := length (dfnumber_ v) in
  let access := grow size s false (access_ v) in
  let coaccess := grow size s false (coaccess_ v) in
  let dfnumber := grow size s (-1) (dfnumber_ v) in
  let lowlink := grow size s (-1) (lowlink_ v) in
  let onstack := grow size s false (onstack_ v) in
  let dfnumber := vset dfnumber s (nstates_ v) in
  let lowlink := vset lowlink s (nstates_ v) in
  let onstack := vset onstack s true in
  let '(access, props) :=
    if bool_decide (root = start_ v)
    then (vset access s true, props_ v)
    else (vset access s false,
          Z.land (Z.lor (props_ v) kNotAccessible) (Z.lnot kAccessible)) in
  mkScc access coaccess props (start_ v) (nstates_ v + 1) (nscc_ v)
        dfnumber lowlink onstack scc_stack.

(** [SccVisitor::BackArc] *)
Definition BackArc (s : Z) (arc : Arc W) (v : SccVisitor) : SccVisitor :=
  let t := nextstate arc in
  let lowlink :=
    if bool_decide (vget (-1) (dfnumber_ v) t < vget (-1) (lowlink_ v) s)
    then vset (lowlink_ v) s (vget (-1) (dfnumber_ v) t) else lowlink_ v in
  let coaccess :=
    if vget false (coaccess_ v) t then vset (coaccess_ v) s true
    else coaccess_ v in
  let props := Z.land (Z.lor (props_ v) kCyclic) (Z.lnot kAcyclic) in
  let props :=
    if bool_decide (nextstate arc = start_ v)
    then Z.land (Z.lor props kInitialCyclic) (Z.lnot kInitialAcyclic)
    else props in
  mkScc (access_ v) coaccess props (start_ v) (nstates_ v) (nscc_ v)
        (dfnumber_ v) lowlink (onstack_ v) (scc_stack_ v).

(** [SccVisitor::ForwardOrCrossArc] *)
Definition ForwardOrCrossArc (s : Z) (arc : Arc W) (v : SccVisitor) : SccVisitor :=
  let t := nextstate arc in
  let lowlink :=
    if bool_decide (vget (-1) (dfnumber_ v) t < vget (-1) (dfnumber_ v) s) &&
       vget false (onstack_ v) t &&
       bool_decide (vget (-1) (dfnumber_ v) t < vget (-1) (lowlink_ v) s)
    then vset (lowlink_ v) s (vget (-1) (dfnumber_ v) t) else lowlink_ v in
  let coaccess :=
    if vget false (coaccess_ v) t then vset (coaccess_ v) s true
    else coaccess_ v in
  mkScc (access_ v) coaccess (props_ v) (start_ v) (nstates_ v) (nscc_ v)
        (dfnumber_ v) lowlink (onstack_ v) (scc_stack_ v).

(** The first loop of [FinishState]: from the back of the stack down to
    [s], is some state coaccessible? *)
Fixpoint scc_coaccess_of (s : Z) (coaccess : list bool) (stack : list Z) : bool :=
  match stack with
  | [] => false
  | t :: rest =>
      vget false coaccess t ||
      (if bool_decide (s = t) then false else scc_coaccess_of s coaccess rest)
  end.

(** The second loop of [FinishState]: the states from the back of the
    stack down to [s] are popped. *)
Fixpoint pop_scc (s : Z) (scc_coaccess : bool) (stack : list Z)
    (coaccess onstack : list bool) : list Z * list bool * list bool :=
  match stack with
  | [] => ([], coaccess, onstack)
  | t :: rest =>
      let coaccess := if scc_coaccess then vset coaccess t true else coaccess in
      let onstack := vset onstack t false in
      if bool_decide (s = t) then (rest, coaccess, onstack)
      else pop_scc s scc_coaccess rest coaccess onstack
  end.

(** [SccVisitor::FinishState] *)
Definition FinishState (fst : MutableFst W) (s p : Z) (v : SccVisitor)
  : SccVisitor :=
  let coaccess :=
    if bool_decide (StateFinal fst s ≠ Zero) then vset (coaccess_ v) s true
    else coaccess_ v in
  let '(stack, coaccess, onstack, props, nscc) :=
    if bool_decide (vget (-1) (dfnumber_ v) s = vget (-1) (lowlink_ v) s) then
      let scc_coaccess := scc_coaccess_of s coaccess (scc_stack_ v) in
      let '(stack, coaccess, onstack) :=
        pop_scc s scc_coaccess (scc_stack_ v) coaccess (onstack_ v) in
      let props :=
        if negb scc_coaccess
        then Z.land (Z.lor (props_ v) kNotCoAccessible) (Z.lnot kCoAccessible)
        else props_ v in
      (stack, coaccess, onstack, props, nscc_ v + 1)
    else (scc_stack_ v, coaccess, onstack_ v, props_ v, nscc_ v) in
  let '(coaccess, lowlink) :=
    if bool_decide (p ≠ kNoStateId) then
      (if vget false coaccess s then vset coaccess p true else coaccess,
       if bool_decide (vget (-1) (lowlink_ v) s < vget (-1) (lowlink_ v) p)
       then vset (lowlink_ v) p (vget (-1) (lowlink_ v) s) else lowlink_ v)
    else (coaccess, lowlink_ v) in
  mkScc (access_ v) coaccess props (start_ v) (nstates_ v) nscc
        (dfnumber_ v) lowlink onstack stack.

(** [SccVisitor::FinishVisit], [scc_] being null *)
Definition FinishVisit (v : SccVisitor) : SccVisitor := v.

Definition color_of (d : DfsState) (s : Z) : Color :=
  vget kDfsWhite (state_color d) s.

Definition set_color (s : Z) (c : Color) (d : DfsState) : DfsState :=
  mkDfs (visitor d) (vset (state_color d) s c).

Definition with_visitor (f : SccVisitor → SccVisitor) (d : DfsState) : DfsState :=
  mkDfs (f (visitor d)) (state_color d).

(** Modelled from the spec: the depth-first traversal [DfsVisit] of
    fst/dfs-visit.h, which is missing, as far as it concerns one tree of
    the forest: [s] is discovered (grey, [InitState]); its arcs are taken in
    order, an arc to an undiscovered state being a tree arc followed at
    once, an arc to a state under visit a back arc, and an arc to a
    finished state a forward or cross arc; then [s] is finished (black,
    [FinishState] with the parent [p] in the tree, or [kNoStateId] at the
    root).  [fuel] bounds the depth of the recursion. *)
Fixpoint DfsFrom (fuel : nat) (fst : MutableFst W) (root s p : Z) (d : DfsState)
  : option DfsState :=
  match fuel with
  | O => None
  | S fuel =>
      let d := with_visitor (InitState s root) (set_color s kDfsGrey d) in
      match
        fold_opt
          (fun d arc =>
             match color_of d (nextstate arc) with
             | kDfsWhite => DfsFrom fuel fst root (nextstate arc) s d
             | kDfsGrey => Some (with_visitor (BackArc s arc) d)
             | kDfsBlack => Some (with_visitor (ForwardOrCrossArc s arc) d)
             end)
          d (StateArcs fst s)
      with
      | Some d => Some (with_visitor (FinishState fst s p) (set_color s kDfsBlack d))
      | None => None
      end
  end.

(** The roots of the forest: the start state, then every state in
    increasing order (a state already discovered is skipped). *)
Definition dfs_roots (fst : MutableFst W) : list Z :=
  start fst :: map Z.of_nat (seq 0 (length (states fst))).

(** Modelled from the spec: [DfsVisit(fst, visitor)] of fst/dfs-visit.h,
    which is missing: a single depth-first traversal of the whole
    automaton, the first tree rooted at the start state and the others at
    the states not yet discovered, in increasing order.  An automaton
    without a start state ([Start()] is [kNoStateId]) is not visited at
    all, as in OpenFst: [FinishVisit] follows [InitVisit] at once. *)
Definition DfsVisit (fst : MutableFst W) (props : Z) : option SccVisitor :=
  let n := length (states fst) in
  let d0 := mkDfs (InitVisit fst props) (replicate n kDfsWhite) in
  if bool_decide (start fst = kNoStateId) then
    Some (FinishVisit (InitVisit fst props))
  else
    match
      fold_opt
        (fun d root =>
           match color_of d root with
           | kDfsWhite => DfsFrom (S n) fst root root kNoStateId d
           | _ => Some d
           end)
        d0 (dfs_roots fst)
    with
    | Some d => Some (FinishVisit (visitor d))
    | None => None
    end.

(** [Connect(MutableFst<Arc> *fst)] *)
Definition Connect (fst : MutableFst W) : option (MutableFst W) :=
  match DfsVisit fst 0 with
  | None => None
  | Some v =>
      let access := access_ v in
      let coaccess := coaccess_ v in
      let dstates :=
        filter (fun s => negb (vget false access s) || negb (vget false coaccess s))
               (map Z.of_nat (seq 0 (length access))) in
      Some (StoreSetProperties (Z.lor kAccessible kCoAccessible)
                               (Z.lor kAccessible kCoAccessible)
                               (DeleteStates dstates fst))
  end.

End Connect.

(** ** More of [fst/compose.h]: the property query and the matcher of a
    composition *)

Section ComposeMore.

Context {W : Type} `{Weight W} {FS : Type} `{EqDecision FS}.

Variable StateTableError : list (StateTuple FS) → bool.
Variable filter_ : ComposeFilter W FS.
Variable matcher1_ matcher2_ : Matcher W.

(** Modelled from the spec: [FstImpl::Properties(mask)] of fst/fst.h,
    which is missing: the subset of the requested properties that are
    known. *)
Definition FstImplProperties (mask : Z) (impl : ComposeFstImpl W FS) : Z :=
  Z.land (properties_ impl) mask.

(** [ComposeFstImpl::Properties(uint64 mask)]: the error of an operand, a
    matcher, the filter or the state table becomes the error of the
    composition.  The condition is the one of the source, with its bitwise
    or between the tests of [matcher2_] and of [filter_]. *)
Definition ImplProperties (mask : Z) (impl : ComposeFstImpl W FS)
  : Z * ComposeFstImpl W FS :=
  let impl :=
    if nonzero (Z.land mask kError) &&
       (nonzero (Properties (fst1_ matcher1_) kError false) ||
        nonzero (Properties (fst2_ matcher2_) kError false) ||
        nonzero (Z.land (MProperties matcher1_ 0) kError) ||
        nonzero (Z.lor (Z.land (MProperties matcher2_ 0) kError)
                       (Z.land (FProperties filter_ 0) kError)) ||
        StateTableError (state_table_ impl))
    then mkImpl (SetProperties kError kError (properties_ impl))
                (isymbols_ impl) (osymbols_ impl) (cache_store_ impl)
                (state_table_ impl) (filter_state_ impl) (match_type_ impl)
    else impl in
  (FstImplProperties mask impl, impl).

End ComposeMore.

(** [ComposeFstMatcher]: the matcher of a composition, with copies of the
    two matchers. *)
Record ComposeFstMatcher (W : Type) := mkComposeFstMatcher {
  cm_s_ : Z;
  cm_match_type_ : MatchType;
  cm_matcher1_ : Matcher W;
  cm_matcher2_ : Matcher W;
  cm_current_loop_ : bool;
  cm_loop_ : Arc W;
  cm_error_ : bool;
}.
Arguments mkComposeFstMatcher {W} _ _ _ _ _ _ _.
Arguments cm_s_ {W} _.
Arguments cm_match_type_ {W} _.
Arguments cm_matcher1_ {W} _.
Arguments cm_matcher2_ {W} _.
Arguments cm_current_loop_ {W} _.
Arguments cm_loop_ {W} _.
Arguments cm_error_ {W} _.

Section ComposeMatcher.

Context {W : Type} `{Weight W}.

(** [std::swap(loop_.ilabel, loop_.olabel)] *)
Definition swap_labels (a : Arc W) : Arc W :=
  mkArc (olabel a) (ilabel a) (weight a) (nextstate a).

(** The constructor [ComposeFstMatcher(fst, impl, match_type)]; a copy of
    a matcher is the matcher. *)
Definition new_ComposeFstMatcher (matcher1 matcher2 : Matcher W)
    (match_type : MatchType) : ComposeFstMatcher W :=
  let loop := mkArc kNoLabel 0 One kNoStateId in
  mkComposeFstMatcher kNoStateId match_type matcher1 matcher2 false
    (if bool_decide (match_type = MATCH_OUTPUT) then swap_labels loop else loop)
    false.

(** The copy constructor [ComposeFstMatcher(matcher, safe)] *)
Definition copy_ComposeFstMatcher (m : ComposeFstMatcher W) (safe : bool)
  : ComposeFstMatcher W :=
  let loop := mkArc kNoLabel 0 One kNoStateId in
  mkComposeFstMatcher kNoStateId (cm_match_type_ m)
    (cm_matcher1_ m) (cm_matcher2_ m) false
    (if bool_decide (cm_match_type_ m = MATCH_OUTPUT)
     then swap_labels loop else loop)
    (if safe then true else cm_error_ m).

(** [ComposeFstMatcher::Type(bool test)] *)
Definition ComposeFstMatcher_Type (m : ComposeFstMatcher W) (test : bool)
  : MatchType :=
  let type1 := MType (cm_matcher1_ m) test in
  let type2 := MType (cm_matcher2_ m) test in
  if bool_decide (type1 = MATCH_NONE) || bool_decide (type2 = MATCH_NONE)
  then MATCH_NONE
  else if (bool_decide (type1 = MATCH_UNKNOWN) &&
           bool_decide (type2 = MATCH_UNKNOWN)) ||
          (bool_decide (type1 = MATCH_UNKNOWN) &&
           bool_decide (type2 = cm_match_type_ m)) ||
          (bool_decide (type1 = cm_match_type_ m) &&
           bool_decide (type2 = MATCH_UNKNOWN))
  then MATCH_UNKNOWN
  else if bool_decide (type1 = cm_match_type_ m) &&
          bool_decide (type2 = cm_match_type_ m)
  then cm_match_type_ m
  else MATCH_NONE.

(** [ComposeFstMatcher::Properties(uint64 inprops)] *)
Definition ComposeFstMatcher_Properties (m : ComposeFstMatcher W) (inprops : Z)
  : Z :=
  if cm_error_ m then Z.lor inprops kError else inprops.

(** [ComposeFstImpl::InitMatcher(fst, match_type)]; [None] is the null
    pointer, which asks for the default matcher.  The masks of
    properties.h are parameters. *)
Definition InitMatcher {FS : Type} (kFstProperties : Z)
    (kILabelInvariantProperties kOLabelInvariantProperties : Z)
    (filter_ : ComposeFilter W FS) (matcher1_ matcher2_ : Matcher W)
    (match_type : MatchType) : option (ComposeFstMatcher W) :=
  let test_props :=
    if bool_decide (match_type = MATCH_INPUT)
    then Z.land kFstProperties (Z.lnot kILabelInvariantProperties)
    else Z.land kFstProperties (Z.lnot kOLabelInvariantProperties) in
  if bool_decide (MType matcher1_ false = match_type) &&
     bool_decide (MType matcher2_ false = match_type) &&
     bool_decide (FProperties filter_ test_props = test_props)
  then Some (new_ComposeFstMatcher matcher1_ matcher2_ match_type)
  else None.

End ComposeMatcher.

(** ** The visitor of the topological sort ([fst/topsort.h]) *)

Module TopOrderVisitor.

(** [order_] and [acyclic_] are the caller's vector and flag; [finish_]
    holds the states in finishing-time order. *)
Record t := mkTop {
  order_ : list Z;
  acyclic_ : bool;
  finish_ : list Z;
}.

(** Every callback returns whether the traversal goes on. *)

Definition InitVisit (v : t) : t := mkTop (order_ v) true [].

Definition InitState (s r : Z) (v : t) : t * bool := (v, true).

Definition TreeArc {W : Type} (s : Z) (arc : Arc W) (v : t) : t * bool :=
  (v, true).

(** [BackArc] clears the flag and returns it: the traversal stops. *)
Definition BackArc {W : Type} (s : Z) (arc : Arc W) (v : t) : t * bool :=
  (mkTop (order_ v) false (finish_ v), false).

Definition ForwardOrCrossArc {W : Type} (s : Z) (arc : Arc W) (v : t)
  : t * bool := (v, true).

Definition FinishState (s p : Z) (v : t) : t :=
  mkTop (order_ v) (acyclic_ v) (finish_ v ++ [s]).

(** [FinishVisit]: the two loops over [finish_], then [finish_.reset()]. *)
Definition FinishVisit (v : t) : t :=
  if acyclic_ v then
    let size := length (finish_ v) in
    let order := replicate size kNoStateId in
    let order :=
      fold_left
        (fun order s =>
           vset order
                (vget kNoStateId (finish_ v) (Z.of_nat size - s - 1)) s)
        (map Z.of_nat (seq 0 size)) order in
    mkTop order (acyclic_ v) []
  else mkTop (order_ v) (acyclic_ v) [].

End TopOrderVisitor.

(** ** [SccVisitor] with the component numbers ([fst/connect.h]) *)

(** [SccVisitor] built with a vector [scc] for the component numbers
    besides [access], [coaccess] and [props]: the member [scc_], and the
    other members as before. *)
Record SccVisitorScc := mkSccScc {
  scc_ : list Z;
  visitor_ : SccVisitor;
}.

(** The traversal state: the visitor and the colour of every state. *)
Record DfsStateScc := mkDfsScc {
  visitor_scc : SccVisitorScc;
  state_color_scc : list Color;
}.

Section ConnectScc.

Context {W : Type} `{Weight W}.

(** [SccVisitor::InitVisit], with [scc_->clear()] *)
Definition InitVisitScc (fst : MutableFst W) (props : Z) : SccVisitorScc :=
  mkSccScc [] (InitVisit fst props).

(** [SccVisitor::InitState], with [scc_->push_back(-1)] in the loop that
    grows the vectors *)
Definition InitStateScc (s root : Z) (v : SccVisitorScc) : SccVisitorScc :=
  mkSccScc (grow (length (dfnumber_ (visitor_ v))) s (-1) (scc_ v))
           (InitState s root (visitor_ v)).

Definition BackArcScc (s : Z) (arc : Arc W) (v : SccVisitorScc)
  : SccVisitorScc :=
  mkSccScc (scc_ v) (BackArc s arc (visitor_ v)).

Definition ForwardOrCrossArcScc (s : Z) (arc : Arc W) (v : SccVisitorScc)
  : SccVisitorScc :=
  mkSccScc (scc_ v) (ForwardOrCrossArc s arc (visitor_ v)).

(** The second loop of [FinishState] on [scc_]: the states [t] from the
    back of the stack down to [s] get the number [nscc_]. *)
Fixpoint mark_scc (s nscc : Z) (stack : list Z) (scc : list Z) : list Z :=
  match stack with
  | [] => scc
  | t :: rest =>
      let scc := vset scc t nscc in
      if bool_decide (s = t) then scc else mark_scc s nscc rest scc
  end.

(** [SccVisitor::FinishState], with the numbering of a new component *)
Definition FinishStateScc (fst : MutableFst W) (s p : Z) (v : SccVisitorScc)
  : SccVisitorScc :=
  mkSccScc
    (if bool_decide (vget (-1) (dfnumber_ (visitor_ v)) s
                     = vget (-1) (lowlink_ (visitor_ v)) s)
     then mark_scc s (nscc_ (visitor_ v)) (scc_stack_ (visitor_ v)) (scc_ v)
     else scc_ v)
    (FinishState fst s p (visitor_ v)).

(** [SccVisitor::FinishVisit]: the numbers are reversed. *)
Definition FinishVisitScc (v : SccVisitorScc) : SccVisitorScc :=
  mkSccScc (map (fun c => nscc_ (visitor_ v) - 1 - c) (scc_ v))
           (FinishVisit (visitor_ v)).

Definition color_of_scc (d : DfsStateScc) (s : Z) : Color :=
  vget kDfsWhite (state_color_scc d) s.

Definition set_color_scc (s : Z) (c : Color) (d : DfsStateScc) : DfsStateScc :=
  mkDfsScc (visitor_scc d) (vset (state_color_scc d) s c).

Definition with_visitor_scc (f : SccVisitorScc → SccVisitorScc)
    (d : DfsStateScc) : DfsStateScc :=
  mkDfsScc (f (visitor_scc d)) (state_color_scc d).

(** Modelled from the spec: the depth-first traversal [DfsVisit] of
    fst/dfs-visit.h, which is missing, as far as it concerns one tree of
    the forest; it is [DfsFrom] with the callbacks of this visitor. *)
Fixpoint DfsFromScc (fuel : nat) (fst : MutableFst W) (root s p : Z)
    (d : DfsStateScc) : option DfsStateScc :=
  match fuel with
  | O => None
  | S fuel =>
      let d := with_visitor_scc (InitStateScc s root)
                 (set_color_scc s kDfsGrey d) in
      match
        fold_opt
          (fun d arc =>
             match color_of_scc d (nextstate arc) with
             | kDfsWhite => DfsFromScc fuel fst root (nextstate arc) s d
             | kDfsGrey => Some (with_visitor_scc (BackArcScc s arc) d)
             | kDfsBlack =>
                 Some (with_visitor_scc (ForwardOrCrossArcScc s arc) d)
             end)
          d (StateArcs fst s)
      with
      | Some d =>
          Some (with_visitor_scc (FinishStateScc fst s p)
                  (set_color_scc s kDfsBlack d))
      | None => None
      end
  end.

(** Modelled from the spec: [DfsVisit(fst, visitor)] of fst/dfs-visit.h,
    which is missing; it is [DfsVisit] with the callbacks of this
    visitor. *)
Definition DfsVisitScc (fst : MutableFst W) (props : Z)
  : option SccVisitorScc :=
  let n := length (states fst) in
  let d0 := mkDfsScc (InitVisitScc fst props) (replicate n kDfsWhite) in
  if bool_decide (start fst = kNoStateId) then
    Some (FinishVisitScc (InitVisitScc fst props))
  else
    match
      fold_opt
        (fun d root =>
           match color_of_scc d root with
           | kDfsWhite => DfsFromScc (S n) fst root root kNoStateId d
           | _ => Some d
           end)
        d0 (dfs_roots fst)
    with
    | Some d => Some (FinishVisitScc (visitor_scc d))
    | None => None
    end.

End ConnectScc.

(** ** Instances used in the examples *)

(** The tropical semiring over the integers: Plus is min, Times is +. *)
Inductive TropicalWeight := TropInfinity | Trop (z : Z).

#[global] Instance TropicalWeight_eq_dec : EqDecision TropicalWeight.
Proof. solve_decision. Defined.

Definition trop_plus (a b : TropicalWeight) : TropicalWeight :=
  match a, b with
  | TropInfinity, _ => b
  | _, TropInfinity => a
  | Trop x, Trop y => Trop (Z.min x y)
  end.

Definition trop_times (a b : TropicalWeight) : TropicalWeight :=
  match a, b with
  | Trop x, Trop y => Trop (x + y)
  | _, _ => TropInfinity
  end.

(** kSemiring | kCommutative | kIdempotent | kPath *)
#[global] Instance tropical : Weight TropicalWeight :=
  {| Zero := TropInfinity; One := Trop 0; Plus := trop_plus;
     Times := trop_times; WeightProperties := 31 |}.

(** The left string semiring: Plus is the longest common prefix, Times is
    concatenation; it is not commutative. *)
Inductive StringWeight := StrInfinity | Str (l : list Z).

#[global] Instance StringWeight_eq_dec : EqDecision StringWeight.
Proof. solve_decision. Defined.

Fixpoint common_prefix (l1 l2 : list Z) : list Z :=
  match l1, l2 with
  | x :: l1', y :: l2' => if bool_decide (x = y) then x :: common_prefix l1' l2' else []
  | _, _ => []
  end.

Definition str_plus (a b : StringWeight) : StringWeight :=
  match a, b with
  | StrInfinity, _ => b
  | _, StrInfinity => a
  | Str x, Str y => Str (common_prefix x y)
  end.

Definition str_times (a b : StringWeight) : StringWeight :=
  match a, b with
  | Str x, Str y => Str (x ++ y)
  | _, _ => StrInfinity
  end.

(** kLeftSemiring | kIdempotent *)
#[global] Instance left_string : Weight StringWeight :=
  {| Zero := StrInfinity; One := Str []; Plus := str_plus;
     Times := str_times; WeightProperties := 9 |}.

Section Fixtures.

Context {W : Type} `{Weight W}.

(** A filter that accepts every pair and rewrites nothing. *)
Definition accept_all_filter : ComposeFilter W bool :=
  mkFilter true false (fun _ a b => (a, b, true)) (fun _ w1 w2 => (w1, w2))
           (fun props => props).

(** A filter that accepts every pair and sets the input label of the
    left arc to 7. *)
Definition relabel_filter : ComposeFilter W bool :=
  mkFilter true false
           (fun _ a b => (mkArc 7 (olabel a) (weight a) (nextstate a), b, true))
           (fun _ w1 w2 => (w1, w2)) (fun props => props).

Definition match_label (mt : MatchType) (a : Arc W) : Z :=
  match mt with MATCH_INPUT => ilabel a | _ => olabel a end.

(** A matcher over a store, on the side [mt], with a given priority: the
    arcs found for a label are those of the state that carry it on the
    side matched, in their order; label 0 finds the implicit self-loop
    first, and [kNoLabel] finds the arcs labelled 0. *)
Definition store_matcher (fst : MutableFst W) (mt : MatchType)
    (priority : Z → Z) : Matcher W :=
  let loop s :=
    match mt with
    | MATCH_INPUT => mkArc kNoLabel 0 One s
    | _ => mkArc 0 kNoLabel One s
    end in
  let found s label :=
    (if bool_decide (label = 0) then [loop s] else []) ++
    filter (fun a => match_label mt a = (if bool_decide (label = kNoLabel) then 0 else label))
           (StateArcs fst s) in
  mkMatcher (as_Fst fst) (fun _ => mt) 0 (fun props => props) (StateFinal fst)
            priority
            (fun s label => bool_decide (found s label ≠ []))
            found.

(** The priority of [SortedMatcher]: the number of arcs of the state. *)
Definition num_arcs_priority (fst : MutableFst W) (s : Z) : Z :=
  Z.of_nat (length (StateArcs fst s)).

End Fixtures.

(** The masks of properties.h, for the examples. *)
Definition kFstProperties_value : Z := 281474976645127.   (* 0x0000ffffffff0007 *)

Definition test_checksum (tbl : SymbolTable.t) : string :=
  String.concat "," (SymbolTableImpl.dsm_symbols
                       (SymbolTableImpl.symbols_ (SymbolTable.impl_ tbl))).

(** Two one-state-to-many automata over the tropical semiring: both arcs
    of [left_fst] write 1, both arcs of [right_fst] read 1. *)
Definition left_fst : MutableFst TropicalWeight :=
  mkMutableFst 0
    [ mkState TropInfinity [mkArc 1 1 (Trop 1) 1; mkArc 2 1 (Trop 2) 2];
      mkState (Trop 0) []; mkState (Trop 0) [] ]
    None None 0.

Definition right_fst : MutableFst TropicalWeight :=
  mkMutableFst 0
    [ mkState TropInfinity [mkArc 1 5 (Trop 10) 1; mkArc 1 6 (Trop 20) 2];
      mkState (Trop 0) []; mkState (Trop 0) [] ]
    None None 0.

(** The composition of [left_fst] and [right_fst] with the given
    priorities, after its start state was computed. *)
Definition example_impl (m1 m2 : Matcher TropicalWeight)
  : ComposeFstImpl TropicalWeight bool :=
  (ComputeStart accept_all_filter m1 m2
     (CreateBase2 test_checksum true kFstProperties_value kFstProperties_value
                  (fun _ _ => 0) (fun _ => false) accept_all_filter m1 m2
                  (as_Fst left_fst) (as_Fst right_fst) [])).2.

Definition sorted_matcher1 : Matcher TropicalWeight :=
  store_matcher left_fst MATCH_OUTPUT (num_arcs_priority left_fst).
Definition sorted_matcher2 : Matcher TropicalWeight :=
  store_matcher right_fst MATCH_INPUT (num_arcs_priority right_fst).

(** [example_impl] with the sorted matchers, after its start state 0 was
    expanded: the state table then holds the tuples of the four states the
    arcs of the start state lead to. *)
Definition example_impl_expanded : ComposeFstImpl TropicalWeight bool :=
  default (example_impl sorted_matcher1 sorted_matcher2)
    (Expand accept_all_filter sorted_matcher1 sorted_matcher2 0
       (example_impl sorted_matcher1 sorted_matcher2)).

Definition require_matcher1 : Matcher TropicalWeight :=
  store_matcher left_fst MATCH_OUTPUT (fun _ => kRequirePriority).
Definition require_matcher2 : Matcher TropicalWeight :=
  store_matcher right_fst MATCH_INPUT (fun _ => kRequirePriority).

(** A symbol table with the symbols eps, a, b at the dense keys 0, 1, 2
    and c at the key 10. *)
Definition example_table : SymbolTable.t :=
  {| SymbolTable.impl_ :=
       {| SymbolTableImpl.name_ := "letters";
          SymbolTableImpl.available_key_ := 11;
          SymbolTableImpl.dense_key_limit_ := 3;
          SymbolTableImpl.symbols_ :=
            {| SymbolTableImpl.dsm_symbols := ["eps"; "a"; "b"; "c"] |};
          SymbolTableImpl.idx_key_ := [10];
          SymbolTableImpl.key_map_ := {[ 10 := 3 ]} |} |}.

(** An unweighted acceptor and a weighted one over the string semiring. *)
Definition unweighted_fst : MutableFst StringWeight :=
  mkMutableFst 0
    [ mkState StrInfinity [mkArc 1 1 (Str []) 1]; mkState (Str []) [] ]
    None None 0.

Definition weighted_fst : MutableFst StringWeight :=
  mkMutableFst 0
    [ mkState StrInfinity [mkArc 1 1 (Str [5]) 1]; mkState (Str []) [] ]
    None None 0.

(** [left_fst] with an output symbol table, [right_fst] has no input
    symbol table. *)
Definition left_fst_with_symbols : MutableFst TropicalWeight :=
  SetOutputSymbols (Some example_table) left_fst.

(** A four-state automaton with a dead-end branch: from the start state
    0 an arc leads to the final state 3, and another to the branch 1, 2,
    from which no final state is reached. *)
Definition dead_end_fst : MutableFst TropicalWeight :=
  mkMutableFst 0
    [ mkState TropInfinity [mkArc 1 1 (Trop 0) 1; mkArc 2 2 (Trop 1) 3];
      mkState TropInfinity [mkArc 3 3 (Trop 0) 2];
      mkState TropInfinity [];
      mkState (Trop 0) [] ]
    None None 0.


(** A matcher on the output side of [left_fst_with_symbols]. *)
Definition symbols_matcher1 : Matcher TropicalWeight :=
  store_matcher left_fst_with_symbols MATCH_OUTPUT
    (num_arcs_priority left_fst_with_symbols).

(** * Specification *)

(** The condition under which [InitBase] reports a symbol mismatch. *)
Definition symbols_mismatch (LabeledCheckSum : SymbolTable.t → string)
    (flag : bool) (syms1 syms2 : option SymbolTable.t) : bool :=
  flag &&
  match syms1, syms2 with
  | Some t1, Some t2 => bool_decide (LabeledCheckSum t1 ≠ LabeledCheckSum t2)
  | _, _ => false
  end.

(** An operand is weighted when the test of [kUnweighted] fails. *)
Definition is_weighted {W : Type} (fst : Fst W) : bool :=
  negb (nonzero (Z.land (Properties fst kUnweighted true) kUnweighted)).

Definition is_commutative (W : Type) `{Weight W} : bool :=
  nonzero (Z.land WeightProperties kCommutative).

Section ComposeSpec.

Context {W : Type} `{Weight W} {FS : Type} `{EqDecision FS}.
Variable filter_ : ComposeFilter W FS.

(** The arcs a matcher yields for a label at a state. *)
Definition matches (matchera : Matcher W) (sa label : Z) : list (Arc W) :=
  if MFind matchera sa label then MValues matchera sa label else [].

(** The synthetic non-consuming self-loop on the driven side. *)
Definition synthetic_loop (match_input : bool) (sb : Z) : Arc W :=
  mkArc (if match_input then 0 else kNoLabel)
        (if match_input then kNoLabel else 0) One sb.

(** The pairs (arc of the left operand, arc of the right operand) that are
    submitted to the filter for one driven arc, in matcher order.  With
    [match_input] the driven arc is on the left and the matcher is the
    right operand's. *)
Definition submitted (match_input : bool) (matchera : Matcher W) (sa : Z)
    (arc : Arc W) : list (Arc W * Arc W) :=
  map (fun arca => if match_input then (arc, arca) else (arca, arc))
      (matches matchera sa (if match_input then olabel arc else ilabel arc)).

(** The pair as the filter leaves it and the successor filter state, when
    the filter accepts the pair. *)
Definition accepted (pos : StateTuple FS) (p : Arc W * Arc W)
  : option (Arc W * Arc W * FS) :=
  let '(a, b, f) := FilterArc filter_ pos p.1 p.2 in
  if bool_decide (f ≠ NoState filter_) then Some (a, b, f) else None.

(** The composition arc [o] is the one of the accepted pair [p]: left
    input label, right output label, product of the weights, and the id of
    the tuple of the next states in the table [tbl]. *)
Definition emitted_as (tbl : list (StateTuple FS))
    (p : Arc W * Arc W * FS) (o : Arc W) : Prop :=
  ilabel o = ilabel p.1.1 ∧
  olabel o = olabel p.1.2 ∧
  weight o = Times (weight p.1.1) (weight p.1.2) ∧
  Tuple tbl (nextstate o) = Some (nextstate p.1.1, nextstate p.1.2, p.2).

(** [impl'] is [impl] with the arcs of the accepted pairs [ps] pushed at
    state [s], in order; nothing else but the state table, which grew, has
    changed. *)
Definition pushes (s : Z) (impl impl' : ComposeFstImpl W FS)
    (ps : list (Arc W * Arc W * FS)) (new : list (Arc W)) : Prop :=
  CachedArcs s (cache_store_ impl') = CachedArcs s (cache_store_ impl) ++ new ∧
  Forall2 (emitted_as (state_table_ impl')) ps new ∧
  state_table_ impl `prefix_of` state_table_ impl' ∧
  filter_state_ impl' = filter_state_ impl ∧
  properties_ impl' = properties_ impl ∧
  match_type_ impl' = match_type_ impl ∧
  HasArcs s (cache_store_ impl') = HasArcs s (cache_store_ impl).

(** The pairs submitted when the left operand is driven (its arcs are
    iterated and the right operand's matcher is queried with their output
    labels), and when the right operand is driven. *)
Definition left_driven_pairs (matcher2 : Matcher W) (fst1 : Fst W) (s1 s2 : Z)
  : list (Arc W * Arc W) :=
  (synthetic_loop true s1 :: Arcs fst1 s1) ≫=
    (fun a => map (fun b => (a, b)) (matches matcher2 s2 (olabel a))).


End ComposeSpec.

(** ** Accessibility, coaccessibility and the invariants of the traversal *)

Section ConnectSpec.

Context {W : Type} `{Weight W}.
Variable fst : MutableFst W.

Definition valid_state (s : Z) : Prop := 0 <= s < NumStates fst.

(** [t] is the next state of an arc of [s]. *)
Definition edge (s t : Z) : Prop :=
  ∃ a, a ∈ StateArcs fst s ∧ nextstate a = t.

Definition reach : Z → Z → Prop := rtc edge.

Definition is_final (s : Z) : Prop := StateFinal fst s ≠ Zero.

(** Forward-reachable from the start state. *)
Definition accessible (s : Z) : Prop := reach (start fst) s.

(** Backward-reachable from a state with a non-Zero final weight. *)
Definition coaccessible (s : Z) : Prop := ∃ f, reach s f ∧ is_final f.

(** The invariant of the data model: the start state is a state or
    [kNoStateId], and the next state of every arc is a state. *)
Definition wf_fst : Prop :=
  (start fst = kNoStateId ∨ valid_state (start fst)) ∧
  ∀ s a, a ∈ StateArcs fst s → valid_state (nextstate a).

(** The fields of the traversal state, read at a state id. *)
Definition dfn (d : DfsState) (t : Z) : Z := vget (-1) (dfnumber_ (visitor d)) t.
Definition low (d : DfsState) (t : Z) : Z := vget (-1) (lowlink_ (visitor d)) t.
Definition onstk (d : DfsState) (t : Z) : bool := vget false (onstack_ (visitor d)) t.
Definition coacc (d : DfsState) (t : Z) : bool := vget false (coaccess_ (visitor d)) t.
Definition acc (d : DfsState) (t : Z) : bool := vget false (access_ (visitor d)) t.
Definition stk (d : DfsState) : list Z := scc_stack_ (visitor d).
Definition cnt (d : DfsState) : Z := nstates_ (visitor d).

Definition white_count (d : DfsState) : nat :=
  length (filter (fun c => c = kDfsWhite) (state_color d)).

(** The vectors have one size, at most the number of states, and hold
    every discovered state; [onstack_] is the membership in [scc_stack_]. *)
Record Shape (d : DfsState) : Prop := {
  sh_colors : length (state_color d) = length (states fst);
  sh_access : length (access_ (visitor d)) = length (dfnumber_ (visitor d));
  sh_coaccess : length (coaccess_ (visitor d)) = length (dfnumber_ (visitor d));
  sh_lowlink : length (lowlink_ (visitor d)) = length (dfnumber_ (visitor d));
  sh_onstack : length (onstack_ (visitor d)) = length (dfnumber_ (visitor d));
  sh_size : (length (dfnumber_ (visitor d)) <= length (states fst))%nat;
  sh_nonwhite : ∀ t, color_of d t ≠ kDfsWhite →
                0 <= t < Z.of_nat (length (dfnumber_ (visitor d)));
  sh_onstk : ∀ t, onstk d t = true ↔ t ∈ stk d;
  sh_start : start_ (visitor d) = start fst;
}.

(** Finished and off the stack: the state's component is complete. *)
Definition popped (d : DfsState) (t : Z) : Prop :=
  color_of d t = kDfsBlack ∧ t ∉ stk d.

(** The stack holds the states in the order of their discovery, the last
    discovered first. *)
Definition sorted_stack (d : DfsState) : Prop :=
  StronglySorted (fun a b => dfn d b < dfn d a) (stk d).

(** The invariant of the traversal. *)
Record GI (d : DfsState) : Prop := {
  gi_shape : Shape d;
  gi_cnt : 0 <= cnt d;
  gi_stack_nonwhite : ∀ t, t ∈ stk d → color_of d t ≠ kDfsWhite;
  gi_grey_stack : ∀ t, color_of d t = kDfsGrey → t ∈ stk d;
  gi_dfn_range : ∀ t, color_of d t ≠ kDfsWhite → 0 <= dfn d t < cnt d;
  gi_sorted : sorted_stack d;
  gi_low : ∀ t, t ∈ stk d →
           low d t <= dfn d t ∧
           ∃ z, z ∈ stk d ∧ dfn d z = low d t ∧ reach t z;
  gi_reach : ∀ u v, u ∈ stk d → v ∈ stk d → dfn d u <= dfn d v → reach u v;
  gi_black_low : ∀ t, t ∈ stk d → color_of d t = kDfsBlack → low d t < dfn d t;
  gi_sound : ∀ t, coacc d t = true → coaccessible t;
  gi_black_succ : ∀ t u, color_of d t = kDfsBlack → edge t u →
                  color_of d u ≠ kDfsWhite;
  gi_black_final : ∀ t, color_of d t = kDfsBlack → is_final t →
                   coacc d t = true;
  gi_popped_exact : ∀ t, popped d t → coaccessible t → coacc d t = true;
  gi_popped_closed : ∀ t u, popped d t → edge t u → popped d u;
  gi_black_prop : ∀ t u, color_of d t = kDfsBlack → t ∈ stk d → edge t u →
                  popped d u → coacc d u = true → coacc d t = true;
}.

(** [s] is the state under visit: grey, with only finished states above
    it on the stack. *)
Definition TopGrey (d : DfsState) (s : Z) : Prop :=
  color_of d s = kDfsGrey ∧
  ∀ t, t ∈ stk d → dfn d s < dfn d t → color_of d t = kDfsBlack.

(** What a part of the traversal that starts in [d0] leaves untouched:
    the states discovered before keep their colour and numbers, and, but
    for the state [p], their lowlink and flags; the stack only grows by
    states that were undiscovered. *)
Record Frame (d0 d : DfsState) (p : Z) : Prop := {
  fr_col_old : ∀ t, color_of d0 t ≠ kDfsWhite → color_of d t = color_of d0 t;
  fr_dfn_old : ∀ t, color_of d0 t ≠ kDfsWhite → dfn d t = dfn d0 t;
  fr_cnt : cnt d0 <= cnt d;
  fr_dfn_new : ∀ t, color_of d0 t = kDfsWhite → color_of d t ≠ kDfsWhite →
               cnt d0 <= dfn d t;
  fr_stk : ∃ newseg, stk d = newseg ++ stk d0 ∧
                     ∀ t, t ∈ newseg → color_of d0 t = kDfsWhite;
  fr_low_old : ∀ t, color_of d0 t ≠ kDfsWhite → t ≠ p → low d t = low d0 t;
  fr_low_p : color_of d0 p ≠ kDfsWhite → low d p <= low d0 p;
  fr_coacc_old : ∀ t, color_of d0 t ≠ kDfsWhite → t ≠ p →
                 coacc d t = coacc d0 t;
  fr_coacc_p : color_of d0 p ≠ kDfsWhite → coacc d0 p = true →
               coacc d p = true;
  fr_acc_old : ∀ t, color_of d0 t ≠ kDfsWhite → acc d t = acc d0 t;
  fr_white : (white_count d <= white_count d0)%nat;
}.

(** The states discovered since [d0]: they carry the accessibility of
    the tree's root and are reachable from [s]. *)
Definition NewStates (d0 d : DfsState) (root s : Z) : Prop :=
  ∀ t, color_of d0 t = kDfsWhite → color_of d t ≠ kDfsWhite →
       acc d t = bool_decide (root = start fst) ∧ reach s t.

(** The condition under which [DfsFrom] is called on [s] with parent [p]:
    [s] is an undiscovered state, and either [p] is the state under visit
    and [s] a successor of it, or there is no parent and no state is under
    visit. *)
Definition DfsPre (s p : Z) (d0 : DfsState) : Prop :=
  GI d0 ∧
  valid_state s ∧
  color_of d0 s = kDfsWhite ∧
  ((p = kNoStateId ∧ stk d0 = [] ∧ ∀ t, color_of d0 t ≠ kDfsGrey) ∨
   (0 <= p ∧ TopGrey d0 p ∧ edge p s)).

(** What [DfsFrom] on [s] with parent [p] establishes. *)
Record DfsPost (root s p : Z) (d0 d : DfsState) : Prop := {
  po_inv : GI d;
  po_frame : Frame d0 d p;
  po_black : color_of d s = kDfsBlack;
  po_dfn : dfn d s = cnt d0;
  po_no_grey : ∀ t, color_of d0 t = kDfsWhite → color_of d t ≠ kDfsGrey;
  po_new : NewStates d0 d root s;
  po_white : (white_count d < white_count d0)%nat;
  po_coacc_parent : 0 <= p → coacc d s = true → coacc d p = true;
  po_low_parent : 0 <= p → s ∈ stk d → low d p <= low d s;
  po_stack : s ∈ stk d ∨ (stk d = stk d0 ∧ low d s = dfn d s);
  po_low_bound : s ∈ stk d →
                 ∀ y u, y ∈ stk d → dfn d s <= dfn d y → edge y u →
                        u ∈ stk d → dfn d u < dfn d s → low d s <= dfn d u;
}.

(** The invariant of the loop over the arcs of [s], [done] being the
    arcs already taken. *)
Record LoopInv (root s p : Z) (d0 d : DfsState) (done : list (Arc W)) : Prop := {
  li_inv : GI d;
  li_top : TopGrey d s;
  li_dfn : dfn d s = cnt d0;
  li_frame : Frame d0 d s;
  li_no_grey : ∀ t, color_of d0 t = kDfsWhite → t ≠ s →
               color_of d t ≠ kDfsGrey;
  li_stack : ∃ above, stk d = above ++ s :: stk d0 ∧
                      ∀ t, t ∈ above → color_of d0 t = kDfsWhite;
  li_new : NewStates d0 d root s;
  li_white : (white_count d < white_count d0)%nat;
  li_done_nonwhite : ∀ a, a ∈ done → color_of d (nextstate a) ≠ kDfsWhite;
  li_done_prop : ∀ a, a ∈ done → popped d (nextstate a) →
                 coacc d (nextstate a) = true → coacc d s = true;
  li_done_low : ∀ a, a ∈ done → nextstate a ∈ stk d →
                dfn d (nextstate a) < dfn d s →
                low d s <= dfn d (nextstate a);
  li_above_low : ∀ y u, y ∈ stk d → dfn d s < dfn d y → edge y u →
                 u ∈ stk d → dfn d u < dfn d s → low d s <= dfn d u;
}.

(** [d'] is [d] but for the lowlink of [s], which may be smaller, and
    the coaccessibility flag of [s], which may have been raised. *)
Record GreyUpdate (s : Z) (d d' : DfsState) : Prop := {
  gu_color : state_color d' = state_color d;
  gu_access : access_ (visitor d') = access_ (visitor d);
  gu_dfnumber : dfnumber_ (visitor d') = dfnumber_ (visitor d);
  gu_onstack : onstack_ (visitor d') = onstack_ (visitor d);
  gu_stack : scc_stack_ (visitor d') = scc_stack_ (visitor d);
  gu_nstates : nstates_ (visitor d') = nstates_ (visitor d);
  gu_start : start_ (visitor d') = start_ (visitor d);
  gu_len_low : length (lowlink_ (visitor d')) = length (lowlink_ (visitor d));
  gu_len_coacc : length (coaccess_ (visitor d')) = length (coaccess_ (visitor d));
  gu_low_other : ∀ t, t ≠ s → low d' t = low d t;
  gu_low_le : low d' s <= low d s;
  gu_coacc_other : ∀ t, t ≠ s → coacc d' t = coacc d t;
  gu_coacc_mono : coacc d s = true → coacc d' s = true;
}.

(** [db] is [d] after the component [seg] was popped off the stack,
    [below] remaining; [b] tells whether a state of the component was
    flagged as coaccessible. *)
Record PopStep (seg below : list Z) (b : bool) (d db : DfsState) : Prop := {
  ps_color : state_color db = state_color d;
  ps_access : access_ (visitor db) = access_ (visitor d);
  ps_dfnumber : dfnumber_ (visitor db) = dfnumber_ (visitor d);
  ps_lowlink : lowlink_ (visitor db) = lowlink_ (visitor d);
  ps_nstates : nstates_ (visitor db) = nstates_ (visitor d);
  ps_start : start_ (visitor db) = start_ (visitor d);
  ps_stack : stk db = below;
  ps_len_coacc : length (coaccess_ (visitor db)) = length (coaccess_ (visitor d));
  ps_len_onstack : length (onstack_ (visitor db)) = length (onstack_ (visitor d));
  ps_flag : b = true ↔ ∃ w, w ∈ seg ∧ coacc d w = true;
  ps_coacc_seg : ∀ t, t ∈ seg → coacc db t = b || coacc d t;
  ps_coacc_other : ∀ t, t ∉ seg → coacc db t = coacc d t;
  ps_onstk_seg : ∀ t, t ∈ seg → onstk db t = false;
  ps_onstk_other : ∀ t, t ∉ seg → onstk db t = onstk d t;
}.

(** The traversal state when [s] has just been discovered in the tree of
    [root], and when [s] has just been finished with parent [p]. *)
Definition discovered (s root : Z) (d : DfsState) : DfsState :=
  with_visitor (InitState s root) (set_color s kDfsGrey d).

Definition finished (s p : Z) (d : DfsState) : DfsState :=
  with_visitor (FinishState fst s p) (set_color s kDfsBlack d).

(** The three parts of [FinishState]: the final-weight test, the
    completion of a component, and the update of the parent. *)
Definition finish_final (s : Z) (v : SccVisitor) : SccVisitor :=
  mkScc (access_ v)
        (if bool_decide (StateFinal fst s ≠ Zero) then vset (coaccess_ v) s true
         else coaccess_ v)
        (props_ v) (start_ v) (nstates_ v) (nscc_ v)
        (dfnumber_ v) (lowlink_ v) (onstack_ v) (scc_stack_ v).

Definition finish_pop (s : Z) (v : SccVisitor) : SccVisitor :=
  if bool_decide (vget (-1) (dfnumber_ v) s = vget (-1) (lowlink_ v) s) then
    let scc_coaccess := scc_coaccess_of s (coaccess_ v) (scc_stack_ v) in
    let '(stack, coaccess, onstack) :=
      pop_scc s scc_coaccess (scc_stack_ v) (coaccess_ v) (onstack_ v) in
    mkScc (access_ v) coaccess
          (if negb scc_coaccess
           then Z.land (Z.lor (props_ v) kNotCoAccessible) (Z.lnot kCoAccessible)
           else props_ v)
          (start_ v) (nstates_ v) (nscc_ v + 1)
          (dfnumber_ v) (lowlink_ v) onstack stack
  else v.

Definition finish_parent (s p : Z) (v : SccVisitor) : SccVisitor :=
  if bool_decide (p ≠ kNoStateId) then
    mkScc (access_ v)
          (if vget false (coaccess_ v) s then vset (coaccess_ v) p true
           else coaccess_ v)
          (props_ v) (start_ v) (nstates_ v) (nscc_ v) (dfnumber_ v)
          (if bool_decide (vget (-1) (lowlink_ v) s < vget (-1) (lowlink_ v) p)
           then vset (lowlink_ v) p (vget (-1) (lowlink_ v) s) else lowlink_ v)
          (onstack_ v) (scc_stack_ v)
  else v.

(** The invariant between two trees of the forest: no state is under
    visit, the stack is empty, and the accessibility flags are those of the
    trees seen so far. *)
Record ForestInv (d : DfsState) : Prop := {
  fo_inv : GI d;
  fo_stack : stk d = [];
  fo_no_grey : ∀ t, color_of d t ≠ kDfsGrey;
  fo_acc : ∀ t, color_of d t ≠ kDfsWhite → (acc d t = true ↔ accessible t);
}.

End ConnectSpec.

(** ** The trimmed automaton *)

Section TrimSpec.

Context {W : Type} `{Weight W}.

(** A state on a successful path: accessible and coaccessible. *)
Definition useful (fst : MutableFst W) (s : Z) : Prop :=
  valid_state fst s ∧ accessible fst s ∧ coaccessible fst s.

(** The place of the state [t] in the list [kept], from 0. *)
Fixpoint position (kept : list Z) (t : Z) : option Z :=
  match kept with
  | [] => None
  | x :: kept' =>
      if bool_decide (x = t) then Some 0 else Z.succ <$> position kept' t
  end.

(** The arcs that lead to a kept state, in their order, the next state
    being renumbered to its place among the kept states. *)
Definition trim_arcs (kept : list Z) (l : list (Arc W)) : list (Arc W) :=
  omap (fun a =>
          (fun j => mkArc (ilabel a) (olabel a) (weight a) j)
            <$> position kept (nextstate a)) l.

Definition trim_state (kept : list Z) (st : VectorState W) : VectorState W :=
  mkState (final st) (trim_arcs kept (arcs st)).

(** The automaton restricted to the states [kept]: the states are those
    of [kept] in their order, so that the new id of a kept state is its
    place in [kept] and the ids are dense; the arcs to the other states
    are gone; the start state is renumbered, or is [kNoStateId] when it is
    not kept. *)
Definition trimmed (fst : MutableFst W) (kept : list Z) : MutableFst W :=
  mkMutableFst
    (default kNoStateId (position kept (start fst)))
    (omap (fun s => trim_state kept <$> GetState fst s) kept)
    (isymbols fst) (osymbols fst)
    (SetProperties (Z.lor kAccessible kCoAccessible)
                   (Z.lor kAccessible kCoAccessible) (properties fst)).

(** The states from [s] up to [s + n] that are not in [dstates]. *)
Fixpoint kept_from (dstates : list Z) (s : Z) (n : nat) : list Z :=
  match n with
  | O => []
  | S n' =>
      if bool_decide (s ∈ dstates) then kept_from dstates (s + 1) n'
      else s :: kept_from dstates (s + 1) n'
  end.

(** The test of [wf_fst]. *)
Definition check_wf (fst : MutableFst W) : bool :=
  (bool_decide (start fst = kNoStateId) ||
   bool_decide (0 <= start fst < NumStates fst)) &&
  forallb (fun st =>
             forallb (fun a => bool_decide (0 <= nextstate a < NumStates fst))
                     (arcs st))
          (states fst).

End TrimSpec.

(** ** Symbol tables: the representation and the iteration *)

(** The representation that the comments of [SymbolTableImpl] describe:
    the symbols at the indices below [dense_key_limit_] have their index as
    key; for an index from the limit on, the key is
    [idx_key_[index - dense_key_limit_]], it is outside the dense range,
    and [key_map_] maps it back to the index. *)
Record table_ok (impl : SymbolTableImpl.t) : Prop := {
  ok_limit :
    0 <= SymbolTableImpl.dense_key_limit_ impl
      <= SymbolTableImpl.size (SymbolTableImpl.symbols_ impl);
  ok_idx_len :
    Z.of_nat (length (SymbolTableImpl.idx_key_ impl))
    = SymbolTableImpl.size (SymbolTableImpl.symbols_ impl)
      - SymbolTableImpl.dense_key_limit_ impl;
  ok_idx_key : ∀ (i : nat) (key : Z),
    SymbolTableImpl.idx_key_ impl !! i = Some key →
    (key < 0 ∨ key >= SymbolTableImpl.dense_key_limit_ impl) ∧
    SymbolTableImpl.key_map_ impl !! key
    = Some (SymbolTableImpl.dense_key_limit_ impl + Z.of_nat i);
}.

(** Moreover no symbol is stored twice, and [key_map_] holds nothing but
    the keys of [idx_key_]. *)
Record table_exact (impl : SymbolTableImpl.t) : Prop := {
  ex_ok : table_ok impl;
  ex_nodup : NoDup (SymbolTableImpl.dsm_symbols (SymbolTableImpl.symbols_ impl));
  ex_key_map : ∀ key idx : Z,
    SymbolTableImpl.key_map_ impl !! key = Some idx →
    SymbolTableImpl.dense_key_limit_ impl <= idx ∧
    SymbolTableImpl.idx_key_ impl
      !! Z.to_nat (idx - SymbolTableImpl.dense_key_limit_ impl) = Some key;
}.

(** A key that [Find] resolves to an index. *)
Definition key_stored (impl : SymbolTableImpl.t) (key : Z) : Prop :=
  0 <= key < SymbolTableImpl.dense_key_limit_ impl ∨
  ((key < 0 ∨ key >= SymbolTableImpl.dense_key_limit_ impl) ∧
   ∃ idx, SymbolTableImpl.key_map_ impl !! key = Some idx ∧
          0 <= idx < SymbolTableImpl.size (SymbolTableImpl.symbols_ impl)).

(** The client loop
    [for (; !it.Done(); it.Next()) out.push_back(it.Symbol())]. *)
Fixpoint iterate_symbols (fuel : nat) (it : SymbolTableIterator.t)
  : option (list string) :=
  match fuel with
  | O => None
  | S fuel =>
      if SymbolTableIterator.Done it then Some []
      else
        it' ← SymbolTableIterator.Next it;
        rest ← iterate_symbols fuel it';
        Some (SymbolTableIterator.Symbol it :: rest)
  end.

(** ** Composition: what an expansion leaves untouched *)

Section ComposeFrame.

Context {W FS : Type}.

(** [impl'] is [impl] but for the arcs and the expanded flag of the cache
    entry of [s], for the state table, which may have grown, for the tuple
    the filter is positioned on and for the property word. *)
Record expand_frame (s : Z) (impl impl' : ComposeFstImpl W FS) : Prop := {
  ef_other : ∀ s', s' ≠ s →
             cache_store_ impl' !! s' = cache_store_ impl !! s';
  ef_final : cs_final (GetMutableState s (cache_store_ impl'))
             = cs_final (GetMutableState s (cache_store_ impl));
  ef_table : state_table_ impl `prefix_of` state_table_ impl';
  ef_match_type : match_type_ impl' = match_type_ impl;
  ef_isymbols : isymbols_ impl' = isymbols_ impl;
  ef_osymbols : osymbols_ impl' = osymbols_ impl;
}.

End ComposeFrame.

(** ** Paths of an automaton *)

Section Paths.

Context {W : Type} `{Weight W}.

(** [path fst s l t]: the arcs [l] lead from [s] to [t], each arc leaving
    the state that the one before it enters. *)
Inductive path (fst : MutableFst W) : Z → list (Arc W) → Z → Prop :=
  | path_nil (s : Z) : path fst s [] s
  | path_cons (s : Z) (a : Arc W) (l : list (Arc W)) (t : Z) :
      a ∈ StateArcs fst s → path fst (nextstate a) l t →
      path fst s (a :: l) t.

(** What an arc contributes to a transduction: its labels and weight. *)
Definition arc_label (a : Arc W) : Z * Z * W := (ilabel a, olabel a, weight a).

(** The automaton has a successful path with the labels and weights
    [labs] that ends in a state with the final weight [w]. *)
Definition successful (fst : MutableFst W) (labs : list (Z * Z * W)) (w : W)
  : Prop :=
  ∃ l f, path fst (start fst) l f ∧ map arc_label l = labs ∧
         StateFinal fst f = w ∧ w ≠ Zero.

End Paths.

(** The label pair of an arc read in the other direction. *)
Definition swap_label {W : Type} (x : Z * Z * W) : Z * Z * W :=
  (x.1.2, x.1.1, x.2).

(** ** The property bits of [SccVisitor] *)

(** The positions of the bits that [SccVisitor] sets and clears: kCyclic,
    kAcyclic, kInitialCyclic, kInitialAcyclic, kAccessible, kNotAccessible,
    kCoAccessible and kNotCoAccessible. *)
Definition scc_bits : list Z := [34; 35; 36; 37; 40; 41; 42; 43].

(** The test [props & mask] of a property. *)
Definition has_property (props mask : Z) : bool := nonzero (Z.land props mask).

Section PropsSpec.

Context {W : Type} `{Weight W}.
Variable fst : MutableFst W.

(** A bit of the property word of the visitor. *)
Definition pbit (d : DfsState) (n : Z) : bool :=
  Z.testbit (props_ (visitor d)) n.

(** The state [u] lies on a cycle: an arc leads back to it from a state
    that it reaches. *)
Definition on_cycle (u : Z) : Prop := ∃ v, reach fst u v ∧ edge fst v u.

Definition cyclic : Prop := ∃ u, on_cycle u.

(** What the property bits tell at any time of the traversal, [props0]
    being the property word that the caller passed. *)
Record PropsInv (props0 : Z) (d : DfsState) : Prop := {
  pi_acyclic_bit : pbit d 35 = negb (pbit d 34);
  pi_initacyclic_bit : pbit d 37 = negb (pbit d 36);
  pi_accessible_bit : pbit d 40 = negb (pbit d 41);
  pi_coaccessible_bit : pbit d 42 = negb (pbit d 43);
  pi_other : ∀ n, n ∉ scc_bits → pbit d n = Z.testbit props0 n;
  pi_notacc : pbit d 41 = true ↔
              ∃ t, color_of d t ≠ kDfsWhite ∧ acc d t = false;
  pi_notcoacc : pbit d 43 = true ↔
                ∃ t, popped d t ∧ ¬ coaccessible fst t;
  pi_cyclic : pbit d 34 = true → cyclic;
  pi_black_closed : pbit d 34 = false →
                    ∀ u v, color_of d u = kDfsBlack → edge fst u v →
                           color_of d v = kDfsBlack;
  pi_black_acyclic : pbit d 34 = false →
                     ∀ u, color_of d u = kDfsBlack → ¬ on_cycle u;
  pi_initcyclic : pbit d 36 = true → on_cycle (start fst);
  pi_initacyclic : pbit d 36 = false →
                   ∀ u, color_of d u = kDfsBlack → acc d u = true →
                        ¬ edge fst u (start fst);
}.

(** The bits kCyclic and kInitialCyclic are never cleared once set. *)
Definition props_mono (d0 d : DfsState) : Prop :=
  (pbit d0 34 = true → pbit d 34 = true) ∧
  (pbit d0 36 = true → pbit d 36 = true).

(** The invariant of the loop over the arcs of [s] for the property bits:
    the root of the tree is under visit, and an arc already taken that
    leads to a state under visit has left its mark. *)
Record PropsLoop (props0 : Z) (root s : Z) (d0 d : DfsState)
    (done : list (Arc W)) : Prop := {
  pl_inv : PropsInv props0 d;
  pl_root : color_of d root = kDfsGrey;
  pl_mono : props_mono d0 d;
  pl_done_black : pbit d 34 = false →
                  ∀ a, a ∈ done → color_of d (nextstate a) = kDfsBlack;
  pl_done_start : pbit d 36 = false → acc d s = true →
                  ∀ a, a ∈ done → nextstate a ≠ start fst;
}.

Definition PropsPre (props0 : Z) (root s : Z) (d0 : DfsState) : Prop :=
  PropsInv props0 d0 ∧ (s = root ∨ color_of d0 root = kDfsGrey).

Definition PropsPost (props0 : Z) (d0 d : DfsState) : Prop :=
  PropsInv props0 d ∧ props_mono d0 d.

End PropsSpec.

(** ** The component numbers of [SccVisitor] *)

Section SccSpec.

Context {W : Type} `{Weight W}.
Variable fst : MutableFst W.

(** The traversal state without the component numbers. *)
Definition base_state (d : DfsStateScc) : DfsState :=
  mkDfs (visitor_ (visitor_scc d)) (state_color_scc d).

Definition sccnum (d : DfsStateScc) (t : Z) : Z :=
  vget (-1) (scc_ (visitor_scc d)) t.

(** Each of the two states can be reached from the other one. *)
Definition strongly_connected (s t : Z) : Prop :=
  reach fst s t ∧ reach fst t s.

(** What the component numbers tell during the traversal: the states
    whose component is complete carry its number, the components being
    numbered from 0 in the order of their completion. *)
Record SccInv (d : DfsStateScc) : Prop := {
  si_len : length (scc_ (visitor_scc d))
           = length (dfnumber_ (visitor_ (visitor_scc d)));
  si_nscc : 0 <= nscc_ (visitor_ (visitor_scc d));
  si_range : ∀ t, popped (base_state d) t →
             0 <= sccnum d t < nscc_ (visitor_ (visitor_scc d));
  si_same : ∀ t u, popped (base_state d) t → popped (base_state d) u →
            (sccnum d t = sccnum d u ↔ strongly_connected t u);
  si_edge : ∀ t u, popped (base_state d) t → edge fst t u →
            sccnum d u <= sccnum d t;
}.

End SccSpec.

(** * Properties *)

(** ** The property word *)

Lemma has_error_SetProperties_kError (p : Z) :
  has_error (SetProperties kError kError p) = true.
Proof.
  unfold has_error, SetProperties.
  rewrite Z.lor_spec, (Z.land_spec kError kError).
  apply orb_true_r.
Qed.

(** ** Symbol tables *)

Lemma index_from_absent (key : string) (l : list string) (i : Z) :
  key ∉ l → SymbolTableImpl.index_from key l i = -1.
Proof.
  revert i. induction l as [|x l IH]; intros i Hnot; simpl; [reflexivity|].
  destruct (decide (x = key)) as [->|Hne].
  - exfalso. apply Hnot. left.
  - apply IH. intros Hin. apply Hnot. by right.
Qed.

Lemma Find_no_entry (impl : SymbolTableImpl.t) (key : Z) :
  (key < 0 ∨ key >= SymbolTableImpl.dense_key_limit_ impl) →
  SymbolTableImpl.key_map_ impl !! key = None →
  SymbolTableImpl.Find impl key = EmptyString.
Proof.
  intros Hrange Hnone. unfold SymbolTableImpl.Find.
  rewrite bool_decide_eq_true_2 by exact Hrange.
  by rewrite Hnone.
Qed.

Lemma Find_overflow_bad_index (impl : SymbolTableImpl.t) (key idx : Z) :
  (key < 0 ∨ key >= SymbolTableImpl.dense_key_limit_ impl) →
  SymbolTableImpl.key_map_ impl !! key = Some idx →
  (idx < 0 ∨ idx >= SymbolTableImpl.size (SymbolTableImpl.symbols_ impl)) →
  SymbolTableImpl.Find impl key = EmptyString.
Proof.
  intros Hrange Hsome Hidx. unfold SymbolTableImpl.Find.
  rewrite bool_decide_eq_true_2 by exact Hrange.
  rewrite Hsome. by rewrite bool_decide_eq_true_2 by exact Hidx.
Qed.

Lemma Find_dense_bad_index (impl : SymbolTableImpl.t) (key : Z) :
  0 <= key < SymbolTableImpl.dense_key_limit_ impl →
  key >= SymbolTableImpl.size (SymbolTableImpl.symbols_ impl) →
  SymbolTableImpl.Find impl key = EmptyString.
Proof.
  intros Hrange Hidx. unfold SymbolTableImpl.Find.
  rewrite bool_decide_eq_false_2 by lia.
  rewrite bool_decide_eq_true_2; [reflexivity | by right].
Qed.

Lemma FindSymbol_absent (impl : SymbolTableImpl.t) (symbol : string) :
  symbol ∉ SymbolTableImpl.dsm_symbols (SymbolTableImpl.symbols_ impl) →
  SymbolTableImpl.FindSymbol impl symbol = Some (-1).
Proof.
  intros Hnot. unfold SymbolTableImpl.FindSymbol, SymbolTableImpl.DenseFind.
  rewrite (index_from_absent _ _ _ Hnot).
  rewrite bool_decide_eq_true_2; [reflexivity | by left].
Qed.

(** C10: symbol-table lookup is total and leaves the table as it is.
    [Find(key)] returns the empty string for a key without symbol: a key
    that is negative or at or above the dense-key limit and has no entry in
    the overflow map, and a key whose index (the key itself below the limit,
    its entry in the overflow map otherwise) is outside the symbol list.
    [Find(symbol)] returns [kNoSymbol], which is -1, for a symbol that the
    table does not hold.  Both return the table they were called on. *)
Theorem symbol_lookup_total (tbl : SymbolTable.t) :
  let impl := SymbolTable.impl_ tbl in
  (∀ key : Z,
     (key < 0 ∨ key >= SymbolTableImpl.dense_key_limit_ impl) →
     SymbolTableImpl.key_map_ impl !! key = None →
     SymbolTable.Find key tbl = (EmptyString, tbl)) ∧
  (∀ key idx : Z,
     (key < 0 ∨ key >= SymbolTableImpl.dense_key_limit_ impl) →
     SymbolTableImpl.key_map_ impl !! key = Some idx →
     (idx < 0 ∨ idx >= SymbolTableImpl.size (SymbolTableImpl.symbols_ impl)) →
     SymbolTable.Find key tbl = (EmptyString, tbl)) ∧
  (∀ key : Z,
     0 <= key < SymbolTableImpl.dense_key_limit_ impl →
     key >= SymbolTableImpl.size (SymbolTableImpl.symbols_ impl) →
     SymbolTable.Find key tbl = (EmptyString, tbl)) ∧
  (∀ symbol : string,
     symbol ∉ SymbolTableImpl.dsm_symbols (SymbolTableImpl.symbols_ impl) →
     SymbolTable.FindSymbol symbol tbl = (Some SymbolTable.kNoSymbol, tbl)) ∧
  (∀ key : Z, (SymbolTable.Find key tbl).2 = tbl) ∧
  (∀ symbol : string, (SymbolTable.FindSymbol symbol tbl).2 = tbl).
Proof.
  intros impl. unfold SymbolTable.Find, SymbolTable.FindSymbol.
  repeat split.
  - intros key Hr Hn. f_equal. by apply Find_no_entry.
  - intros key idx Hr Hs Hi. f_equal. by eapply Find_overflow_bad_index.
  - intros key Hr Hi. f_equal. by apply Find_dense_bad_index.
  - intros symbol Hn. f_equal. by apply FindSymbol_absent.
Qed.

Lemma symbol_lookup_total_witness :
  SymbolTable.Find (-5) example_table = (EmptyString, example_table) ∧
  SymbolTable.Find 7 example_table = (EmptyString, example_table) ∧
  SymbolTable.FindSymbol "z" example_table
    = (Some SymbolTable.kNoSymbol, example_table).
Proof.
  destruct (symbol_lookup_total example_table) as (Hkey & _ & _ & Hsym & _).
  split; [|split].
  - apply Hkey; [left; reflexivity | reflexivity].
  - apply Hkey; [right; vm_compute; discriminate | reflexivity].
  - apply Hsym. vm_compute.
    intros Hin. repeat (apply elem_of_cons in Hin as [Hin|Hin]; [discriminate|]).
    by apply elem_of_nil in Hin.
Defined.

(** ** Symbol compatibility at construction *)

Lemma testbit_SetProperties_error (props mask p : Z) :
  has_error (SetProperties props mask p)
  = has_error p || (Z.testbit props 2 && Z.testbit mask 2).
Proof.
  unfold has_error, SetProperties.
  rewrite Z.lor_spec, !Z.land_spec, Z.lor_spec, Z.lnot_spec by lia.
  change (Z.testbit kError 2) with true.
  rewrite orb_true_r, andb_true_r. done.
Qed.

Section CompatFacts.

Context {W : Type} `{Weight W} {FS : Type} `{EqDecision FS}.
Variable LabeledCheckSum : SymbolTable.t → string.

Lemma CompatSymbols_mismatch (flag : bool) (syms1 syms2 : option SymbolTable.t) :
  CompatSymbols LabeledCheckSum flag syms1 syms2
  = negb (symbols_mismatch LabeledCheckSum flag syms1 syms2).
Proof.
  unfold CompatSymbols, symbols_mismatch.
  destruct flag; simpl; [|reflexivity].
  destruct syms1 as [t1|], syms2 as [t2|]; simpl; try reflexivity.
  destruct (decide (LabeledCheckSum t1 ≠ LabeledCheckSum t2)).
  - by rewrite bool_decide_eq_true_2.
  - by rewrite bool_decide_eq_false_2.
Qed.

(** The symbol check of [InitBase]: it adds the error property exactly
    when the compatibility flag is on, the left operand's output table and
    the right operand's input table are both set, and their labeled
    checksums differ; a table that is unset is compatible with any table.
    With the flag off every pair of tables is compatible. *)
Lemma InitBase_symbol_check (flag : bool) (fst1 fst2 : Fst W)
    (impl : ComposeFstImpl W FS) :
  has_error (properties_ (InitBase LabeledCheckSum flag fst1 fst2 impl))
  = has_error (properties_ impl)
    || symbols_mismatch LabeledCheckSum flag (InputSymbols fst2) (OutputSymbols fst1)
  ∧ (∀ syms : option SymbolTable.t,
       CompatSymbols LabeledCheckSum flag None syms = true ∧
       CompatSymbols LabeledCheckSum flag syms None = true)
  ∧ (∀ syms1 syms2 : option SymbolTable.t,
       CompatSymbols LabeledCheckSum false syms1 syms2 = true).
Proof.
  split; [|split].
  - unfold InitBase. rewrite CompatSymbols_mismatch, negb_involutive.
    destruct (symbols_mismatch LabeledCheckSum flag _ _); simpl.
    + rewrite has_error_SetProperties_kError. by rewrite orb_true_r.
    + by rewrite orb_false_r.
  - intros syms. rewrite !CompatSymbols_mismatch. unfold symbols_mismatch.
    destruct flag, syms; auto.
  - intros syms1 syms2. reflexivity.
Qed.

End CompatFacts.

(** ** Commutativity at construction *)

Section CommutativeFacts.

Context {W : Type} `{Weight W} {FS : Type} `{EqDecision FS}.
Variable LabeledCheckSum : SymbolTable.t → string.
Variable FLAGS_fst_compat_symbols : bool.
Variable kFstProperties kCopyProperties : Z.
Variable ComposeProperties : Z → Z → Z.
Variable StateTableError : list (StateTuple FS) → bool.
Variable filter_ : ComposeFilter W FS.
Variable matcher1_ matcher2_ : Matcher W.

(** C4, as the code has it: over a semiring whose Times is not
    commutative, [CreateBase2] adds the error property exactly when both
    operands are weighted; when at least one operand is unweighted, or Times
    is commutative, the property word is the one the constructor of the
    implementation left. *)
Theorem CreateBase2_commutativity_error (fst1 fst2 : Fst W)
    (state_table : list (StateTuple FS)) :
  let constructed :=
    new_ComposeFstImpl LabeledCheckSum FLAGS_fst_compat_symbols kFstProperties
      kCopyProperties ComposeProperties StateTableError filter_ matcher1_
      matcher2_ fst1 fst2 state_table in
  let created :=
    CreateBase2 LabeledCheckSum FLAGS_fst_compat_symbols kFstProperties
      kCopyProperties ComposeProperties StateTableError filter_ matcher1_
      matcher2_ fst1 fst2 state_table in
  created
  = (if negb (is_commutative W) && is_weighted fst1 && is_weighted fst2
     then set_properties (SetProperties kError kError) constructed
     else constructed)
  ∧ has_error (properties_ created)
    = has_error (properties_ constructed)
      || (negb (is_commutative W) && is_weighted fst1 && is_weighted fst2).
Proof.
  intros constructed created. subst created. unfold CreateBase2.
  fold constructed. unfold is_commutative, is_weighted.
  destruct (nonzero (Z.land WeightProperties kCommutative)); simpl.
  { split; [done | by rewrite orb_false_r]. }
  destruct (nonzero (Z.land (Properties fst1 kUnweighted true) kUnweighted));
    simpl.
  { split; [done | by rewrite orb_false_r]. }
  destruct (nonzero (Z.land (Properties fst2 kUnweighted true) kUnweighted));
    simpl.
  { split; [done | by rewrite orb_false_r]. }
  split; [done|].
  rewrite has_error_SetProperties_kError. by rewrite orb_true_r.
Qed.

End CommutativeFacts.

(** ** The symbol check at construction *)

Section SymbolCheckFacts.

Context {W : Type} `{Weight W} {FS : Type} `{EqDecision FS}.
Variable LabeledCheckSum : SymbolTable.t → string.
Variable FLAGS_fst_compat_symbols : bool.
Variable kFstProperties kCopyProperties : Z.
Variable ComposeProperties : Z → Z → Z.
Variable StateTableError : list (StateTuple FS) → bool.
Variable filter_ : ComposeFilter W FS.
Variable matcher1_ matcher2_ : Matcher W.

(** The error property as the constructor of the implementation leaves
    it. *)
Lemma new_ComposeFstImpl_has_error (fst1 fst2 : Fst W)
    (state_table : list (StateTuple FS)) :
  has_error
    (properties_
       (new_ComposeFstImpl LabeledCheckSum FLAGS_fst_compat_symbols
          kFstProperties kCopyProperties ComposeProperties StateTableError
          filter_ matcher1_ matcher2_ fst1 fst2 state_table))
  = symbols_mismatch LabeledCheckSum FLAGS_fst_compat_symbols
      (InputSymbols fst2) (OutputSymbols fst1)
    || bool_decide (SetMatchType matcher1_ matcher2_ = MATCH_NONE)
    || (Z.testbit
          (FProperties filter_
             (ComposeProperties
                (MProperties matcher1_ (Properties fst1 kFstProperties false))
                (MProperties matcher2_ (Properties fst2 kFstProperties false))))
          2 && Z.testbit kCopyProperties 2)
    || StateTableError state_table.
Proof.
  unfold new_ComposeFstImpl, InitBase, blank_impl.
  rewrite CompatSymbols_mismatch, negb_involutive.
  destruct (symbols_mismatch _ _ _ _);
    cbn [set_properties set_symbols set_match_type properties_ isymbols_
         osymbols_ state_table_ match_type_ cache_store_ filter_state_];
    destruct (bool_decide (SetMatchType matcher1_ matcher2_ = MATCH_NONE));
    cbn [set_properties set_symbols set_match_type properties_ isymbols_
         osymbols_ state_table_ match_type_ cache_store_ filter_state_];
    destruct (StateTableError state_table);
    cbn [set_properties set_symbols set_match_type properties_ isymbols_
         osymbols_ state_table_ match_type_ cache_store_ filter_state_];
    rewrite ?testbit_SetProperties_error;
    change (Z.testbit kError 2) with true;
    change (has_error 0) with false;
    rewrite ?orb_true_r, ?orb_false_r, ?orb_true_l, ?orb_false_l; done.
Qed.

(** C5, as the code has it.  The symbol check of the construction fails
    exactly when the compatibility flag is on, the left operand's output
    symbol table and the right operand's input symbol table are both set,
    and their labeled checksums differ: a table that is unset is compatible
    with any table, two tables that are set are compatible exactly when
    their labeled checksums are equal, and with the flag off every pair of
    tables is compatible.  [InitBase] adds the error property exactly when
    the check fails, and the composition as [CreateBase2] returns it
    carries the error property exactly when the symbol check or one of the
    other checks of the construction has failed: no side to match on, an
    error bit under the copy mask in the properties computed through the
    matchers and the filter, an error of the state table, or two weighted
    operands over a semiring that is not commutative. *)
Theorem Compose_symbol_error (fst1 fst2 : Fst W)
    (state_table : list (StateTuple FS)) :
  let mismatch :=
    symbols_mismatch LabeledCheckSum FLAGS_fst_compat_symbols
      (InputSymbols fst2) (OutputSymbols fst1) in
  let cprops :=
    ComposeProperties
      (MProperties matcher1_ (Properties fst1 kFstProperties false))
      (MProperties matcher2_ (Properties fst2 kFstProperties false)) in
  let created :=
    CreateBase2 LabeledCheckSum FLAGS_fst_compat_symbols kFstProperties
      kCopyProperties ComposeProperties StateTableError filter_ matcher1_
      matcher2_ fst1 fst2 state_table in
  has_error (properties_ created)
  = mismatch
    || bool_decide (SetMatchType matcher1_ matcher2_ = MATCH_NONE)
    || (Z.testbit (FProperties filter_ cprops) 2 && Z.testbit kCopyProperties 2)
    || StateTableError state_table
    || (negb (is_commutative W) && is_weighted fst1 && is_weighted fst2)
  ∧ (∀ impl : ComposeFstImpl W FS,
       has_error
         (properties_
            (InitBase LabeledCheckSum FLAGS_fst_compat_symbols fst1 fst2 impl))
       = has_error (properties_ impl) || mismatch)
  ∧ (∀ (flag : bool) (syms : option SymbolTable.t),
       CompatSymbols LabeledCheckSum flag None syms = true ∧
       CompatSymbols LabeledCheckSum flag syms None = true)
  ∧ (∀ (flag : bool) (t1 t2 : SymbolTable.t),
       CompatSymbols LabeledCheckSum flag (Some t1) (Some t2)
       = negb flag || bool_decide (LabeledCheckSum t1 = LabeledCheckSum t2))
  ∧ (∀ syms1 syms2 : option SymbolTable.t,
       CompatSymbols LabeledCheckSum false syms1 syms2 = true).
Proof.
  intros mismatch cprops created. split; [|split; [|split; [|split]]].
  - subst created. unfold CreateBase2.
    pose proof (new_ComposeFstImpl_has_error fst1 fst2 state_table) as Hnew.
    fold cprops mismatch in Hnew. unfold is_commutative, is_weighted.
    destruct (nonzero (Z.land WeightProperties kCommutative));
      cbn [negb andb]; [by rewrite orb_false_r|].
    destruct (nonzero (Z.land (Properties fst1 kUnweighted true) kUnweighted));
      cbn [negb andb]; [by rewrite orb_false_r|].
    destruct (nonzero (Z.land (Properties fst2 kUnweighted true) kUnweighted));
      cbn [negb andb]; [by rewrite orb_false_r|].
    cbn [set_properties properties_].
    rewrite has_error_SetProperties_kError. by rewrite orb_true_r.
  - intros impl.
    apply (InitBase_symbol_check LabeledCheckSum FLAGS_fst_compat_symbols
             fst1 fst2 impl).
  - intros flag syms. rewrite !CompatSymbols_mismatch. unfold symbols_mismatch.
    destruct flag, syms; auto.
  - intros flag t1 t2. rewrite CompatSymbols_mismatch. unfold symbols_mismatch.
    destruct flag; cbn [negb andb orb]; [|done].
    destruct (decide (LabeledCheckSum t1 = LabeledCheckSum t2)) as [Heq|Hne].
    + rewrite bool_decide_eq_false_2 by (intros Hx; by apply Hx).
      by rewrite bool_decide_eq_true_2.
    + rewrite bool_decide_eq_true_2 by done.
      by rewrite bool_decide_eq_false_2.
  - intros syms1 syms2. reflexivity.
Qed.

End SymbolCheckFacts.

(** C5 as stated fails: the left operand has an output symbol table, the
    right operand has no input symbol table, so that the two tables are
    neither both unset nor equal by checksum; the check is enabled, and the
    error property is set neither by [InitBase] nor on the composition as
    [CreateBase2] returns it. *)
Lemma InitBase_one_table_unset_no_error :
  OutputSymbols (as_Fst left_fst_with_symbols) = Some example_table ∧
  InputSymbols (as_Fst right_fst) = None ∧
  has_error
    (properties_
       (InitBase test_checksum true (as_Fst left_fst_with_symbols)
          (as_Fst right_fst)
          (blank_impl (W:=TropicalWeight) accept_all_filter [])))
  = false ∧
  has_error
    (properties_
       (CreateBase2 test_checksum true kFstProperties_value
          kFstProperties_value (fun _ _ => 0) (fun _ => false)
          accept_all_filter symbols_matcher1 sorted_matcher2
          (as_Fst left_fst_with_symbols) (as_Fst right_fst) []))
  = false.
Proof. repeat split. Qed.

(** C4 as stated fails: over the string semiring, which is not
    commutative, the left operand is unweighted and the right operand is
    weighted, and the composition is constructed without the error
    property. *)
Lemma CreateBase2_one_weighted_no_error :
  is_commutative StringWeight = false ∧
  is_weighted (as_Fst unweighted_fst) = false ∧
  is_weighted (as_Fst weighted_fst) = true ∧
  has_error
    (properties_
       (CreateBase2 test_checksum true kFstProperties_value
          kFstProperties_value (fun _ _ => 0) (fun _ => false)
          accept_all_filter
          (store_matcher unweighted_fst MATCH_OUTPUT
             (num_arcs_priority unweighted_fst))
          (store_matcher weighted_fst MATCH_INPUT
             (num_arcs_priority weighted_fst))
          (as_Fst unweighted_fst) (as_Fst weighted_fst) []))
  = false.
Proof. repeat split. Qed.

(** ** Inversion *)

Section InvertFacts.

Context {W : Type} `{Weight W}.
Variable InvertProperties : Z → Z.
Variable kFstProperties : Z.

Lemma InvertMapper_involutive (arc : Arc W) :
  map_arc (InvertMapper InvertProperties)
          (map_arc (InvertMapper InvertProperties) arc) = arc.
Proof. by destruct arc. Qed.

Lemma Invert_fields (fst : MutableFst W) :
  start fst ≠ kNoStateId →
  ∃ props,
    Invert InvertProperties kFstProperties fst
    = Some (mkMutableFst
              (start fst)
              (map (fun st =>
                      mkState (final st)
                              (map (map_arc (InvertMapper InvertProperties))
                                   (arcs st)))
                   (states fst))
              (osymbols fst) (isymbols fst) props).
Proof.
  intros Hne. unfold Invert, ArcMap.
  cbn [FinalAction InputSymbolsAction OutputSymbolsAction InvertMapper].
  rewrite bool_decide_eq_false_2 by exact Hne. simpl. eexists.
  unfold SetOutputSymbols, SetInputSymbols, SymbolTable.Copy. simpl.
  do 2 f_equal.
  - by destruct (osymbols fst).
  - by destruct (isymbols fst).
Qed.

(** Without a start state the inversion exchanges the symbol tables and
    nothing else. *)
Lemma Invert_fields_no_start (fst : MutableFst W) :
  start fst = kNoStateId →
  Invert InvertProperties kFstProperties fst
  = Some (mkMutableFst (start fst) (states fst) (osymbols fst) (isymbols fst)
                       (properties fst)).
Proof.
  intros Hno. unfold Invert, ArcMap.
  cbn [FinalAction InputSymbolsAction OutputSymbolsAction InvertMapper].
  rewrite bool_decide_eq_true_2 by exact Hno. simpl.
  unfold SetOutputSymbols, SetInputSymbols, SymbolTable.Copy. simpl.
  do 2 f_equal.
  - by destruct (osymbols fst).
  - by destruct (isymbols fst).
Qed.

(** C9: inversion is an involution.  Inverting twice restores the start
    state and every state: its final weight and its arcs, each with its
    input label, output label, weight and next state; and the two symbol
    tables are back at their sides. *)
Theorem Invert_involution (fst : MutableFst W) :
  ∃ fst' fst'' : MutableFst W,
    Invert InvertProperties kFstProperties fst = Some fst' ∧
    Invert InvertProperties kFstProperties fst' = Some fst'' ∧
    start fst'' = start fst ∧
    states fst'' = states fst ∧
    isymbols fst'' = isymbols fst ∧
    osymbols fst'' = osymbols fst ∧
    isymbols fst' = osymbols fst ∧
    osymbols fst' = isymbols fst.
Proof.
  destruct (decide (start fst = kNoStateId)) as [Hno|Hne].
  - exists (mkMutableFst (start fst) (states fst) (osymbols fst)
              (isymbols fst) (properties fst)).
    exists (mkMutableFst (start fst) (states fst) (isymbols fst)
              (osymbols fst) (properties fst)).
    split; [exact (Invert_fields_no_start fst Hno)|].
    split; [|done].
    exact (Invert_fields_no_start
             (mkMutableFst (start fst) (states fst) (osymbols fst)
                (isymbols fst) (properties fst)) Hno).
  - destruct (Invert_fields fst Hne) as [props Hfst].
    eexists. destruct (Invert_fields
      (mkMutableFst (start fst)
         (map (fun st => mkState (final st)
                 (map (map_arc (InvertMapper InvertProperties)) (arcs st)))
              (states fst))
         (osymbols fst) (isymbols fst) props) Hne) as [props' Hfst'].
    eexists. split; [exact Hfst|]. split; [exact Hfst'|]. simpl.
    repeat split.
    rewrite map_map. rewrite <- (map_id (states fst)) at 2.
    apply map_ext. intros [w l]. simpl. f_equal.
    rewrite map_map. rewrite <- (map_id l) at 2.
    apply map_ext. intros a. apply InvertMapper_involutive.
Qed.

End InvertFacts.

(** ** The composition engine *)

Section StateTableFacts.

Context {FS : Type} `{EqDecision FS}.

Lemma find_tuple_Some (t : StateTuple FS) (l : list (StateTuple FS)) (i j : Z) :
  find_tuple t l i = Some j → i <= j ∧ l !! Z.to_nat (j - i) = Some t.
Proof.
  revert i. induction l as [|x l IH]; intros i Hfind; simpl in Hfind.
  - discriminate.
  - destruct (decide (x = t)) as [->|Hne].
    + injection Hfind as <-. split; [lia|]. by rewrite Z.sub_diag.
    + destruct (IH _ Hfind) as [Hle Hlook]. split; [lia|].
      replace (Z.to_nat (j - i)) with (S (Z.to_nat (j - (i + 1)))) by lia.
      exact Hlook.
Qed.

Lemma FindState_spec (tbl : list (StateTuple FS)) (t : StateTuple FS) :
  tbl `prefix_of` (FindState tbl t).2 ∧
  Tuple (FindState tbl t).2 (FindState tbl t).1 = Some t.
Proof.
  unfold FindState, Tuple.
  destruct (find_tuple t tbl 0) as [j|] eqn:Hfind; simpl.
  - destruct (find_tuple_Some _ _ _ _ Hfind) as [Hle Hlook].
    split; [done|]. rewrite bool_decide_eq_true_2 by lia.
    by rewrite Z.sub_0_r in Hlook.
  - split; [by apply prefix_app_r|].
    rewrite bool_decide_eq_true_2 by lia.
    rewrite Nat2Z.id. by apply list_lookup_middle.
Qed.

Lemma Tuple_prefix (tbl tbl' : list (StateTuple FS)) (s : Z) (t : StateTuple FS) :
  Tuple tbl s = Some t → tbl `prefix_of` tbl' → Tuple tbl' s = Some t.
Proof.
  unfold Tuple. destruct (bool_decide (0 <= s)); [|discriminate].
  apply prefix_lookup_Some.
Qed.

End StateTableFacts.

Section CacheFacts.

Context {W : Type}.

Lemma CachedArcs_PushArc (s : Z) (o : Arc W) (c : gmap Z (CacheState W)) :
  CachedArcs s (PushArc s o c) = CachedArcs s c ++ [o].
Proof.
  unfold CachedArcs, PushArc, GetMutableState. by rewrite lookup_insert_eq.
Qed.

Lemma HasArcs_PushArc (s : Z) (o : Arc W) (c : gmap Z (CacheState W)) :
  HasArcs s (PushArc s o c) = HasArcs s c.
Proof.
  unfold HasArcs, PushArc, GetMutableState. by rewrite lookup_insert_eq.
Qed.

Lemma CachedArcs_SetArcs (s : Z) (c : gmap Z (CacheState W)) :
  CachedArcs s (SetArcs s c) = CachedArcs s c.
Proof.
  unfold CachedArcs, SetArcs, GetMutableState. by rewrite lookup_insert_eq.
Qed.

Lemma HasArcs_SetArcs (s : Z) (c : gmap Z (CacheState W)) :
  HasArcs s (SetArcs s c) = true.
Proof.
  unfold HasArcs, SetArcs, GetMutableState. by rewrite lookup_insert_eq.
Qed.

End CacheFacts.

Section ComposeFacts.

Context {W : Type} `{Weight W} {FS : Type} `{EqDecision FS}.
Variable filter_ : ComposeFilter W FS.
Variable matcher1_ matcher2_ : Matcher W.

Local Abbreviation Impl := (ComposeFstImpl W FS).

Lemma emitted_as_prefix (tbl tbl' : list (StateTuple FS))
    (p : Arc W * Arc W * FS) (o : Arc W) :
  tbl `prefix_of` tbl' → emitted_as tbl p o → emitted_as tbl' p o.
Proof.
  intros Hpre (Hi & Ho & Hw & Ht). repeat split; try done.
  by eapply Tuple_prefix.
Qed.

Lemma pushes_refl (s : Z) (impl : Impl) : pushes s impl impl [] [].
Proof.
  unfold pushes. rewrite app_nil_r. repeat split; done.
Qed.

Lemma pushes_trans (s : Z) (impl1 impl2 impl3 : Impl)
    (ps1 ps2 : list (Arc W * Arc W * FS)) (new1 new2 : list (Arc W)) :
  pushes s impl1 impl2 ps1 new1 → pushes s impl2 impl3 ps2 new2 →
  pushes s impl1 impl3 (ps1 ++ ps2) (new1 ++ new2).
Proof.
  intros (Ha1 & Hf1 & Hp1 & Hs1 & Hr1 & Hm1 & Hh1)
         (Ha2 & Hf2 & Hp2 & Hs2 & Hr2 & Hm2 & Hh2).
  unfold pushes. repeat split.
  - by rewrite Ha2, Ha1, app_assoc.
  - apply Forall2_app; [|done].
    eapply Forall2_impl; [exact Hf1|].
    intros p o. by apply emitted_as_prefix.
  - by etrans.
  - congruence.
  - congruence.
  - congruence.
  - congruence.
Qed.

Lemma AddArc_pushes (s : Z) (a b : Arc W) (f : FS) (impl : Impl) :
  ∃ o, pushes s impl (AddArc s a b f impl) [(a, b, f)] [o].
Proof.
  unfold AddArc.
  pose proof (FindState_spec (state_table_ impl) (nextstate a, nextstate b, f))
    as [Hpre Htuple].
  destruct (FindState (state_table_ impl) (nextstate a, nextstate b, f))
    as [id tbl]. simpl in *.
  eexists. unfold pushes. simpl. repeat split.
  - apply CachedArcs_PushArc.
  - constructor; [|constructor]. repeat split; simpl; done.
  - done.
  - apply HasArcs_PushArc.
Qed.

Lemma MatchArc_step_pushes (s : Z) (arc arca : Arc W) (match_input : bool)
    (impl : Impl) :
  ∃ new,
    pushes s impl (MatchArc_step filter_ s arc match_input impl arca)
      (omap (accepted filter_ (filter_state_ impl))
            [if match_input then (arc, arca) else (arca, arc)])
      new.
Proof.
  unfold MatchArc_step, accepted.
  destruct match_input; simpl.
  - destruct (FilterArc filter_ (filter_state_ impl) arc arca) as [[a b] f].
    destruct (bool_decide (f ≠ NoState filter_)); simpl.
    + destruct (AddArc_pushes s a b f impl) as [o Ho]. by exists [o].
    + exists []. apply pushes_refl.
  - destruct (FilterArc filter_ (filter_state_ impl) arca arc) as [[a b] f].
    destruct (bool_decide (f ≠ NoState filter_)); simpl.
    + destruct (AddArc_pushes s a b f impl) as [o Ho]. by exists [o].
    + exists []. apply pushes_refl.
Qed.

Lemma foldl_MatchArc_step_pushes (s : Z) (arc : Arc W) (match_input : bool)
    (l : list (Arc W)) (impl : Impl) :
  ∃ new,
    pushes s impl (foldl (MatchArc_step filter_ s arc match_input) impl l)
      (omap (accepted filter_ (filter_state_ impl))
            (map (fun arca => if match_input then (arc, arca) else (arca, arc)) l))
      new.
Proof.
  revert impl. induction l as [|arca l IH]; intros impl; simpl foldl.
  - exists []. apply pushes_refl.
  - destruct (MatchArc_step_pushes s arc arca match_input impl) as [new1 H1].
    destruct (IH (MatchArc_step filter_ s arc match_input impl arca))
      as [new2 H2].
    exists (new1 ++ new2).
    assert (Hpos : filter_state_
                     (MatchArc_step filter_ s arc match_input impl arca)
                   = filter_state_ impl) by apply H1.
    rewrite Hpos in H2.
    change (map ?g (arca :: l)) with ([g arca] ++ map g l).
    rewrite omap_app. by eapply pushes_trans.
Qed.

Lemma MatchArc_pushes (s : Z) (matchera : Matcher W) (sa : Z) (arc : Arc W)
    (match_input : bool) (impl : Impl) :
  ∃ new,
    pushes s impl (MatchArc filter_ s matchera sa arc match_input impl)
      (omap (accepted filter_ (filter_state_ impl))
            (submitted match_input matchera sa arc))
      new.
Proof.
  unfold MatchArc, submitted, matches.
  destruct (MFind matchera sa _).
  - apply foldl_MatchArc_step_pushes.
  - exists []. apply pushes_refl.
Qed.

(** The arcs pushed while the driven arcs [l] are matched, one block
    for each driven arc. *)
Lemma foldl_MatchArc_blocks (s : Z) (matchera : Matcher W) (sa : Z)
    (match_input : bool) (l : list (Arc W)) (impl : Impl) :
  let impl' :=
    foldl (fun impl arc => MatchArc filter_ s matchera sa arc match_input impl)
          impl l in
  ∃ blocks : list (list (Arc W)),
    pushes s impl impl'
      (l ≫= (fun arc => omap (accepted filter_ (filter_state_ impl))
                           (submitted match_input matchera sa arc)))
      (concat blocks) ∧
    Forall2 (fun arc block =>
               Forall2 (emitted_as (state_table_ impl'))
                       (omap (accepted filter_ (filter_state_ impl))
                             (submitted match_input matchera sa arc))
                       block)
            l blocks.
Proof.
  revert impl. induction l as [|arc l IH]; intros impl; cbn zeta.
  - exists []. split; [apply pushes_refl | constructor].
  - simpl foldl.
    destruct (MatchArc_pushes s matchera sa arc match_input impl) as [new1 H1].
    destruct (IH (MatchArc filter_ s matchera sa arc match_input impl))
      as (blocks & H2 & HF).
    assert (Hpos : filter_state_
                     (MatchArc filter_ s matchera sa arc match_input impl)
                   = filter_state_ impl) by apply H1.
    rewrite Hpos in H2, HF.
    exists (new1 :: blocks). split.
    + rewrite bind_cons. simpl concat. by eapply pushes_trans.
    + constructor; [|done].
      eapply Forall2_impl; [apply H1|].
      intros p o. apply emitted_as_prefix. apply H2.
Qed.

Lemma OrderedExpand_blocks (s sa : Z) (fstb : Fst W) (sb : Z)
    (matchera : Matcher W) (match_input : bool) (impl : Impl) :
  let impl' := OrderedExpand filter_ s sa fstb sb matchera match_input impl in
  let driven := synthetic_loop match_input sb :: Arcs fstb sb in
  ∃ blocks : list (list (Arc W)),
    CachedArcs s (cache_store_ impl')
    = CachedArcs s (cache_store_ impl) ++ concat blocks ∧
    Forall2 (fun arc block =>
               Forall2 (emitted_as (state_table_ impl'))
                       (omap (accepted filter_ (filter_state_ impl))
                             (submitted match_input matchera sa arc))
                       block)
            driven blocks ∧
    HasArcs s (cache_store_ impl') = true ∧
    properties_ impl' = properties_ impl.
Proof.
  intros impl' driven.
  destruct (foldl_MatchArc_blocks s matchera sa match_input driven impl)
    as (blocks & Hpush & HF).
  exists blocks. subst impl'. unfold OrderedExpand.
  change (foldl ?f (MatchArc filter_ s matchera sa ?loop match_input impl) ?l)
    with (foldl f impl (loop :: l)).
  fold (synthetic_loop match_input sb). fold driven.
  unfold set_cache. simpl. repeat split.
  - rewrite CachedArcs_SetArcs. apply Hpush.
  - exact HF.
  - apply HasArcs_SetArcs.
  - apply Hpush.
Qed.

Lemma Forall2_concat_blocks {A B C : Type} (R : B → C → Prop) (g : A → list B)
    (l : list A) (blocks : list (list C)) :
  Forall2 (fun x block => Forall2 R (g x) block) l blocks →
  Forall2 R (l ≫= g) (concat blocks).
Proof.
  induction 1 as [|x block l blocks Hx _ IH].
  - constructor.
  - rewrite bind_cons. simpl concat. by apply Forall2_app.
Qed.

End ComposeFacts.

Section ComposeClaims.

Context {W : Type} `{Weight W} {FS : Type} `{EqDecision FS}.
Variable filter_ : ComposeFilter W FS.
Variable matcher1_ matcher2_ : Matcher W.

Local Abbreviation Impl := (ComposeFstImpl W FS).

Lemma omap_bind_list {A B C : Type} (f : B → option C) (g : A → list B)
    (l : list A) :
  omap f (l ≫= g) = l ≫= (fun x => omap f (g x)).
Proof.
  induction l as [|x l IH]; [reflexivity|].
  by rewrite !bind_cons, omap_app, IH.
Qed.

Lemma MatchInput_frame (s1 s2 : Z) (impl : Impl) :
  let r := MatchInput matcher1_ matcher2_ s1 s2 impl in
  cache_store_ r.2 = cache_store_ impl ∧
  state_table_ r.2 = state_table_ impl ∧
  filter_state_ r.2 = filter_state_ impl ∧
  (r.2 = impl ∨ r.2 = set_properties (SetProperties kError kError) impl).
Proof.
  unfold MatchInput.
  destruct (match_type_ impl); simpl; auto;
    repeat (match goal with |- context [if ?b then _ else _] => destruct b end;
            simpl; auto).
Qed.

Lemma MatchInput_filter_SetState (s1 s2 : Z) (t : StateTuple FS) (impl : Impl) :
  (MatchInput matcher1_ matcher2_ s1 s2 (filter_SetState t impl)).1
  = (MatchInput matcher1_ matcher2_ s1 s2 impl).1.
Proof.
  unfold MatchInput, filter_SetState. simpl.
  destruct (match_type_ impl); simpl; auto;
    repeat (match goal with |- context [if ?b then _ else _] => destruct b end;
            simpl; auto).
Qed.

(** What [Expand] does at a state of the table: the filter is positioned,
    the side is chosen, and the ordered expansion runs. *)
Lemma Expand_unfold (s : Z) (impl : Impl) (s1 s2 : Z) (fs : FS) :
  Tuple (state_table_ impl) s = Some (s1, s2, fs) →
  let r := MatchInput matcher1_ matcher2_ s1 s2
             (filter_SetState (s1, s2, fs) impl) in
  Expand filter_ matcher1_ matcher2_ s impl
  = Some (if r.1
          then OrderedExpand filter_ s s2 (fst1_ matcher1_) s1 matcher2_ true r.2
          else OrderedExpand filter_ s s1 (fst2_ matcher2_) s2 matcher1_ false r.2).
Proof.
  intros Htuple r. unfold Expand. rewrite Htuple. subst r.
  by destruct (MatchInput matcher1_ matcher2_ s1 s2
                 (filter_SetState (s1, s2, fs) impl)).
Qed.

(** The expansion of a state, block by block: one block of emitted arcs
    for the synthetic loop and for each arc of the driven side. *)
Lemma Expand_blocks (s : Z) (impl : Impl) (s1 s2 : Z) (fs : FS) :
  Tuple (state_table_ impl) s = Some (s1, s2, fs) →
  let match_input := (MatchInput matcher1_ matcher2_ s1 s2 impl).1 in
  let matchera := if match_input then matcher2_ else matcher1_ in
  let sa := if match_input then s2 else s1 in
  let driven :=
    if match_input then synthetic_loop true s1 :: Arcs (fst1_ matcher1_) s1
    else synthetic_loop false s2 :: Arcs (fst2_ matcher2_) s2 in
  ∃ (impl' : Impl) (blocks : list (list (Arc W))),
    Expand filter_ matcher1_ matcher2_ s impl = Some impl' ∧
    CachedArcs s (cache_store_ impl')
    = CachedArcs s (cache_store_ impl) ++ concat blocks ∧
    Forall2 (fun arc block =>
               Forall2 (emitted_as (state_table_ impl'))
                       (omap (accepted filter_ (s1, s2, fs))
                             (submitted match_input matchera sa arc))
                       block)
            driven blocks ∧
    HasArcs s (cache_store_ impl') = true ∧
    properties_ impl'
    = properties_ (MatchInput matcher1_ matcher2_ s1 s2 impl).2.
Proof.
  intros Htuple match_input matchera sa driven.
  rewrite (Expand_unfold s impl s1 s2 fs Htuple). cbn zeta.
  rewrite MatchInput_filter_SetState. fold match_input.
  pose proof (MatchInput_frame s1 s2 (filter_SetState (s1, s2, fs) impl))
    as (Hc & Ht & Hf & Hp). cbn zeta in *.
  set (impl0 := (MatchInput matcher1_ matcher2_ s1 s2
                   (filter_SetState (s1, s2, fs) impl)).2) in *.
  assert (Hprops : properties_ impl0
                   = properties_ (MatchInput matcher1_ matcher2_ s1 s2 impl).2).
  { subst impl0. unfold MatchInput, filter_SetState. simpl.
    destruct (match_type_ impl); simpl; auto;
      repeat (match goal with |- context [if ?b then _ else _] => destruct b end;
              simpl; auto). }
  simpl in Hc, Ht, Hf.
  subst matchera sa driven. destruct match_input.
  - destruct (OrderedExpand_blocks filter_ s s2 (fst1_ matcher1_) s1 matcher2_
                true impl0) as (blocks & Ha & HF & Hh & Hpr).
    eexists _, blocks. split; [reflexivity|].
    rewrite Hf in HF. rewrite Hc in Ha. rewrite Hpr, Hprops. done.
  - destruct (OrderedExpand_blocks filter_ s s1 (fst2_ matcher2_) s2 matcher1_
                false impl0) as (blocks & Ha & HF & Hh & Hpr).
    eexists _, blocks. split; [reflexivity|].
    rewrite Hf in HF. rewrite Hc in Ha. rewrite Hpr, Hprops. done.
Qed.


(** C2: the arcs of an expanded composition state come in this order:
    first the block of the synthetic self-loop of the driven side, then one
    block for each arc of the driven side in the order of its state's arcs;
    inside a block, the accepted matches in the order in which the other
    side's matcher yields them.  The arc iterator of the state reads the
    arcs in this order. *)
Theorem Expand_arc_order (s : Z) (impl : Impl) (s1 s2 : Z) (fs : FS) :
  Tuple (state_table_ impl) s = Some (s1, s2, fs) →
  let match_input := (MatchInput matcher1_ matcher2_ s1 s2 impl).1 in
  let matchera := if match_input then matcher2_ else matcher1_ in
  let sa := if match_input then s2 else s1 in
  let driven :=
    if match_input then synthetic_loop true s1 :: Arcs (fst1_ matcher1_) s1
    else synthetic_loop false s2 :: Arcs (fst2_ matcher2_) s2 in
  ∃ (impl' : Impl) (blocks : list (list (Arc W))),
    Expand filter_ matcher1_ matcher2_ s impl = Some impl' ∧
    CachedArcs s (cache_store_ impl')
    = CachedArcs s (cache_store_ impl) ++ concat blocks ∧
    Forall2 (fun arc block =>
               Forall2 (emitted_as (state_table_ impl'))
                       (omap (accepted filter_ (s1, s2, fs))
                             (submitted match_input matchera sa arc))
                       block)
            driven blocks ∧
    (HasArcs s (cache_store_ impl) = false →
     ImplArcs filter_ matcher1_ matcher2_ s impl
     = Some (CachedArcs s (cache_store_ impl) ++ concat blocks, impl')).
Proof.
  intros Htuple match_input matchera sa driven.
  destruct (Expand_blocks s impl s1 s2 fs Htuple)
    as (impl' & blocks & He & Ha & HF & _).
  exists impl', blocks. repeat split; try done.
  intros Hno. unfold ImplArcs. rewrite Hno, He. simpl. by rewrite Ha.
Qed.

(** C3, as the code has it: when the match type is not fixed to one
    side and both matchers report [kRequirePriority] at the state, the
    error property is set; the state is expanded all the same, the left
    operand driven: it is marked as expanded and takes the arcs of the
    accepted pairs. *)
Theorem Expand_both_require (s : Z) (impl : Impl) (s1 s2 : Z) (fs : FS) :
  Tuple (state_table_ impl) s = Some (s1, s2, fs) →
  match_type_ impl ≠ MATCH_INPUT →
  match_type_ impl ≠ MATCH_OUTPUT →
  Priority matcher1_ s1 = kRequirePriority →
  Priority matcher2_ s2 = kRequirePriority →
  ∃ (impl' : Impl) (new : list (Arc W)),
    Expand filter_ matcher1_ matcher2_ s impl = Some impl' ∧
    has_error (properties_ impl') = true ∧
    HasArcs s (cache_store_ impl') = true ∧
    CachedArcs s (cache_store_ impl')
    = CachedArcs s (cache_store_ impl) ++ new ∧
    Forall2 (emitted_as (state_table_ impl'))
      (omap (accepted filter_ (s1, s2, fs))
         (left_driven_pairs matcher2_ (fst1_ matcher1_) s1 s2))
      new.
Proof.
  intros Htuple Hni Hno Hp1 Hp2.
  destruct (Expand_blocks s impl s1 s2 fs Htuple)
    as (impl' & blocks & He & Ha & HF & Hh & Hpr).
  assert (Hmi : MatchInput matcher1_ matcher2_ s1 s2 impl
                = (true, set_properties (SetProperties kError kError) impl)).
  { unfold MatchInput. rewrite Hp1, Hp2.
    destruct (match_type_ impl); try done. }
  rewrite Hmi in HF, Hpr. simpl in HF, Hpr.
  exists impl', (concat blocks). repeat split; try done.
  - rewrite Hpr. apply has_error_SetProperties_kError.
  - apply Forall2_concat_blocks in HF.
    unfold left_driven_pairs. rewrite omap_bind_list. exact HF.
Qed.

(** The value of [ComputeFinal] and the calls it makes: [Times] of the
    two final weights as [FilterFinal] leaves them; when the final weight at
    s1 is Zero the result is Zero and neither the final weight at s2 nor the
    filter is consulted; when the final weight at s2 is Zero the result is
    Zero and the filter is not called. *)
Lemma ComputeFinal_value (s : Z) (impl : Impl) (s1 s2 : Z) (fs : FS) :
  Tuple (state_table_ impl) s = Some (s1, s2, fs) →
  let final1 := MFinal matcher1_ s1 in
  let final2 := MFinal matcher2_ s2 in
  ComputeFinal filter_ matcher1_ matcher2_ s impl
  = Some (if bool_decide (final1 = Zero) then (Zero, [CallFinal1 s1], impl)
          else if bool_decide (final2 = Zero)
          then (Zero, [CallFinal1 s1; CallFinal2 s2], impl)
          else (Times (FilterFinal filter_ (s1, s2, fs) final1 final2).1
                      (FilterFinal filter_ (s1, s2, fs) final1 final2).2,
                [CallFinal1 s1; CallFinal2 s2; CallSetState (s1, s2, fs);
                 CallFilterFinal final1 final2],
                filter_SetState (s1, s2, fs) impl)).
Proof.
  intros Htuple final1 final2.
  unfold ComputeFinal. rewrite Htuple. fold final1 final2.
  case_bool_decide as H1; [by rewrite H1|].
  case_bool_decide as H2; [by rewrite H2|].
  simpl. by destruct (FilterFinal filter_ (s1, s2, fs) final1 final2).
Qed.

(** C7, as the code has it: when the match type is not fixed to one
    side, the side is chosen at each state from the two priorities: the
    right operand's matcher is the one queried (the left operand is driven)
    when it requires to be, or when the left operand's matcher does not
    require to be and its priority is at most the right one's; otherwise the
    left operand's matcher is queried.  On equal priorities the right
    operand's matcher is queried, and the state is expanded with the left
    operand driven. *)
Theorem Expand_priority_choice (s : Z) (impl : Impl) (s1 s2 : Z) (fs : FS) :
  Tuple (state_table_ impl) s = Some (s1, s2, fs) →
  match_type_ impl ≠ MATCH_INPUT →
  match_type_ impl ≠ MATCH_OUTPUT →
  let priority1 := Priority matcher1_ s1 in
  let priority2 := Priority matcher2_ s2 in
  ((MatchInput matcher1_ matcher2_ s1 s2 impl).1 = true ↔
   priority2 = kRequirePriority ∨
   (priority1 ≠ kRequirePriority ∧ priority1 <= priority2)) ∧
  (priority1 = priority2 → priority1 ≠ kRequirePriority →
   Expand filter_ matcher1_ matcher2_ s impl
   = Some (OrderedExpand filter_ s s2 (fst1_ matcher1_) s1 matcher2_ true
             (filter_SetState (s1, s2, fs) impl))).
Proof.
  intros Htuple Hni Hno priority1 priority2. split.
  - unfold MatchInput. fold priority1 priority2.
    destruct (match_type_ impl); try done;
      repeat case_bool_decide; simpl; split; intros; try done;
      try (right; split; done); try lia; try tauto.
  - intros Heq Hreq.
    rewrite (Expand_unfold s impl s1 s2 fs Htuple). cbn zeta.
    unfold MatchInput. fold priority1 priority2.
    replace (match_type_ (filter_SetState (s1, s2, fs) impl))
      with (match_type_ impl) by reflexivity.
    destruct (match_type_ impl); try done;
      rewrite (bool_decide_eq_false_2 (priority1 = kRequirePriority)) by done;
      rewrite (bool_decide_eq_false_2 (priority2 = kRequirePriority))
        by congruence;
      rewrite (bool_decide_eq_true_2 (priority1 <= priority2)) by lia;
      reflexivity.
Qed.

End ComposeClaims.

(** *** The engine on the example automata *)


(** With a filter that rewrites the left input label, the emitted arcs
    carry the label the filter wrote. *)
Example Expand_relabel_filter :
  (fun impl' => map ilabel (CachedArcs 0 (cache_store_ impl'))) <$>
    Expand relabel_filter sorted_matcher1 sorted_matcher2 0
      (example_impl sorted_matcher1 sorted_matcher2)
  = Some [7; 7; 7; 7].
Proof. reflexivity. Qed.

Lemma Expand_arc_order_witness :
  Tuple (state_table_ (example_impl sorted_matcher1 sorted_matcher2)) 0
  = Some (0, 0, true) ∧
  ∃ impl' blocks,
    Expand accept_all_filter sorted_matcher1 sorted_matcher2 0
      (example_impl sorted_matcher1 sorted_matcher2) = Some impl' ∧
    CachedArcs 0 (cache_store_ impl')
    = CachedArcs 0 (cache_store_ (example_impl sorted_matcher1 sorted_matcher2))
      ++ concat blocks ∧
    Forall2 (fun arc block =>
               Forall2 (emitted_as (state_table_ impl'))
                 (omap (accepted accept_all_filter (0, 0, true))
                    (submitted true sorted_matcher2 0 arc))
                 block)
            (synthetic_loop true 0 :: Arcs (fst1_ sorted_matcher1) 0) blocks ∧
    (HasArcs 0 (cache_store_ (example_impl sorted_matcher1 sorted_matcher2))
     = false →
     ImplArcs accept_all_filter sorted_matcher1 sorted_matcher2 0
       (example_impl sorted_matcher1 sorted_matcher2)
     = Some (CachedArcs 0
               (cache_store_ (example_impl sorted_matcher1 sorted_matcher2))
             ++ concat blocks, impl')).
Proof.
  split; [reflexivity|].
  apply (Expand_arc_order accept_all_filter sorted_matcher1 sorted_matcher2 0
           (example_impl sorted_matcher1 sorted_matcher2) 0 0 true).
  reflexivity.
Defined.

(** The arcs of the start state of the example, as its arc iterator
    reads them: the left operand is driven, so that the matches of its first
    arc come before those of its second arc. *)
Example ImplArcs_example :
  fst <$> ImplArcs accept_all_filter sorted_matcher1 sorted_matcher2 0
            (example_impl sorted_matcher1 sorted_matcher2)
  = Some [mkArc 1 5 (Trop 11) 1; mkArc 1 6 (Trop 21) 2;
          mkArc 2 5 (Trop 12) 3; mkArc 2 6 (Trop 22) 4].
Proof. reflexivity. Qed.

Lemma Expand_both_require_witness :
  Tuple (state_table_ (example_impl require_matcher1 require_matcher2)) 0
  = Some (0, 0, true) ∧
  ∃ impl' new,
    Expand accept_all_filter require_matcher1 require_matcher2 0
      (example_impl require_matcher1 require_matcher2) = Some impl' ∧
    has_error (properties_ impl') = true ∧
    HasArcs 0 (cache_store_ impl') = true ∧
    CachedArcs 0 (cache_store_ impl')
    = CachedArcs 0 (cache_store_ (example_impl require_matcher1 require_matcher2))
      ++ new ∧
    Forall2 (emitted_as (state_table_ impl'))
      (omap (accepted accept_all_filter (0, 0, true))
         (left_driven_pairs require_matcher2 (fst1_ require_matcher1) 0 0))
      new.
Proof.
  split; [reflexivity|].
  apply (Expand_both_require accept_all_filter require_matcher1
           require_matcher2 0 (example_impl require_matcher1 require_matcher2)
           0 0 true); try reflexivity; discriminate.
Defined.

(** C3 as stated fails: both matchers report [kRequirePriority] at the
    start state of the example, the error property is set, and the state is
    expanded: it receives four arcs and is marked as expanded. *)
Lemma Expand_both_require_produces_arcs :
  Priority require_matcher1 0 = kRequirePriority ∧
  Priority require_matcher2 0 = kRequirePriority ∧
  match_type_ (example_impl require_matcher1 require_matcher2) = MATCH_BOTH ∧
  CachedArcs 0 (cache_store_ (example_impl require_matcher1 require_matcher2))
  = [] ∧
  (fun impl' => (has_error (properties_ impl'),
                 HasArcs 0 (cache_store_ impl'),
                 CachedArcs 0 (cache_store_ impl'))) <$>
    Expand accept_all_filter require_matcher1 require_matcher2 0
      (example_impl require_matcher1 require_matcher2)
  = Some (true, true,
          [mkArc 1 5 (Trop 11) 1; mkArc 1 6 (Trop 21) 2;
           mkArc 2 5 (Trop 12) 3; mkArc 2 6 (Trop 22) 4]).
Proof. repeat split. Qed.

Lemma Expand_priority_choice_witness :
  Tuple (state_table_ (example_impl sorted_matcher1 sorted_matcher2)) 0
  = Some (0, 0, true) ∧
  Priority sorted_matcher1 0 = Priority sorted_matcher2 0 ∧
  Expand accept_all_filter sorted_matcher1 sorted_matcher2 0
    (example_impl sorted_matcher1 sorted_matcher2)
  = Some (OrderedExpand accept_all_filter 0 0 (fst1_ sorted_matcher1) 0
            sorted_matcher2 true
            (filter_SetState (0, 0, true)
               (example_impl sorted_matcher1 sorted_matcher2))).
Proof.
  split; [reflexivity|]. split; [reflexivity|].
  destruct (Expand_priority_choice accept_all_filter sorted_matcher1
              sorted_matcher2 0 (example_impl sorted_matcher1 sorted_matcher2)
              0 0 true) as [_ Htie]; [reflexivity | discriminate | discriminate |].
  apply Htie; [reflexivity | discriminate].
Defined.

(** C7 as stated fails: at the start state of the example both
    priorities are 2; the state is expanded with the right operand's
    matcher queried, and the arcs come in another order than they would
    with the left operand's matcher queried. *)
Lemma Expand_tie_matches_on_matcher2 :
  Priority sorted_matcher1 0 = 2 ∧
  Priority sorted_matcher2 0 = 2 ∧
  match_type_ (example_impl sorted_matcher1 sorted_matcher2) = MATCH_BOTH ∧
  map (fun o => (ilabel o, olabel o)) <$>
    (fst <$> ImplArcs accept_all_filter sorted_matcher1 sorted_matcher2 0
               (example_impl sorted_matcher1 sorted_matcher2))
  = Some [(1, 5); (1, 6); (2, 5); (2, 6)] ∧
  map (fun o => (ilabel o, olabel o))
    (CachedArcs 0
       (cache_store_
          (OrderedExpand accept_all_filter 0 0 (fst1_ sorted_matcher1) 0
             sorted_matcher2 true
             (filter_SetState (0, 0, true)
                (example_impl sorted_matcher1 sorted_matcher2)))))
  = [(1, 5); (1, 6); (2, 5); (2, 6)] ∧
  map (fun o => (ilabel o, olabel o))
    (CachedArcs 0
       (cache_store_
          (OrderedExpand accept_all_filter 0 0 (fst2_ sorted_matcher2) 0
             sorted_matcher1 false
             (filter_SetState (0, 0, true)
                (example_impl sorted_matcher1 sorted_matcher2)))))
  = [(1, 5); (2, 5); (1, 6); (2, 6)].
Proof. repeat split. Qed.

(** ** Connect *)

(** *** Vectors *)

Section VectorFacts.

Context {A : Type}.

Lemma length_vset (v : list A) (i : Z) (x : A) : length (vset v i x) = length v.
Proof. unfold vset. case_bool_decide; [apply length_insert | reflexivity]. Qed.

Lemma vget_vset_same (d : A) (v : list A) (i : Z) (x : A) :
  0 <= i < Z.of_nat (length v) → vget d (vset v i x) i = x.
Proof.
  intros Hi. unfold vget, vset. rewrite !bool_decide_eq_true_2 by lia.
  rewrite list_lookup_insert_eq by lia. reflexivity.
Qed.

Lemma vget_vset_other (d : A) (v : list A) (i j : Z) (x : A) :
  j ≠ i → vget d (vset v i x) j = vget d v j.
Proof.
  intros Hne. unfold vget, vset.
  case_bool_decide as Hj; [|reflexivity].
  case_bool_decide as Hi; [|reflexivity].
  rewrite list_lookup_insert_ne by lia. reflexivity.
Qed.

Lemma vget_vset (d : A) (v : list A) (i j : Z) (x : A) :
  0 <= i < Z.of_nat (length v) →
  vget d (vset v i x) j = if decide (j = i) then x else vget d v j.
Proof.
  intros Hi. destruct (decide (j = i)) as [->|Hne].
  - by apply vget_vset_same.
  - by apply vget_vset_other.
Qed.

Lemma vget_outside (d : A) (v : list A) (j : Z) :
  Z.of_nat (length v) <= j → vget d v j = d.
Proof.
  intros Hj. unfold vget. case_bool_decide; [|reflexivity].
  rewrite lookup_ge_None_2 by lia. reflexivity.
Qed.

Lemma vget_grow (d : A) (v : list A) (size : nat) (s j : Z) :
  vget d (grow size s d v) j = vget d v j.
Proof.
  unfold vget, grow. case_bool_decide; [|reflexivity].
  destruct (decide (Z.to_nat j < length v)%nat) as [Hlt|Hge].
  - by rewrite lookup_app_l.
  - rewrite lookup_app_r by lia. rewrite (lookup_ge_None_2 v) by lia. simpl.
    destruct (replicate _ d !! _) as [y|] eqn:Hy; [|reflexivity].
    apply lookup_replicate in Hy as [-> _]. reflexivity.
Qed.

Lemma length_grow (v : list A) (s : Z) (d : A) :
  length (grow (length v) s d v) = (length v `max` (Z.to_nat s + 1))%nat.
Proof. unfold grow. rewrite length_app, length_replicate. lia. Qed.

End VectorFacts.

Lemma white_count_insert (l : list Color) (i : nat) (c : Color) :
  l !! i = Some kDfsWhite → c ≠ kDfsWhite →
  S (length (filter (fun c => c = kDfsWhite) (<[i:=c]> l)))
  = length (filter (fun c => c = kDfsWhite) l).
Proof.
  intros Hl Hc. revert i Hl.
  induction l as [|x l IH]; intros i Hl; [done|].
  destruct i as [|i]; simpl in Hl.
  - injection Hl as ->. simpl insert.
    rewrite filter_cons_False by done. by rewrite filter_cons_True.
  - simpl insert. rewrite !filter_cons.
    destruct (decide (x = kDfsWhite)); simpl; rewrite <- (IH i Hl); done.
Qed.

Lemma white_count_insert_nonwhite (l : list Color) (i : nat) (c c' : Color) :
  l !! i = Some c' → c' ≠ kDfsWhite → c ≠ kDfsWhite →
  length (filter (fun c => c = kDfsWhite) (<[i:=c]> l))
  = length (filter (fun c => c = kDfsWhite) l).
Proof.
  intros Hl Hc' Hc. revert i Hl.
  induction l as [|x l IH]; intros i Hl; [done|].
  destruct i as [|i]; simpl in Hl.
  - injection Hl as ->. simpl insert. by rewrite !filter_cons_False.
  - simpl insert. rewrite !filter_cons.
    destruct (decide (x = kDfsWhite)); simpl; rewrite (IH i Hl); done.
Qed.

(** *** The callbacks, read through the fields *)

Section CallbackFacts.

Context {W : Type} `{Weight W}.
Variable fst : MutableFst W.

Local Ltac unfold_fields :=
  unfold dfn, low, onstk, coacc, acc, stk, cnt, color_of, with_visitor,
    set_color; simpl.

Lemma valid_state_nat (s : Z) :
  valid_state fst s → 0 <= s < Z.of_nat (length (states fst)).
Proof. intros Hs. exact Hs. Qed.

(** [InitState] *)

Lemma discovered_color (d : DfsState) (s root t : Z) :
  Shape fst d → valid_state fst s →
  color_of (discovered s root d) t
  = if decide (t = s) then kDfsGrey else color_of d t.
Proof.
  intros Hsh Hs. unfold discovered. unfold_fields.
  apply vget_vset. rewrite (sh_colors _ _ Hsh). exact Hs.
Qed.

Lemma discovered_stk (d : DfsState) (s root : Z) :
  stk (discovered s root d) = s :: stk d.
Proof.
  unfold discovered, InitState. unfold_fields.
  by destruct (bool_decide (root = start_ (visitor d))).
Qed.

Lemma discovered_cnt (d : DfsState) (s root : Z) :
  cnt (discovered s root d) = cnt d + 1.
Proof.
  unfold discovered, InitState. unfold_fields.
  by destruct (bool_decide (root = start_ (visitor d))).
Qed.

Lemma discovered_dfn (d : DfsState) (s root t : Z) :
  0 <= s →
  dfn (discovered s root d) t = if decide (t = s) then cnt d else dfn d t.
Proof.
  intros Hs. unfold discovered, InitState. unfold_fields.
  destruct (bool_decide (root = start_ (visitor d))); simpl;
    (rewrite vget_vset by (rewrite length_grow; lia));
    destruct (decide (t = s)); try reflexivity; apply vget_grow.
Qed.

Lemma discovered_low (d : DfsState) (s root t : Z) :
  Shape fst d → 0 <= s →
  low (discovered s root d) t = if decide (t = s) then cnt d else low d t.
Proof.
  intros Hsh Hs. unfold discovered, InitState. unfold_fields.
  rewrite <- (sh_lowlink _ _ Hsh).
  destruct (bool_decide (root = start_ (visitor d))); simpl;
    (rewrite vget_vset by (rewrite length_grow; lia));
    destruct (decide (t = s)); try reflexivity; apply vget_grow.
Qed.

Lemma discovered_onstk (d : DfsState) (s root t : Z) :
  Shape fst d → 0 <= s →
  onstk (discovered s root d) t = if decide (t = s) then true else onstk d t.
Proof.
  intros Hsh Hs. unfold discovered, InitState. unfold_fields.
  rewrite <- (sh_onstack _ _ Hsh).
  destruct (bool_decide (root = start_ (visitor d))); simpl;
    (rewrite vget_vset by (rewrite length_grow; lia));
    destruct (decide (t = s)); try reflexivity; apply vget_grow.
Qed.

Lemma discovered_coacc (d : DfsState) (s root t : Z) :
  coacc (discovered s root d) t = coacc d t.
Proof.
  unfold discovered, InitState. unfold_fields.
  destruct (bool_decide (root = start_ (visitor d))); simpl; apply vget_grow.
Qed.

Lemma discovered_acc (d : DfsState) (s root t : Z) :
  Shape fst d → 0 <= s →
  acc (discovered s root d) t
  = if decide (t = s) then bool_decide (root = start fst) else acc d t.
Proof.
  intros Hsh Hs. unfold discovered, InitState. unfold_fields.
  rewrite <- (sh_access _ _ Hsh). rewrite <- (sh_start _ _ Hsh).
  destruct (bool_decide (root = start_ (visitor d))) eqn:Hroot; simpl;
    (rewrite vget_vset by (rewrite length_grow; lia));
    destruct (decide (t = s)); try reflexivity; apply vget_grow.
Qed.

Lemma discovered_white_count (d : DfsState) (s root : Z) :
  Shape fst d → valid_state fst s → color_of d s = kDfsWhite →
  S (white_count (discovered s root d)) = white_count d.
Proof.
  intros Hsh Hs Hwhite. unfold discovered, white_count. unfold_fields.
  unfold color_of, vget in Hwhite. unfold vset.
  destruct Hs as [Hs0 Hsn]. unfold NumStates in Hsn.
  rewrite <- (sh_colors _ _ Hsh) in Hsn.
  rewrite bool_decide_eq_true_2 in Hwhite by lia.
  rewrite bool_decide_eq_true_2 by lia.
  apply white_count_insert; [|done].
  destruct (state_color d !! Z.to_nat s) as [c|] eqn:Hc; simpl in Hwhite.
  - by subst c.
  - apply lookup_ge_None in Hc. lia.
Qed.

Lemma discovered_Shape (d : DfsState) (s root : Z) :
  Shape fst d → valid_state fst s → s ∉ stk d →
  Shape fst (discovered s root d).
Proof.
  intros Hsh Hs Hnotin.
  assert (Hlen : ∀ (B : Type) (x : B) (v : list B) (y : B),
             length v = length (dfnumber_ (visitor d)) →
             length (vset (grow (length (dfnumber_ (visitor d))) s x v) s y)
             = (length (dfnumber_ (visitor d)) `max` (Z.to_nat s + 1))%nat).
  { intros B x v y Hv. rewrite length_vset, <- Hv. apply length_grow. }
  destruct Hs as [Hs0 Hsn]. unfold NumStates in Hsn.
  split.
  - unfold discovered. unfold_fields. rewrite length_vset. apply Hsh.
  - unfold discovered, InitState. unfold_fields.
    destruct (bool_decide _); simpl; rewrite !Hlen; try done; apply Hsh.
  - unfold discovered, InitState. unfold_fields.
    destruct (bool_decide _); simpl; rewrite Hlen by done;
      unfold grow; rewrite length_app, length_replicate;
      rewrite (sh_coaccess _ _ Hsh); lia.
  - unfold discovered, InitState. unfold_fields.
    destruct (bool_decide _); simpl; rewrite !Hlen; try done; apply Hsh.
  - unfold discovered, InitState. unfold_fields.
    destruct (bool_decide _); simpl; rewrite !Hlen; try done; apply Hsh.
  - unfold discovered, InitState. unfold_fields.
    destruct (bool_decide _); simpl; rewrite Hlen by done;
      pose proof (sh_size _ _ Hsh); lia.
  - intros t Ht. rewrite discovered_color in Ht by done.
    assert (Hl : length (dfnumber_ (visitor (discovered s root d)))
                 = (length (dfnumber_ (visitor d)) `max` (Z.to_nat s + 1))%nat).
    { unfold discovered, InitState. unfold_fields.
      destruct (bool_decide _); simpl; by rewrite Hlen. }
    rewrite Hl. destruct (decide (t = s)) as [->|Hne]; [lia|].
    pose proof (sh_nonwhite _ _ Hsh t Ht). lia.
  - intros t. rewrite discovered_onstk, discovered_stk by done.
    destruct (decide (t = s)) as [->|Hne].
    + split; [intros _; left | done].
    + rewrite (sh_onstk _ _ Hsh), elem_of_cons.
      split; [by right | by intros [?|?]].
  - unfold discovered, InitState. unfold_fields.
    destruct (bool_decide _); simpl; apply Hsh.
Qed.

(** [BackArc], [ForwardOrCrossArc] and the first and last parts of
    [FinishState] touch the lowlink and the flag of one state. *)

Lemma BackArc_GreyUpdate (d : DfsState) (s : Z) (arc : Arc W) :
  GreyUpdate s d (with_visitor (BackArc s arc) d).
Proof.
  split; try reflexivity; unfold BackArc; unfold_fields.
  - case_bool_decide; [apply length_vset | reflexivity].
  - destruct (vget false _ _); [apply length_vset | reflexivity].
  - intros t Hne. case_bool_decide; [by apply vget_vset_other | reflexivity].
  - case_bool_decide as Hlt; [|lia].
    destruct (decide (0 <= s < Z.of_nat (length (lowlink_ (visitor d)))))
      as [Hin|Hout].
    + rewrite vget_vset_same by done. lia.
    + unfold vset, vget. case_bool_decide; [|lia].
      rewrite list_insert_ge by lia. lia.
  - intros t Hne.
    destruct (vget false _ (nextstate arc));
      [by apply vget_vset_other | reflexivity].
  - intros Hs. destruct (vget false _ (nextstate arc)); [|done].
    destruct (decide (0 <= s < Z.of_nat (length (coaccess_ (visitor d)))))
      as [Hin|Hout].
    + by rewrite vget_vset_same.
    + unfold vget in Hs. unfold vset, vget. case_bool_decide; [|done].
      by rewrite list_insert_ge by lia.
Qed.

Lemma BackArc_low (d : DfsState) (s : Z) (arc : Arc W) :
  0 <= s < Z.of_nat (length (lowlink_ (visitor d))) →
  low (with_visitor (BackArc s arc) d) s
  = Z.min (low d s) (dfn d (nextstate arc)).
Proof.
  intros Hin. unfold BackArc. unfold_fields.
  case_bool_decide; [rewrite vget_vset_same by done|]; lia.
Qed.

Lemma BackArc_coacc (d : DfsState) (s : Z) (arc : Arc W) :
  0 <= s < Z.of_nat (length (coaccess_ (visitor d))) →
  coacc (with_visitor (BackArc s arc) d) s
  = coacc d (nextstate arc) || coacc d s.
Proof.
  intros Hin. unfold BackArc. unfold_fields.
  destruct (vget false _ (nextstate arc)); [by rewrite vget_vset_same | done].
Qed.

Lemma ForwardOrCrossArc_GreyUpdate (d : DfsState) (s : Z) (arc : Arc W) :
  GreyUpdate s d (with_visitor (ForwardOrCrossArc s arc) d).
Proof.
  split; try reflexivity; unfold ForwardOrCrossArc; unfold_fields.
  - destruct (_ && _ && _); [apply length_vset | reflexivity].
  - destruct (vget false _ _); [apply length_vset | reflexivity].
  - intros t Hne. destruct (_ && _ && _);
      [by apply vget_vset_other | reflexivity].
  - destruct (_ && _ && _) eqn:Hc; [|lia].
    apply andb_prop in Hc as [_ Hlt]. apply bool_decide_eq_true in Hlt.
    destruct (decide (0 <= s < Z.of_nat (length (lowlink_ (visitor d)))))
      as [Hin|Hout].
    + rewrite vget_vset_same by done. lia.
    + unfold vset, vget. case_bool_decide; [|lia].
      rewrite list_insert_ge by lia. lia.
  - intros t Hne.
    destruct (vget false _ (nextstate arc));
      [by apply vget_vset_other | reflexivity].
  - intros Hs. destruct (vget false _ (nextstate arc)); [|done].
    destruct (decide (0 <= s < Z.of_nat (length (coaccess_ (visitor d)))))
      as [Hin|Hout].
    + by rewrite vget_vset_same.
    + unfold vget in Hs. unfold vset, vget. case_bool_decide; [|done].
      by rewrite list_insert_ge by lia.
Qed.

Lemma ForwardOrCrossArc_low (d : DfsState) (s : Z) (arc : Arc W) :
  0 <= s < Z.of_nat (length (lowlink_ (visitor d))) →
  low (with_visitor (ForwardOrCrossArc s arc) d) s
  = if bool_decide (dfn d (nextstate arc) < dfn d s) &&
       onstk d (nextstate arc)
    then Z.min (low d s) (dfn d (nextstate arc)) else low d s.
Proof.
  intros Hin. unfold ForwardOrCrossArc. unfold_fields.
  destruct (bool_decide (_ < vget (-1) (dfnumber_ _) s)); simpl; [|done].
  destruct (vget false (onstack_ _) _); simpl; [|done].
  case_bool_decide; [rewrite vget_vset_same by done|]; lia.
Qed.

Lemma ForwardOrCrossArc_coacc (d : DfsState) (s : Z) (arc : Arc W) :
  0 <= s < Z.of_nat (length (coaccess_ (visitor d))) →
  coacc (with_visitor (ForwardOrCrossArc s arc) d) s
  = coacc d (nextstate arc) || coacc d s.
Proof.
  intros Hin. unfold ForwardOrCrossArc. unfold_fields.
  destruct (vget false _ (nextstate arc)); [by rewrite vget_vset_same | done].
Qed.

Lemma finish_final_GreyUpdate (d : DfsState) (s : Z) :
  GreyUpdate s d (with_visitor (finish_final fst s) d).
Proof.
  split; try reflexivity; unfold finish_final; unfold_fields; try lia.
  - case_bool_decide; [apply length_vset | reflexivity].
  - intros t Hne. case_bool_decide; [by apply vget_vset_other | reflexivity].
  - intros Hs. case_bool_decide; [|done].
    destruct (decide (0 <= s < Z.of_nat (length (coaccess_ (visitor d)))))
      as [Hin|Hout].
    + by rewrite vget_vset_same.
    + unfold vget in Hs. unfold vset, vget. case_bool_decide; [|done].
      by rewrite list_insert_ge by lia.
Qed.

Lemma finish_final_coacc (d : DfsState) (s : Z) :
  0 <= s < Z.of_nat (length (coaccess_ (visitor d))) →
  coacc (with_visitor (finish_final fst s) d) s
  = bool_decide (is_final fst s) || coacc d s.
Proof.
  intros Hin. unfold finish_final, is_final. unfold_fields.
  case_bool_decide; [by rewrite vget_vset_same | done].
Qed.

Lemma finish_parent_GreyUpdate (d : DfsState) (s p : Z) :
  GreyUpdate p d (with_visitor (finish_parent s p) d).
Proof.
  unfold finish_parent. case_bool_decide as Hp.
  2:{ split; try reflexivity; unfold_fields; try done; lia. }
  split; try reflexivity; unfold_fields.
  - case_bool_decide; [apply length_vset | reflexivity].
  - destruct (vget false _ _); [apply length_vset | reflexivity].
  - intros t Hne. case_bool_decide; [by apply vget_vset_other | reflexivity].
  - case_bool_decide as Hlt; [|lia].
    destruct (decide (0 <= p < Z.of_nat (length (lowlink_ (visitor d)))))
      as [Hin|Hout].
    + rewrite vget_vset_same by done. lia.
    + unfold vset, vget. case_bool_decide; [|lia].
      rewrite list_insert_ge by lia. lia.
  - intros t Hne.
    destruct (vget false _ s); [by apply vget_vset_other | reflexivity].
  - intros Hs. destruct (vget false _ s); [|done].
    destruct (decide (0 <= p < Z.of_nat (length (coaccess_ (visitor d)))))
      as [Hin|Hout].
    + by rewrite vget_vset_same.
    + unfold vget in Hs. unfold vset, vget. case_bool_decide; [|done].
      by rewrite list_insert_ge by lia.
Qed.

Lemma finish_parent_fields (d : DfsState) (s p : Z) :
  0 <= p < Z.of_nat (length (lowlink_ (visitor d))) →
  length (coaccess_ (visitor d)) = length (lowlink_ (visitor d)) →
  s ≠ p →
  low (with_visitor (finish_parent s p) d) p = Z.min (low d p) (low d s) ∧
  coacc (with_visitor (finish_parent s p) d) p = coacc d s || coacc d p.
Proof.
  intros Hin Hlen Hne. unfold finish_parent.
  rewrite bool_decide_eq_true_2 by (unfold kNoStateId; lia).
  unfold_fields. split.
  - case_bool_decide; [rewrite vget_vset_same by done|]; lia.
  - destruct (vget false _ s); [|done].
    by rewrite vget_vset_same by lia.
Qed.

(** [FinishState] is its three parts in sequence. *)
Lemma FinishState_parts (s p : Z) (v : SccVisitor) :
  FinishState fst s p v
  = finish_parent s p (finish_pop s (finish_final fst s v)).
Proof.
  unfold FinishState, finish_parent, finish_pop, finish_final. simpl.
  case_bool_decide as Hroot; simpl.
  - destruct (pop_scc s _ (scc_stack_ v) _ (onstack_ v)) as [[stack co] on].
    simpl. by case_bool_decide.
  - by case_bool_decide.
Qed.

End CallbackFacts.


(** *** The stack *)

Section StackFacts.

Context {W : Type} `{Weight W}.
Variable fst : MutableFst W.

Lemma vget_raise (b : bool) (co : list bool) (x t : Z) :
  0 <= x < Z.of_nat (length co) →
  vget false (if b then vset co x true else co) t
  = if decide (t = x) then b || vget false co x else vget false co t.
Proof.
  intros Hx. destruct b; simpl.
  - by apply vget_vset.
  - by destruct (decide (t = x)) as [->|].
Qed.

Lemma pop_scc_spec (s : Z) (b : bool) (above below : list Z)
    (co on : list bool) :
  s ∉ above →
  (∀ t, t ∈ above ++ [s] → 0 <= t < Z.of_nat (length co)) →
  length on = length co →
  ∃ co' on',
    pop_scc s b (above ++ s :: below) co on = (below, co', on') ∧
    length co' = length co ∧ length on' = length on ∧
    (∀ t, t ∈ above ++ [s] → vget false co' t = b || vget false co t) ∧
    (∀ t, t ∉ above ++ [s] → vget false co' t = vget false co t) ∧
    (∀ t, t ∈ above ++ [s] → vget false on' t = false) ∧
    (∀ t, t ∉ above ++ [s] → vget false on' t = vget false on t).
Proof.
  revert co on. induction above as [|x above IH]; intros co on Hs Hin Hlen.
  - simpl. rewrite bool_decide_eq_true_2 by done.
    eexists _, _. split; [reflexivity|].
    assert (Hs' : 0 <= s < Z.of_nat (length co)) by (apply Hin; left).
    split; [by destruct b; rewrite ?length_vset|].
    split; [by rewrite length_vset|].
    repeat split; intros t Ht.
    + apply list_elem_of_singleton in Ht as ->.
      rewrite vget_raise by done. by rewrite decide_True.
    + rewrite list_elem_of_singleton in Ht.
      rewrite vget_raise by done. by rewrite decide_False.
    + apply list_elem_of_singleton in Ht as ->.
      by rewrite vget_vset_same by lia.
    + rewrite list_elem_of_singleton in Ht. by rewrite vget_vset_other.
  - simpl. apply not_elem_of_cons in Hs as [Hsx Hs].
    rewrite bool_decide_eq_false_2 by done.
    assert (Hx : 0 <= x < Z.of_nat (length co)) by (apply Hin; left).
    destruct (IH (if b then vset co x true else co) (vset on x false) Hs)
      as (co' & on' & Hpop & Hlc & Hlo & Hco1 & Hco2 & Hon1 & Hon2).
    { intros t Ht. destruct b; rewrite ?length_vset; apply Hin; by right. }
    { destruct b; rewrite ?length_vset; done. }
    exists co', on'. split; [exact Hpop|].
    split; [destruct b; rewrite Hlc, ?length_vset; done|].
    split; [by rewrite Hlo, length_vset|].
    repeat split; intros t Ht.
    + destruct (decide (t ∈ above ++ [s])) as [Hin'|Hout].
      * rewrite Hco1, vget_raise by done.
        destruct (decide (t = x)) as [->|]; [|done].
        by destruct b, (vget false co x).
      * apply elem_of_cons in Ht as [->|Ht]; [|done].
        rewrite Hco2, vget_raise by done. by rewrite decide_True.
    + apply not_elem_of_cons in Ht as [Hne Ht].
      rewrite Hco2, vget_raise by done. by rewrite decide_False.
    + destruct (decide (t ∈ above ++ [s])) as [Hin'|Hout].
      * by apply Hon1.
      * apply elem_of_cons in Ht as [->|Ht]; [|done].
        rewrite Hon2 by done. by rewrite vget_vset_same by lia.
    + apply not_elem_of_cons in Ht as [Hne Ht].
      rewrite Hon2 by done. by rewrite vget_vset_other.
Qed.

Lemma scc_coaccess_of_spec (s : Z) (co : list bool) (above below : list Z) :
  s ∉ above →
  scc_coaccess_of s co (above ++ s :: below) = true ↔
  ∃ w, w ∈ above ++ [s] ∧ vget false co w = true.
Proof.
  induction above as [|x above IH]; intros Hs; simpl.
  - rewrite bool_decide_eq_true_2 by done. rewrite orb_false_r. split.
    + intros Hw. exists s. split; [left | done].
    + intros (w & Hw & Hco). by apply list_elem_of_singleton in Hw as ->.
  - apply not_elem_of_cons in Hs as [Hsx Hs].
    rewrite bool_decide_eq_false_2 by done.
    rewrite orb_true_iff, (IH Hs). split.
    + intros [Hx | (w & Hw & Hco)].
      * exists x. split; [left | done].
      * exists w. split; [by right | done].
    + intros (w & Hw & Hco). apply elem_of_cons in Hw as [->|Hw].
      * by left.
      * right. by exists w.
Qed.

(** Sortedness of the stack. *)

Lemma sorted_stack_lt (d : DfsState) (l1 l2 : list Z) (u v : Z) :
  sorted_stack d → stk d = l1 ++ l2 → u ∈ l1 → v ∈ l2 → dfn d v < dfn d u.
Proof.
  unfold sorted_stack. intros Hsorted Hstk Hu Hv. rewrite Hstk in Hsorted.
  by apply (StronglySorted_app_1_elem_of _ _ _ _ _ Hsorted Hu Hv).
Qed.

Lemma sorted_stack_inj (d : DfsState) (u v : Z) :
  sorted_stack d → u ∈ stk d → v ∈ stk d → dfn d u = dfn d v → u = v.
Proof.
  unfold sorted_stack. intros Hsorted Hu Hv Heq.
  induction Hsorted as [|a l Hl IH Hall]; [by apply elem_of_nil in Hu|].
  rewrite Forall_forall in Hall.
  apply elem_of_cons in Hu as [->|Hu]; apply elem_of_cons in Hv as [->|Hv].
  - done.
  - specialize (Hall v Hv). simpl in Hall. lia.
  - specialize (Hall u Hu). simpl in Hall. lia.
  - by apply IH.
Qed.

Lemma sorted_stack_NoDup (d : DfsState) : sorted_stack d → NoDup (stk d).
Proof.
  unfold sorted_stack. intros Hsorted.
  induction Hsorted as [|a l Hl IH Hall]; constructor; [|done].
  rewrite Forall_forall in Hall. intros Ha. specialize (Hall a Ha).
  simpl in Hall. lia.
Qed.

(** The two sides of a state on the stack. *)
Lemma sorted_stack_split (d : DfsState) (s : Z) (above below : list Z) :
  sorted_stack d → stk d = above ++ s :: below →
  (s ∉ above) ∧ (s ∉ below) ∧
  (∀ t, t ∈ above → dfn d s < dfn d t) ∧
  (∀ t, t ∈ below → dfn d t < dfn d s) ∧
  (∀ t, t ∈ stk d → dfn d s < dfn d t → t ∈ above) ∧
  (∀ t, t ∈ stk d → dfn d t < dfn d s → t ∈ below).
Proof.
  intros Hsorted Hstk.
  assert (Ha : ∀ t, t ∈ above → dfn d s < dfn d t).
  { intros t Ht. apply (sorted_stack_lt d above (s :: below)); try done.
    left. }
  assert (Hb : ∀ t, t ∈ below → dfn d t < dfn d s).
  { intros t Ht.
    apply (sorted_stack_lt d (above ++ [s]) below); try done.
    - by rewrite <- app_assoc.
    - apply elem_of_app. right. left. }
  repeat split; try done.
  - intros Hin. specialize (Ha s Hin). lia.
  - intros Hin. specialize (Hb s Hin). lia.
  - intros t Ht Hlt. rewrite Hstk in Ht.
    apply elem_of_app in Ht as [Ht|Ht]; [done|].
    apply elem_of_cons in Ht as [->|Ht]; [lia|]. specialize (Hb t Ht). lia.
  - intros t Ht Hlt. rewrite Hstk in Ht.
    apply elem_of_app in Ht as [Ht|Ht].
    + specialize (Ha t Ht). lia.
    + apply elem_of_cons in Ht as [->|Ht]; [lia | done].
Qed.

End StackFacts.

(** *** Consequences of the invariant *)

Section InvariantFacts.

Context {W : Type} `{Weight W}.
Variable fst : MutableFst W.

Lemma color_of_negative (d : DfsState) (t : Z) :
  t < 0 → color_of d t = kDfsWhite.
Proof.
  intros Ht. unfold color_of, vget. by rewrite bool_decide_eq_false_2 by lia.
Qed.

Lemma GI_range (d : DfsState) (t : Z) :
  GI fst d → color_of d t ≠ kDfsWhite →
  0 <= t < Z.of_nat (length (dfnumber_ (visitor d))).
Proof. intros Hgi. apply (sh_nonwhite _ _ (gi_shape _ _ Hgi)). Qed.

Lemma GI_valid (d : DfsState) (t : Z) :
  GI fst d → color_of d t ≠ kDfsWhite → valid_state fst t.
Proof.
  intros Hgi Ht. pose proof (GI_range d t Hgi Ht).
  pose proof (sh_size _ _ (gi_shape _ _ Hgi)).
  unfold valid_state, NumStates. lia.
Qed.

Lemma popped_not_grey (d : DfsState) (t : Z) :
  GI fst d → color_of d t ≠ kDfsWhite → t ∉ stk d → popped d t.
Proof.
  intros Hgi Hnw Hnot. split; [|done].
  destruct (color_of d t) eqn:Hc; try done.
  exfalso. apply Hnot. by apply (gi_grey_stack _ _ Hgi).
Qed.

(** Every state on the stack from the state under visit upwards reaches
    the state under visit. *)
Lemma reach_top_grey (d : DfsState) (s t : Z) :
  GI fst d → TopGrey d s → t ∈ stk d → dfn d s <= dfn d t → reach fst t s.
Proof.
  intros Hgi [Hgrey Htop] Ht Hle.
  assert (Hs : s ∈ stk d) by by apply (gi_grey_stack _ _ Hgi).
  remember (Z.to_nat (dfn d t - dfn d s)) as k eqn:Hk.
  revert t Ht Hle Hk. induction k as [k IH] using lt_wf_ind.
  intros t Ht Hle Hk.
  destruct (decide (dfn d t = dfn d s)) as [Heq|Hne].
  { rewrite (sorted_stack_inj d t s (gi_sorted _ _ Hgi) Ht Hs Heq).
    apply rtc_refl. }
  assert (Hblack : color_of d t = kDfsBlack) by (apply Htop; [done|lia]).
  pose proof (gi_black_low _ _ Hgi t Ht Hblack) as Hlow.
  destruct (gi_low _ _ Hgi t Ht) as (_ & z & Hz & Hdz & Hreach).
  unfold reach in *. etrans; [exact Hreach|].
  destruct (decide (dfn d s <= dfn d z)) as [Hge|Hlt].
  - apply (IH (Z.to_nat (dfn d z - dfn d s))); try done. lia.
  - apply (gi_reach _ _ Hgi); [done | done | lia].
Qed.

(** Frames *)

Lemma Frame_refl (d : DfsState) (p : Z) : Frame d d p.
Proof.
  split; try done; try lia.
  exists []. split; [done|]. intros t Ht. by apply elem_of_nil in Ht.
Qed.

Lemma Frame_white (d0 d : DfsState) (p t : Z) :
  Frame d0 d p → color_of d t = kDfsWhite → color_of d0 t = kDfsWhite.
Proof.
  intros Hfr Hw. destruct (decide (color_of d0 t = kDfsWhite)) as [|Hnw];
    [done|].
  rewrite <- (fr_col_old _ _ _ Hfr t Hnw). done.
Qed.

Lemma Frame_trans (d0 d1 d2 : DfsState) (p : Z) :
  Frame d0 d1 p → Frame d1 d2 p → Frame d0 d2 p.
Proof.
  intros H1 H2.
  assert (Hnw : ∀ t, color_of d0 t ≠ kDfsWhite → color_of d1 t ≠ kDfsWhite).
  { intros t Ht. by rewrite (fr_col_old _ _ _ H1 t Ht). }
  split.
  - intros t Ht. rewrite (fr_col_old _ _ _ H2) by auto.
    by apply (fr_col_old _ _ _ H1).
  - intros t Ht. rewrite (fr_dfn_old _ _ _ H2) by auto.
    by apply (fr_dfn_old _ _ _ H1).
  - pose proof (fr_cnt _ _ _ H1). pose proof (fr_cnt _ _ _ H2). lia.
  - intros t Hw Hnw2.
    destruct (decide (color_of d1 t = kDfsWhite)) as [Hw1|Hnw1].
    + pose proof (fr_dfn_new _ _ _ H2 t Hw1 Hnw2).
      pose proof (fr_cnt _ _ _ H1). lia.
    + rewrite (fr_dfn_old _ _ _ H2 t Hnw1).
      by apply (fr_dfn_new _ _ _ H1).
  - destruct (fr_stk _ _ _ H1) as (seg1 & Hs1 & Hw1).
    destruct (fr_stk _ _ _ H2) as (seg2 & Hs2 & Hw2).
    exists (seg2 ++ seg1). split.
    + by rewrite Hs2, Hs1, app_assoc.
    + intros t Ht. apply elem_of_app in Ht as [Ht|Ht]; [|by apply Hw1].
      apply (Frame_white d0 d1 p); [done | by apply Hw2].
  - intros t Ht Hne. rewrite (fr_low_old _ _ _ H2) by auto.
    by apply (fr_low_old _ _ _ H1).
  - intros Hp. pose proof (fr_low_p _ _ _ H1 Hp).
    pose proof (fr_low_p _ _ _ H2 (Hnw p Hp)). lia.
  - intros t Ht Hne. rewrite (fr_coacc_old _ _ _ H2) by auto.
    by apply (fr_coacc_old _ _ _ H1).
  - intros Hp Hc. apply (fr_coacc_p _ _ _ H2); [by apply Hnw|].
    by apply (fr_coacc_p _ _ _ H1).
  - intros t Ht. rewrite (fr_acc_old _ _ _ H2) by auto.
    by apply (fr_acc_old _ _ _ H1).
  - pose proof (fr_white _ _ _ H1). pose proof (fr_white _ _ _ H2). lia.
Qed.

(** The exception of a frame does not matter when it is a state that
    was undiscovered at the start. *)
Lemma Frame_exception (d0 d : DfsState) (p p' : Z) :
  Frame d0 d p → color_of d0 p = kDfsWhite → Frame d0 d p'.
Proof.
  intros Hfr Hp. split; try apply Hfr.
  - intros t Ht Hne. apply (fr_low_old _ _ _ Hfr); [done|]. congruence.
  - intros Hp'. rewrite (fr_low_old _ _ _ Hfr p' Hp'); [lia|]. congruence.
  - intros t Ht Hne. apply (fr_coacc_old _ _ _ Hfr); [done|]. congruence.
  - intros Hp' Hc. rewrite (fr_coacc_old _ _ _ Hfr p' Hp'); [done|].
    congruence.
Qed.

Lemma StronglySorted_ext_in {A : Type} (R R' : A → A → Prop) (l : list A) :
  (∀ a b, a ∈ l → b ∈ l → R a b → R' a b) →
  StronglySorted R l → StronglySorted R' l.
Proof.
  intros Himpl Hsorted. induction Hsorted as [|a l Hl IH Hall].
  - constructor.
  - constructor.
    + apply IH. intros x y Hx Hy. apply Himpl; by right.
    + rewrite Forall_forall in *. intros x Hx.
      apply Himpl; [left | by right | by apply Hall].
Qed.

Lemma sorted_stack_ext (d d' : DfsState) :
  stk d' = stk d → (∀ t, t ∈ stk d → dfn d' t = dfn d t) →
  sorted_stack d → sorted_stack d'.
Proof.
  unfold sorted_stack. intros Hstk Hdfn. rewrite Hstk.
  apply StronglySorted_ext_in. intros a b Ha Hb.
  by rewrite (Hdfn a Ha), (Hdfn b Hb).
Qed.

(** Updates of the lowlink and flag of one state *)

Lemma GreyUpdate_color (s : Z) (d d' : DfsState) (t : Z) :
  GreyUpdate s d d' → color_of d' t = color_of d t.
Proof. intros Hgu. unfold color_of. by rewrite (gu_color _ _ _ Hgu). Qed.

Lemma GreyUpdate_dfn (s : Z) (d d' : DfsState) (t : Z) :
  GreyUpdate s d d' → dfn d' t = dfn d t.
Proof. intros Hgu. unfold dfn. by rewrite (gu_dfnumber _ _ _ Hgu). Qed.

Lemma GreyUpdate_stk (s : Z) (d d' : DfsState) :
  GreyUpdate s d d' → stk d' = stk d.
Proof. intros Hgu. apply (gu_stack _ _ _ Hgu). Qed.

Lemma GreyUpdate_cnt (s : Z) (d d' : DfsState) :
  GreyUpdate s d d' → cnt d' = cnt d.
Proof. intros Hgu. apply (gu_nstates _ _ _ Hgu). Qed.

Lemma GreyUpdate_acc (s : Z) (d d' : DfsState) (t : Z) :
  GreyUpdate s d d' → acc d' t = acc d t.
Proof. intros Hgu. unfold acc. by rewrite (gu_access _ _ _ Hgu). Qed.

Lemma GreyUpdate_onstk (s : Z) (d d' : DfsState) (t : Z) :
  GreyUpdate s d d' → onstk d' t = onstk d t.
Proof. intros Hgu. unfold onstk. by rewrite (gu_onstack _ _ _ Hgu). Qed.

Lemma GreyUpdate_white_count (s : Z) (d d' : DfsState) :
  GreyUpdate s d d' → white_count d' = white_count d.
Proof. intros Hgu. unfold white_count. by rewrite (gu_color _ _ _ Hgu). Qed.

Lemma GreyUpdate_popped (s : Z) (d d' : DfsState) (t : Z) :
  GreyUpdate s d d' → popped d' t ↔ popped d t.
Proof.
  intros Hgu. unfold popped.
  by rewrite (GreyUpdate_color s d d' t Hgu), (GreyUpdate_stk s d d' Hgu).
Qed.

Lemma GreyUpdate_coacc_mono (s : Z) (d d' : DfsState) (t : Z) :
  GreyUpdate s d d' → coacc d t = true → coacc d' t = true.
Proof.
  intros Hgu Hc. destruct (decide (t = s)) as [->|Hne].
  - by apply (gu_coacc_mono _ _ _ Hgu).
  - by rewrite (gu_coacc_other _ _ _ Hgu).
Qed.

Lemma GreyUpdate_Shape (s : Z) (d d' : DfsState) :
  GreyUpdate s d d' → Shape fst d → Shape fst d'.
Proof.
  intros Hgu Hsh. split.
  - rewrite (gu_color _ _ _ Hgu). apply Hsh.
  - rewrite (gu_access _ _ _ Hgu), (gu_dfnumber _ _ _ Hgu). apply Hsh.
  - rewrite (gu_len_coacc _ _ _ Hgu), (gu_dfnumber _ _ _ Hgu). apply Hsh.
  - rewrite (gu_len_low _ _ _ Hgu), (gu_dfnumber _ _ _ Hgu). apply Hsh.
  - rewrite (gu_onstack _ _ _ Hgu), (gu_dfnumber _ _ _ Hgu). apply Hsh.
  - rewrite (gu_dfnumber _ _ _ Hgu). apply Hsh.
  - intros t. rewrite (GreyUpdate_color s d d' t Hgu).
    rewrite (gu_dfnumber _ _ _ Hgu). apply Hsh.
  - intros t. rewrite (GreyUpdate_onstk s d d' t Hgu).
    rewrite (GreyUpdate_stk s d d' Hgu). apply Hsh.
  - rewrite (gu_start _ _ _ Hgu). apply Hsh.
Qed.

(** The invariant is kept when the lowlink and the flag of a state that
    is not finished are updated with a sound value. *)
Lemma GI_GreyUpdate (s : Z) (d d' : DfsState) :
  GI fst d → GreyUpdate s d d' →
  color_of d s ≠ kDfsBlack →
  (s ∈ stk d → ∃ z, z ∈ stk d ∧ dfn d z = low d' s ∧ reach fst s z) →
  (coacc d' s = true → coaccessible fst s) →
  GI fst d'.
Proof.
  intros Hgi Hgu Hs Hlow Hsound.
  pose proof (GreyUpdate_stk s d d' Hgu) as Hstk.
  split.
  - apply (GreyUpdate_Shape s d d' Hgu), (gi_shape _ _ Hgi).
  - rewrite (GreyUpdate_cnt s d d' Hgu). apply (gi_cnt _ _ Hgi).
  - intros t. rewrite Hstk, (GreyUpdate_color s d d' t Hgu).
    apply (gi_stack_nonwhite _ _ Hgi).
  - intros t. rewrite Hstk, (GreyUpdate_color s d d' t Hgu).
    apply (gi_grey_stack _ _ Hgi).
  - intros t. rewrite (GreyUpdate_color s d d' t Hgu),
      (GreyUpdate_dfn s d d' t Hgu), (GreyUpdate_cnt s d d' Hgu).
    apply (gi_dfn_range _ _ Hgi).
  - apply (sorted_stack_ext d d'); [done | | apply (gi_sorted _ _ Hgi)].
    intros t _. apply (GreyUpdate_dfn s d d' t Hgu).
  - intros t. rewrite Hstk. intros Ht.
    rewrite (GreyUpdate_dfn s d d' t Hgu).
    destruct (gi_low _ _ Hgi t Ht) as (Hle & z & Hz & Hdz & Hreach).
    destruct (decide (t = s)) as [->|Hne].
    + pose proof (gu_low_le _ _ _ Hgu). split; [lia|].
      destruct (Hlow Ht) as (z' & Hz' & Hdz' & Hr').
      exists z'. by rewrite (GreyUpdate_dfn s d d' z' Hgu).
    + rewrite (gu_low_other _ _ _ Hgu t Hne). split; [done|].
      exists z. by rewrite (GreyUpdate_dfn s d d' z Hgu).
  - intros u v. rewrite Hstk, !(GreyUpdate_dfn s d d' _ Hgu).
    apply (gi_reach _ _ Hgi).
  - intros t. rewrite Hstk, (GreyUpdate_color s d d' t Hgu),
      (GreyUpdate_dfn s d d' t Hgu).
    intros Ht Hb. rewrite (gu_low_other _ _ _ Hgu).
    + by apply (gi_black_low _ _ Hgi).
    + intros ->. done.
  - intros t Ht. destruct (decide (t = s)) as [->|Hne]; [by apply Hsound|].
    rewrite (gu_coacc_other _ _ _ Hgu t Hne) in Ht.
    by apply (gi_sound _ _ Hgi).
  - intros t u. rewrite !(GreyUpdate_color s d d' _ Hgu).
    apply (gi_black_succ _ _ Hgi).
  - intros t. rewrite (GreyUpdate_color s d d' t Hgu). intros Hb Hf.
    apply (GreyUpdate_coacc_mono s d d' t Hgu).
    by apply (gi_black_final _ _ Hgi).
  - intros t. rewrite (GreyUpdate_popped s d d' t Hgu). intros Hp Hc.
    apply (GreyUpdate_coacc_mono s d d' t Hgu).
    by apply (gi_popped_exact _ _ Hgi).
  - intros t u. rewrite !(GreyUpdate_popped s d d' _ Hgu).
    apply (gi_popped_closed _ _ Hgi).
  - intros t u. rewrite Hstk, (GreyUpdate_color s d d' t Hgu),
      (GreyUpdate_popped s d d' u Hgu).
    intros Hb Ht He Hp Hc.
    apply (GreyUpdate_coacc_mono s d d' t Hgu).
    apply (gi_black_prop _ _ Hgi t u); try done.
    rewrite <- (gu_coacc_other _ _ _ Hgu); [done|].
    intros ->. destruct Hp as [Hp _]. done.
Qed.

Lemma Frame_GreyUpdate (d0 d d' : DfsState) (s p : Z) :
  Frame d0 d p → GreyUpdate s d d' →
  (s = p ∨ color_of d0 s = kDfsWhite) →
  Frame d0 d' p.
Proof.
  intros Hfr Hgu Hs. split.
  - intros t. rewrite (GreyUpdate_color s d d' t Hgu).
    apply (fr_col_old _ _ _ Hfr).
  - intros t. rewrite (GreyUpdate_dfn s d d' t Hgu).
    apply (fr_dfn_old _ _ _ Hfr).
  - rewrite (GreyUpdate_cnt s d d' Hgu). apply (fr_cnt _ _ _ Hfr).
  - intros t. rewrite (GreyUpdate_color s d d' t Hgu),
      (GreyUpdate_dfn s d d' t Hgu). apply (fr_dfn_new _ _ _ Hfr).
  - rewrite (GreyUpdate_stk s d d' Hgu). apply (fr_stk _ _ _ Hfr).
  - intros t Ht Hne. rewrite (gu_low_other _ _ _ Hgu).
    + by apply (fr_low_old _ _ _ Hfr).
    + intros ->. destruct Hs as [->|Hs]; done.
  - intros Hp. pose proof (fr_low_p _ _ _ Hfr Hp).
    destruct (decide (p = s)) as [->|Hne].
    + pose proof (gu_low_le _ _ _ Hgu). lia.
    + by rewrite (gu_low_other _ _ _ Hgu).
  - intros t Ht Hne. rewrite (gu_coacc_other _ _ _ Hgu).
    + by apply (fr_coacc_old _ _ _ Hfr).
    + intros ->. destruct Hs as [->|Hs]; done.
  - intros Hp Hc. apply (GreyUpdate_coacc_mono s d d' p Hgu).
    by apply (fr_coacc_p _ _ _ Hfr).
  - intros t. rewrite (GreyUpdate_acc s d d' t Hgu).
    apply (fr_acc_old _ _ _ Hfr).
  - rewrite (GreyUpdate_white_count s d d' Hgu). apply (fr_white _ _ _ Hfr).
Qed.

End InvariantFacts.

(** *** The steps of the traversal *)

Section DfsSteps.

Context {W : Type} `{Weight W}.
Variable fst : MutableFst W.
Hypothesis Hwf : wf_fst fst.

Lemma popped_discovered (d0 : DfsState) (s root t : Z) :
  GI fst d0 → valid_state fst s → color_of d0 s = kDfsWhite →
  popped (discovered s root d0) t ↔ popped d0 t.
Proof.
  intros Hgi Hvalid Hwhite. unfold popped.
  rewrite (discovered_color fst d0 s root t (gi_shape _ _ Hgi) Hvalid),
    discovered_stk, not_elem_of_cons.
  destruct (decide (t = s)) as [->|Hne].
  - rewrite Hwhite. split; [intros [? _] | intros [? _]]; done.
  - tauto.
Qed.

(** Discovering a state establishes the invariant of its loop. *)
Lemma discover_LoopInv (root s p : Z) (d0 : DfsState) :
  DfsPre fst s p d0 →
  LoopInv fst root s p d0 (discovered s root d0) [].
Proof.
  intros (Hgi & Hvalid & Hwhite & Hparent).
  pose proof (gi_shape _ _ Hgi) as Hsh.
  assert (Hs0 : 0 <= s) by apply Hvalid.
  set (d1 := discovered s root d0).
  assert (Hcol : ∀ t, color_of d1 t
                      = if decide (t = s) then kDfsGrey else color_of d0 t)
    by (intros t; by apply (discovered_color fst)).
  assert (Hdfn : ∀ t, dfn d1 t = if decide (t = s) then cnt d0 else dfn d0 t)
    by (intros t; by apply discovered_dfn).
  assert (Hlow : ∀ t, low d1 t = if decide (t = s) then cnt d0 else low d0 t)
    by (intros t; by apply (discovered_low fst)).
  assert (Hco : ∀ t, coacc d1 t = coacc d0 t)
    by (intros t; apply discovered_coacc).
  assert (Hacc : ∀ t, acc d1 t = if decide (t = s)
                                 then bool_decide (root = start fst)
                                 else acc d0 t)
    by (intros t; by apply (discovered_acc fst)).
  assert (Hstk : stk d1 = s :: stk d0) by apply discovered_stk.
  assert (Hcnt : cnt d1 = cnt d0 + 1) by apply discovered_cnt.
  assert (Hnotin : s ∉ stk d0).
  { intros Hin. by apply (gi_stack_nonwhite _ _ Hgi s Hin). }
  assert (Hold : ∀ t, t ∈ stk d0 → t ≠ s) by (intros t Ht ->; done).
  assert (Hpop : ∀ t, popped d1 t ↔ popped d0 t)
    by (intros t; by apply popped_discovered).
  pose proof (gi_cnt _ _ Hgi) as Hcnt0.
  assert (Hgi1 : GI fst d1).
  { split.
    - by apply discovered_Shape.
    - lia.
    - intros t. rewrite Hstk, Hcol. intros Ht.
      destruct (decide (t = s)); [done|].
      apply elem_of_cons in Ht as [?|Ht]; [done|].
      by apply (gi_stack_nonwhite _ _ Hgi).
    - intros t. rewrite Hstk, Hcol.
      destruct (decide (t = s)) as [->|Hne]; [intros _; left|].
      intros Hg. right. by apply (gi_grey_stack _ _ Hgi).
    - intros t. rewrite Hcol, Hdfn, Hcnt.
      destruct (decide (t = s)); [lia|]. intros Hnw.
      pose proof (gi_dfn_range _ _ Hgi t Hnw). lia.
    - unfold sorted_stack. rewrite Hstk. apply SSorted_cons.
      + apply (StronglySorted_ext_in (fun a b => dfn d0 b < dfn d0 a));
          [|apply (gi_sorted _ _ Hgi)].
        intros a b Ha Hb. rewrite !Hdfn.
        by rewrite !decide_False by (by apply Hold).
      + rewrite Forall_forall. intros b Hb. rewrite !Hdfn.
        rewrite (decide_True _ _ (eq_refl s)).
        rewrite decide_False by (by apply Hold).
        apply (gi_dfn_range _ _ Hgi). by apply (gi_stack_nonwhite _ _ Hgi).
    - intros t. rewrite Hstk, Hlow, Hdfn. intros Ht.
      destruct (decide (t = s)) as [->|Hne].
      + split; [lia|]. exists s. split; [left|].
        rewrite Hdfn, decide_True by done. split; [done | apply rtc_refl].
      + apply elem_of_cons in Ht as [?|Ht]; [done|].
        destruct (gi_low _ _ Hgi t Ht) as (Hle & z & Hz & Hdz & Hreach).
        split; [done|]. exists z. split; [by right|].
        rewrite Hdfn, decide_False by (by apply Hold). done.
    - intros u v. rewrite Hstk, !Hdfn. intros Hu Hv Hle.
      apply elem_of_cons in Hu as [->|Hu];
        apply elem_of_cons in Hv as [->|Hv].
      + apply rtc_refl.
      + rewrite decide_True in Hle by done.
        rewrite decide_False in Hle by (by apply Hold).
        pose proof (gi_dfn_range _ _ Hgi v
                      (gi_stack_nonwhite _ _ Hgi v Hv)). lia.
      + destruct Hparent as [(_ & Hempty & _) | (Hp0 & Htop & Hedge)].
        { rewrite Hempty in Hu. by apply elem_of_nil in Hu. }
        apply (rtc_r _ p); [|exact Hedge].
        assert (Hp : p ∈ stk d0)
          by (apply (gi_grey_stack _ _ Hgi); apply Htop).
        destruct (decide (dfn d0 p <= dfn d0 u)).
        * by apply (reach_top_grey fst d0).
        * apply (gi_reach _ _ Hgi); [done | done | lia].
      + rewrite !decide_False in Hle by (by apply Hold).
        by apply (gi_reach _ _ Hgi).
    - intros t. rewrite Hstk, Hcol, Hlow, Hdfn.
      destruct (decide (t = s)); [done|]. intros Ht Hb.
      apply elem_of_cons in Ht as [?|Ht]; [done|].
      by apply (gi_black_low _ _ Hgi).
    - intros t. rewrite Hco. apply (gi_sound _ _ Hgi).
    - intros t u. rewrite !Hcol.
      destruct (decide (t = s)); [done|]. intros Hb He.
      destruct (decide (u = s)); [done|].
      by apply (gi_black_succ _ _ Hgi t u).
    - intros t. rewrite Hcol, Hco.
      destruct (decide (t = s)); [done|]. apply (gi_black_final _ _ Hgi).
    - intros t. rewrite Hpop, Hco. apply (gi_popped_exact _ _ Hgi).
    - intros t u. rewrite !Hpop. apply (gi_popped_closed _ _ Hgi).
    - intros t u. rewrite Hstk, Hcol, Hpop, !Hco.
      destruct (decide (t = s)); [done|]. intros Hb Ht.
      apply elem_of_cons in Ht as [?|Ht]; [done|].
      by apply (gi_black_prop _ _ Hgi). }
  split.
  - exact Hgi1.
  - split.
    + rewrite Hcol. by rewrite decide_True.
    + intros t. rewrite Hstk, !Hdfn. rewrite (decide_True _ _ (eq_refl s)).
      intros Ht Hlt. destruct (decide (t = s)); [lia|].
      apply elem_of_cons in Ht as [?|Ht]; [done|].
      pose proof (gi_dfn_range _ _ Hgi t (gi_stack_nonwhite _ _ Hgi t Ht)).
      lia.
  - rewrite Hdfn. by rewrite decide_True.
  - split.
    + intros t Ht. rewrite Hcol. rewrite decide_False; [done|].
      intros ->. done.
    + intros t Ht. rewrite Hdfn. rewrite decide_False; [done|].
      intros ->. done.
    + lia.
    + intros t Hw. rewrite Hcol, Hdfn.
      destruct (decide (t = s)); [lia | done].
    + exists [s]. split; [done|]. intros t Ht.
      by apply list_elem_of_singleton in Ht as ->.
    + intros t Ht Hne. rewrite Hlow. by rewrite decide_False.
    + done.
    + intros t Ht Hne. apply Hco.
    + done.
    + intros t Ht. rewrite Hacc. rewrite decide_False; [done|].
      intros ->. done.
    + pose proof (discovered_white_count fst d0 s root Hsh Hvalid Hwhite).
      fold d1 in H0. lia.
  - intros t Hw Hne. rewrite Hcol. rewrite decide_False by done.
    rewrite Hw. done.
  - exists []. split; [done|]. intros t Ht. by apply elem_of_nil in Ht.
  - intros t Hw. rewrite Hcol, Hacc.
    destruct (decide (t = s)) as [->|Hne]; [|done].
    intros _. split; [done | apply rtc_refl].
  - pose proof (discovered_white_count fst d0 s root Hsh Hvalid Hwhite).
    fold d1 in H0. lia.
  - intros a Ha. by apply elem_of_nil in Ha.
  - intros a Ha. by apply elem_of_nil in Ha.
  - intros a Ha. by apply elem_of_nil in Ha.
  - intros y u. rewrite Hstk, !Hdfn. rewrite (decide_True _ _ (eq_refl s)).
    intros Hy Hlt. destruct (decide (y = s)); [lia|].
    apply elem_of_cons in Hy as [?|Hy]; [done|].
    pose proof (gi_dfn_range _ _ Hgi y (gi_stack_nonwhite _ _ Hgi y Hy)).
    lia.
Qed.

(** The loop invariant and the updates of the state under visit *)

Lemma LoopInv_GreyUpdate (root s p : Z) (d0 d d' : DfsState)
    (done : list (Arc W)) :
  LoopInv fst root s p d0 d done → GreyUpdate s d d' → GI fst d' →
  LoopInv fst root s p d0 d' done.
Proof.
  intros Hli Hgu Hgi'.
  pose proof (GreyUpdate_stk s d d' Hgu) as Hstk.
  destruct (li_top _ _ _ _ _ _ _ Hli) as [Hgrey Htop].
  split.
  - exact Hgi'.
  - split.
    + by rewrite (GreyUpdate_color s d d' s Hgu).
    + intros t. rewrite Hstk, !(GreyUpdate_dfn s d d' _ Hgu),
        (GreyUpdate_color s d d' t Hgu). apply Htop.
  - rewrite (GreyUpdate_dfn s d d' s Hgu). apply (li_dfn _ _ _ _ _ _ _ Hli).
  - apply (Frame_GreyUpdate d0 d d' s s); [|done|by left].
    apply (li_frame _ _ _ _ _ _ _ Hli).
  - intros t. rewrite (GreyUpdate_color s d d' t Hgu).
    apply (li_no_grey _ _ _ _ _ _ _ Hli).
  - rewrite Hstk. apply (li_stack _ _ _ _ _ _ _ Hli).
  - intros t. rewrite (GreyUpdate_color s d d' t Hgu),
      (GreyUpdate_acc s d d' t Hgu). apply (li_new _ _ _ _ _ _ _ Hli).
  - rewrite (GreyUpdate_white_count s d d' Hgu).
    apply (li_white _ _ _ _ _ _ _ Hli).
  - intros a. rewrite (GreyUpdate_color s d d' _ Hgu).
    apply (li_done_nonwhite _ _ _ _ _ _ _ Hli).
  - intros a Ha. rewrite (GreyUpdate_popped s d d' _ Hgu). intros Hp Hc.
    apply (GreyUpdate_coacc_mono s d d' s Hgu).
    apply (li_done_prop _ _ _ _ _ _ _ Hli a Ha Hp).
    rewrite <- (gu_coacc_other _ _ _ Hgu); [done|].
    intros Heq. destruct Hp as [Hp _]. rewrite Heq, Hgrey in Hp. done.
  - intros a Ha. rewrite Hstk, !(GreyUpdate_dfn s d d' _ Hgu).
    intros Hin Hlt.
    pose proof (li_done_low _ _ _ _ _ _ _ Hli a Ha Hin Hlt).
    pose proof (gu_low_le _ _ _ Hgu). lia.
  - intros y u. rewrite Hstk, !(GreyUpdate_dfn s d d' _ Hgu).
    intros Hy Hlt He Hu Hlt'.
    pose proof (li_above_low _ _ _ _ _ _ _ Hli y u Hy Hlt He Hu Hlt').
    pose proof (gu_low_le _ _ _ Hgu). lia.
Qed.

Lemma LoopInv_snoc (root s p : Z) (d0 d : DfsState) (done : list (Arc W))
    (a : Arc W) :
  LoopInv fst root s p d0 d done →
  color_of d (nextstate a) ≠ kDfsWhite →
  (popped d (nextstate a) → coacc d (nextstate a) = true →
   coacc d s = true) →
  (nextstate a ∈ stk d → dfn d (nextstate a) < dfn d s →
   low d s <= dfn d (nextstate a)) →
  LoopInv fst root s p d0 d (done ++ [a]).
Proof.
  intros Hli Hnw Hprop Hlow. split; try apply Hli.
  - intros a' Ha'. apply elem_of_app in Ha' as [Ha'|Ha'].
    + by apply (li_done_nonwhite _ _ _ _ _ _ _ Hli).
    + by apply list_elem_of_singleton in Ha' as ->.
  - intros a' Ha'. apply elem_of_app in Ha' as [Ha'|Ha'].
    + by apply (li_done_prop _ _ _ _ _ _ _ Hli).
    + by apply list_elem_of_singleton in Ha' as ->.
  - intros a' Ha'. apply elem_of_app in Ha' as [Ha'|Ha'].
    + by apply (li_done_low _ _ _ _ _ _ _ Hli).
    + by apply list_elem_of_singleton in Ha' as ->.
Qed.

Lemma LoopInv_in_range (root s p : Z) (d0 d : DfsState) (done : list (Arc W)) :
  LoopInv fst root s p d0 d done →
  0 <= s < Z.of_nat (length (lowlink_ (visitor d))) ∧
  0 <= s < Z.of_nat (length (coaccess_ (visitor d))).
Proof.
  intros Hli. pose proof (li_inv _ _ _ _ _ _ _ Hli) as Hgi.
  destruct (li_top _ _ _ _ _ _ _ Hli) as [Hgrey _].
  pose proof (GI_range fst d s Hgi) as Hr. rewrite Hgrey in Hr.
  rewrite (sh_lowlink _ _ (gi_shape _ _ Hgi)),
    (sh_coaccess _ _ (gi_shape _ _ Hgi)).
  split; by apply Hr.
Qed.

(** A back arc *)
Lemma back_LoopInv (root s p : Z) (d0 d : DfsState) (done : list (Arc W))
    (a : Arc W) :
  LoopInv fst root s p d0 d done →
  a ∈ StateArcs fst s →
  color_of d (nextstate a) = kDfsGrey →
  LoopInv fst root s p d0 (with_visitor (BackArc s a) d) (done ++ [a]).
Proof.
  intros Hli Ha Hgrey_t.
  pose proof (li_inv _ _ _ _ _ _ _ Hli) as Hgi.
  destruct (li_top _ _ _ _ _ _ _ Hli) as [Hgrey _].
  destruct (LoopInv_in_range root s p d0 d done Hli) as [Hrl Hrc].
  set (t := nextstate a) in *.
  set (d' := with_visitor (BackArc s a) d).
  pose proof (BackArc_GreyUpdate d s a) as Hgu. fold d' in Hgu.
  assert (Hedge : edge fst s t) by (by exists a).
  assert (Ht : t ∈ stk d) by by apply (gi_grey_stack _ _ Hgi).
  assert (Hlow' : low d' s = Z.min (low d s) (dfn d t))
    by by apply BackArc_low.
  assert (Hco' : coacc d' s = coacc d t || coacc d s)
    by by apply BackArc_coacc.
  assert (Hgi' : GI fst d').
  { apply (GI_GreyUpdate fst s d d'); try done.
    - by rewrite Hgrey.
    - intros Hs. rewrite Hlow'.
      destruct (gi_low _ _ Hgi s Hs) as (_ & z & Hz & Hdz & Hreach).
      destruct (Z.min_spec (low d s) (dfn d t)) as [[_ ->]|[_ ->]].
      + by exists z.
      + exists t. split; [done|]. split; [done|]. by apply rtc_once.
    - rewrite Hco'. intros Hc. apply orb_prop in Hc as [Hc|Hc].
      + destruct (gi_sound _ _ Hgi t Hc) as (f & Hr & Hf).
        exists f. split; [|done]. by apply (rtc_l _ _ t).
      + by apply (gi_sound _ _ Hgi). }
  apply LoopInv_snoc.
  - by apply (LoopInv_GreyUpdate root s p d0 d d').
  - fold t. rewrite (GreyUpdate_color s d d' t Hgu), Hgrey_t. done.
  - fold t. intros [Hb _].
    rewrite (GreyUpdate_color s d d' t Hgu), Hgrey_t in Hb. done.
  - fold t. rewrite !(GreyUpdate_dfn s d d' _ Hgu), Hlow'. lia.
Qed.

(** A forward or cross arc *)
Lemma cross_LoopInv (root s p : Z) (d0 d : DfsState) (done : list (Arc W))
    (a : Arc W) :
  LoopInv fst root s p d0 d done →
  a ∈ StateArcs fst s →
  color_of d (nextstate a) = kDfsBlack →
  LoopInv fst root s p d0 (with_visitor (ForwardOrCrossArc s a) d)
          (done ++ [a]).
Proof.
  intros Hli Ha Hblack_t.
  pose proof (li_inv _ _ _ _ _ _ _ Hli) as Hgi.
  destruct (li_top _ _ _ _ _ _ _ Hli) as [Hgrey _].
  destruct (LoopInv_in_range root s p d0 d done Hli) as [Hrl Hrc].
  set (t := nextstate a) in *.
  set (d' := with_visitor (ForwardOrCrossArc s a) d).
  pose proof (ForwardOrCrossArc_GreyUpdate d s a) as Hgu. fold d' in Hgu.
  assert (Hedge : edge fst s t) by (by exists a).
  assert (Hne : t ≠ s) by (intros Heq; rewrite Heq, Hgrey in Hblack_t; done).
  assert (Hlow' : low d' s
                  = if bool_decide (dfn d t < dfn d s) && onstk d t
                    then Z.min (low d s) (dfn d t) else low d s)
    by by apply ForwardOrCrossArc_low.
  assert (Hco' : coacc d' s = coacc d t || coacc d s)
    by by apply ForwardOrCrossArc_coacc.
  assert (Hgi' : GI fst d').
  { apply (GI_GreyUpdate fst s d d'); try done.
    - by rewrite Hgrey.
    - intros Hs. rewrite Hlow'.
      destruct (gi_low _ _ Hgi s Hs) as (_ & z & Hz & Hdz & Hreach).
      destruct (bool_decide (dfn d t < dfn d s) && onstk d t) eqn:Hc;
        [|by exists z].
      apply andb_prop in Hc as [_ Hon].
      apply (sh_onstk _ _ (gi_shape _ _ Hgi)) in Hon.
      destruct (Z.min_spec (low d s) (dfn d t)) as [[_ ->]|[_ ->]].
      + by exists z.
      + exists t. split; [done|]. split; [done|]. by apply rtc_once.
    - rewrite Hco'. intros Hc. apply orb_prop in Hc as [Hc|Hc].
      + destruct (gi_sound _ _ Hgi t Hc) as (f & Hr & Hf).
        exists f. split; [|done]. by apply (rtc_l _ _ t).
      + by apply (gi_sound _ _ Hgi). }
  apply LoopInv_snoc.
  - by apply (LoopInv_GreyUpdate root s p d0 d d').
  - fold t. rewrite (GreyUpdate_color s d d' t Hgu), Hblack_t. done.
  - fold t. intros _. rewrite (gu_coacc_other _ _ _ Hgu t Hne). intros Hc.
    rewrite Hco', Hc. done.
  - fold t. rewrite (GreyUpdate_stk s d d' Hgu),
      !(GreyUpdate_dfn s d d' _ Hgu), Hlow'.
    intros Hin Hlt.
    apply (sh_onstk _ _ (gi_shape _ _ Hgi)) in Hin. rewrite Hin.
    rewrite bool_decide_eq_true_2 by done. simpl. lia.
Qed.

(** A tree arc: the call on the undiscovered next state is legitimate,
    and what it establishes keeps the invariant of the loop. *)
Lemma tree_DfsPre (root s p : Z) (d0 d : DfsState) (done : list (Arc W))
    (a : Arc W) :
  LoopInv fst root s p d0 d done →
  a ∈ StateArcs fst s →
  color_of d (nextstate a) = kDfsWhite →
  DfsPre fst (nextstate a) s d.
Proof.
  intros Hli Ha Hwhite.
  pose proof (li_inv _ _ _ _ _ _ _ Hli) as Hgi.
  pose proof (li_top _ _ _ _ _ _ _ Hli) as Htop.
  split; [done|]. split; [by apply (proj2 Hwf s a)|]. split; [done|].
  right. split; [|split; [done | by exists a]].
  destruct Htop as [Hgrey _].
  assert (Hv : valid_state fst s) by (apply (GI_valid fst d s Hgi); by rewrite Hgrey).
  apply Hv.
Qed.

Lemma tree_LoopInv (root s p : Z) (d0 d d2 : DfsState) (done : list (Arc W))
    (a : Arc W) :
  LoopInv fst root s p d0 d done →
  a ∈ StateArcs fst s →
  color_of d (nextstate a) = kDfsWhite →
  DfsPost fst root (nextstate a) s d d2 →
  LoopInv fst root s p d0 d2 (done ++ [a]).
Proof.
  intros Hli Ha Hwhite Hpo.
  set (c := nextstate a) in *.
  pose proof (li_inv _ _ _ _ _ _ _ Hli) as Hgi.
  pose proof (po_inv _ _ _ _ _ _ Hpo) as Hgi2.
  pose proof (li_frame _ _ _ _ _ _ _ Hli) as Hfr1.
  pose proof (po_frame _ _ _ _ _ _ Hpo) as Hfr2.
  destruct (li_top _ _ _ _ _ _ _ Hli) as [Hgrey Htop].
  assert (Hsnw : color_of d s ≠ kDfsWhite) by (by rewrite Hgrey).
  assert (Hgrey2 : color_of d2 s = kDfsGrey)
    by (by rewrite (fr_col_old _ _ _ Hfr2 s Hsnw)).
  assert (Hdfn_s : dfn d2 s = dfn d s) by by apply (fr_dfn_old _ _ _ Hfr2).
  assert (Hs0 : 0 <= s) by (by apply (GI_valid fst d s Hgi)).
  assert (Hedge : edge fst s c) by (by exists a).
  destruct (fr_stk _ _ _ Hfr2) as (newseg & Hstk2 & Hnew).
  destruct (li_stack _ _ _ _ _ _ _ Hli) as (above & Hstk & Habove).
  pose proof (gi_dfn_range _ _ Hgi s Hsnw) as Hdfn_range.
  pose proof (po_dfn _ _ _ _ _ _ Hpo) as Hdfn_c. fold c in Hdfn_c.
  assert (Hold_stk : ∀ u, u ∈ stk d2 → color_of d u ≠ kDfsWhite → u ∈ stk d).
  { intros u Hu Hnw. rewrite Hstk2 in Hu.
    apply elem_of_app in Hu as [Hu|Hu]; [|done]. by specialize (Hnew u Hu). }
  assert (Hlow_s : low d2 s <= low d s) by by apply (fr_low_p _ _ _ Hfr2).
  split.
  - exact Hgi2.
  - split; [done|]. intros t Ht Hlt.
    destruct (decide (color_of d t = kDfsWhite)) as [Hw|Hnw].
    + pose proof (gi_stack_nonwhite _ _ Hgi2 t Ht) as Hnw2.
      pose proof (po_no_grey _ _ _ _ _ _ Hpo t Hw) as Hng.
      by destruct (color_of d2 t).
    + rewrite (fr_col_old _ _ _ Hfr2 t Hnw). apply Htop.
      * by apply Hold_stk.
      * rewrite <- (fr_dfn_old _ _ _ Hfr2 t Hnw). lia.
  - rewrite Hdfn_s. apply (li_dfn _ _ _ _ _ _ _ Hli).
  - by apply (Frame_trans d0 d d2).
  - intros t Hw0 Hne.
    destruct (decide (color_of d t = kDfsWhite)) as [Hw|Hnw].
    + by apply (po_no_grey _ _ _ _ _ _ Hpo).
    + rewrite (fr_col_old _ _ _ Hfr2 t Hnw).
      by apply (li_no_grey _ _ _ _ _ _ _ Hli).
  - exists (newseg ++ above). split.
    + by rewrite Hstk2, Hstk, app_assoc.
    + intros t Ht. apply elem_of_app in Ht as [Ht|Ht]; [|by apply Habove].
      apply (Frame_white d0 d s); [done | by apply Hnew].
  - intros t Hw0 Hnw2.
    destruct (decide (color_of d t = kDfsWhite)) as [Hw|Hnw].
    + destruct (po_new _ _ _ _ _ _ Hpo t Hw Hnw2) as [Hacc Hreach].
      split; [done|]. by apply (rtc_l _ _ c).
    + rewrite (fr_acc_old _ _ _ Hfr2 t Hnw).
      by apply (li_new _ _ _ _ _ _ _ Hli).
  - pose proof (po_white _ _ _ _ _ _ Hpo).
    pose proof (li_white _ _ _ _ _ _ _ Hli). lia.
  - intros a' Ha'. apply elem_of_app in Ha' as [Ha'|Ha'].
    + pose proof (li_done_nonwhite _ _ _ _ _ _ _ Hli a' Ha') as Hnw.
      by rewrite (fr_col_old _ _ _ Hfr2 _ Hnw).
    + apply list_elem_of_singleton in Ha' as ->. fold c.
      by rewrite (po_black _ _ _ _ _ _ Hpo).
  - intros a' Ha'. apply elem_of_app in Ha' as [Ha'|Ha'].
    + pose proof (li_done_nonwhite _ _ _ _ _ _ _ Hli a' Ha') as Hnw.
      intros [Hb Hnot] Hc.
      assert (Hne : nextstate a' ≠ s).
      { intros Heq. rewrite Heq, Hgrey2 in Hb. done. }
      apply (fr_coacc_p _ _ _ Hfr2 Hsnw).
      apply (li_done_prop _ _ _ _ _ _ _ Hli a' Ha').
      * split.
        -- by rewrite <- (fr_col_old _ _ _ Hfr2 _ Hnw).
        -- intros Hin. apply Hnot. rewrite Hstk2. apply elem_of_app. by right.
      * by rewrite <- (fr_coacc_old _ _ _ Hfr2 _ Hnw Hne).
    + apply list_elem_of_singleton in Ha' as ->. fold c. intros _.
      by apply (po_coacc_parent _ _ _ _ _ _ Hpo).
  - intros a' Ha'. apply elem_of_app in Ha' as [Ha'|Ha'].
    + pose proof (li_done_nonwhite _ _ _ _ _ _ _ Hli a' Ha') as Hnw.
      rewrite Hdfn_s, (fr_dfn_old _ _ _ Hfr2 _ Hnw). intros Hin Hlt.
      pose proof (li_done_low _ _ _ _ _ _ _ Hli a' Ha'
                    (Hold_stk _ Hin Hnw) Hlt). lia.
    + apply list_elem_of_singleton in Ha' as ->. fold c.
      rewrite Hdfn_s, Hdfn_c. lia.
  - intros y u Hy Hlt He Hu Hlt'. rewrite Hdfn_s in Hlt, Hlt'.
    assert (Hunw : color_of d u ≠ kDfsWhite).
    { intros Hw.
      pose proof (fr_dfn_new _ _ _ Hfr2 u Hw
                    (gi_stack_nonwhite _ _ Hgi2 u Hu)). lia. }
    rewrite (fr_dfn_old _ _ _ Hfr2 u Hunw) in *.
    pose proof (Hold_stk u Hu Hunw) as Hu'.
    destruct (decide (color_of d y = kDfsWhite)) as [Hw|Hnw].
    + assert (Hc : c ∈ stk d2).
      { destruct (po_stack _ _ _ _ _ _ Hpo) as [Hc|[Heq _]]; [done|].
        exfalso. rewrite Heq in Hy.
        by apply (gi_stack_nonwhite _ _ Hgi y Hy). }
      pose proof (fr_dfn_new _ _ _ Hfr2 y Hw
                    (gi_stack_nonwhite _ _ Hgi2 y Hy)) as Hy_dfn.
      pose proof (po_low_bound _ _ _ _ _ _ Hpo Hc y u Hy) as Hb.
      fold c in Hb. rewrite Hdfn_c in Hb.
      rewrite (fr_dfn_old _ _ _ Hfr2 u Hunw) in Hb.
      specialize (Hb Hy_dfn He Hu ltac:(lia)).
      pose proof (po_low_parent _ _ _ _ _ _ Hpo Hs0 Hc). fold c in H0. lia.
    + rewrite (fr_dfn_old _ _ _ Hfr2 y Hnw) in Hlt.
      pose proof (li_above_low _ _ _ _ _ _ _ Hli y u
                    (Hold_stk y Hy Hnw) Hlt He Hu' Hlt'). lia.
Qed.

End DfsSteps.

(** *** Finishing a state *)

Section FinishFacts.

Context {W : Type} `{Weight W}.
Variable fst : MutableFst W.
Hypothesis Hwf : wf_fst fst.

Lemma set_color_color (d : DfsState) (s t : Z) (c : Color) :
  0 <= s < Z.of_nat (length (state_color d)) →
  color_of (set_color s c d) t = if decide (t = s) then c else color_of d t.
Proof. intros Hs. unfold color_of, set_color. simpl. by apply vget_vset. Qed.

Lemma finish_pop_keep (d : DfsState) (s : Z) :
  dfn d s ≠ low d s → with_visitor (finish_pop s) d = d.
Proof.
  intros Hne. unfold with_visitor, finish_pop. unfold dfn, low in Hne.
  rewrite bool_decide_eq_false_2 by done. by destruct d.
Qed.

Lemma finish_pop_PopStep (d : DfsState) (s : Z) (above below : list Z) :
  dfn d s = low d s →
  stk d = above ++ s :: below →
  s ∉ above →
  (∀ t, t ∈ above ++ [s] →
        0 <= t < Z.of_nat (length (coaccess_ (visitor d)))) →
  length (onstack_ (visitor d)) = length (coaccess_ (visitor d)) →
  ∃ b, PopStep (above ++ [s]) below b d (with_visitor (finish_pop s) d).
Proof.
  intros Hroot Hstk Hs Hin Hlen. unfold stk in Hstk.
  exists (scc_coaccess_of s (coaccess_ (visitor d)) (scc_stack_ (visitor d))).
  destruct (pop_scc_spec s
              (scc_coaccess_of s (coaccess_ (visitor d))
                 (scc_stack_ (visitor d)))
              above below (coaccess_ (visitor d)) (onstack_ (visitor d))
              Hs Hin Hlen)
    as (co' & on' & Hpop & Hlc & Hlo & Hc1 & Hc2 & Ho1 & Ho2).
  unfold with_visitor, finish_pop. unfold dfn, low in Hroot.
  rewrite bool_decide_eq_true_2 by done. cbn zeta.
  rewrite <- Hstk in Hpop. rewrite Hpop.
  split; try reflexivity; simpl; try done.
  rewrite Hstk. by apply scc_coaccess_of_spec.
Qed.

Lemma set_color_dfn (d : DfsState) (s t : Z) (c : Color) :
  dfn (set_color s c d) t = dfn d t.
Proof. reflexivity. Qed.

Lemma set_color_low (d : DfsState) (s t : Z) (c : Color) :
  low (set_color s c d) t = low d t.
Proof. reflexivity. Qed.

Lemma set_color_coacc (d : DfsState) (s t : Z) (c : Color) :
  coacc (set_color s c d) t = coacc d t.
Proof. reflexivity. Qed.

Lemma set_color_acc (d : DfsState) (s t : Z) (c : Color) :
  acc (set_color s c d) t = acc d t.
Proof. reflexivity. Qed.

Lemma set_color_onstk (d : DfsState) (s t : Z) (c : Color) :
  onstk (set_color s c d) t = onstk d t.
Proof. reflexivity. Qed.

Lemma set_color_stk (d : DfsState) (s : Z) (c : Color) :
  stk (set_color s c d) = stk d.
Proof. reflexivity. Qed.

Lemma set_color_cnt (d : DfsState) (s : Z) (c : Color) :
  cnt (set_color s c d) = cnt d.
Proof. reflexivity. Qed.

Lemma blacken_white_count (d : DfsState) (s : Z) :
  Shape fst d → color_of d s = kDfsGrey →
  white_count (set_color s kDfsBlack d) = white_count d.
Proof.
  intros Hsh Hgrey. unfold white_count, set_color, vset. simpl.
  assert (Hr : 0 <= s < Z.of_nat (length (dfnumber_ (visitor d)))).
  { apply (sh_nonwhite _ _ Hsh). by rewrite Hgrey. }
  rewrite bool_decide_eq_true_2 by lia.
  unfold color_of, vget in Hgrey. rewrite bool_decide_eq_true_2 in Hgrey by lia.
  destruct (state_color d !! Z.to_nat s) as [c|] eqn:Hc; simpl in Hgrey;
    [|done].
  subst c. by apply (white_count_insert_nonwhite _ _ _ kDfsGrey).
Qed.

Lemma blacken_Shape (d : DfsState) (s : Z) :
  Shape fst d → color_of d s = kDfsGrey →
  Shape fst (set_color s kDfsBlack d).
Proof.
  intros Hsh Hgrey.
  assert (Hr : 0 <= s < Z.of_nat (length (state_color d))).
  { pose proof (sh_nonwhite _ _ Hsh s) as Hr. rewrite Hgrey in Hr.
    pose proof (sh_size _ _ Hsh). rewrite (sh_colors _ _ Hsh).
    specialize (Hr ltac:(done)). lia. }
  split; try apply Hsh.
  - unfold set_color. simpl. rewrite length_vset. apply (sh_colors _ _ Hsh).
  - intros t. rewrite set_color_color by done.
    destruct (decide (t = s)) as [->|Hne].
    + intros _. apply (sh_nonwhite _ _ Hsh). by rewrite Hgrey.
    + apply (sh_nonwhite _ _ Hsh).
Qed.

(** The state under visit is finished and stays on the stack: its
    lowlink is below its number. *)
Lemma finish_keep (root s p : Z) (d0 da : DfsState) :
  GI fst d0 → color_of d0 s = kDfsWhite →
  LoopInv fst root s p d0 da (StateArcs fst s) →
  (is_final fst s → coacc da s = true) →
  dfn da s ≠ low da s →
  DfsPost fst root s s d0 (set_color s kDfsBlack da).
Proof.
  intros Hgi0 Hwhite0 Hli Hfinal Hroot.
  pose proof (li_inv _ _ _ _ _ _ _ Hli) as Hgi.
  pose proof (gi_shape _ _ Hgi) as Hsh.
  pose proof (li_frame _ _ _ _ _ _ _ Hli) as Hfr.
  destruct (li_top _ _ _ _ _ _ _ Hli) as [Hgrey Htop].
  assert (Hs_stk : s ∈ stk da) by by apply (gi_grey_stack _ _ Hgi).
  assert (Hrange : 0 <= s < Z.of_nat (length (state_color da))).
  { pose proof (GI_valid fst da s Hgi) as Hv. rewrite Hgrey in Hv.
    rewrite (sh_colors _ _ Hsh). by apply Hv. }
  assert (Hcol : ∀ t, color_of (set_color s kDfsBlack da) t
                      = if decide (t = s) then kDfsBlack else color_of da t)
    by (intros t; by apply set_color_color).
  assert (Hnw : ∀ t, color_of (set_color s kDfsBlack da) t ≠ kDfsWhite ↔ color_of da t ≠ kDfsWhite).
  { intros t. rewrite Hcol. destruct (decide (t = s)) as [->|]; [|done].
    rewrite Hgrey. done. }
  assert (Hpop : ∀ t, popped (set_color s kDfsBlack da) t ↔ popped da t).
  { intros t. unfold popped. rewrite Hcol, set_color_stk.
    destruct (decide (t = s)) as [->|]; [|done].
    rewrite Hgrey. split; intros [? ?]; done. }
  assert (Hlow_s : low da s < dfn da s).
  { destruct (gi_low _ _ Hgi s Hs_stk) as [Hle _]. lia. }
  assert (Hgik : GI fst (set_color s kDfsBlack da)).
  { split.
    - by apply blacken_Shape.
    - apply (gi_cnt _ _ Hgi).
    - intros t. rewrite set_color_stk, Hnw. apply (gi_stack_nonwhite _ _ Hgi).
    - intros t. rewrite set_color_stk, Hcol.
      destruct (decide (t = s)); [done|]. apply (gi_grey_stack _ _ Hgi).
    - intros t. rewrite Hnw. apply (gi_dfn_range _ _ Hgi).
    - apply (gi_sorted _ _ Hgi).
    - apply (gi_low _ _ Hgi).
    - apply (gi_reach _ _ Hgi).
    - intros t. rewrite set_color_stk, Hcol, set_color_low, set_color_dfn.
      destruct (decide (t = s)) as [->|]; [done|].
      apply (gi_black_low _ _ Hgi).
    - apply (gi_sound _ _ Hgi).
    - intros t u. rewrite Hcol. intros Hb He. apply Hnw.
      destruct (decide (t = s)) as [->|].
      + destruct He as (a & Ha & <-).
        by apply (li_done_nonwhite _ _ _ _ _ _ _ Hli).
      + by apply (gi_black_succ _ _ Hgi t u).
    - intros t. rewrite Hcol, set_color_coacc.
      destruct (decide (t = s)) as [->|]; [intros _; apply Hfinal|].
      apply (gi_black_final _ _ Hgi).
    - intros t. rewrite Hpop. apply (gi_popped_exact _ _ Hgi).
    - intros t u. rewrite !Hpop. apply (gi_popped_closed _ _ Hgi).
    - intros t u. rewrite Hcol, set_color_stk, Hpop, !set_color_coacc.
      destruct (decide (t = s)) as [->|].
      + intros _ _ (a & Ha & <-).
        by apply (li_done_prop _ _ _ _ _ _ _ Hli).
      + apply (gi_black_prop _ _ Hgi). }
  split.
  - exact Hgik.
  - split.
    + intros t Ht. rewrite Hcol. rewrite decide_False by congruence.
      by apply (fr_col_old _ _ _ Hfr).
    + apply (fr_dfn_old _ _ _ Hfr).
    + apply (fr_cnt _ _ _ Hfr).
    + intros t Hw. rewrite Hnw. by apply (fr_dfn_new _ _ _ Hfr).
    + apply (fr_stk _ _ _ Hfr).
    + apply (fr_low_old _ _ _ Hfr).
    + done.
    + apply (fr_coacc_old _ _ _ Hfr).
    + done.
    + apply (fr_acc_old _ _ _ Hfr).
    + rewrite (blacken_white_count da s Hsh Hgrey). apply (fr_white _ _ _ Hfr).
  - rewrite Hcol. by rewrite decide_True.
  - apply (li_dfn _ _ _ _ _ _ _ Hli).
  - intros t Hw. rewrite Hcol. destruct (decide (t = s)); [done|].
    by apply (li_no_grey _ _ _ _ _ _ _ Hli).
  - intros t Hw. rewrite Hnw. by apply (li_new _ _ _ _ _ _ _ Hli).
  - rewrite (blacken_white_count da s Hsh Hgrey).
    apply (li_white _ _ _ _ _ _ _ Hli).
  - done.
  - intros _ _. lia.
  - by left.
  - intros _ y u Hy Hle He Hu Hlt.
    destruct (decide (dfn da y = dfn da s)) as [Heq|Hne].
    + assert (y = s) as ->
        by by apply (sorted_stack_inj da y s (gi_sorted _ _ Hgi)).
      destruct He as (a & Ha & <-).
      by apply (li_done_low _ _ _ _ _ _ _ Hli).
    + apply (li_above_low _ _ _ _ _ _ _ Hli y u); try done.
      change (dfn da s <= dfn da y) in Hle. lia.
Qed.

Lemma StronglySorted_suffix {A : Type} (R : A → A → Prop) (l1 l2 : list A) :
  StronglySorted R (l1 ++ l2) → StronglySorted R l2.
Proof.
  induction l1 as [|a l1 IH]; [done|]. simpl. intros Hs.
  apply IH. by apply StronglySorted_inv in Hs as [? _].
Qed.

(** The state under visit is the root of its component: the component,
    which is the stack down to the state, is popped. *)
Lemma popped_component_post (root s p : Z) (d0 da db : DfsState) (b : bool)
    (above : list Z) :
  GI fst d0 → color_of d0 s = kDfsWhite →
  LoopInv fst root s p d0 da (StateArcs fst s) →
  (is_final fst s → coacc da s = true) →
  dfn da s = low da s →
  stk da = above ++ s :: stk d0 →
  (∀ t, t ∈ above → color_of d0 t = kDfsWhite) →
  PopStep (above ++ [s]) (stk d0) b (set_color s kDfsBlack da) db →
  DfsPost fst root s s d0 db.
Proof.
  intros Hgi0 Hwhite0 Hli Hfinal Hroot Hstk Habove Hps.
  pose proof (li_inv _ _ _ _ _ _ _ Hli) as Hgi.
  pose proof (gi_shape _ _ Hgi) as Hsh.
  pose proof (li_frame _ _ _ _ _ _ _ Hli) as Hfr.
  destruct (li_top _ _ _ _ _ _ _ Hli) as [Hgrey Htop].
  pose proof (blacken_Shape da s Hsh Hgrey) as Hshk.
  destruct (sorted_stack_split da s above (stk d0) (gi_sorted _ _ Hgi) Hstk)
    as (Hs_above & Hs_below & Hab & Hbe & _ & _).
  assert (Hrange : 0 <= s < Z.of_nat (length (state_color da))).
  { pose proof (GI_valid fst da s Hgi) as Hv. rewrite Hgrey in Hv.
    rewrite (sh_colors _ _ Hsh). by apply Hv. }
  assert (Hcol : ∀ t, color_of db t
                      = if decide (t = s) then kDfsBlack else color_of da t).
  { intros t. unfold color_of. rewrite (ps_color _ _ _ _ _ Hps).
    by apply set_color_color. }
  assert (Hdfn : ∀ t, dfn db t = dfn da t).
  { intros t. unfold dfn. by rewrite (ps_dfnumber _ _ _ _ _ Hps). }
  assert (Hlow : ∀ t, low db t = low da t).
  { intros t. unfold low. by rewrite (ps_lowlink _ _ _ _ _ Hps). }
  assert (Hacc : ∀ t, acc db t = acc da t).
  { intros t. unfold acc. by rewrite (ps_access _ _ _ _ _ Hps). }
  assert (Hcnt : cnt db = cnt da) by exact (ps_nstates _ _ _ _ _ Hps).
  assert (Hstkb : stk db = stk d0) by exact (ps_stack _ _ _ _ _ Hps).
  assert (Hflag : b = true ↔ ∃ w, w ∈ above ++ [s] ∧ coacc da w = true)
    by exact (ps_flag _ _ _ _ _ Hps).
  assert (Hco_seg : ∀ t, t ∈ above ++ [s] → coacc db t = b || coacc da t)
    by exact (ps_coacc_seg _ _ _ _ _ Hps).
  assert (Hco_other : ∀ t, t ∉ above ++ [s] → coacc db t = coacc da t)
    by exact (ps_coacc_other _ _ _ _ _ Hps).
  assert (Hwc : white_count db = white_count da).
  { unfold white_count. rewrite (ps_color _ _ _ _ _ Hps).
    by apply blacken_white_count. }
  assert (Hseg : ∀ t, t ∈ above ++ [s] ↔ t ∈ above ∨ t = s).
  { intros t. by rewrite elem_of_app, list_elem_of_singleton. }
  assert (Hin : ∀ t, t ∈ stk da ↔ t ∈ above ++ [s] ∨ t ∈ stk d0).
  { intros t. rewrite Hstk, Hseg, elem_of_app, elem_of_cons. tauto. }
  assert (Hs_stk : s ∈ stk da) by (apply Hin; left; apply Hseg; by right).
  assert (Hseg_dfn : ∀ t, t ∈ above ++ [s] → dfn da s <= dfn da t).
  { intros t [Ht| ->]%Hseg; [specialize (Hab t Ht)|]; lia. }
  assert (Hseg_new : ∀ t, t ∈ above ++ [s] → color_of d0 t = kDfsWhite).
  { intros t [Ht| ->]%Hseg; [by apply Habove | done]. }
  assert (Hseg_old : ∀ t, t ∈ above ++ [s] → t ∉ stk d0).
  { intros t Ht Hold. apply (gi_stack_nonwhite _ _ Hgi0 t Hold).
    by apply Hseg_new. }
  assert (Hseg_black : ∀ t, t ∈ above ++ [s] → t ≠ s →
                            color_of da t = kDfsBlack).
  { intros t [Ht| ->]%Hseg Hne; [|done].
    apply Htop; [apply Hin; left; apply Hseg; by left | by apply Hab]. }
  assert (Hseg_to : ∀ t, t ∈ above ++ [s] → reach fst s t).
  { intros t Ht.
    apply (gi_reach _ _ Hgi); [done | apply Hin; by left | by apply Hseg_dfn]. }
  assert (Hseg_from : ∀ t, t ∈ above ++ [s] → reach fst t s).
  { intros t Ht. apply (reach_top_grey fst da); [done | done | |].
    - apply Hin; by left.
    - by apply Hseg_dfn. }
  assert (Hclosed : ∀ t u, t ∈ above ++ [s] → edge fst t u →
                           u ∈ above ++ [s] ∨ popped da u).
  { intros t u Ht He.
    assert (Hnw : color_of da u ≠ kDfsWhite).
    { destruct (decide (t = s)) as [->|Hne].
      - destruct He as (a & Ha & <-).
        by apply (li_done_nonwhite _ _ _ _ _ _ _ Hli).
      - apply (gi_black_succ _ _ Hgi t u); [by apply Hseg_black | done]. }
    destruct (decide (u ∈ stk da)) as [Hu|Hu].
    - pose proof Hu as Hu'.
      apply Hin in Hu as [Hu|Hu]; [by left|]. exfalso.
      pose proof (Hbe u Hu) as Hlt.
      destruct (decide (t = s)) as [->|Hne].
      + destruct He as (a & Ha & <-).
        pose proof (li_done_low _ _ _ _ _ _ _ Hli a Ha Hu' Hlt). lia.
      + assert (Hta : t ∈ above) by (apply Hseg in Ht as [Ht|Ht]; done).
        assert (Hts : t ∈ stk da) by (apply Hin; by left).
        pose proof (li_above_low _ _ _ _ _ _ _ Hli t u Hts (Hab t Hta)
                      He Hu' Hlt). lia.
    - right. split; [|done].
      destruct (color_of da u) eqn:Hc; [done | | done].
      exfalso. apply Hu. by apply (gi_grey_stack _ _ Hgi). }
  assert (Hpopped : ∀ t, popped db t ↔ popped da t ∨ t ∈ above ++ [s]).
  { intros t. unfold popped. rewrite Hstkb, Hcol. split.
    - intros [Hb Hn]. destruct (decide (t = s)) as [->|Hne].
      + right. apply Hseg. by right.
      + destruct (decide (t ∈ stk da)) as [Ht|Ht].
        * apply Hin in Ht as [Ht|Ht]; [by right | done].
        * by left.
    - intros [[Hb Hn]|Ht].
      + assert (t ≠ s) by (intros ->; done).
        rewrite decide_False by done. split; [done|].
        intros Hold. apply Hn. apply Hin. by right.
      + split; [|by apply Hseg_old].
        destruct (decide (t = s)); [done|]. by apply Hseg_black. }
  assert (Hmono : ∀ t, coacc da t = true → coacc db t = true).
  { intros t Ht. destruct (decide (t ∈ above ++ [s])) as [Hin'|Hin'].
    - rewrite (Hco_seg t Hin'), Ht. by rewrite orb_true_r.
    - by rewrite (Hco_other t Hin'). }
  assert (Hexact : ∀ t f, reach fst t f → is_final fst f → t ∈ above ++ [s] →
                          ∃ w, w ∈ above ++ [s] ∧ coacc da w = true).
  { intros t f Hreach Hf. unfold reach in Hreach.
    induction Hreach as [t|t u f He Hreach IH].
    - intros Ht. exists t. split; [done|].
      destruct (decide (t = s)) as [->|Hne]; [by apply Hfinal|].
      apply (gi_black_final _ _ Hgi); [by apply Hseg_black | done].
    - intros Ht. destruct (Hclosed t u Ht He) as [Hu|Hu]; [by apply IH|].
      assert (Hcu : coacc da u = true).
      { apply (gi_popped_exact _ _ Hgi); [done|]. by exists f. }
      exists t. split; [done|].
      destruct (decide (t = s)) as [->|Hne].
      + destruct He as (a & Ha & <-).
        by apply (li_done_prop _ _ _ _ _ _ _ Hli a).
      + apply (gi_black_prop _ _ Hgi t u); try done.
        * by apply Hseg_black.
        * apply Hin; by left. }
  assert (Hgib : GI fst db).
  { split.
    - split.
      + rewrite (ps_color _ _ _ _ _ Hps). apply (sh_colors _ _ Hshk).
      + rewrite (ps_access _ _ _ _ _ Hps), (ps_dfnumber _ _ _ _ _ Hps).
        apply (sh_access _ _ Hshk).
      + rewrite (ps_len_coacc _ _ _ _ _ Hps), (ps_dfnumber _ _ _ _ _ Hps).
        apply (sh_coaccess _ _ Hshk).
      + rewrite (ps_lowlink _ _ _ _ _ Hps), (ps_dfnumber _ _ _ _ _ Hps).
        apply (sh_lowlink _ _ Hshk).
      + rewrite (ps_len_onstack _ _ _ _ _ Hps), (ps_dfnumber _ _ _ _ _ Hps).
        apply (sh_onstack _ _ Hshk).
      + rewrite (ps_dfnumber _ _ _ _ _ Hps). apply (sh_size _ _ Hshk).
      + intros t Ht. rewrite (ps_dfnumber _ _ _ _ _ Hps).
        apply (sh_nonwhite _ _ Hsh). rewrite Hcol in Ht.
        destruct (decide (t = s)) as [->|]; [by rewrite Hgrey | done].
      + intros t. rewrite Hstkb.
        destruct (decide (t ∈ above ++ [s])) as [Ht|Ht].
        * rewrite (ps_onstk_seg _ _ _ _ _ Hps t Ht). split; [done|].
          intros Hold. by apply Hseg_old in Hold.
        * rewrite (ps_onstk_other _ _ _ _ _ Hps t Ht), set_color_onstk.
          rewrite (sh_onstk _ _ Hsh), Hin. split; [intros [?|?]; done | by right].
      + rewrite (ps_start _ _ _ _ _ Hps). apply (sh_start _ _ Hsh).
    - rewrite Hcnt. apply (gi_cnt _ _ Hgi).
    - intros t. rewrite Hstkb, Hcol. intros Ht.
      destruct (decide (t = s)); [done|].
      apply (gi_stack_nonwhite _ _ Hgi). apply Hin; by right.
    - intros t. rewrite Hstkb, Hcol. destruct (decide (t = s)); [done|].
      intros Hg. pose proof (gi_grey_stack _ _ Hgi t Hg) as Ht.
      apply Hin in Ht as [Ht|Ht]; [|done].
      rewrite (Hseg_black t Ht) in Hg; done.
    - intros t. rewrite Hcol, Hdfn, Hcnt.
      destruct (decide (t = s)) as [->|].
      + intros _. apply (gi_dfn_range _ _ Hgi). by rewrite Hgrey.
      + apply (gi_dfn_range _ _ Hgi).
    - pose proof (gi_sorted _ _ Hgi) as Hs. unfold sorted_stack in *.
      rewrite Hstkb. rewrite Hstk in Hs.
      change (above ++ s :: stk d0) with (above ++ [s] ++ stk d0) in Hs.
      rewrite app_assoc in Hs. apply StronglySorted_suffix in Hs.
      revert Hs. apply StronglySorted_ext_in. intros x y _ _.
      by rewrite !Hdfn.
    - intros t. rewrite Hstkb, Hlow, Hdfn. intros Ht.
      destruct (gi_low _ _ Hgi t (proj2 (Hin t) (or_intror Ht)))
        as (Hle & z & Hz & Hdz & Hr).
      split; [done|]. exists z. rewrite ?Hstkb, ?Hdfn. split; [|done].
      apply Hin in Hz as [Hz|Hz]; [|done]. exfalso.
      pose proof (Hseg_dfn z Hz). pose proof (Hbe t Ht). lia.
    - intros u v. rewrite Hstkb, !Hdfn. intros Hu Hv.
      apply (gi_reach _ _ Hgi); apply Hin; by right.
    - intros t. rewrite Hstkb, Hcol, Hlow, Hdfn. intros Ht.
      destruct (decide (t = s)) as [->|]; [exfalso; by apply Hs_below|].
      apply (gi_black_low _ _ Hgi). apply Hin; by right.
    - intros t Ht. destruct (decide (t ∈ above ++ [s])) as [Hsg|Hsg].
      + rewrite (Hco_seg t Hsg) in Ht.
        apply orb_true_iff in Ht as [Hb|Ht]; [|by apply (gi_sound _ _ Hgi)].
        apply Hflag in Hb as (w & Hw & Hcw).
        destruct (gi_sound _ _ Hgi w Hcw) as (f & Hr & Hf).
        exists f. split; [|done]. unfold reach in *.
        etrans; [apply (Hseg_from t Hsg)|].
        etrans; [apply (Hseg_to w Hw)|]. done.
      + rewrite (Hco_other t Hsg) in Ht. by apply (gi_sound _ _ Hgi).
    - intros t u. rewrite !Hcol. intros Hb He.
      assert (color_of da u ≠ kDfsWhite).
      { destruct (decide (t = s)) as [->|].
        - destruct He as (a & Ha & <-).
          by apply (li_done_nonwhite _ _ _ _ _ _ _ Hli).
        - by apply (gi_black_succ _ _ Hgi t u). }
      destruct (decide (u = s)); done.
    - intros t. rewrite Hcol. intros Hb Hf. apply Hmono.
      destruct (decide (t = s)) as [->|]; [by apply Hfinal|].
      by apply (gi_black_final _ _ Hgi).
    - intros t [Hp|Ht]%Hpopped Hco.
      + apply Hmono. by apply (gi_popped_exact _ _ Hgi).
      + destruct Hco as (f & Hr & Hf). rewrite (Hco_seg t Ht).
        assert (b = true) as -> by (apply Hflag; by apply (Hexact t f)).
        done.
    - intros t u [Hp|Ht]%Hpopped He; apply Hpopped.
      + left. by apply (gi_popped_closed _ _ Hgi t u).
      + destruct (Hclosed t u Ht He); [by right | by left].
    - intros t u. rewrite Hstkb, Hcol. intros Hb Ht He Hpu Hcu.
      assert (Hne : t ≠ s) by (intros ->; by apply Hs_below).
      rewrite decide_False in Hb by done.
      assert (Htseg : t ∉ above ++ [s])
        by (intros Hx; by apply (Hseg_old t Hx)).
      apply Hpopped in Hpu as [Hp|Hu].
      + rewrite (Hco_other t Htseg).
        apply (gi_black_prop _ _ Hgi t u); try done.
        * apply Hin; by right.
        * rewrite Hco_other in Hcu; [done|]. intros Hx.
          destruct Hp as [_ Hp]. apply Hp. apply Hin. by left.
      + exfalso.
        pose proof (gi_stack_nonwhite _ _ Hgi0 t Ht) as Hnw0.
        pose proof (fr_col_old _ _ _ Hfr t Hnw0) as Hc0. rewrite Hb in Hc0.
        apply (gi_black_succ _ _ Hgi0 t u); [done | done |].
        by apply Hseg_new. }
  split.
  - exact Hgib.
  - split.
    + intros t Ht. rewrite Hcol. rewrite decide_False by congruence.
      by apply (fr_col_old _ _ _ Hfr).
    + intros t Ht. rewrite Hdfn. by apply (fr_dfn_old _ _ _ Hfr).
    + rewrite Hcnt. apply (fr_cnt _ _ _ Hfr).
    + intros t Hw Hnw. rewrite Hdfn. apply (fr_dfn_new _ _ _ Hfr); [done|].
      rewrite Hcol in Hnw.
      destruct (decide (t = s)) as [->|]; [by rewrite Hgrey | done].
    + exists []. rewrite Hstkb. split; [done|].
      intros t Ht. by apply elem_of_nil in Ht.
    + intros t Ht Hne. rewrite Hlow. by apply (fr_low_old _ _ _ Hfr).
    + done.
    + intros t Ht Hne. rewrite Hco_other; [by apply (fr_coacc_old _ _ _ Hfr)|].
      intros Hx. apply Ht. by apply Hseg_new.
    + done.
    + intros t Ht. rewrite Hacc. by apply (fr_acc_old _ _ _ Hfr).
    + rewrite Hwc. apply (fr_white _ _ _ Hfr).
  - rewrite Hcol. by rewrite decide_True.
  - rewrite Hdfn. apply (li_dfn _ _ _ _ _ _ _ Hli).
  - intros t Hw. rewrite Hcol. destruct (decide (t = s)); [done|].
    by apply (li_no_grey _ _ _ _ _ _ _ Hli).
  - intros t Hw. rewrite Hcol, Hacc. intros Hnw.
    apply (li_new _ _ _ _ _ _ _ Hli); [done|].
    destruct (decide (t = s)) as [->|]; [by rewrite Hgrey | done].
  - rewrite Hwc. apply (li_white _ _ _ _ _ _ _ Hli).
  - done.
  - intros _ _. lia.
  - right. split; [done|]. by rewrite Hlow, Hdfn.
  - rewrite Hstkb. intros Hs. exfalso. by apply Hs_below.
Qed.

Lemma finish_popped (root s p : Z) (d0 da : DfsState) :
  GI fst d0 → color_of d0 s = kDfsWhite →
  LoopInv fst root s p d0 da (StateArcs fst s) →
  (is_final fst s → coacc da s = true) →
  dfn da s = low da s →
  DfsPost fst root s s d0
    (with_visitor (finish_pop s) (set_color s kDfsBlack da)).
Proof.
  intros Hgi0 Hwhite0 Hli Hfinal Hroot.
  pose proof (li_inv _ _ _ _ _ _ _ Hli) as Hgi.
  pose proof (gi_shape _ _ Hgi) as Hsh.
  destruct (li_stack _ _ _ _ _ _ _ Hli) as (above & Hstk & Habove).
  destruct (sorted_stack_split da s above (stk d0) (gi_sorted _ _ Hgi) Hstk)
    as (Hs_above & _).
  destruct (finish_pop_PopStep (set_color s kDfsBlack da) s above (stk d0))
    as [b Hps]; try done.
  - intros t Ht. simpl. rewrite (sh_coaccess _ _ Hsh).
    apply (GI_range fst da t Hgi). apply (gi_stack_nonwhite _ _ Hgi).
    rewrite Hstk. apply elem_of_app in Ht as [Ht|Ht%list_elem_of_singleton].
    + apply elem_of_app. by left.
    + subst t. apply elem_of_app. right. left.
  - simpl. by rewrite (sh_onstack _ _ Hsh), (sh_coaccess _ _ Hsh).
  - by apply (popped_component_post root s p d0 da _ b above).
Qed.

(** The final-weight test and the completion of the component of the
    state [s], the arcs of [s] having been taken. *)
Lemma finish_mid (root s p : Z) (d0 d : DfsState) :
  GI fst d0 → color_of d0 s = kDfsWhite →
  LoopInv fst root s p d0 d (StateArcs fst s) →
  DfsPost fst root s s d0
    (with_visitor (finish_pop s)
       (set_color s kDfsBlack (with_visitor (finish_final fst s) d))).
Proof.
  intros Hgi0 Hwhite0 Hli.
  pose proof (li_inv _ _ _ _ _ _ _ Hli) as Hgi.
  pose proof (gi_shape _ _ Hgi) as Hsh.
  destruct (li_top _ _ _ _ _ _ _ Hli) as [Hgrey Htop].
  pose proof (finish_final_GreyUpdate fst d s) as Hgu.
  assert (Hrange : 0 <= s < Z.of_nat (length (coaccess_ (visitor d)))).
  { rewrite (sh_coaccess _ _ Hsh). apply (GI_range fst d s Hgi).
    by rewrite Hgrey. }
  pose proof (finish_final_coacc fst d s Hrange) as Hco.
  assert (Hgia : GI fst (with_visitor (finish_final fst s) d)).
  { apply (GI_GreyUpdate fst s d); try done.
    - by rewrite Hgrey.
    - intros Hs. destruct (gi_low _ _ Hgi s Hs) as (_ & z & Hz & Hdz & Hr).
      by exists z.
    - rewrite Hco. intros [Hf|Hc]%orb_true_iff.
      + apply bool_decide_eq_true_1 in Hf. exists s. split; [apply rtc_refl|done].
      + by apply (gi_sound _ _ Hgi). }
  pose proof (LoopInv_GreyUpdate fst root s p d0 d _ _ Hli Hgu Hgia) as Hlia.
  assert (Hfinal : is_final fst s →
                   coacc (with_visitor (finish_final fst s) d) s = true).
  { intros Hf. rewrite Hco. by rewrite bool_decide_eq_true_2. }
  destruct (decide (dfn (with_visitor (finish_final fst s) d) s
                    = low (with_visitor (finish_final fst s) d) s))
    as [Hroot|Hroot].
  - by apply (finish_popped root s p).
  - rewrite finish_pop_keep by done. by apply (finish_keep root s p).
Qed.

Lemma finished_eq (s p : Z) (d : DfsState) :
  finished fst s p d
  = with_visitor (finish_parent s p)
      (with_visitor (finish_pop s)
         (set_color s kDfsBlack (with_visitor (finish_final fst s) d))).
Proof.
  unfold finished, with_visitor, set_color. simpl.
  by rewrite FinishState_parts.
Qed.

(** The update of the parent, which completes [FinishState]. *)
Lemma finish_parent_post (root s p : Z) (d0 db : DfsState) :
  DfsPre fst s p d0 → DfsPost fst root s s d0 db →
  DfsPost fst root s p d0 (with_visitor (finish_parent s p) db).
Proof.
  intros (Hgi0 & Hvalid & Hwhite0 & Hcase) Hpo.
  pose proof (po_inv _ _ _ _ _ _ Hpo) as Hgib.
  pose proof (po_frame _ _ _ _ _ _ Hpo) as Hfr.
  destruct Hcase as [(-> & Hempty & Hnogrey)|(Hp & [Hgrey Htop] & He)].
  - assert (Heq : with_visitor (finish_parent s kNoStateId) db = db).
    { unfold with_visitor, finish_parent.
      rewrite bool_decide_eq_false_2 by (intros Hx; by apply Hx).
      by destruct db. }
    rewrite Heq. split; try apply Hpo.
    + by apply (Frame_exception d0 db s).
    + unfold kNoStateId. lia.
    + unfold kNoStateId. lia.
  - assert (Hne : s ≠ p) by (intros ->; congruence).
    assert (Hnw0 : color_of d0 p ≠ kDfsWhite) by by rewrite Hgrey.
    assert (Hgreyb : color_of db p = kDfsGrey).
    { by rewrite (fr_col_old _ _ _ Hfr p Hnw0). }
    pose proof (gi_shape _ _ Hgib) as Hshb.
    assert (Hrange : 0 <= p < Z.of_nat (length (lowlink_ (visitor db)))).
    { rewrite (sh_lowlink _ _ Hshb). apply (GI_range fst db p Hgib).
      by rewrite Hgreyb. }
    assert (Hlen : length (coaccess_ (visitor db))
                   = length (lowlink_ (visitor db))).
    { by rewrite (sh_coaccess _ _ Hshb), (sh_lowlink _ _ Hshb). }
    destruct (finish_parent_fields db s p Hrange Hlen Hne) as [Hlowp Hcop].
    pose proof (finish_parent_GreyUpdate db s p) as Hgu.
    assert (Hp_stk : p ∈ stk db) by by apply (gi_grey_stack _ _ Hgib).
    assert (Hlow_s : low (with_visitor (finish_parent s p) db) s = low db s)
      by by apply (gu_low_other _ _ _ Hgu).
    assert (Hco_s : coacc (with_visitor (finish_parent s p) db) s = coacc db s)
      by by apply (gu_coacc_other _ _ _ Hgu).
    assert (Hedge : reach fst p s) by by apply rtc_once.
    assert (Hgic : GI fst (with_visitor (finish_parent s p) db)).
    { apply (GI_GreyUpdate fst p db); try done.
      - by rewrite Hgreyb.
      - intros _. rewrite Hlowp.
        destruct (gi_low _ _ Hgib p Hp_stk) as (Hlep & z & Hz & Hdz & Hr).
        destruct (decide (low db p <= low db s)) as [Hle|Hgt].
        + exists z. rewrite Z.min_l by done. done.
        + rewrite Z.min_r by lia.
          destruct (po_stack _ _ _ _ _ _ Hpo) as [Hs|[Hs Hl]].
          * destruct (gi_low _ _ Hgib s Hs) as (_ & z' & Hz' & Hdz' & Hr').
            exists z'. split; [done|]. split; [done|].
            unfold reach in *. etrans; [exact Hedge | exact Hr'].
          * exfalso.
            pose proof (po_dfn _ _ _ _ _ _ Hpo) as Hds.
            pose proof (gi_dfn_range _ _ Hgi0 p Hnw0) as Hdp.
            rewrite <- (fr_dfn_old _ _ _ Hfr p Hnw0) in Hdp. lia.
      - rewrite Hcop. intros [Hc|Hc]%orb_true_iff.
        + destruct (gi_sound _ _ Hgib s Hc) as (f & Hr & Hf).
          exists f. split; [|done]. unfold reach in *.
          etrans; [exact Hedge | exact Hr].
        + by apply (gi_sound _ _ Hgib). }
    split.
    + exact Hgic.
    + apply (Frame_GreyUpdate d0 db _ p p); [|done|by left].
      by apply (Frame_exception d0 db s).
    + rewrite (GreyUpdate_color p db _ s Hgu). apply (po_black _ _ _ _ _ _ Hpo).
    + rewrite (GreyUpdate_dfn p db _ s Hgu). apply (po_dfn _ _ _ _ _ _ Hpo).
    + intros t Hw. rewrite (GreyUpdate_color p db _ t Hgu).
      by apply (po_no_grey _ _ _ _ _ _ Hpo).
    + intros t Hw. rewrite (GreyUpdate_color p db _ t Hgu),
        (GreyUpdate_acc p db _ t Hgu).
      by apply (po_new _ _ _ _ _ _ Hpo).
    + rewrite (GreyUpdate_white_count p db _ Hgu).
      apply (po_white _ _ _ _ _ _ Hpo).
    + intros _. rewrite Hco_s, Hcop. intros ->. done.
    + intros _ _. rewrite Hlow_s, Hlowp. lia.
    + rewrite (GreyUpdate_stk p db _ Hgu), Hlow_s,
        (GreyUpdate_dfn p db _ s Hgu).
      apply (po_stack _ _ _ _ _ _ Hpo).
    + rewrite (GreyUpdate_stk p db _ Hgu), Hlow_s. intros Hs y u.
      rewrite !(GreyUpdate_dfn p db _ _ Hgu).
      by apply (po_low_bound _ _ _ _ _ _ Hpo).
Qed.

End FinishFacts.

(** ** The traversal of one tree *)

Section DfsCorrect.

Context {W : Type} `{Weight W}.
Variable fst : MutableFst W.
Hypothesis Hwf : wf_fst fst.

(** The loop over the arcs of [s], the recursive calls being correct. *)
Lemma arcs_loop (fuel : nat) (root s p : Z) (d0 : DfsState) :
  (∀ s' p' d, DfsPre fst s' p' d → (white_count d < fuel)%nat →
              ∃ d', DfsFrom fuel fst root s' p' d = Some d' ∧
                    DfsPost fst root s' p' d d') →
  (white_count d0 <= fuel)%nat →
  ∀ todo done d,
    StateArcs fst s = done ++ todo →
    LoopInv fst root s p d0 d done →
    ∃ d', fold_opt
            (fun d arc =>
               match color_of d (nextstate arc) with
               | kDfsWhite => DfsFrom fuel fst root (nextstate arc) s d
               | kDfsGrey => Some (with_visitor (BackArc s arc) d)
               | kDfsBlack => Some (with_visitor (ForwardOrCrossArc s arc) d)
               end) d todo = Some d' ∧
          LoopInv fst root s p d0 d' (StateArcs fst s).
Proof.
  intros IH Hfuel todo. induction todo as [|a todo IHtodo]; intros done d Harcs Hli.
  - exists d. split; [done|]. rewrite Harcs. by rewrite app_nil_r.
  - assert (Ha : a ∈ StateArcs fst s).
    { rewrite Harcs. apply elem_of_app. right. left. }
    assert (Harcs' : StateArcs fst s = (done ++ [a]) ++ todo)
      by by rewrite Harcs, <- app_assoc.
    simpl. destruct (color_of d (nextstate a)) eqn:Hc.
    + pose proof (li_white _ _ _ _ _ _ _ Hli) as Hw.
      destruct (IH (nextstate a) s d) as (d2 & -> & Hpo).
      { by apply (tree_DfsPre fst Hwf root s p d0 d done). }
      { lia. }
      apply (IHtodo (done ++ [a])); [done|].
      by apply (tree_LoopInv fst root s p d0 d d2 done).
    + apply (IHtodo (done ++ [a])); [done|].
      by apply (back_LoopInv fst).
    + apply (IHtodo (done ++ [a])); [done|].
      by apply (cross_LoopInv fst).
Qed.

(** [DfsFrom] returns when its fuel exceeds the number of undiscovered
    states, and establishes [DfsPost]. *)
Lemma DfsFrom_spec (fuel : nat) (root s p : Z) (d0 : DfsState) :
  DfsPre fst s p d0 → (white_count d0 < fuel)%nat →
  ∃ d', DfsFrom fuel fst root s p d0 = Some d' ∧ DfsPost fst root s p d0 d'.
Proof.
  revert s p d0. induction fuel as [|fuel IH]; intros s p d0 Hpre Hfuel; [lia|].
  pose proof Hpre as (Hgi0 & Hvalid & Hwhite0 & _).
  pose proof (discover_LoopInv fst root s p d0 Hpre) as Hli.
  destruct (arcs_loop fuel root s p d0 IH ltac:(lia) (StateArcs fst s) []
              (discovered s root d0) eq_refl Hli) as (d1 & Hfold & Hli1).
  exists (finished fst s p d1). split.
  - simpl. unfold discovered in Hfold. by rewrite Hfold.
  - rewrite finished_eq. apply finish_parent_post; try done.
    by apply (finish_mid _ root s p).
Qed.

End DfsCorrect.

(** ** The traversal of the whole automaton *)

Section Forest.

Context {W : Type} `{Weight W}.
Variable fst : MutableFst W.
Hypothesis Hwf : wf_fst fst.

Lemma color_of_replicate (n : nat) (v : SccVisitor) (t : Z) :
  color_of (mkDfs v (replicate n kDfsWhite)) t = kDfsWhite.
Proof.
  unfold color_of, vget. simpl. case_bool_decide; [|done].
  destruct (replicate n kDfsWhite !! Z.to_nat t) as [c|] eqn:Hc; [|done].
  by apply lookup_replicate in Hc as [-> _].
Qed.

Lemma ForestInv_init (props : Z) :
  ForestInv fst (mkDfs (InitVisit fst props)
                   (replicate (length (states fst)) kDfsWhite)).
Proof.
  assert (Hvg : ∀ (A : Type) (x : A) (t : Z), vget x [] t = x).
  { intros A x t. unfold vget. by case_bool_decide. }
  set (d := mkDfs (InitVisit fst props)
              (replicate (length (states fst)) kDfsWhite)).
  assert (Hw : ∀ t, color_of d t = kDfsWhite)
    by (intros t; apply color_of_replicate).
  assert (Hs : stk d = []) by done.
  assert (Hnil : ∀ t : Z, t ∈ stk d → False).
  { intros t Ht. rewrite Hs in Ht. by apply elem_of_nil in Ht. }
  assert (Hgi : GI fst d).
  { split.
    - split; simpl; try done.
      + by rewrite length_replicate.
      + lia.
      + intros t Ht. by rewrite Hw in Ht.
      + intros t. unfold onstk. simpl. rewrite Hvg. split; [done|].
        intros Ht. by apply Hnil in Ht.
    - unfold cnt. simpl. lia.
    - intros t Ht. by apply Hnil in Ht.
    - intros t Ht. by rewrite Hw in Ht.
    - intros t Ht. by rewrite Hw in Ht.
    - unfold sorted_stack. rewrite Hs. constructor.
    - intros t Ht. by apply Hnil in Ht.
    - intros u v Hu. by apply Hnil in Hu.
    - intros t Ht. by apply Hnil in Ht.
    - intros t. unfold coacc. simpl. by rewrite Hvg.
    - intros t u Ht. by rewrite Hw in Ht.
    - intros t Ht. by rewrite Hw in Ht.
    - intros t [Hc _]. by rewrite Hw in Hc.
    - intros t u [Hc _]. by rewrite Hw in Hc.
    - intros t u Ht. by rewrite Hw in Ht. }
  split; [done | done | |].
  - intros t. by rewrite Hw.
  - intros t Ht. by rewrite Hw in Ht.
Qed.

(** Between two trees the discovered states are closed under the arcs. *)
Lemma ForestInv_closed (d : DfsState) (u t : Z) :
  ForestInv fst d → reach fst u t →
  color_of d u ≠ kDfsWhite → color_of d t ≠ kDfsWhite.
Proof.
  intros Hfo Hreach. unfold reach in Hreach.
  induction Hreach as [u|u v t He Hreach IH]; [done|].
  intros Hu. apply IH.
  apply (gi_black_succ _ _ (fo_inv _ _ Hfo) u v); [|done].
  pose proof (fo_no_grey _ _ Hfo u). by destruct (color_of d u).
Qed.

Lemma white_count_le (d : DfsState) :
  (white_count d <= length (state_color d))%nat.
Proof. unfold white_count. apply length_filter. Qed.

(** One tree of the forest. *)
Lemma root_step (d : DfsState) (root : Z) :
  ForestInv fst d → valid_state fst root → color_of d root = kDfsWhite →
  (root = start fst ∨ color_of d (start fst) ≠ kDfsWhite) →
  ∃ d', DfsFrom (S (length (states fst))) fst root root kNoStateId d = Some d' ∧
        ForestInv fst d' ∧
        color_of d' root = kDfsBlack ∧
        ∀ t, color_of d t ≠ kDfsWhite → color_of d' t ≠ kDfsWhite.
Proof.
  intros Hfo Hvalid Hwhite Hstart.
  pose proof (fo_inv _ _ Hfo) as Hgi.
  assert (Hpre : DfsPre fst root kNoStateId d).
  { split; [done|]. split; [done|]. split; [done|]. left.
    split; [done|]. split; [apply (fo_stack _ _ Hfo) | apply (fo_no_grey _ _ Hfo)]. }
  destruct (DfsFrom_spec fst Hwf (S (length (states fst))) root root
              kNoStateId d Hpre) as (d' & Hrun & Hpo).
  { pose proof (white_count_le d).
    rewrite (sh_colors _ _ (gi_shape _ _ Hgi)) in *. lia. }
  pose proof (po_inv _ _ _ _ _ _ Hpo) as Hgi'.
  pose proof (po_frame _ _ _ _ _ _ Hpo) as Hfr.
  assert (Hmono : ∀ t, color_of d t ≠ kDfsWhite → color_of d' t ≠ kDfsWhite).
  { intros t Ht. by rewrite (fr_col_old _ _ _ Hfr t Ht). }
  exists d'. split; [done|]. split; [|split; [apply (po_black _ _ _ _ _ _ Hpo) | done]].
  split.
  - done.
  - destruct (po_stack _ _ _ _ _ _ Hpo) as [Hin|[Hstk _]].
    + exfalso.
      pose proof (gi_black_low _ _ Hgi' root Hin (po_black _ _ _ _ _ _ Hpo))
        as Hlt.
      destruct (gi_low _ _ Hgi' root Hin) as (_ & z & Hz & Hdz & _).
      destruct (fr_stk _ _ _ Hfr) as (newseg & Hseg & Hnew).
      rewrite (fo_stack _ _ Hfo), app_nil_r in Hseg.
      pose proof (gi_stack_nonwhite _ _ Hgi' z Hz) as Hznw.
      rewrite Hseg in Hz.
      pose proof (fr_dfn_new _ _ _ Hfr z (Hnew z Hz) Hznw).
      pose proof (po_dfn _ _ _ _ _ _ Hpo). lia.
    + rewrite Hstk. apply (fo_stack _ _ Hfo).
  - intros t. destruct (decide (color_of d t = kDfsWhite)) as [Hw|Hnw].
    + by apply (po_no_grey _ _ _ _ _ _ Hpo).
    + rewrite (fr_col_old _ _ _ Hfr t Hnw). apply (fo_no_grey _ _ Hfo).
  - intros t Ht. destruct (decide (color_of d t = kDfsWhite)) as [Hw|Hnw].
    + destruct (po_new _ _ _ _ _ _ Hpo t Hw Ht) as [Hacc Hreach].
      rewrite Hacc. case_bool_decide as Hroot.
      * split; [intros _|done]. unfold accessible. by rewrite <- Hroot.
      * split; [done|]. intros Hacc'. exfalso.
        destruct Hstart as [Hs|Hs]; [done|].
        by apply (ForestInv_closed d (start fst) t Hfo Hacc' Hs).
    + rewrite (fr_acc_old _ _ _ Hfr t Hnw). by apply (fo_acc _ _ Hfo).
Qed.

(** The trees rooted at the states that the tree of the start state has
    left undiscovered. *)
Lemma roots_loop (roots : list Z) (d : DfsState) :
  ForestInv fst d → color_of d (start fst) ≠ kDfsWhite →
  (∀ r, r ∈ roots → valid_state fst r) →
  ∃ d', fold_opt
          (fun d root =>
             match color_of d root with
             | kDfsWhite =>
                 DfsFrom (S (length (states fst))) fst root root kNoStateId d
             | _ => Some d
             end) d roots = Some d' ∧
        ForestInv fst d' ∧
        (∀ t, color_of d t ≠ kDfsWhite → color_of d' t ≠ kDfsWhite) ∧
        (∀ r, r ∈ roots → color_of d' r ≠ kDfsWhite).
Proof.
  revert d. induction roots as [|r roots IH]; intros d Hfo Hstart Hvalid.
  - exists d. split; [done|]. split; [done|]. split; [done|].
    intros r Hr. by apply elem_of_nil in Hr.
  - assert (Hstep : ∃ d1,
              match color_of d r with
              | kDfsWhite =>
                  DfsFrom (S (length (states fst))) fst r r kNoStateId d
              | _ => Some d
              end = Some d1 ∧ ForestInv fst d1 ∧
              (∀ t, color_of d t ≠ kDfsWhite → color_of d1 t ≠ kDfsWhite) ∧
              color_of d1 r ≠ kDfsWhite).
    { destruct (color_of d r) eqn:Hc.
      - destruct (root_step d r Hfo) as (d1 & Hrun & Hfo1 & Hb & Hmono);
          [apply Hvalid; left | done | by right |].
        exists d1. split; [done|]. split; [done|]. split; [done|].
        by rewrite Hb.
      - exists d. split; [done|]. split; [done|]. split; [done|].
        by rewrite Hc.
      - exists d. split; [done|]. split; [done|]. split; [done|].
        by rewrite Hc. }
    destruct Hstep as (d1 & Hrun & Hfo1 & Hmono1 & Hr1).
    destruct (IH d1 Hfo1) as (d' & Hfold & Hfo' & Hmono' & Hall).
    { by apply Hmono1. }
    { intros r' Hr'. apply Hvalid. by right. }
    exists d'. cbn [fold_opt]. rewrite Hrun.
    split; [done|]. split; [done|]. split.
    + intros t Ht. by apply Hmono', Hmono1.
    + intros r' [->|Hr']%elem_of_cons; [by apply Hmono' | by apply Hall].
Qed.

Lemma valid_state_root (t : Z) :
  valid_state fst t → t ∈ map Z.of_nat (seq 0 (length (states fst))).
Proof.
  unfold valid_state, NumStates. intros Ht.
  apply list_elem_of_fmap. exists (Z.to_nat t). split; [lia|].
  apply elem_of_seq. lia.
Qed.

Lemma root_valid_state (t : Z) :
  t ∈ map Z.of_nat (seq 0 (length (states fst))) → valid_state fst t.
Proof.
  intros (i & -> & Hi%elem_of_seq)%list_elem_of_fmap.
  unfold valid_state, NumStates. lia.
Qed.

(** [DfsVisit] returns, and leaves in [access_] and [coaccess_] the
    accessibility and the coaccessibility of every state. *)
Lemma DfsVisit_spec (props : Z) :
  valid_state fst (start fst) →
  ∃ v, DfsVisit fst props = Some v ∧
       length (access_ v) = length (states fst) ∧
       length (coaccess_ v) = length (states fst) ∧
       ∀ t, valid_state fst t →
            (vget false (access_ v) t = true ↔ accessible fst t) ∧
            (vget false (coaccess_ v) t = true ↔ coaccessible fst t).
Proof.
  intros Hstart. unfold DfsVisit, dfs_roots.
  rewrite bool_decide_eq_false_2
    by (intros Hnone; rewrite Hnone in Hstart;
        unfold valid_state, kNoStateId in Hstart; lia).
  cbn [app fold_opt]. rewrite color_of_replicate.
  destruct (root_step _ (start fst) (ForestInv_init props) Hstart
              (color_of_replicate _ _ _) (or_introl eq_refl))
    as (d1 & Hrun & Hfo1 & Hblack & _).
  rewrite Hrun.
  destruct (roots_loop (map Z.of_nat (seq 0 (length (states fst)))) d1 Hfo1)
    as (d' & Hfold & Hfo & _ & Hall).
  { by rewrite Hblack. }
  { apply root_valid_state. }
  rewrite Hfold. exists (FinishVisit (visitor d')). split; [done|].
  pose proof (fo_inv _ _ Hfo) as Hgi.
  pose proof (gi_shape _ _ Hgi) as Hsh.
  assert (Hnw : ∀ t, valid_state fst t → color_of d' t ≠ kDfsWhite).
  { intros t Ht. by apply Hall, valid_state_root. }
  assert (Hlen : length (dfnumber_ (visitor d')) = length (states fst)).
  { pose proof (sh_size _ _ Hsh) as Hle.
    assert (Hlast : valid_state fst (NumStates fst - 1))
      by (unfold valid_state, NumStates in *; lia).
    pose proof (sh_nonwhite _ _ Hsh _ (Hnw _ Hlast)) as Hr.
    unfold NumStates in Hr. lia. }
  unfold FinishVisit.
  split; [by rewrite (sh_access _ _ Hsh)|].
  split; [by rewrite (sh_coaccess _ _ Hsh)|].
  intros t Ht. split.
  - apply (fo_acc _ _ Hfo). by apply Hnw.
  - split; [apply (gi_sound _ _ Hgi)|].
    apply (gi_popped_exact _ _ Hgi).
    apply (popped_not_grey fst); [done | by apply Hnw |].
    rewrite (fo_stack _ _ Hfo). apply not_elem_of_nil.
Qed.

End Forest.

(** ** The deletion of states *)

Section DeleteFacts.

Context {W : Type} `{Weight W}.
Variable dstates : list Z.

Lemma kept_from_elem (n : nat) (s t : Z) :
  t ∈ kept_from dstates s n ↔ (s <= t < s + Z.of_nat n) ∧ t ∉ dstates.
Proof.
  revert s. induction n as [|n IH]; intros s; simpl.
  - split; [intros Ht; by apply elem_of_nil in Ht | lia].
  - case_bool_decide as Hs.
    + rewrite IH. split.
      * intros [? ?]. split; [lia | done].
      * intros [? Hn]. split; [|done].
        destruct (decide (t = s)) as [->|]; [done | lia].
    + rewrite elem_of_cons, IH. split.
      * intros [->|[? ?]]; (split; [lia | done]).
      * intros [? Hn]. destruct (decide (t = s)) as [->|]; [by left|].
        right. split; [lia | done].
Qed.

Lemma kept_from_sorted (n : nat) (s : Z) :
  StronglySorted Z.lt (kept_from dstates s n).
Proof.
  revert s. induction n as [|n IH]; intros s; simpl; [constructor|].
  case_bool_decide; [apply IH|]. constructor; [apply IH|].
  apply Forall_forall. intros t Ht%kept_from_elem. lia.
Qed.

Lemma position_nonneg (kept : list Z) (t j : Z) :
  position kept t = Some j → 0 <= j.
Proof.
  revert j. induction kept as [|x kept IH]; intros j; simpl; [done|].
  case_bool_decide.
  - intros [= <-]. lia.
  - destruct (position kept t) as [j'|]; simpl; [|done].
    intros [= <-]. specialize (IH j' eq_refl). lia.
Qed.

Lemma position_None (kept : list Z) (t : Z) :
  t ∉ kept → position kept t = None.
Proof.
  induction kept as [|x kept IH]; simpl; [done|].
  intros [Hne Hin]%not_elem_of_cons.
  rewrite bool_decide_eq_false_2 by done. by rewrite IH.
Qed.

Lemma position_Some_elem (kept : list Z) (t : Z) :
  t ∈ kept → ∃ j, position kept t = Some j.
Proof.
  induction kept as [|x kept IH]; simpl.
  - intros Ht. by apply elem_of_nil in Ht.
  - intros Ht. case_bool_decide as Hx; [by exists 0|].
    apply elem_of_cons in Ht as [->|Ht]; [done|].
    destruct (IH Ht) as [j ->]. by exists (Z.succ j).
Qed.

Lemma position_lookup (kept : list Z) (t j : Z) :
  position kept t = Some j → kept !! Z.to_nat j = Some t.
Proof.
  revert j. induction kept as [|x kept IH]; intros j; simpl; [done|].
  case_bool_decide as Hx.
  - intros [= <-]. by subst.
  - destruct (position kept t) as [j'|] eqn:Hp; simpl; [|done].
    intros [= <-]. pose proof (position_nonneg kept t j' Hp).
    rewrite Z2Nat.inj_succ by done. simpl. by apply IH.
Qed.

Lemma lookup_position (kept : list Z) (i : nat) (t : Z) :
  NoDup kept → kept !! i = Some t → position kept t = Some (Z.of_nat i).
Proof.
  revert i. induction kept as [|x kept IH]; intros i Hnd; [done|].
  apply NoDup_cons in Hnd as [Hx Hnd]. destruct i as [|i]; simpl.
  - intros [= ->]. by rewrite bool_decide_eq_true_2.
  - intros Hi. rewrite bool_decide_eq_false_2.
    + rewrite (IH i Hnd Hi). simpl. f_equal. lia.
    + intros ->. apply Hx. by apply list_elem_of_lookup_2 in Hi.
Qed.

(** The new ids are the places among the kept states. *)
Lemma newid_from_position (n : nat) (s k t : Z) :
  s <= t →
  default kNoStateId (newid_from dstates s k n !! Z.to_nat (t - s))
  = match position (kept_from dstates s n) t with
    | Some j => k + j
    | None => kNoStateId
    end.
Proof.
  revert s k. induction n as [|n IH]; intros s k Hle; simpl; [done|].
  destruct (decide (t = s)) as [->|Hne].
  - rewrite Z.sub_diag. case_bool_decide as Hs; simpl.
    + rewrite position_None; [done|]. intros Hin%kept_from_elem. lia.
    + rewrite bool_decide_eq_true_2 by done. f_equal. lia.
  - assert (Hidx : Z.to_nat (t - s) = S (Z.to_nat (t - (s + 1)))) by lia.
    rewrite Hidx. case_bool_decide as Hs; simpl.
    + by apply IH; lia.
    + rewrite bool_decide_eq_false_2 by done.
      rewrite IH by lia.
      destruct (position (kept_from dstates (s + 1) n) t); simpl; [lia|done].
Qed.

Lemma newid_of_position (fst : MutableFst W) (t : Z) :
  newid_of (newid fst dstates) t
  = default kNoStateId
      (position (kept_from dstates 0 (length (states fst))) t).
Proof.
  unfold newid_of, newid. case_bool_decide as Ht.
  - pose proof (newid_from_position (length (states fst)) 0 0 t Ht) as Hp.
    rewrite Z.sub_0_r in Hp. rewrite Hp.
    by destruct (position _ t).
  - rewrite position_None; [done|]. intros Hin%kept_from_elem. lia.
Qed.

Lemma renumber_arcs_trim (ids kept : list Z) (l : list (Arc W)) :
  (∀ t, newid_of ids t = default kNoStateId (position kept t)) →
  renumber_arcs ids l = trim_arcs kept l.
Proof.
  intros Hids. unfold renumber_arcs, trim_arcs.
  apply list_omap_ext, Forall_Forall2_diag, Forall_forall. intros a _.
  cbv zeta. rewrite Hids.
  destruct (position kept (nextstate a)) as [j|] eqn:Hp; simpl.
  - pose proof (position_nonneg kept _ j Hp).
    rewrite bool_decide_eq_true_2 by (unfold kNoStateId; lia). done.
  - done.
Qed.

Lemma keep_states_cons (id : Z) (ids : list Z) (st : VectorState W)
    (l : list (VectorState W)) :
  keep_states (id :: ids) (st :: l)
  = if bool_decide (id ≠ kNoStateId) then st :: keep_states ids l
    else keep_states ids l.
Proof. reflexivity. Qed.

Lemma omap_cons_match {A B : Type} (g : A → option B) (x : A) (l : list A) :
  omap g (x :: l)
  = match g x with Some y => y :: omap g l | None => omap g l end.
Proof. reflexivity. Qed.

(** The states kept are those at the places of the kept ids. *)
Lemma keep_states_kept (fst : MutableFst W)
    (f : VectorState W → VectorState W) (n : nat) (s k : Z) :
  0 <= k → 0 <= s → (Z.to_nat s + n = length (states fst))%nat →
  map f (keep_states (newid_from dstates s k n)
           (drop (Z.to_nat s) (states fst)))
  = omap (fun s => f <$> GetState fst s) (kept_from dstates s n).
Proof.
  revert s k. induction n as [|n IH]; intros s k Hk Hs Hlen; [done|].
  assert (Hin : is_Some (states fst !! Z.to_nat s)).
  { apply lookup_lt_is_Some. lia. }
  destruct Hin as [st Hst].
  rewrite (drop_S _ _ _ Hst).
  assert (Hnext : S (Z.to_nat s) = Z.to_nat (s + 1)) by lia.
  rewrite Hnext. cbn [newid_from kept_from]. case_bool_decide as Hdel.
  - rewrite keep_states_cons.
    rewrite bool_decide_eq_false_2 by (intros Hx; by apply Hx).
    apply IH; lia.
  - rewrite keep_states_cons.
    rewrite bool_decide_eq_true_2 by (unfold kNoStateId; lia).
    rewrite omap_cons_match. unfold GetState at 1.
    rewrite bool_decide_eq_true_2 by done.
    rewrite Hst. simpl. f_equal. apply IH; lia.
Qed.

(** [DeleteStates] followed by [SetProperties] gives the automaton
    restricted to the states that are not deleted. *)
Lemma DeleteStates_trimmed (fst : MutableFst W) :
  StoreSetProperties (Z.lor kAccessible kCoAccessible)
    (Z.lor kAccessible kCoAccessible) (DeleteStates dstates fst)
  = trimmed fst (kept_from dstates 0 (length (states fst))).
Proof.
  unfold StoreSetProperties, DeleteStates, trimmed. simpl. f_equal.
  - case_bool_decide as Hs; [apply newid_of_position|].
    rewrite position_None; [done|]. intros Hin%kept_from_elem.
    unfold kNoStateId in Hs. lia.
  - rewrite (map_ext _ (trim_state
                          (kept_from dstates 0 (length (states fst))))).
    + apply (keep_states_kept fst _ (length (states fst)) 0 0); lia.
    + intros st. unfold trim_state. f_equal.
      apply renumber_arcs_trim. apply newid_of_position.
Qed.

End DeleteFacts.

(** ** The automaton restricted to its useful states *)

Lemma sorted_lt_NoDup (l : list Z) : StronglySorted Z.lt l → NoDup l.
Proof.
  induction 1 as [|x l Hl IH Hall]; constructor; [|done].
  rewrite Forall_forall in Hall. intros Hx. specialize (Hall x Hx). lia.
Qed.

Lemma lookup_omap_total {A B : Type} (g : A → option B) (l : list A) (i : nat) :
  (∀ x, x ∈ l → is_Some (g x)) → omap g l !! i = l !! i ≫= g.
Proof.
  revert i. induction l as [|x l IH]; intros i Hg; [done|].
  rewrite omap_cons_match.
  destruct (Hg x) as [y Hy]; [left|]. rewrite Hy.
  destruct i as [|i]; simpl; [done|].
  apply IH. intros x' Hx'. apply Hg. by right.
Qed.

Lemma length_omap_total {A B : Type} (g : A → option B) (l : list A) :
  (∀ x, x ∈ l → is_Some (g x)) → length (omap g l) = length l.
Proof.
  induction l as [|x l IH]; intros Hg; [done|].
  rewrite omap_cons_match.
  destruct (Hg x) as [y Hy]; [left|]. rewrite Hy. simpl.
  f_equal. apply IH. intros x' Hx'. apply Hg. by right.
Qed.

Section TrimFacts.

Context {W : Type} `{Weight W}.
Variable fst : MutableFst W.
Variable kept : list Z.
Hypothesis Hwf : wf_fst fst.
Hypothesis Hnd : NoDup kept.
Hypothesis Hkept : ∀ s, s ∈ kept ↔ useful fst s.

Lemma kept_GetState (s : Z) : s ∈ kept → is_Some (GetState fst s).
Proof.
  intros [Hv _]%Hkept. unfold valid_state, NumStates in Hv.
  unfold GetState. rewrite bool_decide_eq_true_2 by lia.
  apply lookup_lt_is_Some. lia.
Qed.

Lemma kept_trim_state (s : Z) :
  s ∈ kept → is_Some (trim_state kept <$> GetState fst s).
Proof. intros [st ->]%kept_GetState. by eexists. Qed.

Lemma trimmed_NumStates :
  NumStates (trimmed fst kept) = Z.of_nat (length kept).
Proof.
  unfold NumStates, trimmed. simpl. f_equal.
  apply length_omap_total, kept_trim_state.
Qed.

Lemma trimmed_GetState (i : nat) (s : Z) :
  kept !! i = Some s →
  GetState (trimmed fst kept) (Z.of_nat i) = trim_state kept <$> GetState fst s.
Proof.
  intros Hi. unfold GetState at 1. rewrite bool_decide_eq_true_2 by lia.
  rewrite Nat2Z.id. unfold trimmed. simpl.
  rewrite lookup_omap_total by apply kept_trim_state. by rewrite Hi.
Qed.

Lemma trimmed_GetState_inv (x : Z) (st' : VectorState W) :
  GetState (trimmed fst kept) x = Some st' →
  ∃ i s st, x = Z.of_nat i ∧ kept !! i = Some s ∧
            GetState fst s = Some st ∧ st' = trim_state kept st.
Proof.
  intros Hx. pose proof Hx as Hx'. unfold GetState in Hx'.
  case_bool_decide as Hpos; [|done].
  apply lookup_lt_Some in Hx'.
  assert (Hlt : (Z.to_nat x < length kept)%nat).
  { pose proof trimmed_NumStates as Hn. unfold NumStates in Hn. lia. }
  destruct (lookup_lt_is_Some_2 kept _ Hlt) as [s Hs].
  exists (Z.to_nat x), s.
  assert (Hxi : x = Z.of_nat (Z.to_nat x)) by lia.
  rewrite Hxi in Hx. rewrite (trimmed_GetState _ s Hs) in Hx.
  destruct (GetState fst s) as [st|]; [|done]. simpl in Hx.
  exists st. split; [done|]. split; [done|]. split; [done|]. congruence.
Qed.

Lemma trimmed_StateArcs (i : nat) (s : Z) :
  kept !! i = Some s →
  StateArcs (trimmed fst kept) (Z.of_nat i) = trim_arcs kept (StateArcs fst s).
Proof.
  intros Hi. unfold StateArcs. rewrite (trimmed_GetState i s Hi).
  by destruct (GetState fst s).
Qed.

Lemma trimmed_StateFinal (i : nat) (s : Z) :
  kept !! i = Some s →
  StateFinal (trimmed fst kept) (Z.of_nat i) = StateFinal fst s.
Proof.
  intros Hi. unfold StateFinal. rewrite (trimmed_GetState i s Hi).
  by destruct (GetState fst s).
Qed.

(** An arc between two kept states is an arc of the restriction. *)
Lemma trimmed_edge (i j : nat) (s t : Z) :
  kept !! i = Some s → kept !! j = Some t → edge fst s t →
  edge (trimmed fst kept) (Z.of_nat i) (Z.of_nat j).
Proof.
  intros Hi Hj (a & Ha & Hat).
  exists (mkArc (ilabel a) (olabel a) (weight a) (Z.of_nat j)).
  split; [|done]. rewrite (trimmed_StateArcs i s Hi).
  apply list_elem_of_omap. exists a. split; [done|].
  rewrite Hat. by rewrite (lookup_position kept j t Hnd Hj).
Qed.

Lemma kept_lookup (s : Z) : useful fst s → ∃ i, kept !! i = Some s.
Proof. intros Hs. by apply list_elem_of_lookup_1, Hkept. Qed.

Lemma edge_valid (s t : Z) : edge fst s t → valid_state fst t.
Proof. intros (a & Ha & <-). destruct Hwf as [_ Harcs]. by apply (Harcs s). Qed.

Lemma edge_coaccessible (s t : Z) :
  edge fst s t → coaccessible fst t → coaccessible fst s.
Proof.
  intros He (f & Hr & Hf). exists f. split; [|done].
  unfold reach in *. by apply (rtc_l _ s t).
Qed.

(** A path from the start state to a coaccessible state stays among the
    kept states. *)
Lemma trimmed_accessible (s : Z) :
  valid_state fst (start fst) →
  reach fst (start fst) s → coaccessible fst s →
  ∃ i, kept !! i = Some s ∧ accessible (trimmed fst kept) (Z.of_nat i).
Proof.
  intros Hstart. revert s. unfold reach.
  apply (rtc_ind_r
           (fun s => coaccessible fst s →
                     ∃ i, kept !! i = Some s ∧
                          accessible (trimmed fst kept) (Z.of_nat i))).
  - intros Hco. destruct (kept_lookup (start fst)) as [i Hi].
    { split; [done|]. split; [apply rtc_refl | done]. }
    exists i. split; [done|]. unfold accessible, trimmed at 2. simpl.
    rewrite (lookup_position kept i _ Hnd Hi). apply rtc_refl.
  - intros y z Hreach He IH Hco.
    destruct IH as (i & Hi & Hacc); [by apply (edge_coaccessible y z)|].
    destruct (kept_lookup z) as [j Hj].
    { split; [by apply (edge_valid y)|]. split; [|done].
      unfold accessible, reach. by apply (rtc_r _ y). }
    exists j. split; [done|]. unfold accessible, reach in *.
    apply (rtc_r _ (Z.of_nat i)); [done|]. by apply (trimmed_edge i j y z).
Qed.

(** A path from an accessible state to a final state stays among the
    kept states. *)
Lemma trimmed_coaccessible (t : Z) :
  valid_state fst t → accessible fst t → coaccessible fst t →
  ∃ j, kept !! j = Some t ∧ coaccessible (trimmed fst kept) (Z.of_nat j).
Proof.
  intros Hv Hacc (f & Hreach & Hf). unfold reach in Hreach.
  induction Hreach as [t|t u f He Hreach IH].
  - destruct (kept_lookup t) as [j Hj].
    { split; [done|]. split; [done|]. exists t. split; [apply rtc_refl|done]. }
    exists j. split; [done|]. exists (Z.of_nat j). split; [apply rtc_refl|].
    unfold is_final. by rewrite (trimmed_StateFinal j t Hj).
  - destruct IH as (k & Hk & (f' & Hreach' & Hf')); try done.
    { by apply (edge_valid t). }
    { unfold accessible, reach in *. by apply (rtc_r _ t). }
    destruct (kept_lookup t) as [j Hj].
    { split; [done|]. split; [done|]. exists f. split; [|done].
      unfold reach. by apply (rtc_l _ t u). }
    exists j. split; [done|]. exists f'. split; [|done].
    unfold reach in *. apply (rtc_l _ _ (Z.of_nat k)); [|done].
    by apply (trimmed_edge j k t u).
Qed.


End TrimFacts.

(** ** [Connect] *)

Section ConnectCorrect.

Context {W : Type} `{Weight W}.

Lemma check_wf_sound (fst : MutableFst W) : check_wf fst = true → wf_fst fst.
Proof.
  unfold check_wf, wf_fst.
  intros [Hstart Harcs]%andb_true_iff. split.
  - apply orb_true_iff in Hstart as [Hs|Hs]; apply bool_decide_eq_true_1 in Hs;
      [by left | by right].
  - intros s a Ha. unfold StateArcs, GetState in Ha.
    case_bool_decide; [|by apply elem_of_nil in Ha].
    destruct (states fst !! Z.to_nat s) as [st|] eqn:Hst;
      [|by apply elem_of_nil in Ha].
    rewrite forallb_forall in Harcs.
    specialize (Harcs st). rewrite forallb_forall in Harcs.
    apply list_elem_of_lookup_2, list_elem_of_In in Hst.
    apply list_elem_of_In in Ha.
    pose proof (Harcs Hst a Ha) as Hb. by apply bool_decide_eq_true_1 in Hb.
Qed.

(** The states that [Connect] deletes, and those that it keeps. *)
Lemma Connect_kept (fst : MutableFst W) (v : SccVisitor) (s : Z) :
  length (access_ v) = length (states fst) →
  (∀ t, valid_state fst t →
        (vget false (access_ v) t = true ↔ accessible fst t) ∧
        (vget false (coaccess_ v) t = true ↔ coaccessible fst t)) →
  s ∈ kept_from
        (filter (fun s => negb (vget false (access_ v) s) ||
                          negb (vget false (coaccess_ v) s))
                (map Z.of_nat (seq 0 (length (access_ v)))))
        0 (length (states fst))
  ↔ useful fst s.
Proof.
  intros Hlen Hflags. rewrite kept_from_elem, list_elem_of_filter, Hlen.
  unfold useful. split.
  - intros [Hv Hnot].
    assert (Hvalid : valid_state fst s) by (unfold valid_state, NumStates; lia).
    destruct (Hflags s Hvalid) as [Hacc Hco].
    split; [done|].
    destruct (vget false (access_ v) s) eqn:Ha;
      destruct (vget false (coaccess_ v) s) eqn:Hc;
      try (exfalso; apply Hnot; split;
           [done | by apply (valid_state_root fst)]).
    split; [by apply Hacc | by apply Hco].
  - intros (Hvalid & Ha & Hc).
    destruct (Hflags s Hvalid) as [Hacc Hco].
    split; [unfold valid_state, NumStates in Hvalid; lia|].
    intros [Hdel _]. rewrite (proj2 Hacc Ha), (proj2 Hco Hc) in Hdel. done.
Qed.

End ConnectCorrect.

(** The four-state automaton with a dead-end branch: the branch states 1
    and 2 are absent, the kept states 0 and 3 are renumbered 0 and 1, and
    the only arc left is the one from the start state to the final state. *)
Example Connect_dead_end :
  Connect dead_end_fst
  = Some (mkMutableFst 0
            [ mkState TropInfinity [mkArc 2 2 (Trop 1) 1];
              mkState (Trop 0) [] ]
            None None (Z.lor kAccessible kCoAccessible)).
Proof. reflexivity. Qed.


(** * Further properties *)

(** ** Symbol tables: lookups in both directions and iteration *)

Section SymbolTableFacts.

Import SymbolTableImpl.

Lemma index_from_first (key : string) (l : list string) (i : Z) :
  key ∈ l →
  ∃ j : nat, index_from key l i = i + Z.of_nat j ∧ l !! j = Some key.
Proof.
  revert i. induction l as [|x l IH]; intros i Hin.
  - by apply elem_of_nil in Hin.
  - simpl. destruct (decide (x = key)) as [->|Hne].
    + exists 0%nat. split; [lia | done].
    + apply elem_of_cons in Hin as [->|Hin]; [done|].
      destruct (IH (i + 1) Hin) as (j & Hj & Hl).
      exists (S j). split; [lia | done].
Qed.

Lemma index_from_NoDup (l : list string) (j : nat) (key : string) (i : Z) :
  NoDup l → l !! j = Some key → index_from key l i = i + Z.of_nat j.
Proof.
  intros Hnd Hj.
  destruct (index_from_first key l i) as (j' & Hidx & Hj').
  { by apply list_elem_of_lookup_2 in Hj. }
  by rewrite Hidx, (NoDup_lookup l j j' key Hnd Hj Hj').
Qed.

Lemma GetSymbol_lookup (m : DenseSymbolMap) (j : nat) (sym : string) :
  dsm_symbols m !! j = Some sym → GetSymbol m (Z.of_nat j) = sym.
Proof. intros Hj. unfold GetSymbol. by rewrite Nat2Z.id, Hj. Qed.

(** [Find] at the key of an index gives the symbol at the index. *)
Lemma Find_at_index (impl : t) (j : nat) (sym : string) :
  table_ok impl → dsm_symbols (symbols_ impl) !! j = Some sym →
  ∃ key,
    (if bool_decide (Z.of_nat j = -1 ∨ Z.of_nat j < dense_key_limit_ impl)
     then Some (Z.of_nat j)
     else idx_key_ impl !! Z.to_nat (Z.of_nat j - dense_key_limit_ impl))
    = Some key ∧
    Find impl key = sym.
Proof.
  intros Hok Hj.
  pose proof (lookup_lt_Some _ _ _ Hj) as Hlt.
  pose proof (ok_limit _ Hok) as Hlim. pose proof (ok_idx_len _ Hok) as Hlen.
  unfold size in *.
  case_bool_decide as Hdense.
  - exists (Z.of_nat j). split; [done|]. unfold Find.
    rewrite bool_decide_eq_false_2 by lia.
    rewrite bool_decide_eq_false_2 by (unfold size; lia).
    by apply GetSymbol_lookup.
  - destruct (lookup_lt_is_Some_2 (idx_key_ impl)
                (Z.to_nat (Z.of_nat j - dense_key_limit_ impl)))
      as [key Hkey]; [lia|].
    exists key. split; [done|].
    destruct (ok_idx_key _ Hok _ _ Hkey) as [Hout Hmap].
    unfold Find. rewrite bool_decide_eq_true_2 by done. rewrite Hmap.
    rewrite bool_decide_eq_false_2 by (unfold size; lia).
    replace (dense_key_limit_ impl
             + Z.of_nat (Z.to_nat (Z.of_nat j - dense_key_limit_ impl)))
      with (Z.of_nat j) by lia.
    by apply GetSymbol_lookup.
Qed.

Lemma FindSymbol_Find (impl : t) (symbol : string) :
  table_ok impl → symbol ∈ dsm_symbols (symbols_ impl) →
  ∃ key, FindSymbol impl symbol = Some key ∧ Find impl key = symbol.
Proof.
  intros Hok Hin. unfold FindSymbol, DenseFind.
  destruct (index_from_first symbol _ 0 Hin) as (j & -> & Hj).
  rewrite Z.add_0_l. by apply Find_at_index.
Qed.

Lemma GetNthKey_Find (impl : t) (pos : Z) :
  table_ok impl → 0 <= pos < NumSymbols impl →
  ∃ key, GetNthKey impl pos = Some key ∧
         Find impl key = GetSymbol (symbols_ impl) pos.
Proof.
  intros Hok Hpos. unfold NumSymbols in Hpos. unfold GetNthKey.
  rewrite bool_decide_eq_false_2 by lia.
  pose proof (ok_limit _ Hok) as Hlim.
  case_bool_decide as Hdense.
  - exists pos. split; [done|]. unfold Find.
    rewrite bool_decide_eq_false_2 by lia.
    by rewrite bool_decide_eq_false_2 by lia.
  - apply FindSymbol_Find; [done|]. unfold GetSymbol, size in *.
    destruct (lookup_lt_is_Some_2 (dsm_symbols (symbols_ impl)) (Z.to_nat pos))
      as [sym Hsym]; [lia|].
    rewrite Hsym. simpl. by apply list_elem_of_lookup_2 in Hsym.
Qed.

End SymbolTableFacts.

(** X1: in a table that keeps the representation described in the header,
    the two lookups compose to the identity on the stored symbols:
    [Find(symbol)] returns a key, and [Find] of this key is the symbol. *)
Theorem symbol_key_symbol (impl : SymbolTableImpl.t) (symbol : string) :
  table_ok impl →
  symbol ∈ SymbolTableImpl.dsm_symbols (SymbolTableImpl.symbols_ impl) →
  ∃ key, SymbolTableImpl.FindSymbol impl symbol = Some key ∧
         SymbolTableImpl.Find impl key = symbol.
Proof. apply FindSymbol_Find. Qed.

Lemma example_table_ok : table_ok (SymbolTable.impl_ example_table).
Proof.
  split.
  - vm_compute. split; discriminate.
  - reflexivity.
  - intros [|i] key Hkey; [|done]. injection Hkey as <-.
    split; [right; vm_compute; discriminate | reflexivity].
Qed.

Lemma example_table_exact : table_exact (SymbolTable.impl_ example_table).
Proof.
  split.
  - apply example_table_ok.
  - by apply (bool_decide_unpack _).
  - intros key idx Hkey. simpl in Hkey.
    apply lookup_singleton_Some in Hkey as [<- <-]. split; [done|reflexivity].
Qed.

Lemma symbol_key_symbol_witness :
  ∃ key,
    SymbolTableImpl.FindSymbol (SymbolTable.impl_ example_table) "c" = Some key ∧
    SymbolTableImpl.Find (SymbolTable.impl_ example_table) key = "c".
Proof.
  apply (symbol_key_symbol (SymbolTable.impl_ example_table) "c").
  - apply example_table_ok.
  - by apply (bool_decide_unpack _).
Defined.

(** X2: in a table that moreover stores no symbol twice and whose
    [key_map_] holds only the keys of [idx_key_], the lookups compose to the
    identity on the stored keys as well: for a key below the dense limit or
    with an entry in [key_map_], [Find(Find(key))] is the key. *)
Theorem key_symbol_key (impl : SymbolTableImpl.t) (key : Z) :
  table_exact impl → key_stored impl key →
  SymbolTableImpl.FindSymbol impl (SymbolTableImpl.Find impl key) = Some key.
Proof.
  intros Hex Hkey. pose proof (ex_ok _ Hex) as Hok.
  pose proof (ok_limit _ Hok) as Hlim.
  unfold SymbolTableImpl.size in *.
  assert (Hidx : ∀ idx : Z,
            0 <= idx < Z.of_nat (length (SymbolTableImpl.dsm_symbols
                                           (SymbolTableImpl.symbols_ impl))) →
            SymbolTableImpl.DenseFind (SymbolTableImpl.symbols_ impl)
              (SymbolTableImpl.GetSymbol (SymbolTableImpl.symbols_ impl) idx)
            = idx).
  { intros idx Hr.
    destruct (lookup_lt_is_Some_2
                (SymbolTableImpl.dsm_symbols (SymbolTableImpl.symbols_ impl))
                (Z.to_nat idx)) as [sym Hsym]; [lia|].
    unfold SymbolTableImpl.GetSymbol. rewrite Hsym. simpl.
    unfold SymbolTableImpl.DenseFind.
    rewrite (index_from_NoDup _ (Z.to_nat idx) sym 0 (ex_nodup _ Hex) Hsym).
    lia. }
  destruct Hkey as [Hdense|[Hout (idx & Hmap & Hrange)]].
  - unfold SymbolTableImpl.Find.
    rewrite bool_decide_eq_false_2 by lia.
    rewrite bool_decide_eq_false_2 by (unfold SymbolTableImpl.size; lia).
    unfold SymbolTableImpl.FindSymbol.
    rewrite Hidx by lia.
    by rewrite bool_decide_eq_true_2 by lia.
  - destruct (ex_key_map _ Hex key idx Hmap) as [Hge Hback].
    unfold SymbolTableImpl.size in Hrange.
    unfold SymbolTableImpl.Find.
    rewrite bool_decide_eq_true_2 by done. rewrite Hmap.
    rewrite bool_decide_eq_false_2 by (unfold SymbolTableImpl.size; lia).
    unfold SymbolTableImpl.FindSymbol.
    rewrite Hidx by lia.
    by rewrite bool_decide_eq_false_2 by lia.
Qed.

Lemma key_symbol_key_witness :
  SymbolTableImpl.FindSymbol (SymbolTable.impl_ example_table)
    (SymbolTableImpl.Find (SymbolTable.impl_ example_table) 10)
  = Some 10.
Proof.
  apply (key_symbol_key (SymbolTable.impl_ example_table) 10).
  - apply example_table_exact.
  - right. split; [right; vm_compute; discriminate|].
    exists 3. split; [reflexivity | vm_compute; split; [discriminate|reflexivity]].
Defined.

(** X3: [GetNthKey] returns -1 for a position that is negative or not
    below the number of symbols; for a position of a table that keeps the
    representation it returns a key, and [Find] of this key is the symbol
    stored at the position. *)
Theorem GetNthKey_position (impl : SymbolTableImpl.t) (pos : Z) :
  table_ok impl →
  ((pos < 0 ∨ pos >= SymbolTableImpl.NumSymbols impl) →
   SymbolTableImpl.GetNthKey impl pos = Some (-1)) ∧
  (0 <= pos < SymbolTableImpl.NumSymbols impl →
   ∃ key, SymbolTableImpl.GetNthKey impl pos = Some key ∧
          SymbolTableImpl.Find impl key
          = SymbolTableImpl.GetSymbol (SymbolTableImpl.symbols_ impl) pos).
Proof.
  intros Hok. split.
  - intros Hout. unfold SymbolTableImpl.GetNthKey.
    by rewrite bool_decide_eq_true_2.
  - by apply GetNthKey_Find.
Qed.

Lemma GetNthKey_position_witness :
  ((3 < 0 ∨ 3 >= SymbolTableImpl.NumSymbols (SymbolTable.impl_ example_table)) →
   SymbolTableImpl.GetNthKey (SymbolTable.impl_ example_table) 3 = Some (-1)) ∧
  (0 <= 3 < SymbolTableImpl.NumSymbols (SymbolTable.impl_ example_table) →
   ∃ key,
     SymbolTableImpl.GetNthKey (SymbolTable.impl_ example_table) 3 = Some key ∧
     SymbolTableImpl.Find (SymbolTable.impl_ example_table) key
     = SymbolTableImpl.GetSymbol
         (SymbolTableImpl.symbols_ (SymbolTable.impl_ example_table)) 3).
Proof.
  apply (GetNthKey_position (SymbolTable.impl_ example_table) 3).
  apply example_table_ok.
Defined.

Lemma iterate_symbols_cons (fuel : nat) (it it' : SymbolTableIterator.t)
    (rest : list string) :
  SymbolTableIterator.Done it = false →
  SymbolTableIterator.Next it = Some it' →
  iterate_symbols fuel it' = Some rest →
  iterate_symbols (S fuel) it = Some (SymbolTableIterator.Symbol it :: rest).
Proof.
  intros Hd Hn Hr. cbn [iterate_symbols]. rewrite Hd, Hn. simpl.
  by rewrite Hr.
Qed.

(** The iterator at the position [k] of a table of [k + m] symbols. *)
Lemma iterate_symbols_from (tbl : SymbolTable.t) (m : nat) (k : nat) (key : Z) :
  table_ok (SymbolTable.impl_ tbl) →
  (k + m = length (SymbolTableImpl.dsm_symbols
                     (SymbolTableImpl.symbols_ (SymbolTable.impl_ tbl))))%nat →
  (m ≠ 0%nat →
   SymbolTableImpl.GetNthKey (SymbolTable.impl_ tbl) (Z.of_nat k) = Some key) →
  iterate_symbols (S m)
    (SymbolTableIterator.mkIter tbl (Z.of_nat k) (SymbolTable.NumSymbols tbl) key)
  = Some (drop k (SymbolTableImpl.dsm_symbols
                    (SymbolTableImpl.symbols_ (SymbolTable.impl_ tbl)))).
Proof.
  intros Hok. revert k key. induction m as [|m IH]; intros k key Hlen Hkey.
  - cbn [iterate_symbols]. unfold SymbolTableIterator.Done. simpl.
    unfold SymbolTable.NumSymbols, SymbolTableImpl.NumSymbols,
      SymbolTableImpl.size.
    rewrite bool_decide_eq_true_2 by lia.
    by rewrite drop_ge by lia.
  - assert (Hn : SymbolTable.NumSymbols tbl = Z.of_nat (k + S m)).
    { unfold SymbolTable.NumSymbols, SymbolTableImpl.NumSymbols,
        SymbolTableImpl.size. by rewrite Hlen. }
    assert (Hbound : ∀ pos, 0 <= pos < Z.of_nat (k + S m) →
                            0 <= pos < SymbolTableImpl.NumSymbols
                                         (SymbolTable.impl_ tbl)).
    { intros pos Hpos. unfold SymbolTableImpl.NumSymbols, SymbolTableImpl.size.
      lia. }
    specialize (Hkey ltac:(done)).
    destruct (GetNthKey_Find (SymbolTable.impl_ tbl) (Z.of_nat k) Hok)
      as (key0 & Hkey0 & Hfind).
    { apply Hbound. lia. }
    rewrite Hkey in Hkey0. injection Hkey0 as <-.
    destruct (lookup_lt_is_Some_2
                (SymbolTableImpl.dsm_symbols
                   (SymbolTableImpl.symbols_ (SymbolTable.impl_ tbl))) k)
      as [sym Hsym]; [lia|].
    rewrite (GetSymbol_lookup _ _ _ Hsym) in Hfind.
    rewrite (drop_S _ _ _ Hsym).
    assert (Hnext : ∃ key1,
              SymbolTableIterator.Next
                (SymbolTableIterator.mkIter tbl (Z.of_nat k)
                   (SymbolTable.NumSymbols tbl) key)
              = Some (SymbolTableIterator.mkIter tbl (Z.of_nat (S k))
                        (SymbolTable.NumSymbols tbl) key1) ∧
              (m ≠ 0%nat →
               SymbolTableImpl.GetNthKey (SymbolTable.impl_ tbl)
                 (Z.of_nat (S k)) = Some key1)).
    { unfold SymbolTableIterator.Next.
      cbn [SymbolTableIterator.pos_ SymbolTableIterator.nsymbols_
           SymbolTableIterator.table_ SymbolTableIterator.key_].
      replace (Z.of_nat k + 1) with (Z.of_nat (S k)) by lia.
      rewrite Hn. case_bool_decide as Hmore.
      - destruct (GetNthKey_Find (SymbolTable.impl_ tbl) (Z.of_nat (S k)) Hok)
          as (key1 & Hkey1 & _).
        { apply Hbound. lia. }
        exists key1. unfold SymbolTable.GetNthKey. rewrite Hkey1.
        by rewrite <- Hn.
      - exists key. rewrite <- Hn. split; [done|]. intros Hm. lia. }
    destruct Hnext as (key1 & Hnext & Hkey1).
    replace sym with
      (SymbolTableIterator.Symbol
         (SymbolTableIterator.mkIter tbl (Z.of_nat k)
            (SymbolTable.NumSymbols tbl) key)) by exact Hfind.
    assert (Hd : SymbolTableIterator.Done
                   (SymbolTableIterator.mkIter tbl (Z.of_nat k)
                      (SymbolTable.NumSymbols tbl) key) = false).
    { unfold SymbolTableIterator.Done.
      cbn [SymbolTableIterator.pos_ SymbolTableIterator.nsymbols_].
      apply bool_decide_eq_false_2. rewrite Hn. lia. }
    apply (iterate_symbols_cons _ _ _ _ Hd Hnext).
    apply IH; [lia | done].
Qed.

(** X4: a [SymbolTableIterator] over a table that keeps the
    representation can be constructed, and the loop over it with [Done],
    [Symbol] and [Next] ends and yields the symbols of the table, each once,
    in the order in which they are stored. *)
Theorem iterator_yields_symbols (tbl : SymbolTable.t) :
  table_ok (SymbolTable.impl_ tbl) →
  ∃ it,
    SymbolTableIterator.new tbl = Some it ∧
    iterate_symbols
      (S (length (SymbolTableImpl.dsm_symbols
                    (SymbolTableImpl.symbols_ (SymbolTable.impl_ tbl))))) it
    = Some (SymbolTableImpl.dsm_symbols
              (SymbolTableImpl.symbols_ (SymbolTable.impl_ tbl))).
Proof.
  intros Hok. unfold SymbolTableIterator.new, SymbolTable.GetNthKey.
  destruct (SymbolTableImpl.GetNthKey (SymbolTable.impl_ tbl) 0)
    as [key|] eqn:Hkey.
  - eexists. split; [reflexivity|].
    apply (iterate_symbols_from tbl _ 0 key Hok); [done|]. by intros _.
  - exfalso. unfold SymbolTableImpl.GetNthKey in Hkey.
    case_bool_decide as Hout; [done|].
    destruct (GetNthKey_Find (SymbolTable.impl_ tbl) 0 Hok) as (k & Hk & _).
    { unfold SymbolTableImpl.NumSymbols. lia. }
    unfold SymbolTableImpl.GetNthKey in Hk.
    rewrite bool_decide_eq_false_2 in Hk by done. congruence.
Qed.

Lemma iterator_yields_symbols_witness :
  ∃ it,
    SymbolTableIterator.new example_table = Some it ∧
    iterate_symbols 5 it = Some ["eps"; "a"; "b"; "c"].
Proof.
  apply (iterator_yields_symbols example_table). apply example_table_ok.
Defined.

(** ** Composition: construction, caching and the frame of an expansion *)

Section ComposeExtras.

Context {W : Type} `{Weight W} {FS : Type} `{EqDecision FS}.
Variable LabeledCheckSum : SymbolTable.t → string.
Variable FLAGS_fst_compat_symbols : bool.
Variable kFstProperties kCopyProperties : Z.
Variable ComposeProperties : Z → Z → Z.
Variable StateTableError : list (StateTuple FS) → bool.
Variable filter_ : ComposeFilter W FS.
Variable matcher1_ matcher2_ : Matcher W.

Local Abbreviation Impl := (ComposeFstImpl W FS).

(** *** The frame of an expansion *)

Lemma expand_frame_refl (s : Z) (impl : Impl) : expand_frame s impl impl.
Proof. by split. Qed.

Lemma expand_frame_trans (s : Z) (impl1 impl2 impl3 : Impl) :
  expand_frame s impl1 impl2 → expand_frame s impl2 impl3 →
  expand_frame s impl1 impl3.
Proof.
  intros H1 H2. split.
  - intros s' Hs'. by rewrite (ef_other _ _ _ H2 s' Hs'), (ef_other _ _ _ H1 s' Hs').
  - by rewrite (ef_final _ _ _ H2), (ef_final _ _ _ H1).
  - etrans; [apply (ef_table _ _ _ H1) | apply (ef_table _ _ _ H2)].
  - by rewrite (ef_match_type _ _ _ H2), (ef_match_type _ _ _ H1).
  - by rewrite (ef_isymbols _ _ _ H2), (ef_isymbols _ _ _ H1).
  - by rewrite (ef_osymbols _ _ _ H2), (ef_osymbols _ _ _ H1).
Qed.

Lemma AddArc_frame (s : Z) (a b : Arc W) (f : FS) (impl : Impl) :
  expand_frame s impl (AddArc s a b f impl).
Proof.
  unfold AddArc.
  pose proof (FindState_spec (state_table_ impl) (nextstate a, nextstate b, f))
    as [Hpre _].
  destruct (FindState (state_table_ impl) (nextstate a, nextstate b, f))
    as [id tbl]. simpl in *.
  split; simpl; try done.
  - intros s' Hs'. unfold PushArc. by rewrite lookup_insert_ne.
  - unfold PushArc, GetMutableState. by rewrite lookup_insert_eq.
Qed.

Lemma MatchArc_step_frame (s : Z) (arc arca : Arc W) (match_input : bool)
    (impl : Impl) :
  expand_frame s impl (MatchArc_step filter_ s arc match_input impl arca).
Proof.
  unfold MatchArc_step. destruct match_input.
  - destruct (FilterArc filter_ (filter_state_ impl) arc arca) as [[b a] f].
    case_bool_decide; [apply AddArc_frame | apply expand_frame_refl].
  - destruct (FilterArc filter_ (filter_state_ impl) arca arc) as [[a b] f].
    case_bool_decide; [apply AddArc_frame | apply expand_frame_refl].
Qed.

Lemma MatchArc_frame (s : Z) (matchera : Matcher W) (sa : Z) (arc : Arc W)
    (match_input : bool) (impl : Impl) :
  expand_frame s impl (MatchArc filter_ s matchera sa arc match_input impl).
Proof.
  unfold MatchArc. destruct (MFind matchera sa _); [|apply expand_frame_refl].
  generalize (MValues matchera sa (if match_input then olabel arc else ilabel arc)).
  intros l. revert impl. induction l as [|arca l IH]; intros impl; simpl.
  - apply expand_frame_refl.
  - eapply expand_frame_trans; [apply MatchArc_step_frame | apply IH].
Qed.

Lemma OrderedExpand_frame (s sa : Z) (fstb : Fst W) (sb : Z)
    (matchera : Matcher W) (match_input : bool) (impl : Impl) :
  expand_frame s impl
    (OrderedExpand filter_ s sa fstb sb matchera match_input impl).
Proof.
  unfold OrderedExpand.
  set (loop := mkArc _ _ _ _).
  assert (Hfold : ∀ l impl0,
            expand_frame s impl0
              (foldl (fun impl arc =>
                        MatchArc filter_ s matchera sa arc match_input impl)
                     impl0 l)).
  { induction l as [|arc l IH]; intros impl0; simpl.
    - apply expand_frame_refl.
    - eapply expand_frame_trans; [apply MatchArc_frame | apply IH]. }
  eapply expand_frame_trans; [apply MatchArc_frame|].
  eapply expand_frame_trans; [apply Hfold|].
  split; simpl; try done.
  - intros s' Hs'. unfold SetArcs. by rewrite lookup_insert_ne.
  - unfold SetArcs, GetMutableState. by rewrite lookup_insert_eq.
Qed.

Lemma Expand_Some (s : Z) (impl impl' : Impl) :
  Expand filter_ matcher1_ matcher2_ s impl = Some impl' →
  ∃ s1 s2 fs, Tuple (state_table_ impl) s = Some (s1, s2, fs).
Proof.
  unfold Expand. destruct (Tuple (state_table_ impl) s) as [[[s1 s2] fs]|];
    [|done].
  intros _. by exists s1, s2, fs.
Qed.

(** In the model, the expansion of [s] changes the cache at [s] only; the
    state table grows; the property word is unchanged or has gained the
    error bit. *)
Lemma Expand_expand_frame (s : Z) (impl impl' : Impl) :
  Expand filter_ matcher1_ matcher2_ s impl = Some impl' →
  expand_frame s impl impl' ∧
  (∀ id t, Tuple (state_table_ impl) id = Some t →
           Tuple (state_table_ impl') id = Some t) ∧
  (properties_ impl' = properties_ impl ∨
   properties_ impl' = SetProperties kError kError (properties_ impl)).
Proof.
  intros Hexp.
  destruct (Expand_Some s impl impl' Hexp) as (s1 & s2 & fs & Htuple).
  rewrite (Expand_unfold filter_ matcher1_ matcher2_ s impl s1 s2 fs Htuple)
    in Hexp. cbn zeta in Hexp.
  pose proof (MatchInput_frame matcher1_ matcher2_ s1 s2
                (filter_SetState (s1, s2, fs) impl)) as (Hc & Ht & Hf & Hp).
  cbn zeta in *.
  set (r := MatchInput matcher1_ matcher2_ s1 s2
              (filter_SetState (s1, s2, fs) impl)) in *.
  assert (Hfr0 : expand_frame s impl r.2).
  { destruct Hp as [->| ->]; by split. }
  assert (Hprops0 : properties_ r.2 = properties_ impl ∨
                    properties_ r.2
                    = SetProperties kError kError (properties_ impl)).
  { destruct Hp as [->| ->]; [by left | by right]. }
  assert (Hfr : expand_frame s impl impl' ∧
                properties_ impl' = properties_ r.2).
  { destruct r.1; injection Hexp as <-.
    - split; [eapply expand_frame_trans;
              [exact Hfr0 | apply OrderedExpand_frame]|].
      by destruct (OrderedExpand_blocks filter_ s s2 (fst1_ matcher1_) s1
                     matcher2_ true r.2) as (? & _ & _ & _ & ?).
    - split; [eapply expand_frame_trans;
              [exact Hfr0 | apply OrderedExpand_frame]|].
      by destruct (OrderedExpand_blocks filter_ s s1 (fst2_ matcher2_) s2
                     matcher1_ false r.2) as (? & _ & _ & _ & ?). }
  destruct Hfr as [Hfr Hprops]. split; [done|]. split.
  - intros id t Hid. eapply Tuple_prefix; [exact Hid|].
    apply (ef_table _ _ _ Hfr).
  - by rewrite Hprops.
Qed.

(** X5: what the expansion of a state leaves as it is, the cache apart.
    The state table only grows: every id issued before keeps its tuple.  The
    match type and the symbol tables stay.  The property word is unchanged
    or has gained the error bit, nothing else. *)
Theorem Expand_frame (s : Z) (impl impl' : Impl) :
  Expand filter_ matcher1_ matcher2_ s impl = Some impl' →
  state_table_ impl `prefix_of` state_table_ impl' ∧
  (∀ id t, Tuple (state_table_ impl) id = Some t →
           Tuple (state_table_ impl') id = Some t) ∧
  match_type_ impl' = match_type_ impl ∧
  isymbols_ impl' = isymbols_ impl ∧
  osymbols_ impl' = osymbols_ impl ∧
  (properties_ impl' = properties_ impl ∨
   properties_ impl' = SetProperties kError kError (properties_ impl)).
Proof.
  intros Hexp.
  destruct (Expand_expand_frame s impl impl' Hexp) as (Hfr & Hids & Hprops).
  split; [apply (ef_table _ _ _ Hfr)|]. split; [done|].
  split; [apply (ef_match_type _ _ _ Hfr)|].
  split; [apply (ef_isymbols _ _ _ Hfr)|].
  split; [apply (ef_osymbols _ _ _ Hfr) | done].
Qed.

(** *** The caches of the arcs and of the final weight *)

Lemma HasFinal_SetFinal (s : Z) (w : W) (c : gmap Z (CacheState W)) :
  HasFinal s (SetFinal s w c) = true ∧
  cs_final (GetMutableState s (SetFinal s w c)) = Some w.
Proof.
  unfold HasFinal, SetFinal, GetMutableState. rewrite lookup_insert_eq.
  split; [|done]. apply bool_decide_eq_true_2. by eexists.
Qed.

(** X6: the arcs of a composition state are computed once: after a
    first access to the arcs of [s], which expands [s] unless it is
    expanded already, [s] is marked as expanded, and a second access returns
    the same arcs and leaves the object as it is. *)
Theorem ImplArcs_cached (s : Z) (impl impl' : Impl) (arcs : list (Arc W)) :
  ImplArcs filter_ matcher1_ matcher2_ s impl = Some (arcs, impl') →
  HasArcs s (cache_store_ impl') = true ∧
  ImplArcs filter_ matcher1_ matcher2_ s impl' = Some (arcs, impl').
Proof.
  unfold ImplArcs at 1.
  destruct (HasArcs s (cache_store_ impl)) eqn:Hhas.
  - intros [= <- <-]. split; [done|]. unfold ImplArcs. by rewrite Hhas.
  - destruct (Expand filter_ matcher1_ matcher2_ s impl) as [impl0|] eqn:Hexp;
      [|done].
    simpl. intros [= <- <-].
    destruct (Expand_Some s impl impl0 Hexp) as (s1 & s2 & fs & Htuple).
    destruct (Expand_blocks filter_ matcher1_ matcher2_ s impl s1 s2 fs Htuple)
      as (impl1 & blocks & Hexp1 & _ & _ & Hhas1 & _).
    rewrite Hexp in Hexp1. injection Hexp1 as <-.
    split; [done|]. unfold ImplArcs. by rewrite Hhas1.
Qed.

(** X7: the final weight of a composition state is computed once: after a
    first call of [Final(s)] the weight is in the cache, and a second call
    returns it and leaves the object as it is; the first call leaves the
    state table as it is. *)
Theorem ImplFinal_cached (s : Z) (impl impl' : Impl) (w : W) :
  ImplFinal filter_ matcher1_ matcher2_ s impl = Some (w, impl') →
  HasFinal s (cache_store_ impl') = true ∧
  ImplFinal filter_ matcher1_ matcher2_ s impl' = Some (w, impl') ∧
  state_table_ impl' = state_table_ impl.
Proof.
  unfold ImplFinal at 1.
  destruct (HasFinal s (cache_store_ impl)) eqn:Hhas.
  - destruct (cs_final (GetMutableState s (cache_store_ impl))) as [w0|] eqn:Hw;
      [|done].
    simpl. intros [= <- <-]. split; [done|]. split; [|done].
    unfold ImplFinal. by rewrite Hhas, Hw.
  - destruct (ComputeFinal filter_ matcher1_ matcher2_ s impl)
      as [[[w0 calls] impl0]|] eqn:Hcf; [|done].
    simpl. intros [= <- <-].
    destruct (HasFinal_SetFinal s w0 (cache_store_ impl0)) as [Hh Hf].
    assert (Ht0 : state_table_ impl0 = state_table_ impl).
    { unfold ComputeFinal in Hcf.
      destruct (Tuple (state_table_ impl) s) as [[[s1 s2] fs]|]; [|done].
      repeat case_bool_decide; try (by injection Hcf as <- <- <-).
      destruct (FilterFinal filter_ _ _ _) as [f1 f2].
      by injection Hcf as <- <- <-. }
    split; [done|]. split; [|done].
    unfold ImplFinal. simpl. by rewrite Hh, Hf.
Qed.

(** X8: the start state of a composition.  When an operand has no start
    state, [ComputeStart] returns [kNoStateId] and interns nothing.
    Otherwise it returns an id that the state table maps to the tuple of the
    two start states and the start state of the filter; the id is not
    [kNoStateId], and the ids issued before keep their tuples. *)
Theorem ComputeStart_spec (impl : Impl) :
  let r := ComputeStart filter_ matcher1_ matcher2_ impl in
  ((Start (fst1_ matcher1_) = kNoStateId ∨
    Start (fst2_ matcher2_) = kNoStateId) →
   r = (kNoStateId, impl)) ∧
  (Start (fst1_ matcher1_) ≠ kNoStateId →
   Start (fst2_ matcher2_) ≠ kNoStateId →
   Tuple (state_table_ r.2) r.1
   = Some (Start (fst1_ matcher1_), Start (fst2_ matcher2_), FStart filter_) ∧
   r.1 ≠ kNoStateId ∧
   state_table_ impl `prefix_of` state_table_ r.2 ∧
   cache_store_ r.2 = cache_store_ impl ∧
   properties_ r.2 = properties_ impl).
Proof.
  cbn zeta. unfold ComputeStart. split.
  - intros [H1|H2].
    + by rewrite bool_decide_eq_true_2.
    + case_bool_decide; [done|]. by rewrite bool_decide_eq_true_2.
  - intros H1 H2. rewrite !bool_decide_eq_false_2 by done.
    pose proof (FindState_spec (state_table_ impl)
                  (Start (fst1_ matcher1_), Start (fst2_ matcher2_),
                   FStart filter_)) as [Hpre Htuple].
    destruct (FindState (state_table_ impl) _) as [id tbl]. simpl in *.
    split; [done|]. split; [|done].
    intros ->. unfold Tuple in Htuple. by rewrite bool_decide_eq_false_2 in Htuple.
Qed.

(** X9: the error property of a composition as the constructor leaves
    it.  It is set exactly when the input symbols of the second operand
    and the output symbols of the first are incompatible, or no side to
    match on exists (the match type is MATCH_NONE), or the properties
    computed through the matchers and the filter carry the error bit under
    the copy mask, or the state table reports an error: an error found
    early is not lost in the later updates of the property word. *)
Theorem new_ComposeFstImpl_error (fst1 fst2 : Fst W)
    (state_table : list (StateTuple FS)) :
  let cprops :=
    ComposeProperties
      (MProperties matcher1_ (Properties fst1 kFstProperties false))
      (MProperties matcher2_ (Properties fst2 kFstProperties false)) in
  let impl :=
    new_ComposeFstImpl LabeledCheckSum FLAGS_fst_compat_symbols kFstProperties
      kCopyProperties ComposeProperties StateTableError filter_ matcher1_
      matcher2_ fst1 fst2 state_table in
  has_error (properties_ impl)
  = negb (CompatSymbols LabeledCheckSum FLAGS_fst_compat_symbols
            (InputSymbols fst2) (OutputSymbols fst1))
    || bool_decide (SetMatchType matcher1_ matcher2_ = MATCH_NONE)
    || (Z.testbit (FProperties filter_ cprops) 2 && Z.testbit kCopyProperties 2)
    || StateTableError state_table ∧
  match_type_ impl = SetMatchType matcher1_ matcher2_ ∧
  isymbols_ impl = InputSymbols fst1 ∧
  osymbols_ impl = OutputSymbols fst2 ∧
  state_table_ impl = state_table.
Proof.
  cbn zeta. unfold new_ComposeFstImpl, InitBase, blank_impl.
  destruct (negb (CompatSymbols _ _ _ _)) eqn:Hcompat;
    cbn [set_properties set_symbols set_match_type properties_ isymbols_
         osymbols_ state_table_ match_type_ cache_store_ filter_state_];
    destruct (bool_decide (SetMatchType matcher1_ matcher2_ = MATCH_NONE));
    cbn [set_properties set_symbols set_match_type properties_ isymbols_
         osymbols_ state_table_ match_type_ cache_store_ filter_state_];
    destruct (StateTableError state_table) eqn:Hste;
    cbn [set_properties set_symbols set_match_type properties_ isymbols_
         osymbols_ state_table_ match_type_ cache_store_ filter_state_];
    rewrite ?testbit_SetProperties_error;
    change (Z.testbit kError 2) with true;
    change (has_error 0) with false;
    rewrite ?orb_true_r, ?orb_false_r, ?orb_true_l, ?orb_false_l; done.
Qed.

(** X10: the matcher that an expansion queries can match on the side
    it is asked for.  When the match type is the one [SetMatchType] found
    and it is not MATCH_NONE, then for every pair of states the side chosen
    by [MatchInput] is backed by the matcher: if the second matcher is to be
    queried, its type is MATCH_INPUT, without or with the test of its
    automaton; if the first, its type is MATCH_OUTPUT. *)
Theorem Expand_side_supported (impl : Impl) (s1 s2 : Z) :
  match_type_ impl = SetMatchType matcher1_ matcher2_ →
  match_type_ impl ≠ MATCH_NONE →
  if (MatchInput matcher1_ matcher2_ s1 s2 impl).1
  then MType matcher2_ false = MATCH_INPUT ∨ MType matcher2_ true = MATCH_INPUT
  else MType matcher1_ false = MATCH_OUTPUT ∨
       MType matcher1_ true = MATCH_OUTPUT.
Proof.
  intros Hmt Hne. unfold MatchInput. rewrite Hmt in *. clear Hmt.
  unfold SetMatchType in *.
  destruct (nonzero (Z.land (MFlags matcher1_) kRequireMatch) &&
            bool_decide (MType matcher1_ true ≠ MATCH_OUTPUT)); [done|].
  destruct (nonzero (Z.land (MFlags matcher2_) kRequireMatch) &&
            bool_decide (MType matcher2_ true ≠ MATCH_INPUT)); [done|].
  cbn zeta in *.
  destruct (bool_decide (MType matcher1_ false = MATCH_OUTPUT)) eqn:H1;
    destruct (bool_decide (MType matcher2_ false = MATCH_INPUT)) eqn:H2;
    simpl in *.
  - apply bool_decide_eq_true_1 in H1, H2.
    repeat (match goal with
            | |- context [if ?b then _ else _] => destruct b
            end; simpl; auto).
  - apply bool_decide_eq_true_1 in H1. by left.
  - apply bool_decide_eq_true_1 in H2. by left.
  - case_bool_decide as H3; simpl in *; [by right|].
    case_bool_decide as H4; simpl in *; [by right | done].
Qed.

End ComposeExtras.

Lemma Expand_frame_witness :
  ∃ impl',
    Expand accept_all_filter sorted_matcher1 sorted_matcher2 0
      (example_impl sorted_matcher1 sorted_matcher2) = Some impl' ∧
    state_table_ (example_impl sorted_matcher1 sorted_matcher2)
      `prefix_of` state_table_ impl' ∧
    (∀ id t,
       Tuple (state_table_ (example_impl sorted_matcher1 sorted_matcher2)) id
       = Some t →
       Tuple (state_table_ impl') id = Some t) ∧
    match_type_ impl'
    = match_type_ (example_impl sorted_matcher1 sorted_matcher2) ∧
    isymbols_ impl' = isymbols_ (example_impl sorted_matcher1 sorted_matcher2) ∧
    osymbols_ impl' = osymbols_ (example_impl sorted_matcher1 sorted_matcher2) ∧
    (properties_ impl'
     = properties_ (example_impl sorted_matcher1 sorted_matcher2) ∨
     properties_ impl'
     = SetProperties kError kError
         (properties_ (example_impl sorted_matcher1 sorted_matcher2))).
Proof.
  eexists. split; [reflexivity|].
  apply (Expand_frame accept_all_filter sorted_matcher1 sorted_matcher2 0).
  reflexivity.
Defined.

Lemma ImplArcs_cached_witness :
  ∃ arcs impl',
    ImplArcs accept_all_filter sorted_matcher1 sorted_matcher2 0
      (example_impl sorted_matcher1 sorted_matcher2) = Some (arcs, impl') ∧
    HasArcs 0 (cache_store_ impl') = true ∧
    ImplArcs accept_all_filter sorted_matcher1 sorted_matcher2 0 impl'
    = Some (arcs, impl').
Proof.
  eexists _, _. split; [reflexivity|].
  apply (ImplArcs_cached accept_all_filter sorted_matcher1 sorted_matcher2 0
           (example_impl sorted_matcher1 sorted_matcher2)).
  reflexivity.
Defined.

Lemma ImplFinal_cached_witness :
  ∃ w impl',
    ImplFinal accept_all_filter sorted_matcher1 sorted_matcher2 0
      (example_impl sorted_matcher1 sorted_matcher2) = Some (w, impl') ∧
    HasFinal 0 (cache_store_ impl') = true ∧
    ImplFinal accept_all_filter sorted_matcher1 sorted_matcher2 0 impl'
    = Some (w, impl') ∧
    state_table_ impl'
    = state_table_ (example_impl sorted_matcher1 sorted_matcher2).
Proof.
  eexists _, _. split; [reflexivity|].
  apply (ImplFinal_cached accept_all_filter sorted_matcher1 sorted_matcher2 0
           (example_impl sorted_matcher1 sorted_matcher2)).
  reflexivity.
Defined.

Lemma Expand_side_supported_witness :
  if (MatchInput sorted_matcher1 sorted_matcher2 0 0
        (example_impl sorted_matcher1 sorted_matcher2)).1
  then MType sorted_matcher2 false = MATCH_INPUT ∨
       MType sorted_matcher2 true = MATCH_INPUT
  else MType sorted_matcher1 false = MATCH_OUTPUT ∨
       MType sorted_matcher1 true = MATCH_OUTPUT.
Proof.
  apply (Expand_side_supported sorted_matcher1 sorted_matcher2
           (example_impl sorted_matcher1 sorted_matcher2) 0 0).
  - reflexivity.
  - discriminate.
Defined.

(** ** Composition: the matcher of a composition and the property query *)

Lemma nonzero_land_kError (x : Z) : nonzero (Z.land x kError) = Z.testbit x 2.
Proof.
  unfold nonzero, kError. destruct (Z.testbit x 2) eqn:Hbit.
  - apply bool_decide_eq_true_2. intros Hz.
    assert (Hb : Z.testbit (Z.land x 4) 2 = true)
      by by rewrite Z.land_spec, Hbit.
    rewrite Hz in Hb. by rewrite Z.bits_0 in Hb.
  - apply bool_decide_eq_false_2. intros Hz. apply Hz.
    apply Z.bits_inj'. intros n Hn. rewrite Z.land_spec, Z.bits_0.
    destruct (decide (n = 2)) as [->|Hne]; [by rewrite Hbit|].
    change 4 with (2 ^ 2). rewrite Z.pow2_bits_eqb by lia.
    rewrite (proj2 (Z.eqb_neq 2 n)) by lia. apply andb_false_r.
Qed.

Lemma nonzero_lor (a b : Z) : nonzero (Z.lor a b) = nonzero a || nonzero b.
Proof.
  unfold nonzero.
  destruct (decide (a = 0)) as [->|Ha], (decide (b = 0)) as [->|Hb].
  - done.
  - rewrite Z.lor_0_l. rewrite (bool_decide_eq_false_2 (0 ≠ 0)) by (intros Hx; by apply Hx).
    done.
  - rewrite Z.lor_0_r. rewrite (bool_decide_eq_false_2 (0 ≠ 0)) by (intros Hx; by apply Hx).
    by rewrite orb_false_r.
  - rewrite (bool_decide_eq_true_2 (a ≠ 0)) by done. simpl.
    apply bool_decide_eq_true_2. intros Hz. apply Z.lor_eq_0_iff in Hz. tauto.
Qed.

Lemma has_error_lor_kError (p : Z) : has_error (Z.lor p kError) = true.
Proof.
  unfold has_error. rewrite Z.lor_spec.
  change (Z.testbit kError 2) with true. apply orb_true_r.
Qed.

Section MatcherExtras.

Context {W : Type} `{Weight W}.

(** X11: the type of the matcher of a composition.  [Type(test)] is
    MATCH_NONE, MATCH_UNKNOWN or the match type of the matcher, never
    another type; it is MATCH_NONE as soon as one of the two matchers has
    the type MATCH_NONE; it is the match type when both matchers have it;
    and conversely, for a match type other than MATCH_NONE and
    MATCH_UNKNOWN, it is the match type only when both matchers have it. *)
Theorem ComposeFstMatcher_Type_spec (m : ComposeFstMatcher W) (test : bool) :
  let t := ComposeFstMatcher_Type m test in
  let type1 := MType (cm_matcher1_ m) test in
  let type2 := MType (cm_matcher2_ m) test in
  (t = MATCH_NONE ∨ t = MATCH_UNKNOWN ∨ t = cm_match_type_ m) ∧
  (type1 = MATCH_NONE ∨ type2 = MATCH_NONE → t = MATCH_NONE) ∧
  (type1 = cm_match_type_ m → type2 = cm_match_type_ m →
   t = cm_match_type_ m) ∧
  (cm_match_type_ m ≠ MATCH_NONE → cm_match_type_ m ≠ MATCH_UNKNOWN →
   t = cm_match_type_ m →
   type1 = cm_match_type_ m ∧ type2 = cm_match_type_ m).
Proof.
  cbn zeta. unfold ComposeFstMatcher_Type.
  destruct (MType (cm_matcher1_ m) test) eqn:H1;
    destruct (MType (cm_matcher2_ m) test) eqn:H2;
    destruct (cm_match_type_ m) eqn:Hmt; simpl;
    (split; [auto|]); (split; [intros [?|?]; done|]);
    (split; [intros; done|]); intros; done.
Qed.

(** X12: copies of the matcher of a composition.  A safe copy is not
    supported: it is in error, and its [Properties] carry the error bit
    whatever the properties passed in.  An unsafe copy reports the
    properties that the original reports.  Both have the type of the
    original, and both are positioned on no state. *)
Theorem copy_ComposeFstMatcher_spec (m : ComposeFstMatcher W)
    (safe test : bool) (inprops : Z) :
  has_error (ComposeFstMatcher_Properties (copy_ComposeFstMatcher m true) inprops)
  = true ∧
  ComposeFstMatcher_Properties (copy_ComposeFstMatcher m false) inprops
  = ComposeFstMatcher_Properties m inprops ∧
  ComposeFstMatcher_Type (copy_ComposeFstMatcher m safe) test
  = ComposeFstMatcher_Type m test ∧
  cm_s_ (copy_ComposeFstMatcher m safe) = kNoStateId ∧
  cm_current_loop_ (copy_ComposeFstMatcher m safe) = false.
Proof.
  split; [apply has_error_lor_kError|]. by repeat split.
Qed.

(** X13: [InitMatcher] hands out a matcher for a match type only when
    both matchers of the composition have this type without test and the
    filter keeps the tested properties; the matcher is then not in error,
    its type without test is the match type asked for, and its loop arc is
    <kNoLabel, 0> for MATCH_INPUT and <0, kNoLabel> for MATCH_OUTPUT, with
    weight One. *)
Theorem InitMatcher_spec {FS : Type} (kFstProperties kI kO : Z)
    (filter_ : ComposeFilter W FS) (matcher1_ matcher2_ : Matcher W)
    (match_type : MatchType) (m : ComposeFstMatcher W) :
  InitMatcher kFstProperties kI kO filter_ matcher1_ matcher2_ match_type
  = Some m →
  MType matcher1_ false = match_type ∧
  MType matcher2_ false = match_type ∧
  ComposeFstMatcher_Type m false = match_type ∧
  cm_error_ m = false ∧
  weight (cm_loop_ m) = One ∧
  (match_type = MATCH_INPUT →
   ilabel (cm_loop_ m) = kNoLabel ∧ olabel (cm_loop_ m) = 0) ∧
  (match_type = MATCH_OUTPUT →
   ilabel (cm_loop_ m) = 0 ∧ olabel (cm_loop_ m) = kNoLabel).
Proof.
  unfold InitMatcher.
  destruct (bool_decide (MType matcher1_ false = match_type)) eqn:H1; [|done].
  destruct (bool_decide (MType matcher2_ false = match_type)) eqn:H2; [|done].
  destruct (bool_decide (FProperties filter_ _ = _)); [|done].
  simpl. intros [= <-].
  apply bool_decide_eq_true_1 in H1, H2.
  split; [done|]. split; [done|]. split.
  - unfold ComposeFstMatcher_Type. simpl. rewrite H1, H2.
    destruct match_type; done.
  - split; [done|]. unfold new_ComposeFstMatcher. simpl.
    split; [by case_bool_decide|].
    split; intros ->; done.
Qed.

End MatcherExtras.

Lemma InitMatcher_spec_witness :
  ∃ m,
    InitMatcher kFstProperties_value 0 0 accept_all_filter
      sorted_matcher2 sorted_matcher2 MATCH_INPUT = Some m ∧
    MType sorted_matcher2 false = MATCH_INPUT ∧
    MType sorted_matcher2 false = MATCH_INPUT ∧
    ComposeFstMatcher_Type m false = MATCH_INPUT ∧
    cm_error_ m = false ∧
    weight (cm_loop_ m) = One ∧
    (MATCH_INPUT = MATCH_INPUT →
     ilabel (cm_loop_ m) = kNoLabel ∧ olabel (cm_loop_ m) = 0) ∧
    (MATCH_INPUT = MATCH_OUTPUT →
     ilabel (cm_loop_ m) = 0 ∧ olabel (cm_loop_ m) = kNoLabel).
Proof.
  eexists. split; [reflexivity|].
  apply (InitMatcher_spec kFstProperties_value 0 0 accept_all_filter
           sorted_matcher2 sorted_matcher2 MATCH_INPUT).
  reflexivity.
Defined.

Section PropertiesExtras.

Context {W : Type} `{Weight W} {FS : Type} `{EqDecision FS}.
Variable StateTableError : list (StateTuple FS) → bool.
Variable filter_ : ComposeFilter W FS.
Variable matcher1_ matcher2_ : Matcher W.

(** X14: the property query of a composition.  [Properties(mask)] makes
    the error of a component the error of the composition: when the mask
    asks for the error bit and an operand, a matcher, the filter or the
    state table is in error, the error bit is set; otherwise the object is
    unchanged.  The bitwise or that the source has between the tests of the
    second matcher and of the filter gives what a logical or would give.
    Nothing but the property word changes, and the result is the part of
    the property word under the mask. *)
Theorem ImplProperties_error (mask : Z) (impl : ComposeFstImpl W FS) :
  let r := ImplProperties StateTableError filter_ matcher1_ matcher2_ mask impl in
  let component_error :=
    nonzero (Properties (fst1_ matcher1_) kError false) ||
    nonzero (Properties (fst2_ matcher2_) kError false) ||
    Z.testbit (MProperties matcher1_ 0) 2 ||
    Z.testbit (MProperties matcher2_ 0) 2 ||
    Z.testbit (FProperties filter_ 0) 2 ||
    StateTableError (state_table_ impl) in
  has_error (properties_ r.2)
  = has_error (properties_ impl) || (Z.testbit mask 2 && component_error) ∧
  (Z.testbit mask 2 && component_error = false → r.2 = impl) ∧
  r.1 = Z.land (properties_ r.2) mask ∧
  cache_store_ r.2 = cache_store_ impl ∧
  state_table_ r.2 = state_table_ impl ∧
  match_type_ r.2 = match_type_ impl.
Proof.
  cbn zeta. unfold ImplProperties.
  rewrite nonzero_lor, !nonzero_land_kError.
  rewrite !orb_assoc.
  set (b := Z.testbit mask 2 && _).
  destruct b; simpl.
  - rewrite testbit_SetProperties_error.
    change (Z.testbit kError 2) with true. by rewrite !orb_true_r.
  - by rewrite orb_false_r.
Qed.

End PropertiesExtras.

(** ** Connect: the result is trim, idempotence, and the paths *)

Lemma SetProperties_idem (props mask p : Z) :
  SetProperties props mask (SetProperties props mask p)
  = SetProperties props mask p.
Proof.
  unfold SetProperties. apply Z.bits_inj'. intros n Hn.
  rewrite !Z.lor_spec, !Z.land_spec, !Z.lor_spec, !Z.land_spec, !Z.lor_spec,
    !Z.lnot_spec by done.
  destruct (Z.testbit p n), (Z.testbit mask n), (Z.testbit kError n),
    (Z.testbit props n); done.
Qed.

(** A strictly increasing list that holds exactly the numbers below [n]. *)
Lemma sorted_range (l : list Z) (lo : Z) (n : nat) :
  StronglySorted Z.lt l → (∀ s, s ∈ l ↔ lo <= s < lo + Z.of_nat n) →
  l = map (fun i => lo + Z.of_nat i) (seq 0 n).
Proof.
  revert l lo. induction n as [|n IH]; intros l lo Hsorted Hmem.
  - destruct l as [|x l]; [done|]. exfalso.
    assert (Hx : x ∈ x :: l) by left. apply Hmem in Hx. lia.
  - destruct l as [|x l].
    { exfalso. assert (Hlo : lo ∈ @nil Z) by (apply Hmem; lia).
      by apply elem_of_nil in Hlo. }
    apply StronglySorted_inv in Hsorted as [Hsl Hall].
    rewrite Forall_forall in Hall.
    assert (Hx : x = lo).
    { assert (Hxin : x ∈ x :: l) by left. apply Hmem in Hxin.
      assert (Hlo : lo ∈ x :: l) by (apply Hmem; lia).
      apply elem_of_cons in Hlo as [?|Hlo]; [done|].
      specialize (Hall lo Hlo). lia. }
    subst x. simpl. f_equal; [f_equal; lia|].
    rewrite <- seq_shift, map_map.
    rewrite (IH l (lo + 1) Hsl).
    + apply map_ext. intros i. lia.
    + intros s. split.
      * intros Hs. pose proof (Hall s Hs).
        assert (Hs' : s ∈ lo :: l) by by right. apply Hmem in Hs'. lia.
      * intros Hs. assert (Hs' : s ∈ lo :: l) by (apply Hmem; lia).
        apply elem_of_cons in Hs' as [->|?]; [lia | done].
Qed.

Lemma edge_source_valid {W : Type} `{Weight W} (fst : MutableFst W) (u v : Z) :
  edge fst u v → valid_state fst u.
Proof.
  intros (a & Ha & _). unfold StateArcs, GetState in Ha.
  case_bool_decide as Hu; [|by apply elem_of_nil in Ha].
  destruct (states fst !! Z.to_nat u) eqn:Hl; [|by apply elem_of_nil in Ha].
  apply lookup_lt_Some in Hl. unfold valid_state, NumStates. lia.
Qed.

Section ConnectExtras.

Context {W : Type} `{Weight W}.

(** What [Connect] returns. *)
Lemma Connect_result (fst : MutableFst W) :
  wf_fst fst → valid_state fst (start fst) →
  ∃ kept : list Z,
    StronglySorted Z.lt kept ∧
    (∀ s, s ∈ kept ↔ useful fst s) ∧
    Connect fst = Some (trimmed fst kept).
Proof.
  intros Hwf Hstart.
  destruct (DfsVisit_spec fst Hwf 0 Hstart) as (v & Hrun & Hla & Hlc & Hflags).
  eexists. split; [apply kept_from_sorted|]. split.
  - intros s. by apply (Connect_kept fst v).
  - unfold Connect. rewrite Hrun. f_equal. apply DeleteStates_trimmed.
Qed.

(** The restriction to the useful states keeps the data model. *)
Lemma trimmed_wf (fst : MutableFst W) (kept : list Z) :
  NoDup kept → (∀ s, s ∈ kept ↔ useful fst s) →
  wf_fst (trimmed fst kept).
Proof.
  intros Hnd Hkept. split.
  - unfold trimmed at 1 3. simpl.
    destruct (position kept (start fst)) as [j|] eqn:Hj; [|by left].
    right. simpl. pose proof (position_nonneg _ _ _ Hj).
    apply position_lookup, lookup_lt_Some in Hj.
    unfold valid_state. rewrite (trimmed_NumStates fst kept Hkept). lia.
  - intros x a' Ha'. unfold StateArcs in Ha'.
    destruct (GetState (trimmed fst kept) x) as [st'|] eqn:Hx;
      [|by apply elem_of_nil in Ha'].
    destruct (trimmed_GetState_inv fst kept Hkept x st' Hx)
      as (i & s & st & -> & Hi & Hs & ->).
    simpl in Ha'. apply list_elem_of_omap in Ha' as (a & Ha & Hpos).
    destruct (position kept (nextstate a)) as [j|] eqn:Hj; [|done].
    simpl in Hpos. injection Hpos as <-. simpl.
    pose proof (position_nonneg _ _ _ Hj).
    apply position_lookup, lookup_lt_Some in Hj.
    unfold valid_state. rewrite (trimmed_NumStates fst kept Hkept). lia.
Qed.

(** Every state of the restriction is useful in it. *)
Lemma trimmed_useful (fst : MutableFst W) (kept : list Z) (x : Z) :
  wf_fst fst → valid_state fst (start fst) →
  NoDup kept → (∀ s, s ∈ kept ↔ useful fst s) →
  valid_state (trimmed fst kept) x → useful (trimmed fst kept) x.
Proof.
  intros Hwf Hstart Hnd Hkept Hx. split; [done|].
  unfold valid_state in Hx. rewrite (trimmed_NumStates fst kept Hkept) in Hx.
  destruct (lookup_lt_is_Some_2 kept (Z.to_nat x)) as [s Hs]; [lia|].
  assert (Hus : useful fst s) by by apply Hkept, (list_elem_of_lookup_2 _ (Z.to_nat x)).
  destruct Hus as (Hv & Hacc & Hco).
  replace x with (Z.of_nat (Z.to_nat x)) by lia. split.
  - destruct (trimmed_accessible fst kept Hwf Hnd Hkept s Hstart Hacc Hco)
      as (i & Hi & Ha).
    by rewrite (NoDup_lookup kept _ _ s Hnd Hs Hi).
  - destruct (trimmed_coaccessible fst kept Hwf Hnd Hkept s Hv Hacc Hco)
      as (j & Hj & Hc).
    by rewrite (NoDup_lookup kept _ _ s Hnd Hs Hj).
Qed.

Lemma land_SetProperties_same (m p : Z) :
  Z.land (SetProperties m m p) m = m.
Proof.
  unfold SetProperties. apply Z.bits_inj'. intros n Hn.
  rewrite !Z.land_spec, !Z.lor_spec, !Z.land_spec, !Z.lor_spec, !Z.lnot_spec
    by done.
  destruct (Z.testbit p n), (Z.testbit m n), (Z.testbit kError n); done.
Qed.

(** X15: the result of [Connect] is trim.  It keeps the data model (the
    next state of every arc is a state of the result, the start state is a
    state or [kNoStateId]), every state of it is accessible and
    coaccessible in it, and it carries the properties kAccessible and
    kCoAccessible, which [Connect] sets: they are true of it. *)
Theorem Connect_result_trim (fst fst' : MutableFst W) :
  wf_fst fst → valid_state fst (start fst) →
  Connect fst = Some fst' →
  wf_fst fst' ∧
  (∀ x, valid_state fst' x → accessible fst' x ∧ coaccessible fst' x) ∧
  Z.land (properties fst') (Z.lor kAccessible kCoAccessible)
  = Z.lor kAccessible kCoAccessible.
Proof.
  intros Hwf Hstart Hconn.
  destruct (Connect_result fst Hwf Hstart) as (kept & Hsorted & Hkept & Hres).
  rewrite Hres in Hconn. injection Hconn as <-.
  pose proof (sorted_lt_NoDup _ Hsorted) as Hnd.
  split; [by apply trimmed_wf|]. split.
  - intros x Hx. by apply (trimmed_useful fst kept x Hwf Hstart Hnd Hkept).
  - apply land_SetProperties_same.
Qed.

(** The restriction to all the states is the automaton. *)
Lemma trim_arcs_identity (kept : list Z) (l : list (Arc W)) :
  (∀ a, a ∈ l → position kept (nextstate a) = Some (nextstate a)) →
  trim_arcs kept l = l.
Proof.
  unfold trim_arcs. induction l as [|a l IH]; intros Hpos; [done|].
  rewrite omap_cons_match, (Hpos a) by left. simpl.
  rewrite IH by (intros a' Ha'; apply Hpos; by right).
  by destruct a.
Qed.

Lemma trimmed_identity (fst : MutableFst W) (kept : list Z) :
  wf_fst fst → StronglySorted Z.lt kept →
  (∀ s, s ∈ kept ↔ valid_state fst s) →
  trimmed fst kept
  = StoreSetProperties (Z.lor kAccessible kCoAccessible)
      (Z.lor kAccessible kCoAccessible) fst.
Proof.
  intros [Hstart Harcs] Hsorted Hmem.
  pose proof (sorted_lt_NoDup _ Hsorted) as Hnd.
  assert (Hkept : kept = map (fun i => 0 + Z.of_nat i)
                             (seq 0 (length (states fst)))).
  { apply sorted_range; [done|]. intros s. rewrite Hmem.
    unfold valid_state, NumStates. lia. }
  assert (Hlook : ∀ i : nat, (i < length (states fst))%nat →
                             kept !! i = Some (Z.of_nat i)).
  { intros i Hi. rewrite Hkept, list_lookup_fmap, lookup_seq_lt by done. done. }
  assert (Hpos : ∀ s, valid_state fst s → position kept s = Some s).
  { intros s Hs. unfold valid_state, NumStates in Hs.
    rewrite (lookup_position kept (Z.to_nat s) s Hnd).
    - f_equal. lia.
    - rewrite Hlook by lia. f_equal. lia. }
  unfold trimmed, StoreSetProperties. f_equal.
  - destruct Hstart as [->|Hs]; [|by rewrite Hpos].
    rewrite position_None; [done|]. rewrite Hmem.
    unfold valid_state, kNoStateId. lia.
  - apply list_eq. intros i.
    rewrite lookup_omap_total.
    2:{ intros x Hx. apply Hmem in Hx. unfold valid_state, NumStates in Hx.
        unfold GetState. rewrite bool_decide_eq_true_2 by lia.
        destruct (lookup_lt_is_Some_2 (states fst) (Z.to_nat x)) as [st ->];
          [lia|]. by eexists. }
    destruct (decide (i < length (states fst))%nat) as [Hi|Hi].
    + rewrite (Hlook i Hi). simpl. unfold GetState.
      rewrite bool_decide_eq_true_2 by lia. rewrite Nat2Z.id.
      destruct (states fst !! i) as [st|] eqn:Hst; [|done]. simpl. f_equal.
      unfold trim_state. destruct st as [fin l]. simpl. f_equal.
      apply trim_arcs_identity. intros a Ha. apply Hpos.
      apply (Harcs (Z.of_nat i)). unfold StateArcs, GetState.
      rewrite bool_decide_eq_true_2 by lia. by rewrite Nat2Z.id, Hst.
    + rewrite (lookup_ge_None_2 kept), (lookup_ge_None_2 (states fst)) by
        (rewrite ?Hkept, ?length_map, ?length_seq; lia).
      done.
Qed.

Lemma Connect_empty (fst : MutableFst W) :
  states fst = [] → start fst = kNoStateId →
  Connect fst
  = Some (StoreSetProperties (Z.lor kAccessible kCoAccessible)
            (Z.lor kAccessible kCoAccessible) fst).
Proof.
  intros Hstates Hstart. unfold Connect, DfsVisit, dfs_roots, NumStates.
  rewrite Hstates, Hstart. simpl.
  unfold DeleteStates, newid. rewrite Hstates, Hstart. simpl.
  unfold StoreSetProperties. simpl. f_equal. destruct fst; simpl in *.
  by subst.
Qed.

(** Without a start state the traversal visits no state, the vectors of
    the visitor stay empty, and [Connect] deletes nothing: it only records
    the two properties. *)
Lemma Connect_no_start (fst : MutableFst W) :
  wf_fst fst → ¬ valid_state fst (start fst) →
  Connect fst
  = Some (StoreSetProperties (Z.lor kAccessible kCoAccessible)
            (Z.lor kAccessible kCoAccessible) fst).
Proof.
  intros Hwf Hstart. unfold Connect, DfsVisit.
  destruct (proj1 Hwf) as [Hnone|Hvalid]; [|done].
  rewrite bool_decide_eq_true_2 by exact Hnone.
  cbn [FinishVisit InitVisit access_ coaccess_ length seq map filter].
  f_equal. rewrite (DeleteStates_trimmed []).
  apply trimmed_identity; [done|apply kept_from_sorted|].
  intros s. rewrite kept_from_elem. unfold valid_state, NumStates.
  rewrite elem_of_nil. lia.
Qed.


(** In the model the result of [Connect] is a fixed point of [Connect]. *)
Lemma Connect_fixpoint (fst fst' : MutableFst W) :
  wf_fst fst →
  Connect fst = Some fst' →
  Connect fst' = Some fst'.
Proof.
  intros Hwf Hconn.
  assert (Hcase : valid_state fst (start fst) ∨ ¬ valid_state fst (start fst))
    by (unfold valid_state; lia).
  destruct Hcase as [Hstart|Hstart]; cycle 1.
  { rewrite (Connect_no_start fst Hwf Hstart) in Hconn. injection Hconn as <-.
    rewrite Connect_no_start; [|exact Hwf|exact Hstart].
    unfold StoreSetProperties. simpl. by rewrite SetProperties_idem. }
  destruct (Connect_result fst Hwf Hstart) as (kept & Hsorted & Hkept & Hres).
  rewrite Hres in Hconn. injection Hconn as <-.
  pose proof (sorted_lt_NoDup _ Hsorted) as Hnd.
  assert (Hfix : StoreSetProperties (Z.lor kAccessible kCoAccessible)
                   (Z.lor kAccessible kCoAccessible) (trimmed fst kept)
                 = trimmed fst kept).
  { unfold StoreSetProperties, trimmed. simpl. f_equal.
    apply SetProperties_idem. }
  destruct kept as [|s0 kept0] eqn:Hk.
  - rewrite Connect_empty; [by rewrite Hfix | done | done].
  - rewrite <- Hk in *.
    assert (Hs0 : useful fst s0) by (apply Hkept; rewrite Hk; left).
    assert (Hus : useful fst (start fst)).
    { destruct Hs0 as (_ & Ha & (f & Hr & Hf)).
      split; [done|]. split; [apply rtc_refl|]. exists f. split; [|done].
      unfold accessible, reach in *. by etrans. }
    pose proof (trimmed_wf fst kept Hnd Hkept) as Hwf'.
    assert (Hstart' : valid_state (trimmed fst kept) (start (trimmed fst kept))).
    { apply Hkept in Hus. apply list_elem_of_lookup_1 in Hus as [i Hi].
      unfold trimmed at 2. simpl.
      rewrite (lookup_position kept i _ Hnd Hi). simpl.
      apply lookup_lt_Some in Hi. unfold valid_state.
      rewrite (trimmed_NumStates fst kept Hkept). lia. }
    destruct (Connect_result (trimmed fst kept) Hwf' Hstart')
      as (kept' & Hsorted' & Hkept' & Hres').
    rewrite Hres'. f_equal.
    rewrite trimmed_identity; [exact Hfix | done | done |].
    intros x. rewrite Hkept'. split; [by intros [? _]|].
    by apply (trimmed_useful fst kept x Hwf Hstart Hnd Hkept).
Qed.

(** X16: [Connect] is idempotent.  For an automaton that keeps the data
    model (the start state is a state or [kNoStateId], the next state of
    every arc is a state), [Connect] applied to its own result deletes
    nothing more: the second result has the states, arcs, final weights,
    start state and symbol tables of the first, and carries kAccessible and
    kCoAccessible as the first does. *)
Theorem Connect_idempotent (fst fst' : MutableFst W) :
  wf_fst fst →
  Connect fst = Some fst' →
  ∃ fst'', Connect fst' = Some fst'' ∧
           start fst'' = start fst' ∧ states fst'' = states fst' ∧
           isymbols fst'' = isymbols fst' ∧ osymbols fst'' = osymbols fst' ∧
           Z.land (properties fst'') (Z.lor kAccessible kCoAccessible)
           = Z.land (properties fst') (Z.lor kAccessible kCoAccessible).
Proof.
  intros Hwf Hconn. exists fst'.
  by rewrite (Connect_fixpoint fst fst' Hwf Hconn).
Qed.

(** X17: the start state after [Connect], for an automaton that keeps
    the data model (the start state is a state or [kNoStateId], the next
    state of every arc is a state).  When there is a start state and no
    final state can be reached from it, [Connect] deletes every state, and
    the start state of the result is [kNoStateId].  When there is a start
    state and a final state can be reached from it, the start state is
    kept: the start state of the result is a state of the result.  When
    there is no start state, [Connect] deletes no state, and the result has
    no start state either. *)
Theorem Connect_start (fst fst' : MutableFst W) :
  wf_fst fst →
  Connect fst = Some fst' →
  (valid_state fst (start fst) → ¬ coaccessible fst (start fst) →
   states fst' = [] ∧ start fst' = kNoStateId) ∧
  (valid_state fst (start fst) → coaccessible fst (start fst) →
   valid_state fst' (start fst')) ∧
  (start fst = kNoStateId →
   states fst' = states fst ∧ start fst' = kNoStateId).
Proof.
  intros Hwf Hconn. split; [|split].
  - intros Hstart Hno.
    destruct (Connect_result fst Hwf Hstart) as (kept & Hsorted & Hkept & Hres).
    rewrite Hres in Hconn. injection Hconn as <-.
    assert (Hnil : kept = []).
    { destruct kept as [|s0 kept0]; [done|]. exfalso. apply Hno.
      assert (Hs0 : useful fst s0) by (apply Hkept; left).
      destruct Hs0 as (_ & Ha & (f & Hr & Hf)). exists f. split; [|done].
      unfold accessible, reach in *. by etrans. }
    subst kept. done.
  - intros Hstart Hco.
    destruct (Connect_result fst Hwf Hstart) as (kept & Hsorted & Hkept & Hres).
    rewrite Hres in Hconn. injection Hconn as <-.
    pose proof (sorted_lt_NoDup _ Hsorted) as Hnd.
    assert (Hus : useful fst (start fst)).
    { split; [done|]. split; [apply rtc_refl | done]. }
    apply Hkept in Hus. apply list_elem_of_lookup_1 in Hus as [i Hi].
    unfold trimmed at 2. simpl.
    rewrite (lookup_position kept i _ Hnd Hi). simpl.
    apply lookup_lt_Some in Hi. unfold valid_state.
    rewrite (trimmed_NumStates fst kept Hkept). lia.
  - intros Hno.
    assert (Hstart : ¬ valid_state fst (start fst)).
    { rewrite Hno. unfold valid_state, kNoStateId. lia. }
    rewrite (Connect_no_start fst Hwf Hstart) in Hconn. injection Hconn as <-.
    done.
Qed.

End ConnectExtras.

Lemma Connect_result_trim_witness :
  ∃ fst',
    Connect dead_end_fst = Some fst' ∧
    wf_fst fst' ∧
    (∀ x, valid_state fst' x → accessible fst' x ∧ coaccessible fst' x) ∧
    Z.land (properties fst') (Z.lor kAccessible kCoAccessible)
    = Z.lor kAccessible kCoAccessible.
Proof.
  eexists. split; [reflexivity|].
  apply (Connect_result_trim dead_end_fst).
  - apply check_wf_sound. reflexivity.
  - unfold valid_state, NumStates. simpl. lia.
  - reflexivity.
Defined.

Lemma Connect_idempotent_witness :
  ∃ fst', Connect dead_end_fst = Some fst' ∧
    ∃ fst'', Connect fst' = Some fst'' ∧
             start fst'' = start fst' ∧ states fst'' = states fst' ∧
             isymbols fst'' = isymbols fst' ∧ osymbols fst'' = osymbols fst' ∧
             Z.land (properties fst'') (Z.lor kAccessible kCoAccessible)
             = Z.land (properties fst') (Z.lor kAccessible kCoAccessible).
Proof.
  eexists. split; [reflexivity|].
  apply (Connect_idempotent dead_end_fst).
  - apply check_wf_sound. reflexivity.
  - reflexivity.
Defined.

Lemma Connect_start_witness :
  ∃ fst',
    Connect dead_end_fst = Some fst' ∧
    (valid_state dead_end_fst (start dead_end_fst) →
     ¬ coaccessible dead_end_fst (start dead_end_fst) →
     states fst' = [] ∧ start fst' = kNoStateId) ∧
    (valid_state dead_end_fst (start dead_end_fst) →
     coaccessible dead_end_fst (start dead_end_fst) →
     valid_state fst' (start fst')) ∧
    (start dead_end_fst = kNoStateId →
     states fst' = states dead_end_fst ∧ start fst' = kNoStateId).
Proof.
  eexists. split; [reflexivity|].
  apply (Connect_start dead_end_fst).
  - apply check_wf_sound. reflexivity.
  - reflexivity.
Defined.

Section PathFacts.

Context {W : Type} `{Weight W}.
Variable fst : MutableFst W.
Variable kept : list Z.
Hypothesis Hwf : wf_fst fst.
Hypothesis Hnd : NoDup kept.
Hypothesis Hkept : ∀ s, s ∈ kept ↔ useful fst s.

Lemma path_reach (s t : Z) (l : list (Arc W)) :
  path fst s l t → reach fst s t.
Proof.
  induction 1 as [s|s a l t Ha _ IH]; [apply rtc_refl|].
  unfold reach. apply (rtc_l _ s (nextstate a)); [|done]. by exists a.
Qed.

(** A path to a final state, from an accessible state, is a path of the
    restriction, with the same labels and weights. *)
Lemma path_to_trimmed (s f : Z) (l : list (Arc W)) :
  path fst s l f → is_final fst f →
  ∀ i, kept !! i = Some s →
       ∃ l' j, path (trimmed fst kept) (Z.of_nat i) l' (Z.of_nat j) ∧
               kept !! j = Some f ∧
               map arc_label l' = map arc_label l.
Proof.
  intros Hpath Hf. induction Hpath as [s|s a l t Ha Hpath IH]; intros i Hi.
  - exists [], i. split; [constructor | done].
  - assert (Hus : useful fst s) by by apply Hkept, (list_elem_of_lookup_2 _ i).
    destruct Hus as (Hv & Hacc & _).
    assert (Hedge : edge fst s (nextstate a)) by by exists a.
    assert (Hun : useful fst (nextstate a)).
    { split; [by apply (edge_valid fst Hwf s)|]. split.
      - unfold accessible, reach in *. by apply (rtc_r _ s).
      - exists t. split; [by apply (path_reach _ _ l) | done]. }
    destruct (kept_lookup fst kept Hkept _ Hun) as [k Hk].
    destruct (IH Hf k Hk) as (l' & j & Hl' & Hj & Hlab).
    exists (mkArc (ilabel a) (olabel a) (weight a) (Z.of_nat k) :: l'), j.
    split; [|split; [done|]].
    + constructor; [|done].
      rewrite (trimmed_StateArcs fst kept Hkept i s Hi).
      apply list_elem_of_omap. exists a. split; [done|].
      by rewrite (lookup_position kept k _ Hnd Hk).
    + simpl. by rewrite Hlab.
Qed.

(** A path of the restriction comes from a path of the automaton, with
    the same labels and weights. *)
Lemma path_from_trimmed (x y : Z) (l' : list (Arc W)) :
  path (trimmed fst kept) x l' y →
  ∀ i s, x = Z.of_nat i → kept !! i = Some s →
         ∃ l t j, path fst s l t ∧ y = Z.of_nat j ∧ kept !! j = Some t ∧
                  map arc_label l = map arc_label l'.
Proof.
  induction 1 as [x|x a' l' y Ha' Hpath IH]; intros i s -> Hi.
  - exists [], s, i. split; [constructor | done].
  - rewrite (trimmed_StateArcs fst kept Hkept i s Hi) in Ha'.
    apply list_elem_of_omap in Ha' as (a & Ha & Hpos).
    destruct (position kept (nextstate a)) as [k|] eqn:Hk; [|done].
    simpl in Hpos. injection Hpos as <-. simpl in *.
    pose proof (position_nonneg _ _ _ Hk) as Hk0.
    apply position_lookup in Hk.
    destruct (IH (Z.to_nat k) (nextstate a)) as (l & t & j & Hl & -> & Hj & Hlab);
      [lia | done |].
    exists (a :: l), t, j. split; [by constructor|]. split; [done|].
    split; [done|]. simpl. by rewrite Hlab.
Qed.

End PathFacts.

(** The paths of an automaton do not depend on its property word. *)
Lemma path_StoreSetProperties {W : Type} `{Weight W} (fst : MutableFst W)
    (props mask : Z) (s t : Z) (l : list (Arc W)) :
  path fst s l t ↔ path (StoreSetProperties props mask fst) s l t.
Proof.
  split; induction 1 as [x|x a l0 y Ha _ IH]; by constructor.
Qed.

(** The restriction to the useful states keeps the successful paths. *)
Lemma trimmed_successful {W : Type} `{Weight W}
    (fst : MutableFst W) (kept : list Z) (labs : list (Z * Z * W)) (w : W) :
  wf_fst fst → valid_state fst (start fst) →
  NoDup kept → (∀ s, s ∈ kept ↔ useful fst s) →
  successful fst labs w ↔ successful (trimmed fst kept) labs w.
Proof.
  intros Hwf Hstart Hnd Hkept. split.
  - intros (l & f & Hpath & Hlab & Hfw & Hw).
    assert (Hf : is_final fst f) by (unfold is_final; by rewrite Hfw).
    assert (Hus : useful fst (start fst)).
    { split; [done|]. split; [apply rtc_refl|]. exists f.
      split; [by apply (path_reach fst _ _ l) | done]. }
    destruct (kept_lookup fst kept Hkept _ Hus) as [i Hi].
    destruct (path_to_trimmed fst kept Hwf Hnd Hkept _ _ _ Hpath Hf i Hi)
      as (l' & j & Hl' & Hj & Hlab').
    exists l', (Z.of_nat j). split.
    + unfold trimmed at 2. simpl.
      by rewrite (lookup_position kept i _ Hnd Hi).
    + split; [congruence|].
      by rewrite (trimmed_StateFinal fst kept Hkept j f Hj).
  - intros (l' & f' & Hpath & Hlab & Hfw & Hw).
    unfold trimmed at 2 in Hpath. simpl in Hpath.
    destruct (position kept (start fst)) as [k|] eqn:Hk; simpl in Hpath.
    + pose proof (position_nonneg _ _ _ Hk) as Hk0.
      apply position_lookup in Hk.
      destruct (path_from_trimmed fst kept Hkept _ _ _ Hpath
                  (Z.to_nat k) (start fst)) as (l & t & j & Hl & -> & Hj & Hlab');
        [lia | done |].
      exists l, t. split; [done|]. split; [congruence|].
      by rewrite <- (trimmed_StateFinal fst kept Hkept j t Hj).
    + exfalso. inversion Hpath as [x Hx|x a l0 y Ha]; subst.
      * apply Hw. done.
      * by apply elem_of_nil in Ha.
Qed.

(** X18: [Connect] keeps the transduction.  For an automaton that keeps
    the data model (the start state is a state or [kNoStateId], the next
    state of every arc is a state), the automaton has a successful path
    (from the start state to a state with a final weight other than Zero)
    with given labels, arc weights and final weight if and only if the
    result of [Connect] has one: no successful path is lost, and none is
    added. *)
Theorem Connect_preserves_successful {W : Type} `{Weight W}
    (fst fst' : MutableFst W) (labs : list (Z * Z * W)) (w : W) :
  wf_fst fst →
  Connect fst = Some fst' →
  successful fst labs w ↔ successful fst' labs w.
Proof.
  intros Hwf Hconn.
  assert (Hcase : valid_state fst (start fst) ∨ ¬ valid_state fst (start fst))
    by (unfold valid_state; lia).
  destruct Hcase as [Hstart|Hstart].
  - destruct (Connect_result fst Hwf Hstart) as (kept & Hsorted & Hkept & Hres).
    rewrite Hres in Hconn. injection Hconn as <-.
    pose proof (sorted_lt_NoDup _ Hsorted) as Hnd.
    by apply trimmed_successful.
  - rewrite (Connect_no_start fst Hwf Hstart) in Hconn. injection Hconn as <-.
    unfold successful.
    split; intros (l & f & Hpath & Hrest); exists l, f; (split; [|exact Hrest]).
    + exact (proj1 (path_StoreSetProperties fst _ _ _ _ _) Hpath).
    + exact (proj2 (path_StoreSetProperties fst _ _ _ _ _) Hpath).
Qed.

Lemma Connect_preserves_successful_witness :
  ∃ fst',
    Connect dead_end_fst = Some fst' ∧
    (successful dead_end_fst [(2, 2, Trop 1)] (Trop 0)
     ↔ successful fst' [(2, 2, Trop 1)] (Trop 0)).
Proof.
  eexists. split; [reflexivity|].
  apply (Connect_preserves_successful dead_end_fst).
  - apply check_wf_sound. reflexivity.
  - reflexivity.
Defined.

(** ** Symbol compatibility, the visitor's vectors, and inversion *)

(** [CompatSymbols] does not depend on the order of its two
    tables, and a table is compatible with itself. *)
Lemma CompatSymbols_symmetric (LabeledCheckSum : SymbolTable.t → string)
    (flag : bool) (syms1 syms2 : option SymbolTable.t) :
  CompatSymbols LabeledCheckSum flag syms1 syms2
  = CompatSymbols LabeledCheckSum flag syms2 syms1 ∧
  CompatSymbols LabeledCheckSum flag syms1 syms1 = true.
Proof.
  unfold CompatSymbols. destruct flag; simpl; [|done].
  destruct syms1 as [t1|], syms2 as [t2|]; simpl; try done;
    repeat destruct (decide _); done || congruence.
Qed.

(** X19: the vectors of [SccVisitor].  After the traversal of an
    automaton that keeps the data model and has a start state, [access] and
    [coaccess] hold one entry per state; the entry of a state in [access] is
    true exactly when the state can be reached from the start state, and its
    entry in [coaccess] exactly when a state with a final weight other than
    Zero can be reached from it. *)
Theorem SccVisitor_access_coaccess {W : Type} `{Weight W}
    (fst : MutableFst W) (props : Z) :
  wf_fst fst → valid_state fst (start fst) →
  ∃ v, DfsVisit fst props = Some v ∧
       length (access_ v) = length (states fst) ∧
       length (coaccess_ v) = length (states fst) ∧
       ∀ t, valid_state fst t →
            (vget false (access_ v) t = true ↔ accessible fst t) ∧
            (vget false (coaccess_ v) t = true ↔ coaccessible fst t).
Proof. intros Hwf Hstart. by apply DfsVisit_spec. Qed.

Lemma SccVisitor_access_coaccess_witness :
  ∃ v, DfsVisit dead_end_fst 0 = Some v ∧
       length (access_ v) = length (states dead_end_fst) ∧
       length (coaccess_ v) = length (states dead_end_fst) ∧
       ∀ t, valid_state dead_end_fst t →
            (vget false (access_ v) t = true ↔ accessible dead_end_fst t) ∧
            (vget false (coaccess_ v) t = true ↔ coaccessible dead_end_fst t).
Proof.
  apply (SccVisitor_access_coaccess dead_end_fst 0).
  - apply check_wf_sound. reflexivity.
  - unfold valid_state, NumStates. simpl. lia.
Defined.

Section InvertExtras.

Context {W : Type} `{Weight W}.
Variable InvertProperties : Z → Z.
Variable kFstProperties : Z.

Lemma Invert_StateArcs (fst fst' : MutableFst W) (s : Z) :
  start fst ≠ kNoStateId →
  Invert InvertProperties kFstProperties fst = Some fst' →
  start fst' = start fst ∧
  StateArcs fst' s
  = map (map_arc (InvertMapper InvertProperties)) (StateArcs fst s) ∧
  StateFinal fst' s = StateFinal fst s.
Proof.
  intros Hne.
  destruct (Invert_fields InvertProperties kFstProperties fst Hne)
    as [props ->].
  intros [= <-]. split; [done|].
  unfold StateArcs, StateFinal, GetState. simpl.
  case_bool_decide; [|done]. rewrite list_lookup_fmap.
  by destruct (states fst !! Z.to_nat s).
Qed.

Lemma Invert_path (fst fst' : MutableFst W) (s t : Z) (l : list (Arc W)) :
  start fst ≠ kNoStateId →
  Invert InvertProperties kFstProperties fst = Some fst' →
  path fst s l t →
  path fst' s (map (map_arc (InvertMapper InvertProperties)) l) t.
Proof.
  intros Hne Hinv. induction 1 as [s|s a l t Ha _ IH]; [constructor|].
  rewrite map_cons. constructor; [|exact IH].
  destruct (Invert_StateArcs fst fst' s Hne Hinv) as (_ & -> & _).
  by apply list_elem_of_fmap_2.
Qed.

Lemma Invert_path_inv (fst fst' : MutableFst W) (s t : Z) (l' : list (Arc W)) :
  start fst ≠ kNoStateId →
  Invert InvertProperties kFstProperties fst = Some fst' →
  path fst' s l' t →
  ∃ l, path fst s l t ∧
       l' = map (map_arc (InvertMapper InvertProperties)) l.
Proof.
  intros Hne Hinv. induction 1 as [s|s a' l' t Ha' _ IH].
  - exists []. split; [constructor | done].
  - destruct (Invert_StateArcs fst fst' s Hne Hinv) as (_ & Harcs & _).
    rewrite Harcs in Ha'. apply list_elem_of_fmap in Ha' as (a & -> & Ha).
    destruct IH as (l & Hl & ->).
    exists (a :: l). split; [by constructor | done].
Qed.

(** An automaton without a start state has no successful path. *)
Lemma no_start_not_successful (fst : MutableFst W)
    (labs : list (Z * Z * W)) (w : W) :
  start fst = kNoStateId → ¬ successful fst labs w.
Proof.
  intros Hno (l & f & Hpath & _ & Hfw & Hw). rewrite Hno in Hpath.
  inversion Hpath as [x Hx|x a l0 y Ha]; subst.
  - by apply Hw.
  - by apply elem_of_nil in Ha.
Qed.

Lemma arc_label_invert (l : list (Arc W)) :
  map arc_label (map (map_arc (InvertMapper InvertProperties)) l)
  = map swap_label (map arc_label l).
Proof. rewrite !map_map. by apply map_ext. Qed.

Lemma swap_label_involutive (labs : list (Z * Z * W)) :
  map swap_label (map swap_label labs) = labs.
Proof.
  rewrite map_map. rewrite <- (map_id labs) at 2.
  apply map_ext. by intros [[i o] w].
Qed.

(** X20: inversion inverts the transduction.  The inverted automaton has
    a successful path with given pairs of labels, arc weights and final
    weight exactly when the automaton has a successful path with the pairs
    exchanged and the same weights. *)
Theorem Invert_successful (fst fst' : MutableFst W)
    (labs : list (Z * Z * W)) (w : W) :
  Invert InvertProperties kFstProperties fst = Some fst' →
  successful fst' labs w ↔ successful fst (map swap_label labs) w.
Proof.
  intros Hinv.
  destruct (decide (start fst = kNoStateId)) as [Hno|Hne].
  { rewrite (Invert_fields_no_start InvertProperties kFstProperties fst Hno)
      in Hinv.
    injection Hinv as <-.
    split; intros Hs; exfalso.
    - by apply (no_start_not_successful
                  (mkMutableFst (start fst) (states fst) (osymbols fst)
                     (isymbols fst) (properties fst)) labs w Hno).
    - by apply (no_start_not_successful fst (map swap_label labs) w Hno). }
  destruct (Invert_StateArcs fst fst' 0 Hne Hinv) as (Hstart & _ & _). split.
  - intros (l' & f & Hpath & Hlab & Hfw & Hw).
    destruct (Invert_path_inv fst fst' _ _ _ Hne Hinv Hpath) as (l & Hl & ->).
    exists l, f. rewrite <- Hstart. split; [done|].
    destruct (Invert_StateArcs fst fst' f Hne Hinv) as (_ & _ & Hfin).
    rewrite <- Hfin. split; [|done].
    rewrite <- Hlab, arc_label_invert. by rewrite swap_label_involutive.
  - intros (l & f & Hpath & Hlab & Hfw & Hw).
    exists (map (map_arc (InvertMapper InvertProperties)) l), f.
    rewrite Hstart. split; [by apply (Invert_path fst)|].
    destruct (Invert_StateArcs fst fst' f Hne Hinv) as (_ & _ & Hfin).
    rewrite Hfin. split; [|done].
    rewrite arc_label_invert, Hlab. apply swap_label_involutive.
Qed.

End InvertExtras.

Lemma Invert_successful_witness :
  ∃ fst',
    Invert (fun p => p) kFstProperties_value left_fst = Some fst' ∧
    (successful fst' [(1, 2, Trop 2)] (Trop 0)
     ↔ successful left_fst (map swap_label [(1, 2, Trop 2)]) (Trop 0)).
Proof.
  eexists. split; [reflexivity|].
  apply (Invert_successful (fun p => p) kFstProperties_value left_fst).
  reflexivity.
Defined.

(** ** The property bits that [SccVisitor] computes *)

Lemma testbit_set_clear (p a b n : Z) :
  0 <= a → 0 <= b →
  Z.testbit (Z.land (Z.lor p (2 ^ a)) (Z.lnot (2 ^ b))) n
  = if bool_decide (n = b) then false
    else if bool_decide (n = a) then true else Z.testbit p n.
Proof.
  intros Ha Hb. destruct (decide (n < 0)) as [Hn|Hn].
  - rewrite !Z.testbit_neg_r by done.
    repeat case_bool_decide; done || lia.
  - rewrite Z.land_spec, Z.lor_spec, Z.lnot_spec, !Z.pow2_bits_eqb by lia.
    repeat case_bool_decide; subst.
    + rewrite Z.eqb_refl. simpl. apply andb_false_r.
    + rewrite Z.eqb_refl, (proj2 (Z.eqb_neq b a)) by done.
      simpl. by rewrite orb_true_r.
    + rewrite (proj2 (Z.eqb_neq b n)), (proj2 (Z.eqb_neq a n)) by done.
      simpl. by rewrite orb_false_r, andb_true_r.
Qed.

Lemma has_property_pow2 (p n : Z) :
  0 <= n → has_property p (2 ^ n) = Z.testbit p n.
Proof.
  intros Hn. unfold has_property, nonzero.
  destruct (Z.testbit p n) eqn:Hb.
  - apply bool_decide_eq_true_2. intros Hz.
    assert (Z.testbit (Z.land p (2 ^ n)) n = true).
    { rewrite Z.land_spec, Z.pow2_bits_eqb, Z.eqb_refl by done.
      by rewrite Hb. }
    rewrite Hz, Z.bits_0 in *. done.
  - apply bool_decide_eq_false_2. intros Hz. apply Hz.
    apply Z.bits_inj'. intros m Hm.
    rewrite Z.land_spec, Z.pow2_bits_eqb, Z.bits_0 by done.
    destruct (decide (n = m)) as [<-|Hne].
    + by rewrite Hb.
    + rewrite (proj2 (Z.eqb_neq n m)) by done. apply andb_false_r.
Qed.

Section PropsSteps.

Context {W : Type} `{Weight W}.
Variable fst : MutableFst W.
Hypothesis Hwf : wf_fst fst.
Variable props0 : Z.

(** *** The bits after each callback *)

Lemma discovered_pbit (d : DfsState) (s root n : Z) :
  pbit (discovered s root d) n
  = if bool_decide (root = start_ (visitor d)) then pbit d n
    else if bool_decide (n = 40) then false
         else if bool_decide (n = 41) then true else pbit d n.
Proof.
  unfold pbit, discovered, with_visitor, InitState, set_color. simpl.
  case_bool_decide; simpl; [done|].
  change kNotAccessible with (2 ^ 41). change kAccessible with (2 ^ 40).
  by apply testbit_set_clear.
Qed.

Lemma BackArc_pbit (d : DfsState) (s : Z) (arc : Arc W) (n : Z) :
  pbit (with_visitor (BackArc s arc) d) n
  = if bool_decide (nextstate arc = start_ (visitor d)) &&
       (bool_decide (n = 36) || bool_decide (n = 37))
    then bool_decide (n = 36)
    else if bool_decide (n = 35) then false
         else if bool_decide (n = 34) then true else pbit d n.
Proof.
  unfold pbit, with_visitor, BackArc. simpl.
  change kCyclic with (2 ^ 34). change kAcyclic with (2 ^ 35).
  change kInitialCyclic with (2 ^ 36). change kInitialAcyclic with (2 ^ 37).
  case_bool_decide; simpl.
  - rewrite !testbit_set_clear by done.
    repeat case_bool_decide; done || lia.
  - by rewrite testbit_set_clear.
Qed.

Lemma finish_pop_pbit (d : DfsState) (s n : Z) :
  pbit (with_visitor (finish_pop s) d) n = pbit d n ∨
  (n = 42 ∨ n = 43).
Proof.
  unfold pbit, with_visitor, finish_pop. simpl.
  case_bool_decide; [|by left].
  destruct (pop_scc s _ _ _ _) as [[stack co] on]. simpl.
  destruct (scc_coaccess_of _ _ _); simpl; [by left|].
  change kNotCoAccessible with (2 ^ 43). change kCoAccessible with (2 ^ 42).
  rewrite testbit_set_clear by done.
  repeat case_bool_decide; auto.
Qed.

(** *** Steps that change neither the colours, nor the stack, nor the
    accessibility flags, nor the property bits *)

Lemma PropsInv_same (d d' : DfsState) :
  state_color d' = state_color d →
  access_ (visitor d') = access_ (visitor d) →
  scc_stack_ (visitor d') = scc_stack_ (visitor d) →
  props_ (visitor d') = props_ (visitor d) →
  PropsInv fst props0 d → PropsInv fst props0 d'.
Proof.
  intros Hc Ha Hs Hp Hpi.
  assert (Hcol : ∀ t, color_of d' t = color_of d t)
    by (intros t; unfold color_of; by rewrite Hc).
  assert (Hacc : ∀ t, acc d' t = acc d t)
    by (intros t; unfold acc; by rewrite Ha).
  assert (Hbit : ∀ n, pbit d' n = pbit d n)
    by (intros n; unfold pbit; by rewrite Hp).
  assert (Hpop : ∀ t, popped d' t ↔ popped d t).
  { intros t. unfold popped, stk. by rewrite Hcol, Hs. }
  destruct Hpi. split; rewrite ?Hbit; try done.
  - intros n Hn. rewrite Hbit. auto.
  - rewrite pi_notacc0. by setoid_rewrite Hcol; setoid_rewrite Hacc.
  - rewrite pi_notcoacc0. by setoid_rewrite Hpop.
  - intros Hb u v. rewrite !Hcol. by apply pi_black_closed0.
  - intros Hb u. rewrite Hcol. by apply pi_black_acyclic0.
  - intros Hb u. rewrite Hcol, Hacc. by apply pi_initacyclic0.
Qed.

Lemma PropsInv_GreyUpdate (s : Z) (d d' : DfsState) :
  GreyUpdate s d d' →
  props_ (visitor d') = props_ (visitor d) →
  PropsInv fst props0 d → PropsInv fst props0 d'.
Proof.
  intros Hgu. apply PropsInv_same.
  - apply (gu_color _ _ _ Hgu).
  - apply (gu_access _ _ _ Hgu).
  - apply (gu_stack _ _ _ Hgu).
Qed.

Lemma scc_bits_other (n : Z) :
  n ∉ scc_bits →
  n ≠ 34 ∧ n ≠ 35 ∧ n ≠ 36 ∧ n ≠ 37 ∧ n ≠ 40 ∧ n ≠ 41 ∧ n ≠ 42 ∧ n ≠ 43.
Proof.
  unfold scc_bits. rewrite !not_elem_of_cons. tauto.
Qed.

Lemma props_mono_refl (d : DfsState) : props_mono d d.
Proof. by split. Qed.

Lemma props_mono_trans (d0 d1 d2 : DfsState) :
  props_mono d0 d1 → props_mono d1 d2 → props_mono d0 d2.
Proof. intros [H1 H2] [H3 H4]. split; auto. Qed.

Lemma mono_false_34 (d0 d : DfsState) :
  props_mono d0 d → pbit d 34 = false → pbit d0 34 = false.
Proof. intros [Hm _] Hb. destruct (pbit d0 34); [|done]. by rewrite Hm in Hb. Qed.

Lemma mono_false_36 (d0 d : DfsState) :
  props_mono d0 d → pbit d 36 = false → pbit d0 36 = false.
Proof. intros [_ Hm] Hb. destruct (pbit d0 36); [|done]. by rewrite Hm in Hb. Qed.

(** *** A state is discovered *)

Lemma discover_PropsLoop (root s p : Z) (d0 : DfsState) :
  DfsPre fst s p d0 → PropsPre fst props0 root s d0 →
  PropsLoop fst props0 root s d0 (discovered s root d0) [].
Proof.
  intros (Hgi0 & Hvalid & Hwhite0 & _) [Hpi Hroot].
  pose proof (gi_shape _ _ Hgi0) as Hsh.
  assert (Hs0 : 0 <= s) by (unfold valid_state in Hvalid; lia).
  assert (Hcol : ∀ t, color_of (discovered s root d0) t
                      = if decide (t = s) then kDfsGrey else color_of d0 t)
    by (intros t; by apply (discovered_color fst)).
  assert (Hacc : ∀ t, acc (discovered s root d0) t
                      = if decide (t = s) then bool_decide (root = start fst)
                        else acc d0 t)
    by (intros t; by apply (discovered_acc fst)).
  assert (Hbit : ∀ n, pbit (discovered s root d0) n
                      = if bool_decide (root = start fst) then pbit d0 n
                        else if bool_decide (n = 40) then false
                             else if bool_decide (n = 41) then true
                                  else pbit d0 n).
  { intros n. rewrite discovered_pbit. by rewrite (sh_start _ _ Hsh). }
  assert (Hsame : ∀ n, n ≠ 40 → n ≠ 41 →
                       pbit (discovered s root d0) n = pbit d0 n).
  { intros n H40 H41. rewrite Hbit.
    by rewrite (bool_decide_eq_false_2 (n = 40)),
      (bool_decide_eq_false_2 (n = 41)), Tauto.if_same. }
  assert (Hblack : ∀ t, color_of (discovered s root d0) t = kDfsBlack ↔
                        color_of d0 t = kDfsBlack).
  { intros t. rewrite Hcol. destruct (decide (t = s)) as [->|]; [|done].
    rewrite Hwhite0. split; done. }
  assert (Hblack_acc : ∀ t, color_of d0 t = kDfsBlack →
                            acc (discovered s root d0) t = acc d0 t).
  { intros t Ht. rewrite Hacc. destruct (decide (t = s)) as [->|]; [|done].
    congruence. }
  destruct Hpi. split.
  - split.
    + rewrite !Hsame by lia. done.
    + rewrite !Hsame by lia. done.
    + rewrite !Hbit. case_bool_decide; [done|].
      by rewrite !bool_decide_eq_true_2, bool_decide_eq_false_2 by lia.
    + rewrite !Hsame by lia. done.
    + intros n Hn. destruct (scc_bits_other n Hn) as (_&_&_&_&?&?&_).
      rewrite Hsame by done. auto.
    + rewrite Hbit. split.
      * intros Hb. case_bool_decide as Hr.
        -- apply pi_notacc0 in Hb as (t & Ht & Ha). exists t.
           rewrite Hcol, Hacc.
           destruct (decide (t = s)) as [->|]; [done | done].
        -- exists s. rewrite Hcol, Hacc, !decide_True by done.
           split; [done|]. by rewrite ?bool_decide_eq_false_2 by done.
      * intros (t & Ht & Ha). rewrite Hacc in Ha. rewrite Hcol in Ht.
        destruct (decide (t = s)) as [->|Hne].
        -- apply bool_decide_eq_false_1 in Ha.
           by rewrite bool_decide_eq_false_2, bool_decide_eq_false_2,
             bool_decide_eq_true_2 by (done || lia).
        -- assert (Hb : pbit d0 41 = true) by (apply pi_notacc0; by exists t).
           rewrite Hb. by repeat case_bool_decide.
    + rewrite Hsame by lia. rewrite pi_notcoacc0.
      by setoid_rewrite (popped_discovered fst d0 s root _ Hgi0 Hvalid Hwhite0).
    + rewrite Hsame by lia. done.
    + rewrite Hsame by lia. intros Hb u v. rewrite !Hblack.
      by apply pi_black_closed0.
    + rewrite Hsame by lia. intros Hb u. rewrite Hblack.
      by apply pi_black_acyclic0.
    + rewrite Hsame by lia. done.
    + rewrite Hsame by lia. intros Hb u Hu. apply Hblack in Hu.
      rewrite (Hblack_acc u Hu). by apply pi_initacyclic0.
  - rewrite Hcol. destruct (decide (root = s)) as [|Hne]; [done|].
    destruct Hroot as [->|Hg]; done.
  - split; rewrite Hsame by lia; done.
  - intros _ a Ha. by apply elem_of_nil in Ha.
  - intros _ _ a Ha. by apply elem_of_nil in Ha.
Qed.

(** *** An arc to a state under visit *)

Lemma BackArc_bits (d : DfsState) (s : Z) (a : Arc W) :
  start_ (visitor d) = start fst →
  pbit (with_visitor (BackArc s a) d) 34 = true ∧
  pbit (with_visitor (BackArc s a) d) 35 = false ∧
  pbit (with_visitor (BackArc s a) d) 36
  = (bool_decide (nextstate a = start fst) || pbit d 36) ∧
  pbit (with_visitor (BackArc s a) d) 37
  = (negb (bool_decide (nextstate a = start fst)) && pbit d 37) ∧
  ∀ n, n ≠ 34 → n ≠ 35 → n ≠ 36 → n ≠ 37 →
       pbit (with_visitor (BackArc s a) d) n = pbit d n.
Proof.
  intros Hst.
  repeat split; try intros n H34 H35 H36 H37;
    rewrite !BackArc_pbit, !Hst;
    repeat case_bool_decide; simpl; done || lia.
Qed.

Lemma grey_on_cycle (root s p : Z) (d0 d : DfsState) (done : list (Arc W))
    (a : Arc W) :
  LoopInv fst root s p d0 d done →
  a ∈ StateArcs fst s →
  color_of d (nextstate a) = kDfsGrey →
  on_cycle fst (nextstate a).
Proof.
  intros Hli Ha Hgrey.
  pose proof (li_inv _ _ _ _ _ _ _ Hli) as Hgi.
  destruct (li_top _ _ _ _ _ _ _ Hli) as [Hs Htop].
  assert (Ht : nextstate a ∈ stk d) by by apply (gi_grey_stack _ _ Hgi).
  assert (Hs' : s ∈ stk d) by by apply (gi_grey_stack _ _ Hgi).
  exists s. split; [|by exists a].
  apply (gi_reach _ _ Hgi); [done | done |].
  destruct (decide (dfn d (nextstate a) <= dfn d s)) as [|Hlt]; [done|].
  assert (Hb : color_of d (nextstate a) = kDfsBlack) by (apply Htop; [done|lia]).
  congruence.
Qed.

Lemma back_PropsLoop (root s p : Z) (d0 d : DfsState) (done : list (Arc W))
    (a : Arc W) :
  LoopInv fst root s p d0 d done →
  PropsLoop fst props0 root s d0 d done →
  a ∈ StateArcs fst s →
  color_of d (nextstate a) = kDfsGrey →
  PropsLoop fst props0 root s d0 (with_visitor (BackArc s a) d) (done ++ [a]).
Proof.
  intros Hli Hpl Ha Hgrey.
  pose proof (li_inv _ _ _ _ _ _ _ Hli) as Hgi.
  pose proof (gi_shape _ _ Hgi) as Hsh.
  pose proof (grey_on_cycle root s p d0 d done a Hli Ha Hgrey) as Hcyc.
  pose proof (BackArc_GreyUpdate d s a) as Hgu.
  destruct (BackArc_bits d s a (sh_start _ _ Hsh))
    as (H34 & H35 & H36 & H37 & Hoth).
  set (d' := with_visitor (BackArc s a) d) in *.
  assert (Hcol : ∀ t, color_of d' t = color_of d t) by done.
  assert (Hacc : ∀ t, acc d' t = acc d t) by done.
  assert (Hpop : ∀ t, popped d' t ↔ popped d t) by done.
  destruct Hpl as [Hpi Hroot Hmono Hdb Hds]. split.
  - destruct Hpi. split.
    + by rewrite H34, H35.
    + rewrite H36, H37, pi_initacyclic_bit0.
      by destruct (bool_decide _), (pbit d 36).
    + by rewrite !Hoth by lia.
    + by rewrite !Hoth by lia.
    + intros n Hn. destruct (scc_bits_other n Hn) as (?&?&?&?&_).
      rewrite Hoth by done. auto.
    + by rewrite Hoth by lia.
    + by rewrite Hoth by lia.
    + intros _. by exists (nextstate a).
    + by rewrite H34.
    + by rewrite H34.
    + rewrite H36. intros [Hst|Hb]%orb_true_iff; [|auto].
      apply bool_decide_eq_true_1 in Hst. by rewrite <- Hst.
    + rewrite H36. intros [_ Hb]%orb_false_iff. by apply pi_initacyclic0.
  - done.
  - apply (props_mono_trans d0 d d'); [done|]. split.
    + by rewrite H34.
    + rewrite H36. intros ->. apply orb_true_r.
  - by rewrite H34.
  - rewrite H36. intros [Hst Hb]%orb_false_iff Hs b
      [Hin|Heq%list_elem_of_singleton]%elem_of_app.
    + by apply Hds.
    + subst b. by apply bool_decide_eq_false_1 in Hst.
Qed.

(** *** An arc to a finished state *)

Lemma cross_PropsLoop (root s p : Z) (d0 d : DfsState) (done : list (Arc W))
    (a : Arc W) :
  LoopInv fst root s p d0 d done →
  PropsLoop fst props0 root s d0 d done →
  color_of d0 s = kDfsWhite →
  color_of d (nextstate a) = kDfsBlack →
  PropsLoop fst props0 root s d0 (with_visitor (ForwardOrCrossArc s a) d)
            (done ++ [a]).
Proof.
  intros Hli Hpl Hwhite0 Hblack.
  destruct (li_top _ _ _ _ _ _ _ Hli) as [Hs _].
  pose proof (ForwardOrCrossArc_GreyUpdate d s a) as Hgu.
  destruct Hpl as [Hpi Hroot Hmono Hdb Hds].
  set (d' := with_visitor (ForwardOrCrossArc s a) d) in *.
  assert (Hbit : ∀ n, pbit d' n = pbit d n) by done.
  assert (Hcol : ∀ t, color_of d' t = color_of d t) by done.
  assert (Hacc : ∀ t, acc d' t = acc d t) by done.
  split.
  - by apply (PropsInv_GreyUpdate s d d').
  - done.
  - done.
  - rewrite Hbit. intros Hb b [Hin|Heq%list_elem_of_singleton]%elem_of_app.
    + by apply Hdb.
    + by subst b.
  - rewrite Hbit, Hacc. intros Hb Hacc_s b
      [Hin|Heq%list_elem_of_singleton]%elem_of_app.
    + by apply Hds.
    + subst b. intros Hst. rewrite Hst in Hblack.
      assert (Hnw : color_of d s ≠ kDfsWhite) by by rewrite Hs.
      destruct (li_new _ _ _ _ _ _ _ Hli s Hwhite0 Hnw) as [Ha_s _].
      rewrite Ha_s in Hacc_s. apply bool_decide_eq_true_1 in Hacc_s.
      rewrite Hacc_s in Hroot. congruence.
Qed.

(** *** An arc to an undiscovered state *)

Lemma tree_PropsPre (root s : Z) (d0 d : DfsState) (done : list (Arc W))
    (a : Arc W) :
  PropsLoop fst props0 root s d0 d done →
  PropsPre fst props0 root (nextstate a) d.
Proof. intros Hpl. split; [apply Hpl|]. right. apply Hpl. Qed.

Lemma tree_PropsLoop (root s p : Z) (d0 d d2 : DfsState)
    (done : list (Arc W)) (a : Arc W) :
  LoopInv fst root s p d0 d done →
  PropsLoop fst props0 root s d0 d done →
  color_of d0 s = kDfsWhite →
  color_of d (nextstate a) = kDfsWhite →
  DfsPost fst root (nextstate a) s d d2 →
  PropsPost fst props0 d d2 →
  PropsLoop fst props0 root s d0 d2 (done ++ [a]).
Proof.
  intros Hli Hpl Hwhite0 Hwhite Hpo [Hpi2 Hmono2].
  destruct (li_top _ _ _ _ _ _ _ Hli) as [Hs _].
  pose proof (po_frame _ _ _ _ _ _ Hpo) as Hfr.
  destruct Hpl as [Hpi Hroot Hmono Hdb Hds].
  assert (Hnw : color_of d s ≠ kDfsWhite) by by rewrite Hs.
  split.
  - done.
  - rewrite (fr_col_old _ _ _ Hfr root); [done | by rewrite Hroot].
  - by apply (props_mono_trans d0 d d2).
  - intros Hb b [Hin|Heq%list_elem_of_singleton]%elem_of_app.
    + pose proof (Hdb (mono_false_34 d d2 Hmono2 Hb) b Hin) as Hbl.
      rewrite (fr_col_old _ _ _ Hfr); [done | by rewrite Hbl].
    + subst b. apply (po_black _ _ _ _ _ _ Hpo).
  - rewrite (fr_acc_old _ _ _ Hfr s Hnw).
    intros Hb Hacc_s b [Hin|Heq%list_elem_of_singleton]%elem_of_app.
    + by apply (Hds (mono_false_36 d d2 Hmono2 Hb)).
    + subst b. intros Hst. rewrite Hst in Hwhite.
      destruct (li_new _ _ _ _ _ _ _ Hli s Hwhite0 Hnw) as [Ha_s _].
      rewrite Ha_s in Hacc_s. apply bool_decide_eq_true_1 in Hacc_s.
      rewrite Hacc_s in Hroot. congruence.
Qed.

(** *** A state is finished *)

(** The completion of a component, with the property bits. *)
Lemma finish_pop_cases (d : DfsState) (s : Z) (above below : list Z) :
  dfn d s = low d s →
  stk d = above ++ s :: below →
  s ∉ above →
  (∀ t, t ∈ above ++ [s] →
        0 <= t < Z.of_nat (length (coaccess_ (visitor d)))) →
  length (onstack_ (visitor d)) = length (coaccess_ (visitor d)) →
  ∃ b, PopStep (above ++ [s]) below b d (with_visitor (finish_pop s) d) ∧
       ∀ n, pbit (with_visitor (finish_pop s) d) n
            = if negb b && (bool_decide (n = 42) || bool_decide (n = 43))
              then bool_decide (n = 43) else pbit d n.
Proof.
  intros Hroot Hstk Hs Hin Hlen. unfold stk in Hstk.
  exists (scc_coaccess_of s (coaccess_ (visitor d)) (scc_stack_ (visitor d))).
  destruct (pop_scc_spec s
              (scc_coaccess_of s (coaccess_ (visitor d))
                 (scc_stack_ (visitor d)))
              above below (coaccess_ (visitor d)) (onstack_ (visitor d))
              Hs Hin Hlen)
    as (co' & on' & Hpop & Hlc & Hlo & Hc1 & Hc2 & Ho1 & Ho2).
  unfold pbit, with_visitor, finish_pop. unfold dfn, low in Hroot.
  rewrite bool_decide_eq_true_2 by done. cbn zeta.
  rewrite <- Hstk in Hpop. rewrite Hpop. split.
  - split; try reflexivity; simpl; try done.
    rewrite Hstk. by apply scc_coaccess_of_spec.
  - intros n. simpl. destruct (scc_coaccess_of _ _ _); simpl; [done|].
    change kNotCoAccessible with (2 ^ 43). change kCoAccessible with (2 ^ 42).
    rewrite testbit_set_clear by done.
    repeat case_bool_decide; simpl; done || lia.
Qed.

Lemma finish_parent_props (s p : Z) (v : SccVisitor) :
  props_ (finish_parent s p v) = props_ v.
Proof. unfold finish_parent. by case_bool_decide. Qed.

(** The state [s] turns black, its arcs having been taken. *)
Lemma blacken_PropsInv (root s p : Z) (d0 d dk : DfsState) :
  LoopInv fst root s p d0 d (StateArcs fst s) →
  PropsLoop fst props0 root s d0 d (StateArcs fst s) →
  (∀ t, color_of dk t = if decide (t = s) then kDfsBlack else color_of d t) →
  access_ (visitor dk) = access_ (visitor d) →
  scc_stack_ (visitor dk) = scc_stack_ (visitor d) →
  props_ (visitor dk) = props_ (visitor d) →
  PropsInv fst props0 dk.
Proof.
  intros Hli [Hpi Hroot Hmono Hdb Hds] Hcol Ha Hstk Hp.
  pose proof (li_inv _ _ _ _ _ _ _ Hli) as Hgi.
  destruct (li_top _ _ _ _ _ _ _ Hli) as [Hgrey _].
  assert (Hs_stk : s ∈ stk d) by by apply (gi_grey_stack _ _ Hgi).
  assert (Hacc : ∀ t, acc dk t = acc d t)
    by (intros t; unfold acc; by rewrite Ha).
  assert (Hbit : ∀ n, pbit dk n = pbit d n)
    by (intros n; unfold pbit; by rewrite Hp).
  assert (Hnw : ∀ t, color_of dk t ≠ kDfsWhite ↔ color_of d t ≠ kDfsWhite).
  { intros t. rewrite Hcol. destruct (decide (t = s)) as [->|]; [|done].
    rewrite Hgrey. split; done. }
  assert (Hpop : ∀ t, popped dk t ↔ popped d t).
  { intros t. unfold popped, stk. rewrite Hcol, Hstk.
    destruct (decide (t = s)) as [->|]; [|done].
    split; intros [_ Hn]; by destruct Hn. }
  assert (Hsucc : pbit d 34 = false → ∀ v, edge fst s v →
                  color_of d v = kDfsBlack).
  { intros Hb v (a & Hin & <-). by apply Hdb. }
  assert (Hclosed : pbit d 34 = false → ∀ u v, color_of d u = kDfsBlack →
                    reach fst u v → color_of d v = kDfsBlack).
  { intros Hb u v Hu Hr. unfold reach in Hr.
    induction Hr as [u|u w v He Hr IH]; [done|].
    apply IH. by apply (pi_black_closed _ _ _ Hpi Hb u w). }
  destruct Hpi. split; rewrite ?Hbit; try done.
  - intros n Hn. rewrite Hbit. auto.
  - rewrite pi_notacc0. by setoid_rewrite Hnw; setoid_rewrite Hacc.
  - rewrite pi_notcoacc0. by setoid_rewrite Hpop.
  - intros Hb u v Hu He. rewrite Hcol in Hu. rewrite Hcol.
    destruct (decide (v = s)) as [|Hvs]; [done|].
    destruct (decide (u = s)) as [->|Hus].
    + by apply Hsucc.
    + by apply (pi_black_closed0 Hb u v).
  - intros Hb u Hu. rewrite Hcol in Hu.
    destruct (decide (u = s)) as [->|Hus]; [|by apply pi_black_acyclic0].
    intros (v & Hr & He).
    assert (Hv : color_of d v = kDfsBlack).
    { apply rtc_inv in Hr as [->|(w & Hw & Hr)].
      - by apply Hsucc.
      - apply (Hclosed Hb w v); [by apply Hsucc | done]. }
    pose proof (pi_black_closed0 Hb v s Hv He). congruence.
  - intros Hb u Hu. rewrite Hacc. rewrite Hcol in Hu.
    destruct (decide (u = s)) as [->|Hus]; [|by apply pi_initacyclic0].
    intros Hacc_s (a & Hin & Hst). by apply (Hds Hb Hacc_s a).
Qed.

Lemma finish_PropsPost (root s p : Z) (d0 d1 : DfsState) :
  DfsPre fst s p d0 →
  LoopInv fst root s p d0 d1 (StateArcs fst s) →
  PropsLoop fst props0 root s d0 d1 (StateArcs fst s) →
  PropsPost fst props0 d0 (finished fst s p d1).
Proof.
  intros Hpre Hli Hpl.
  pose proof Hpre as (Hgi0 & Hvalid & Hwhite0 & _).
  pose proof (li_inv _ _ _ _ _ _ _ Hli) as Hgi.
  pose proof (gi_shape _ _ Hgi) as Hsh.
  destruct (li_top _ _ _ _ _ _ _ Hli) as [Hgrey Htop].
  destruct (li_stack _ _ _ _ _ _ _ Hli) as (above & Hstk & Habove).
  destruct (sorted_stack_split d1 s above (stk d0) (gi_sorted _ _ Hgi) Hstk)
    as (Hs_above & Hs_below & Hab & _).
  pose proof (finish_final_GreyUpdate fst d1 s) as Hgu.
  rewrite finished_eq.
  set (da := with_visitor (finish_final fst s) d1) in *.
  set (dk := set_color s kDfsBlack da).
  set (db := with_visitor (finish_pop s) dk).
  assert (Hrange : 0 <= s < Z.of_nat (length (state_color da))).
  { rewrite (gu_color _ _ _ Hgu), (sh_colors _ _ Hsh).
    pose proof (GI_valid fst d1 s Hgi) as Hv. rewrite Hgrey in Hv.
    by apply Hv. }
  assert (Hcolk : ∀ t, color_of dk t
                       = if decide (t = s) then kDfsBlack else color_of d1 t).
  { intros t. unfold dk. rewrite set_color_color by done.
    by rewrite (GreyUpdate_color s d1 da t Hgu). }
  assert (Hpik : PropsInv fst props0 dk).
  { by apply (blacken_PropsInv root s p d0 d1 dk Hli Hpl Hcolk). }
  assert (Hbitk : ∀ n, pbit dk n = pbit d1 n) by done.
  assert (Hstkk : stk dk = above ++ s :: stk d0).
  { rewrite <- Hstk. unfold stk, dk. simpl. apply (gu_stack _ _ _ Hgu). }
  pose proof (finish_mid fst root s p d0 d1 Hgi0 Hwhite0 Hli) as Hpo.
  fold da in Hpo. fold dk in Hpo. fold db in Hpo.
  pose proof (po_inv _ _ _ _ _ _ Hpo) as Hgib.
  assert (Hpib : PropsInv fst props0 db ∧ ∀ n, n ≠ 42 → n ≠ 43 →
                                                pbit db n = pbit dk n).
  { destruct (decide (dfn dk s = low dk s)) as [Hroot|Hroot].
    2:{ unfold db. rewrite finish_pop_keep by done. done. }
    destruct (finish_pop_cases dk s above (stk d0) Hroot Hstkk Hs_above)
      as (b & Hps & Hbit).
    { intros t Ht. change (visitor dk) with (visitor da).
      rewrite (gu_len_coacc _ _ _ Hgu), (sh_coaccess _ _ Hsh).
      apply (GI_range fst d1 t Hgi). apply (gi_stack_nonwhite _ _ Hgi).
      rewrite Hstk. apply elem_of_app in Ht as [Ht|Ht%list_elem_of_singleton].
      - apply elem_of_app. by left.
      - subst t. apply elem_of_app. right. left. }
    { change (visitor dk) with (visitor da).
      rewrite (gu_len_coacc _ _ _ Hgu), (gu_onstack _ _ _ Hgu).
      by rewrite (sh_onstack _ _ Hsh), (sh_coaccess _ _ Hsh). }
    fold db in Hps, Hbit.
    assert (Hoth : ∀ n, n ≠ 42 → n ≠ 43 → pbit db n = pbit dk n).
    { intros n H42 H43. rewrite Hbit.
      rewrite (bool_decide_eq_false_2 (n = 42)),
        (bool_decide_eq_false_2 (n = 43)) by done.
      by rewrite andb_false_r. }
    split; [|done].
    assert (Hcolb : ∀ t, color_of db t = color_of dk t)
      by (intros t; unfold color_of; by rewrite (ps_color _ _ _ _ _ Hps)).
    assert (Haccb : ∀ t, acc db t = acc dk t)
      by (intros t; unfold acc; by rewrite (ps_access _ _ _ _ _ Hps)).
    assert (Hstkb : stk db = stk d0) by apply (ps_stack _ _ _ _ _ Hps).
    assert (Hseg0 : ∀ t, t ∈ above ++ [s] → t ∉ stk d0).
    { intros t Ht Hin. apply (gi_stack_nonwhite _ _ Hgi0) in Hin.
      apply elem_of_app in Ht as [Ht|Ht%list_elem_of_singleton].
      - by apply Habove in Ht.
      - by subst t. }
    assert (Hpop_old : ∀ t, popped dk t → popped db t).
    { intros t [Hc Hn]. split; [by rewrite Hcolb|].
      rewrite Hstkb. intros Hin. apply Hn. rewrite Hstkk.
      apply elem_of_app. right. by right. }
    assert (Hpop_new : ∀ t, popped db t → t ∉ above ++ [s] → popped dk t).
    { intros t [Hc Hn] Hseg. split; [by rewrite <- Hcolb|].
      rewrite Hstkk. rewrite Hstkb in Hn. intros Hin. apply Hseg.
      change (above ++ s :: stk d0) with (above ++ [s] ++ stk d0) in Hin.
      rewrite app_assoc in Hin. by apply elem_of_app in Hin as [Hin|Hin]. }
    assert (H43 : pbit db 43 = negb b || pbit dk 43).
    { rewrite Hbit. destruct b; simpl; [done|].
      repeat case_bool_decide; simpl; done || lia. }
    assert (H42 : pbit db 42 = b && pbit dk 42).
    { rewrite Hbit. destruct b; simpl; [done|].
      repeat case_bool_decide; simpl; done || lia. }
    destruct Hpik. split; rewrite ?Hoth by lia; try done.
    - rewrite H42, H43, pi_coaccessible_bit0.
      by destruct b, (pbit dk 43).
    - intros n Hn. destruct (scc_bits_other n Hn) as (_&_&_&_&_&_&?&?).
      rewrite Hoth by done. auto.
    - rewrite pi_notacc0. by setoid_rewrite Hcolb; setoid_rewrite Haccb.
    - rewrite H43. split.
      + intros [Hb|Hb]%orb_true_iff.
        * apply negb_true_iff in Hb. exists s.
          assert (Hs_seg : s ∈ above ++ [s])
            by (apply elem_of_app; right; left).
          assert (Hps_s : popped db s).
          { split; [by rewrite Hcolb, Hcolk, decide_True|].
            rewrite Hstkb. by apply Hseg0. }
          split; [done|]. intros Hco.
          pose proof (gi_popped_exact _ _ Hgib s Hps_s Hco) as Hc.
          rewrite (ps_coacc_seg _ _ _ _ _ Hps s Hs_seg), Hb in Hc.
          simpl in Hc.
          assert (b = true); [|congruence].
          apply (ps_flag _ _ _ _ _ Hps). by exists s.
        * apply pi_notcoacc0 in Hb as (t & Ht & Hco). exists t.
          split; [by apply Hpop_old | done].
      + intros (t & Ht & Hco).
        destruct (decide (t ∈ above ++ [s])) as [Hseg|Hseg].
        * destruct b; simpl.
          -- exfalso. apply Hco. apply (gi_sound _ _ Hgib).
             by rewrite (ps_coacc_seg _ _ _ _ _ Hps t Hseg).
          -- done.
        * apply orb_true_iff. right. apply pi_notcoacc0. exists t.
          split; [by apply Hpop_new | done].
    - intros Hb u Hu. rewrite Haccb. by apply pi_initacyclic0. }
  destruct Hpib as [Hpib Hothb].
  pose proof (finish_parent_GreyUpdate db s p) as Hgup.
  split.
  - apply (PropsInv_GreyUpdate p db); [done | | done].
    simpl. apply finish_parent_props.
  - assert (Hbitc : ∀ n, pbit (with_visitor (finish_parent s p) db) n
                         = pbit db n).
    { intros n. unfold pbit. simpl. by rewrite finish_parent_props. }
    apply (props_mono_trans d0 d1); [apply Hpl|].
    split; rewrite Hbitc, Hothb, Hbitk by lia; done.
Qed.

End PropsSteps.

(** *** One tree, then the forest *)

Section PropsCorrect.

Context {W : Type} `{Weight W}.
Variable fst : MutableFst W.
Hypothesis Hwf : wf_fst fst.
Variable props0 : Z.

Lemma props_arcs_loop (fuel : nat) (root s p : Z) (d0 : DfsState) :
  (∀ s' p' d, DfsPre fst s' p' d → PropsPre fst props0 root s' d →
              (white_count d < fuel)%nat →
              ∃ d', DfsFrom fuel fst root s' p' d = Some d' ∧
                    DfsPost fst root s' p' d d' ∧
                    PropsPost fst props0 d d') →
  (white_count d0 <= fuel)%nat →
  color_of d0 s = kDfsWhite →
  ∀ todo done d,
    StateArcs fst s = done ++ todo →
    LoopInv fst root s p d0 d done →
    PropsLoop fst props0 root s d0 d done →
    ∃ d', fold_opt
            (fun d arc =>
               match color_of d (nextstate arc) with
               | kDfsWhite => DfsFrom fuel fst root (nextstate arc) s d
               | kDfsGrey => Some (with_visitor (BackArc s arc) d)
               | kDfsBlack => Some (with_visitor (ForwardOrCrossArc s arc) d)
               end) d todo = Some d' ∧
          LoopInv fst root s p d0 d' (StateArcs fst s) ∧
          PropsLoop fst props0 root s d0 d' (StateArcs fst s).
Proof.
  intros IH Hfuel Hwhite0 todo.
  induction todo as [|a todo IHtodo]; intros done d Harcs Hli Hpl.
  - exists d. split; [done|]. rewrite Harcs. by rewrite app_nil_r.
  - assert (Ha : a ∈ StateArcs fst s).
    { rewrite Harcs. apply elem_of_app. right. left. }
    assert (Harcs' : StateArcs fst s = (done ++ [a]) ++ todo)
      by by rewrite Harcs, <- app_assoc.
    cbn [fold_opt]. destruct (color_of d (nextstate a)) eqn:Hc.
    + pose proof (li_white _ _ _ _ _ _ _ Hli) as Hw.
      destruct (IH (nextstate a) s d) as (d2 & -> & Hpo & Hpp).
      { by apply (tree_DfsPre fst Hwf root s p d0 d done). }
      { by apply (tree_PropsPre fst props0 root s d0 d done). }
      { lia. }
      apply (IHtodo (done ++ [a])); [done | |].
      * by apply (tree_LoopInv fst root s p d0 d d2 done).
      * by apply (tree_PropsLoop fst props0 root s p d0 d d2 done).
    + apply (IHtodo (done ++ [a])); [done | |].
      * by apply (back_LoopInv fst).
      * by apply (back_PropsLoop fst props0 root s p).
    + apply (IHtodo (done ++ [a])); [done | |].
      * by apply (cross_LoopInv fst).
      * by apply (cross_PropsLoop fst props0 root s p).
Qed.

(** [DfsFrom] keeps what the property bits tell. *)
Lemma DfsFrom_props (fuel : nat) (root s p : Z) (d0 : DfsState) :
  DfsPre fst s p d0 → PropsPre fst props0 root s d0 →
  (white_count d0 < fuel)%nat →
  ∃ d', DfsFrom fuel fst root s p d0 = Some d' ∧
        DfsPost fst root s p d0 d' ∧ PropsPost fst props0 d0 d'.
Proof.
  revert s p d0.
  induction fuel as [|fuel IH]; intros s p d0 Hpre Hpp Hfuel; [lia|].
  pose proof Hpre as (Hgi0 & Hvalid & Hwhite0 & _).
  pose proof (discover_LoopInv fst root s p d0 Hpre) as Hli.
  pose proof (discover_PropsLoop fst props0 root s p d0 Hpre Hpp) as Hpl.
  destruct (props_arcs_loop fuel root s p d0 IH ltac:(lia) Hwhite0
              (StateArcs fst s) [] (discovered s root d0) eq_refl Hli Hpl)
    as (d1 & Hfold & Hli1 & Hpl1).
  exists (finished fst s p d1). split; [|split].
  - simpl. unfold discovered in Hfold. by rewrite Hfold.
  - rewrite finished_eq. apply finish_parent_post; try done.
    by apply (finish_mid _ root s p).
  - by apply (finish_PropsPost fst props0 root s p).
Qed.

(** The property word after [InitVisit]. *)
Lemma InitVisit_pbit (props n : Z) :
  0 <= n →
  Z.testbit (props_ (InitVisit fst props)) n
  = (Z.testbit props n ||
     ((35 =? n) || ((37 =? n) || ((40 =? n) || (42 =? n))))) &&
    negb ((34 =? n) || ((36 =? n) || ((41 =? n) || (43 =? n)))).
Proof.
  intros Hn. unfold InitVisit. simpl.
  change kCyclic with (2 ^ 34). change kAcyclic with (2 ^ 35).
  change kInitialCyclic with (2 ^ 36). change kInitialAcyclic with (2 ^ 37).
  change kAccessible with (2 ^ 40). change kNotAccessible with (2 ^ 41).
  change kCoAccessible with (2 ^ 42). change kNotCoAccessible with (2 ^ 43).
  rewrite Z.land_spec, Z.lnot_spec, !Z.lor_spec by done.
  by rewrite !Z.pow2_bits_eqb by lia.
Qed.

Lemma PropsInv_init (props : Z) :
  PropsInv fst props (mkDfs (InitVisit fst props)
                        (replicate (length (states fst)) kDfsWhite)).
Proof.
  set (d := mkDfs (InitVisit fst props)
              (replicate (length (states fst)) kDfsWhite)).
  assert (Hw : ∀ t, color_of d t = kDfsWhite)
    by (intros t; apply color_of_replicate).
  assert (Hbit : ∀ n, 0 <= n → pbit d n
                 = (Z.testbit props n ||
                    ((35 =? n) || ((37 =? n) || ((40 =? n) || (42 =? n))))) &&
                   negb ((34 =? n) || ((36 =? n) || ((41 =? n) || (43 =? n)))))
    by (intros n Hn; by apply InitVisit_pbit).
  assert (H34 : pbit d 34 = false) by (rewrite Hbit by lia; apply andb_false_r).
  assert (H36 : pbit d 36 = false) by (rewrite Hbit by lia; apply andb_false_r).
  assert (H41 : pbit d 41 = false) by (rewrite Hbit by lia; apply andb_false_r).
  assert (H43 : pbit d 43 = false) by (rewrite Hbit by lia; apply andb_false_r).
  assert (H35 : pbit d 35 = true)
    by (rewrite Hbit by lia; simpl; by rewrite orb_true_r).
  assert (H37 : pbit d 37 = true)
    by (rewrite Hbit by lia; simpl; by rewrite orb_true_r).
  assert (H40 : pbit d 40 = true)
    by (rewrite Hbit by lia; simpl; by rewrite orb_true_r).
  assert (H42 : pbit d 42 = true)
    by (rewrite Hbit by lia; simpl; by rewrite orb_true_r).
  split; rewrite ?H34, ?H35, ?H36, ?H37, ?H40, ?H41, ?H42, ?H43; try done.
  - intros n Hn.
    destruct (scc_bits_other n Hn) as (?&?&?&?&?&?&?&?).
    destruct (decide (n < 0)) as [Hneg|Hpos].
    + unfold pbit. by rewrite !Z.testbit_neg_r.
    + rewrite Hbit by lia.
      rewrite !(proj2 (Z.eqb_neq _ n)) by done. simpl.
      by rewrite orb_false_r, andb_true_r.
  - split; [done|]. intros (t & Ht & _). by rewrite Hw in Ht.
  - split; [done|]. intros (t & [Ht _] & _). by rewrite Hw in Ht.
  - intros _ u v Hu. by rewrite Hw in Hu.
  - intros _ u Hu. by rewrite Hw in Hu.
  - intros _ u Hu. by rewrite Hw in Hu.
Qed.

Lemma props_root_step (d : DfsState) (root : Z) :
  ForestInv fst d → PropsInv fst props0 d →
  valid_state fst root → color_of d root = kDfsWhite →
  (root = start fst ∨ color_of d (start fst) ≠ kDfsWhite) →
  ∃ d', DfsFrom (S (length (states fst))) fst root root kNoStateId d = Some d' ∧
        ForestInv fst d' ∧ PropsInv fst props0 d' ∧
        color_of d' root = kDfsBlack ∧
        ∀ t, color_of d t ≠ kDfsWhite → color_of d' t ≠ kDfsWhite.
Proof.
  intros Hfo Hpi Hvalid Hwhite Hstart.
  pose proof (fo_inv _ _ Hfo) as Hgi.
  destruct (root_step fst Hwf d root Hfo Hvalid Hwhite Hstart)
    as (d' & Hrun & Hfo' & Hb & Hmono).
  assert (Hpre : DfsPre fst root kNoStateId d).
  { split; [done|]. split; [done|]. split; [done|]. left.
    split; [done|]. split; [apply (fo_stack _ _ Hfo) | apply (fo_no_grey _ _ Hfo)]. }
  destruct (DfsFrom_props (S (length (states fst))) root root kNoStateId d Hpre)
    as (d'' & Hrun' & _ & Hpp).
  { split; [done | by left]. }
  { pose proof (white_count_le d).
    rewrite (sh_colors _ _ (gi_shape _ _ Hgi)) in *. lia. }
  rewrite Hrun in Hrun'. injection Hrun' as <-.
  exists d'. repeat (split; [done|]). split; [apply Hpp|]. by split.
Qed.

Lemma props_roots_loop (roots : list Z) (d : DfsState) :
  ForestInv fst d → PropsInv fst props0 d →
  color_of d (start fst) ≠ kDfsWhite →
  (∀ r, r ∈ roots → valid_state fst r) →
  ∃ d', fold_opt
          (fun d root =>
             match color_of d root with
             | kDfsWhite =>
                 DfsFrom (S (length (states fst))) fst root root kNoStateId d
             | _ => Some d
             end) d roots = Some d' ∧
        ForestInv fst d' ∧ PropsInv fst props0 d' ∧
        (∀ t, color_of d t ≠ kDfsWhite → color_of d' t ≠ kDfsWhite) ∧
        (∀ r, r ∈ roots → color_of d' r ≠ kDfsWhite).
Proof.
  revert d. induction roots as [|r roots IH]; intros d Hfo Hpi Hstart Hvalid.
  - exists d. split; [done|]. split; [done|]. split; [done|]. split; [done|].
    intros r Hr. by apply elem_of_nil in Hr.
  - assert (Hstep : ∃ d1,
              match color_of d r with
              | kDfsWhite =>
                  DfsFrom (S (length (states fst))) fst r r kNoStateId d
              | _ => Some d
              end = Some d1 ∧ ForestInv fst d1 ∧ PropsInv fst props0 d1 ∧
              (∀ t, color_of d t ≠ kDfsWhite → color_of d1 t ≠ kDfsWhite) ∧
              color_of d1 r ≠ kDfsWhite).
    { destruct (color_of d r) eqn:Hc.
      - destruct (props_root_step d r Hfo Hpi)
          as (d1 & Hrun & Hfo1 & Hpi1 & Hb & Hmono);
          [apply Hvalid; left | done | by right |].
        exists d1. split; [done|]. split; [done|]. split; [done|].
        split; [done|]. by rewrite Hb.
      - exists d. split; [done|]. split; [done|]. split; [done|].
        split; [done|]. by rewrite Hc.
      - exists d. split; [done|]. split; [done|]. split; [done|].
        split; [done|]. by rewrite Hc. }
    destruct Hstep as (d1 & Hrun & Hfo1 & Hpi1 & Hmono1 & Hr1).
    destruct (IH d1 Hfo1 Hpi1) as (d' & Hfold & Hfo' & Hpi' & Hmono' & Hall).
    { by apply Hmono1. }
    { intros r' Hr'. apply Hvalid. by right. }
    exists d'. cbn [fold_opt]. rewrite Hrun.
    split; [done|]. split; [done|]. split; [done|]. split.
    + intros t Ht. by apply Hmono', Hmono1.
    + intros r' [->|Hr']%elem_of_cons; [by apply Hmono' | by apply Hall].
Qed.

End PropsCorrect.

Section PropsVisit.

Context {W : Type} `{Weight W}.
Variable fst : MutableFst W.
Hypothesis Hwf : wf_fst fst.
Hypothesis Hstart : valid_state fst (start fst).

(** The state in which the traversal ends. *)
Lemma DfsVisit_final_state (props : Z) :
  ∃ d, DfsVisit fst props = Some (visitor d) ∧
       ForestInv fst d ∧ PropsInv fst props d ∧
       ∀ t, valid_state fst t ↔ color_of d t = kDfsBlack.
Proof.
  unfold DfsVisit, dfs_roots.
  rewrite bool_decide_eq_false_2
    by (intros Hnone; rewrite Hnone in Hstart;
        unfold valid_state, kNoStateId in Hstart; lia).
  cbn [app fold_opt]. rewrite color_of_replicate.
  destruct (props_root_step fst Hwf props _ (start fst)
              (ForestInv_init fst props) (PropsInv_init fst props) Hstart
              (color_of_replicate _ _ _) (or_introl eq_refl))
    as (d1 & Hrun & Hfo1 & Hpi1 & Hblack & _).
  rewrite Hrun.
  destruct (props_roots_loop fst Hwf props
              (map Z.of_nat (seq 0 (length (states fst)))) d1 Hfo1 Hpi1)
    as (d' & Hfold & Hfo & Hpi & _ & Hall).
  { by rewrite Hblack. }
  { apply root_valid_state. }
  rewrite Hfold. exists d'. split; [done|]. split; [done|]. split; [done|].
  intros t. split.
  - intros Ht. pose proof (Hall t (valid_state_root fst t Ht)) as Hnw.
    pose proof (fo_no_grey _ _ Hfo t). by destruct (color_of d' t).
  - intros Ht. apply (GI_valid fst d'); [apply Hfo | by rewrite Ht].
Qed.

End PropsVisit.

(** X21: the accessibility bits of [SccVisitor].  After the traversal
    of an automaton that keeps the data model and has a start state, the
    property word tests true for kAccessible exactly when every state can
    be reached from the start state, and for kCoAccessible exactly when
    from every state a state with a final weight other than Zero can be
    reached; kNotAccessible and kNotCoAccessible are their negations,
    whatever the word held before. *)
Theorem SccVisitor_props_accessible {W : Type} `{Weight W}
    (fst : MutableFst W) (props : Z) :
  wf_fst fst → valid_state fst (start fst) →
  ∃ v, DfsVisit fst props = Some v ∧
       (has_property (props_ v) kAccessible = true ↔
        ∀ t, valid_state fst t → accessible fst t) ∧
       (has_property (props_ v) kCoAccessible = true ↔
        ∀ t, valid_state fst t → coaccessible fst t) ∧
       has_property (props_ v) kNotAccessible
       = negb (has_property (props_ v) kAccessible) ∧
       has_property (props_ v) kNotCoAccessible
       = negb (has_property (props_ v) kCoAccessible).
Proof.
  intros Hwf Hstart.
  destruct (DfsVisit_final_state fst Hwf Hstart props)
    as (d & Hrun & Hfo & Hpi & Hblack).
  exists (visitor d). split; [done|].
  change kAccessible with (2 ^ 40). change kNotAccessible with (2 ^ 41).
  change kCoAccessible with (2 ^ 42). change kNotCoAccessible with (2 ^ 43).
  rewrite !has_property_pow2 by lia.
  pose proof (pi_accessible_bit _ _ _ Hpi) as H40.
  pose proof (pi_coaccessible_bit _ _ _ Hpi) as H42.
  pose proof (pi_notacc _ _ _ Hpi) as H41.
  pose proof (pi_notcoacc _ _ _ Hpi) as H43.
  pose proof (fo_inv _ _ Hfo) as Hgi.
  unfold pbit in *.
  assert (Hnw : ∀ t, valid_state fst t → color_of d t ≠ kDfsWhite).
  { intros t Ht. apply Hblack in Ht. by rewrite Ht. }
  assert (Hpop : ∀ t, valid_state fst t → popped d t).
  { intros t Ht. split; [by apply Hblack|].
    rewrite (fo_stack _ _ Hfo). apply not_elem_of_nil. }
  split; [|split; [|split]].
  - rewrite H40. split.
    + intros Hb t Ht. apply (fo_acc _ _ Hfo t (Hnw t Ht)).
      destruct (acc d t) eqn:Ha; [done|].
      assert (Hx : Z.testbit (props_ (visitor d)) 41 = true).
      { apply H41. exists t. split; [by apply Hnw | done]. }
      by rewrite Hx in Hb.
    + intros Hall.
      destruct (Z.testbit (props_ (visitor d)) 41) eqn:Hb; [|done].
      destruct (proj1 H41 eq_refl) as (t & Ht & Ha).
      assert (Hv : valid_state fst t) by by apply (GI_valid fst d).
      apply (fo_acc _ _ Hfo t Ht) in Hall; [congruence | done].
  - rewrite H42. split.
    + intros Hb t Ht. apply (gi_sound _ _ Hgi).
      destruct (coacc d t) eqn:Hc; [done|].
      assert (Hx : Z.testbit (props_ (visitor d)) 43 = true).
      { apply H43. exists t. split; [by apply Hpop|]. intros Hco.
        pose proof (gi_popped_exact _ _ Hgi t (Hpop t Ht) Hco). congruence. }
      by rewrite Hx in Hb.
    + intros Hall.
      destruct (Z.testbit (props_ (visitor d)) 43) eqn:Hb; [|done].
      destruct (proj1 H43 eq_refl) as (t & [Ht _] & Hco).
      exfalso. apply Hco, Hall. by apply Hblack.
  - rewrite H40. by destruct (Z.testbit (props_ (visitor d)) 41).
  - rewrite H42. by destruct (Z.testbit (props_ (visitor d)) 43).
Qed.

Lemma SccVisitor_props_accessible_witness :
  ∃ v, DfsVisit dead_end_fst 0 = Some v ∧
       (has_property (props_ v) kAccessible = true ↔
        ∀ t, valid_state dead_end_fst t → accessible dead_end_fst t) ∧
       (has_property (props_ v) kCoAccessible = true ↔
        ∀ t, valid_state dead_end_fst t → coaccessible dead_end_fst t) ∧
       has_property (props_ v) kNotAccessible
       = negb (has_property (props_ v) kAccessible) ∧
       has_property (props_ v) kNotCoAccessible
       = negb (has_property (props_ v) kCoAccessible).
Proof.
  apply (SccVisitor_props_accessible dead_end_fst 0).
  - apply check_wf_sound. reflexivity.
  - unfold valid_state, NumStates. simpl. lia.
Defined.

(** X22: the cyclicity bits of [SccVisitor].  After the traversal of an
    automaton that keeps the data model and has a start state, the property
    word tests true for kCyclic exactly when some state lies on a cycle,
    and for kInitialCyclic exactly when the start state lies on a cycle;
    kAcyclic and kInitialAcyclic are their negations, whatever the word held
    before. *)
Theorem SccVisitor_props_cyclic {W : Type} `{Weight W}
    (fst : MutableFst W) (props : Z) :
  wf_fst fst → valid_state fst (start fst) →
  ∃ v, DfsVisit fst props = Some v ∧
       (has_property (props_ v) kCyclic = true ↔ cyclic fst) ∧
       (has_property (props_ v) kInitialCyclic = true ↔
        on_cycle fst (start fst)) ∧
       has_property (props_ v) kAcyclic
       = negb (has_property (props_ v) kCyclic) ∧
       has_property (props_ v) kInitialAcyclic
       = negb (has_property (props_ v) kInitialCyclic).
Proof.
  intros Hwf Hstart.
  destruct (DfsVisit_final_state fst Hwf Hstart props)
    as (d & Hrun & Hfo & Hpi & Hblack).
  exists (visitor d). split; [done|].
  change kCyclic with (2 ^ 34). change kAcyclic with (2 ^ 35).
  change kInitialCyclic with (2 ^ 36). change kInitialAcyclic with (2 ^ 37).
  rewrite !has_property_pow2 by lia.
  pose proof (pi_acyclic_bit _ _ _ Hpi) as H35.
  pose proof (pi_initacyclic_bit _ _ _ Hpi) as H37.
  unfold pbit in *.
  split; [|split; [|split]].
  - split; [apply (pi_cyclic _ _ _ Hpi)|].
    intros (u & v & Hr & He).
    destruct (Z.testbit (props_ (visitor d)) 34) eqn:Hb; [done|].
    exfalso. apply (pi_black_acyclic _ _ _ Hpi Hb u).
    + apply Hblack. destruct Hwf as [_ Harcs].
      destruct He as (a & Ha & <-). by apply (Harcs v).
    + by exists v.
  - split; [apply (pi_initcyclic _ _ _ Hpi)|].
    intros (v & Hr & He).
    destruct (Z.testbit (props_ (visitor d)) 36) eqn:Hb; [done|].
    exfalso.
    assert (Hv : color_of d v = kDfsBlack).
    { apply Hblack. by apply (edge_source_valid fst v (start fst)). }
    apply (pi_initacyclic _ _ _ Hpi Hb v Hv); [|done].
    apply (fo_acc _ _ Hfo); [by rewrite Hv | done].
  - done.
  - done.
Qed.

Lemma SccVisitor_props_cyclic_witness :
  ∃ v, DfsVisit dead_end_fst 0 = Some v ∧
       (has_property (props_ v) kCyclic = true ↔ cyclic dead_end_fst) ∧
       (has_property (props_ v) kInitialCyclic = true ↔
        on_cycle dead_end_fst (start dead_end_fst)) ∧
       has_property (props_ v) kAcyclic
       = negb (has_property (props_ v) kCyclic) ∧
       has_property (props_ v) kInitialAcyclic
       = negb (has_property (props_ v) kInitialCyclic).
Proof.
  apply (SccVisitor_props_cyclic dead_end_fst 0).
  - apply check_wf_sound. reflexivity.
  - unfold valid_state, NumStates. simpl. lia.
Defined.

(** The traversal returns, with or without a start state, and the
    property word it leaves satisfies the invariant of the bits. *)
Lemma DfsVisit_props_state {W : Type} `{Weight W}
    (fst : MutableFst W) (props : Z) :
  wf_fst fst →
  ∃ d, DfsVisit fst props = Some (visitor d) ∧ PropsInv fst props d.
Proof.
  intros Hwf.
  destruct (proj1 Hwf) as [Hnone|Hstart].
  - exists (mkDfs (InitVisit fst props)
              (replicate (length (states fst)) kDfsWhite)).
    split; [|apply PropsInv_init].
    unfold DfsVisit. by rewrite bool_decide_eq_true_2 by exact Hnone.
  - destruct (DfsVisit_final_state fst Hwf Hstart props)
      as (d & Hrun & _ & Hpi & _).
    by exists d.
Qed.

(** X23: [SccVisitor] changes no other bit.  After the traversal of an
    automaton that keeps the data model (the start state is a state or
    [kNoStateId], the next state of every arc is a state), every bit of
    the property word other than the eight of cyclicity, initial
    cyclicity, accessibility and coaccessibility is as the caller passed
    it. *)
Theorem SccVisitor_props_unchanged {W : Type} `{Weight W}
    (fst : MutableFst W) (props : Z) :
  wf_fst fst →
  ∃ v, DfsVisit fst props = Some v ∧
       ∀ mask,
         Z.land mask
           (Z.lor kCyclic (Z.lor kAcyclic (Z.lor kInitialCyclic
              (Z.lor kInitialAcyclic (Z.lor kAccessible (Z.lor kNotAccessible
                 (Z.lor kCoAccessible kNotCoAccessible))))))) = 0 →
         Z.land (props_ v) mask = Z.land props mask.
Proof.
  intros Hwf.
  destruct (DfsVisit_props_state fst props Hwf) as (d & Hrun & Hpi).
  exists (visitor d). split; [done|]. intros mask Hmask.
  apply Z.bits_inj'. intros n Hn. rewrite !Z.land_spec.
  destruct (Z.testbit mask n) eqn:Hm; [|by rewrite !andb_false_r].
  rewrite !andb_true_r. apply (pi_other _ _ _ Hpi).
  intros Hin.
  assert (Hbit : Z.testbit
            (Z.lor kCyclic (Z.lor kAcyclic (Z.lor kInitialCyclic
              (Z.lor kInitialAcyclic (Z.lor kAccessible (Z.lor kNotAccessible
                 (Z.lor kCoAccessible kNotCoAccessible))))))) n = true).
  { change kCyclic with (2 ^ 34). change kAcyclic with (2 ^ 35).
    change kInitialCyclic with (2 ^ 36). change kInitialAcyclic with (2 ^ 37).
    change kAccessible with (2 ^ 40). change kNotAccessible with (2 ^ 41).
    change kCoAccessible with (2 ^ 42). change kNotCoAccessible with (2 ^ 43).
    rewrite !Z.lor_spec, !Z.pow2_bits_eqb by lia.
    unfold scc_bits in Hin. rewrite !elem_of_cons in Hin.
    destruct Hin as [->|[->|[->|[->|[->|[->|[->|[->|Hin]]]]]]]];
      try reflexivity.
    by apply elem_of_nil in Hin. }
  assert (Hx : Z.testbit (Z.land mask
            (Z.lor kCyclic (Z.lor kAcyclic (Z.lor kInitialCyclic
              (Z.lor kInitialAcyclic (Z.lor kAccessible (Z.lor kNotAccessible
                 (Z.lor kCoAccessible kNotCoAccessible)))))))) n = true)
    by by rewrite Z.land_spec, Hm, Hbit.
  rewrite Hmask, Z.bits_0 in Hx. done.
Qed.

Lemma SccVisitor_props_unchanged_witness :
  ∃ v, DfsVisit dead_end_fst 4 = Some v ∧
       ∀ mask,
         Z.land mask
           (Z.lor kCyclic (Z.lor kAcyclic (Z.lor kInitialCyclic
              (Z.lor kInitialAcyclic (Z.lor kAccessible (Z.lor kNotAccessible
                 (Z.lor kCoAccessible kNotCoAccessible))))))) = 0 →
         Z.land (props_ v) mask = Z.land 4 mask.
Proof.
  apply (SccVisitor_props_unchanged dead_end_fst 4).
  apply check_wf_sound. reflexivity.
Defined.

(** ** The order that [TopOrderVisitor] computes *)

(** A list of [n] distinct numbers below [n] holds every number below
    [n]. *)
Lemma NoDup_range_all (l : list Z) :
  NoDup l → (∀ s, s ∈ l → 0 <= s < Z.of_nat (length l)) →
  ∀ s, 0 <= s < Z.of_nat (length l) → s ∈ l.
Proof.
  intros Hnd Hrange s Hs.
  assert (Hsub : l ⊆+ seqZ 0 (Z.of_nat (length l))).
  { apply NoDup_submseteq; [done|]. intros x Hx. apply elem_of_seqZ.
    specialize (Hrange x Hx). lia. }
  apply submseteq_length_Permutation in Hsub.
  - rewrite Hsub. apply elem_of_seqZ. lia.
  - rewrite length_seqZ. lia.
Qed.

Section TopOrderFacts.

Import TopOrderVisitor.

Variable finish : list Z.
Hypothesis Hnd : NoDup finish.
Hypothesis Hrange : ∀ s, s ∈ finish → 0 <= s < Z.of_nat (length finish).

(** The second loop of [FinishVisit] after its first [k] rounds. *)
Lemma order_loop (k : nat) :
  (k <= length finish)%nat →
  let order :=
    fold_left
      (fun order s =>
         vset order
              (vget kNoStateId finish (Z.of_nat (length finish) - s - 1)) s)
      (map Z.of_nat (seq 0 k)) (replicate (length finish) kNoStateId) in
  length order = length finish ∧
  ∀ (j : nat) (s : Z),
    (j < k)%nat → finish !! (length finish - 1 - j)%nat = Some s →
    vget kNoStateId order s = Z.of_nat j.
Proof.
  induction k as [|k IH]; intros Hk; cbn zeta.
  - simpl. split; [by rewrite length_replicate | intros; lia].
  - rewrite seq_S, map_app, fold_left_app. cbn [map fold_left plus].
    destruct (IH ltac:(lia)) as [Hlen Hval]. cbn zeta in Hlen, Hval.
    set (order := fold_left _ (map Z.of_nat (seq 0 k)) _) in *.
    destruct (lookup_lt_is_Some_2 finish (length finish - 1 - k)%nat
                ltac:(lia)) as [x Hx].
    assert (Hget : vget kNoStateId finish
                     (Z.of_nat (length finish) - Z.of_nat k - 1) = x).
    { unfold vget. rewrite bool_decide_eq_true_2 by lia.
      replace (Z.to_nat (Z.of_nat (length finish) - Z.of_nat k - 1))
        with (length finish - 1 - k)%nat by lia.
      by rewrite Hx. }
    rewrite Hget.
    assert (Hxr : 0 <= x < Z.of_nat (length order)).
    { rewrite Hlen. apply Hrange. by apply list_elem_of_lookup_2 in Hx. }
    split; [by rewrite length_vset|].
    intros j s Hj Hs. destruct (decide (j = k)) as [->|Hne].
    + assert (s = x) as -> by congruence.
      by rewrite vget_vset_same.
    + rewrite vget_vset_other.
      * apply Hval; [lia | done].
      * intros ->.
        pose proof (NoDup_lookup _ _ _ _ Hnd Hs Hx). lia.
Qed.

Lemma order_inverse (v : t) :
  finish_ v = finish → acyclic_ v = true →
  length (order_ (FinishVisit v)) = length finish ∧
  ∀ (i : nat) (s : Z),
    finish !! i = Some s →
    vget kNoStateId (order_ (FinishVisit v)) s
    = Z.of_nat (length finish) - 1 - Z.of_nat i.
Proof.
  intros Hf Ha. unfold FinishVisit. rewrite Ha, Hf. simpl.
  destruct (order_loop (length finish) ltac:(lia)) as [Hlen Hval].
  cbn zeta in Hlen, Hval. split; [done|].
  intros i s Hi. pose proof (lookup_lt_Some _ _ _ Hi) as Hlt.
  rewrite (Hval (length finish - 1 - i)%nat s); [lia | lia |].
  by replace (length finish - 1 - (length finish - 1 - i))%nat with i by lia.
Qed.

End TopOrderFacts.

(** X24: the order that [TopOrderVisitor::FinishVisit] leaves.  When the
    traversal has found a cycle, [order] is left as it was.  Otherwise, for
    a finishing list that holds each of its [n] states once, [order] has [n]
    entries, the state finished at place [i] gets the position [n - 1 - i],
    so that [order] is one-to-one onto the positions below [n], and a state
    finished after another one comes before it in the order. *)
Theorem TopOrderVisitor_FinishVisit_spec (v : TopOrderVisitor.t) :
  NoDup (TopOrderVisitor.finish_ v) →
  (∀ s, s ∈ TopOrderVisitor.finish_ v →
        0 <= s < Z.of_nat (length (TopOrderVisitor.finish_ v))) →
  let n := Z.of_nat (length (TopOrderVisitor.finish_ v)) in
  let order :=
    TopOrderVisitor.order_ (TopOrderVisitor.FinishVisit v) in
  TopOrderVisitor.acyclic_ (TopOrderVisitor.FinishVisit v)
  = TopOrderVisitor.acyclic_ v ∧
  (TopOrderVisitor.acyclic_ v = false → order = TopOrderVisitor.order_ v) ∧
  (TopOrderVisitor.acyclic_ v = true →
   length order = length (TopOrderVisitor.finish_ v) ∧
   (∀ (i : nat) (s : Z),
      TopOrderVisitor.finish_ v !! i = Some s →
      vget kNoStateId order s = n - 1 - Z.of_nat i) ∧
   (∀ s, 0 <= s < n → 0 <= vget kNoStateId order s < n) ∧
   (∀ s s', 0 <= s < n → 0 <= s' < n →
            vget kNoStateId order s = vget kNoStateId order s' → s = s') ∧
   (∀ (i j : nat) (s s' : Z),
      TopOrderVisitor.finish_ v !! i = Some s →
      TopOrderVisitor.finish_ v !! j = Some s' →
      (i < j)%nat →
      vget kNoStateId order s' < vget kNoStateId order s)).
Proof.
  intros Hnd Hrange n order. split; [|split].
  - unfold TopOrderVisitor.FinishVisit.
    by destruct (TopOrderVisitor.acyclic_ v).
  - intros Ha. unfold order, TopOrderVisitor.FinishVisit. by rewrite Ha.
  - intros Ha.
    destruct (order_inverse _ Hnd Hrange v eq_refl Ha) as [Hlen Hinv].
    fold order in Hlen, Hinv. fold n in Hinv.
    assert (Hall : ∀ s, 0 <= s < n →
                        ∃ i : nat, TopOrderVisitor.finish_ v !! i = Some s).
    { intros s Hs. apply list_elem_of_lookup_1.
      by apply NoDup_range_all. }
    split; [done|]. split; [done|]. split; [|split].
    + intros s Hs. destruct (Hall s Hs) as [i Hi].
      rewrite (Hinv i s Hi). apply lookup_lt_Some in Hi. lia.
    + intros s s' Hs Hs' Heq.
      destruct (Hall s Hs) as [i Hi]. destruct (Hall s' Hs') as [j Hj].
      rewrite (Hinv i s Hi), (Hinv j s' Hj) in Heq.
      assert (i = j) as -> by lia. congruence.
    + intros i j s s' Hi Hj Hlt.
      rewrite (Hinv i s Hi), (Hinv j s' Hj). lia.
Qed.

Lemma TopOrderVisitor_FinishVisit_spec_witness :
  let v := TopOrderVisitor.mkTop [] true [2; 0; 1] in
  TopOrderVisitor.order_ (TopOrderVisitor.FinishVisit v) = [1; 0; 2] ∧
  (TopOrderVisitor.acyclic_ v = true →
   ∀ (i j : nat) (s s' : Z),
     TopOrderVisitor.finish_ v !! i = Some s →
     TopOrderVisitor.finish_ v !! j = Some s' →
     (i < j)%nat →
     vget kNoStateId (TopOrderVisitor.order_ (TopOrderVisitor.FinishVisit v)) s'
     < vget kNoStateId (TopOrderVisitor.order_ (TopOrderVisitor.FinishVisit v)) s).
Proof.
  intros v. split; [reflexivity|].
  assert (Hnd : NoDup (TopOrderVisitor.finish_ v))
    by (by apply (bool_decide_unpack _)).
  assert (Hr : ∀ s, s ∈ TopOrderVisitor.finish_ v →
                    0 <= s < Z.of_nat (length (TopOrderVisitor.finish_ v))).
  { intros s Hs. simpl in *. rewrite !elem_of_cons in Hs.
    destruct Hs as [->|[->|[->|Hs]]]; try lia. by apply elem_of_nil in Hs. }
  intros Ha. apply (TopOrderVisitor_FinishVisit_spec v Hnd Hr). exact Ha.
Defined.

(** ** Trimming and inversion *)

Lemma sorted_lt_ext (l1 l2 : list Z) :
  StronglySorted Z.lt l1 → StronglySorted Z.lt l2 →
  (∀ x, x ∈ l1 ↔ x ∈ l2) → l1 = l2.
Proof.
  intros H1. revert l2.
  induction H1 as [|a l1 H1 IH Ha]; intros l2 H2 Hext.
  - destruct l2 as [|b l2]; [done|].
    assert (Hb : b ∈ @nil Z) by (apply Hext; left).
    by apply elem_of_nil in Hb.
  - destruct H2 as [|b l2 H2 Hb].
    { assert (Hx : a ∈ @nil Z) by (apply Hext; left).
      by apply elem_of_nil in Hx. }
    rewrite Forall_forall in Ha, Hb.
    assert (a = b) as ->.
    { assert (Ha2 : a ∈ b :: l2) by (apply Hext; left).
      assert (Hb1 : b ∈ a :: l1) by (apply Hext; left).
      apply elem_of_cons in Ha2 as [->|Ha2]; [done|].
      apply elem_of_cons in Hb1 as [->|Hb1]; [done|].
      specialize (Ha b Hb1). specialize (Hb a Ha2). lia. }
    f_equal. apply IH; [done|]. intros x. split; intros Hx.
    + assert (Hx2 : x ∈ b :: l2) by (apply Hext; by right).
      apply elem_of_cons in Hx2 as [->|Hx2]; [|done].
      specialize (Ha b Hx). lia.
    + assert (Hx1 : x ∈ b :: l1) by (apply Hext; by right).
      apply elem_of_cons in Hx1 as [->|Hx1]; [|done].
      specialize (Hb b Hx). lia.
Qed.

Lemma omap_map_commute {A B : Type} (f : A → A) (f' : B → B)
    (g : A → option B) (l : list A) :
  (∀ a, g (f a) = f' <$> g a) →
  omap g (map f l) = map f' (omap g l).
Proof.
  intros Hg. induction l as [|a l IH]; [done|].
  rewrite map_cons, !omap_cons_match, Hg.
  destruct (g a) as [b|].
  - change (f' <$> Some b) with (Some (f' b)). cbn iota.
    by rewrite map_cons, IH.
  - change (f' <$> None) with (@None B). cbn iota. exact IH.
Qed.

Section InvertConnect.

Context {W : Type} `{Weight W}.
Variable InvertProperties : Z → Z.
Variable kFstProperties : Z.
Variable fst fi : MutableFst W.
Hypothesis Hne : start fst ≠ kNoStateId.
Hypothesis Hinv : Invert InvertProperties kFstProperties fst = Some fi.

Lemma Invert_states :
  states fi = map (fun st => mkState (final st) (map (map_arc (InvertMapper InvertProperties)) (arcs st))) (states fst).
Proof.
  destruct (Invert_fields InvertProperties kFstProperties fst Hne)
    as [props Hf].
  rewrite Hf in Hinv. by injection Hinv as <-.
Qed.

Lemma Invert_symbols :
  start fi = start fst ∧ isymbols fi = osymbols fst ∧ osymbols fi = isymbols fst.
Proof.
  destruct (Invert_fields InvertProperties kFstProperties fst Hne)
    as [props Hf].
  rewrite Hf in Hinv. by injection Hinv as <-.
Qed.

Lemma Invert_GetState (s : Z) :
  GetState fi s
  = (fun st => mkState (final st) (map (map_arc (InvertMapper InvertProperties)) (arcs st))) <$> GetState fst s.
Proof.
  unfold GetState. rewrite Invert_states.
  case_bool_decide; [|done]. by rewrite list_lookup_fmap.
Qed.

Lemma Invert_valid_state (s : Z) : valid_state fi s ↔ valid_state fst s.
Proof.
  unfold valid_state, NumStates. by rewrite Invert_states, length_map.
Qed.

Lemma Invert_edge (s t : Z) : edge fi s t ↔ edge fst s t.
Proof.
  unfold edge.
  destruct (Invert_StateArcs InvertProperties kFstProperties fst fi s Hne Hinv)
    as (_ & -> & _). split.
  - intros (a' & (a & -> & Ha)%list_elem_of_fmap & Hn). by exists a.
  - intros (a & Ha & Hn). exists (map_arc (InvertMapper InvertProperties) a). split; [|done].
    by apply list_elem_of_fmap_2.
Qed.

Lemma Invert_reach (s t : Z) : reach fi s t ↔ reach fst s t.
Proof.
  unfold reach. split; intros Hr.
  - induction Hr as [|x y z He _ IH]; [apply rtc_refl|].
    apply (rtc_l _ x y); [by apply Invert_edge | done].
  - induction Hr as [|x y z He _ IH]; [apply rtc_refl|].
    apply (rtc_l _ x y); [by apply Invert_edge | done].
Qed.

Lemma Invert_is_final (s : Z) : is_final fi s ↔ is_final fst s.
Proof.
  unfold is_final.
  destruct (Invert_StateArcs InvertProperties kFstProperties fst fi s Hne Hinv)
    as (_ & _ & ->). done.
Qed.

Lemma Invert_useful (s : Z) : useful fi s ↔ useful fst s.
Proof.
  unfold useful, accessible, coaccessible.
  destruct Invert_symbols as (-> & _).
  rewrite Invert_valid_state, Invert_reach.
  split; intros (Hv & Ha & f & Hr & Hf); (split; [done|]; split; [done|]);
    exists f.
  - by rewrite <- Invert_reach, <- Invert_is_final.
  - by rewrite Invert_reach, Invert_is_final.
Qed.

Lemma Invert_wf : wf_fst fst → wf_fst fi.
Proof.
  intros [Hs Harcs]. destruct Invert_symbols as (Hst & _). split.
  - rewrite Hst. destruct Hs as [Hs|Hs]; [by left|right].
    by apply Invert_valid_state.
  - intros s a Ha. apply Invert_valid_state.
    assert (He : edge fi s (nextstate a)) by by exists a.
    apply Invert_edge in He as (b & Hb & <-). by apply (Harcs s).
Qed.

Lemma trim_arcs_invert (kept : list Z) (l : list (Arc W)) :
  trim_arcs kept (map (map_arc (InvertMapper InvertProperties)) l) = map (map_arc (InvertMapper InvertProperties)) (trim_arcs kept l).
Proof.
  unfold trim_arcs. apply omap_map_commute. intros a.
  cbn [nextstate ilabel olabel weight map_arc InvertMapper].
  by destruct (position kept (nextstate a)).
Qed.

Lemma trimmed_states_invert (kept l : list Z) :
  omap (fun s => trim_state kept <$> GetState fi s) l
  = map (fun st => mkState (final st) (map (map_arc (InvertMapper InvertProperties)) (arcs st)))
        (omap (fun s => trim_state kept <$> GetState fst s) l).
Proof.
  induction l as [|s l IH]; [done|].
  rewrite !omap_cons_match, Invert_GetState.
  destruct (GetState fst s) as [st|].
  - change (trim_state kept <$> Some st) with (Some (trim_state kept st)).
    change (trim_state kept <$>
              ((fun st0 => mkState (final st0)
                  (map (map_arc (InvertMapper InvertProperties)) (arcs st0)))
               <$> Some st))
      with (Some (trim_state kept
                    (mkState (final st)
                       (map (map_arc (InvertMapper InvertProperties))
                            (arcs st))))).
    cbn iota. rewrite map_cons, IH. f_equal.
    unfold trim_state. cbn [final arcs]. f_equal. apply trim_arcs_invert.
  - exact IH.
Qed.

End InvertConnect.

(** X25: trimming and inversion commute.  For an automaton that keeps
    the data model and has a start state, [Connect] after [Invert] and
    [Invert] after [Connect] both return, and their results have the same
    states, arcs, final weights, start state and symbol tables. *)
Theorem Connect_Invert_commute {W : Type} `{Weight W}
    (InvertProperties : Z → Z) (kFstProperties : Z) (fst : MutableFst W) :
  wf_fst fst → valid_state fst (start fst) →
  ∃ fi fc fci fic,
    Invert InvertProperties kFstProperties fst = Some fi ∧
    Connect fi = Some fci ∧
    Connect fst = Some fc ∧
    Invert InvertProperties kFstProperties fc = Some fic ∧
    start fci = start fic ∧ states fci = states fic ∧
    isymbols fci = isymbols fic ∧ osymbols fci = osymbols fic.
Proof.
  intros Hwf Hstart.
  assert (Hne : start fst ≠ kNoStateId).
  { intros Hno. rewrite Hno in Hstart.
    unfold valid_state, kNoStateId in Hstart. lia. }
  destruct (Invert_fields InvertProperties kFstProperties fst Hne)
    as [p1 Hfi].
  set (fi := mkMutableFst _ _ _ _ p1) in Hfi.
  pose proof (Invert_symbols InvertProperties kFstProperties fst fi Hne Hfi)
    as (Hst & His & Hos).
  pose proof (Invert_wf InvertProperties kFstProperties fst fi Hne Hfi Hwf)
    as Hwfi.
  assert (Hstarti : valid_state fi (start fi)).
  { rewrite Hst.
    by apply (Invert_valid_state InvertProperties kFstProperties fst fi
                Hne Hfi). }
  destruct (Connect_result fst Hwf Hstart) as (kept & Hsorted & Hkept & Hfc).
  destruct (Connect_result fi Hwfi Hstarti) as (kept' & Hsorted' & Hkept' & Hfci).
  assert (kept' = kept) as ->.
  { apply sorted_lt_ext; try done. intros x.
    rewrite Hkept, Hkept'.
    apply (Invert_useful InvertProperties kFstProperties fst fi Hne Hfi). }
  pose proof (sorted_lt_NoDup _ Hsorted) as Hnd.
  destruct (decide (start (trimmed fst kept) = kNoStateId)) as [Hno'|Hne'].
  - assert (Hnil : kept = []).
    { destruct kept as [|s0 kept0] eqn:Hk; [done|]. exfalso.
      rewrite <- Hk in *.
      assert (Hs0 : useful fst s0) by (apply Hkept; rewrite Hk; left).
      assert (Hus : useful fst (start fst)).
      { destruct Hs0 as (_ & Ha & (f & Hr & Hf)).
        split; [done|]. split; [apply rtc_refl|]. exists f. split; [|done].
        unfold accessible, reach in *. by etrans. }
      apply Hkept in Hus. apply list_elem_of_lookup_1 in Hus as [i Hi].
      unfold trimmed in Hno'. cbn [start] in Hno'.
      rewrite (lookup_position kept i _ Hnd Hi) in Hno'. simpl in Hno'.
      unfold kNoStateId in Hno'. lia. }
    eexists fi, _, _, _.
    split; [exact Hfi|]. split; [exact Hfci|]. split; [exact Hfc|].
    split; [exact (Invert_fields_no_start InvertProperties kFstProperties
                     (trimmed fst kept) Hno')|].
    cbn [start states isymbols osymbols trimmed].
    rewrite Hst. subst kept. done.
  - destruct (Invert_fields InvertProperties kFstProperties (trimmed fst kept)
                Hne') as [p2 Hfic].
    eexists fi, _, _, _.
    split; [exact Hfi|]. split; [exact Hfci|]. split; [exact Hfc|].
    split; [exact Hfic|]. cbn [start states isymbols osymbols trimmed].
    rewrite Hst. split; [done|]. split; [|done].
    apply (trimmed_states_invert InvertProperties kFstProperties fst fi
             Hne Hfi).
Qed.

Lemma Connect_Invert_commute_witness :
  ∃ fi fc fci fic,
    Invert (fun p => p) kFstProperties_value dead_end_fst = Some fi ∧
    Connect fi = Some fci ∧
    Connect dead_end_fst = Some fc ∧
    Invert (fun p => p) kFstProperties_value fc = Some fic ∧
    start fci = start fic ∧ states fci = states fic ∧
    isymbols fci = isymbols fic ∧ osymbols fci = osymbols fic.
Proof.
  apply (Connect_Invert_commute (fun p => p) kFstProperties_value dead_end_fst).
  - apply check_wf_sound. reflexivity.
  - unfold valid_state, NumStates. simpl. lia.
Defined.

(** ** The component numbers that [SccVisitor] computes *)

Lemma mark_scc_spec (s n : Z) (above below : list Z) (scc : list Z) :
  s ∉ above →
  (∀ t, t ∈ above ++ [s] → 0 <= t < Z.of_nat (length scc)) →
  length (mark_scc s n (above ++ s :: below) scc) = length scc ∧
  (∀ t, t ∈ above ++ [s] →
        vget (-1) (mark_scc s n (above ++ s :: below) scc) t = n) ∧
  (∀ t, t ∉ above ++ [s] →
        vget (-1) (mark_scc s n (above ++ s :: below) scc) t
        = vget (-1) scc t).
Proof.
  revert scc. induction above as [|x above IH]; intros scc Hs Hin.
  - cbn [app mark_scc]. rewrite bool_decide_eq_true_2 by done.
    assert (Hs' : 0 <= s < Z.of_nat (length scc)) by (apply Hin; left).
    split; [apply length_vset|]. split; intros t Ht.
    + apply list_elem_of_singleton in Ht as ->. by apply vget_vset_same.
    + rewrite list_elem_of_singleton in Ht. by apply vget_vset_other.
  - cbn [app mark_scc]. apply not_elem_of_cons in Hs as [Hsx Hs].
    rewrite bool_decide_eq_false_2 by done.
    assert (Hx : 0 <= x < Z.of_nat (length scc)) by (apply Hin; left).
    destruct (IH (vset scc x n) Hs) as (Hlen & H1 & H2).
    { intros t Ht. rewrite length_vset. apply Hin. by right. }
    split; [by rewrite Hlen, length_vset|]. split; intros t Ht.
    + destruct (decide (t ∈ above ++ [s])) as [Hin'|Hout]; [by apply H1|].
      apply elem_of_cons in Ht as [->|Ht]; [|done].
      rewrite H2 by done. by apply vget_vset_same.
    + apply not_elem_of_cons in Ht as [Hne Ht].
      rewrite H2 by done. by apply vget_vset_other.
Qed.

Lemma vget_map_in (f : Z → Z) (l : list Z) (t : Z) :
  0 <= t < Z.of_nat (length l) →
  vget (-1) (map f l) t = f (vget (-1) l t).
Proof.
  intros Ht. unfold vget. rewrite bool_decide_eq_true_2 by lia.
  rewrite list_lookup_fmap.
  destruct (lookup_lt_is_Some_2 l (Z.to_nat t) ltac:(lia)) as [x ->]. done.
Qed.

Section SccSteps.

Context {W : Type} `{Weight W}.
Variable fst : MutableFst W.
Hypothesis Hwf : wf_fst fst.

(** *** The traversal without the numbers *)

Lemma color_of_base (d : DfsStateScc) (t : Z) :
  color_of_scc d t = color_of (base_state d) t.
Proof. reflexivity. Qed.

Lemma base_discovered (s root : Z) (d : DfsStateScc) :
  base_state (with_visitor_scc (InitStateScc s root)
                (set_color_scc s kDfsGrey d))
  = discovered s root (base_state d).
Proof. reflexivity. Qed.

Lemma base_back (s : Z) (a : Arc W) (d : DfsStateScc) :
  base_state (with_visitor_scc (BackArcScc s a) d)
  = with_visitor (BackArc s a) (base_state d).
Proof. reflexivity. Qed.

Lemma base_cross (s : Z) (a : Arc W) (d : DfsStateScc) :
  base_state (with_visitor_scc (ForwardOrCrossArcScc s a) d)
  = with_visitor (ForwardOrCrossArc s a) (base_state d).
Proof. reflexivity. Qed.

Lemma base_finished (s p : Z) (d : DfsStateScc) :
  base_state (with_visitor_scc (FinishStateScc fst s p)
                (set_color_scc s kDfsBlack d))
  = finished fst s p (base_state d).
Proof. reflexivity. Qed.

(** *** Steps that leave the numbers and the completed components *)

Lemma SccInv_same (d d' : DfsStateScc) :
  scc_ (visitor_scc d') = scc_ (visitor_scc d) →
  nscc_ (visitor_ (visitor_scc d')) = nscc_ (visitor_ (visitor_scc d)) →
  length (dfnumber_ (visitor_ (visitor_scc d')))
  = length (dfnumber_ (visitor_ (visitor_scc d))) →
  (∀ t, popped (base_state d') t ↔ popped (base_state d) t) →
  SccInv fst d → SccInv fst d'.
Proof.
  intros Hscc Hn Hlen Hpop [H1 H2 H3 H4 H5].
  assert (Hnum : ∀ t, sccnum d' t = sccnum d t)
    by (intros t; unfold sccnum; by rewrite Hscc).
  split.
  - by rewrite Hscc, Hlen.
  - by rewrite Hn.
  - intros t Ht. rewrite Hnum, Hn. by apply H3, Hpop.
  - intros t u Ht Hu. rewrite !Hnum. by apply H4; apply Hpop.
  - intros t u Ht He. rewrite !Hnum. by apply H5; [apply Hpop|].
Qed.

Lemma discover_SccInv (root s p : Z) (d0 : DfsStateScc) :
  DfsPre fst s p (base_state d0) → SccInv fst d0 →
  SccInv fst (with_visitor_scc (InitStateScc s root)
                (set_color_scc s kDfsGrey d0)).
Proof.
  intros (Hgi0 & Hvalid & Hwhite0 & _) [H1 H2 H3 H4 H5].
  set (d := with_visitor_scc (InitStateScc s root)
              (set_color_scc s kDfsGrey d0)).
  assert (Hpop : ∀ t, popped (base_state d) t ↔ popped (base_state d0) t).
  { intros t. unfold d. rewrite base_discovered.
    by apply (popped_discovered fst). }
  assert (Hnum : ∀ t, sccnum d t = sccnum d0 t).
  { intros t. unfold sccnum, d. simpl. apply vget_grow. }
  assert (Hn : nscc_ (visitor_ (visitor_scc d))
               = nscc_ (visitor_ (visitor_scc d0))).
  { unfold d.
    cbn [visitor_scc with_visitor_scc InitStateScc scc_ visitor_
           set_color_scc].
    unfold InitState. by destruct (bool_decide _). }
  split.
  - unfold d.
    cbn [visitor_scc with_visitor_scc InitStateScc scc_ visitor_
           set_color_scc].
    unfold InitState. destruct (bool_decide _); cbn [dfnumber_];
      rewrite length_vset; unfold grow;
      by rewrite !length_app, !length_replicate, H1.
  - by rewrite Hn.
  - intros t Ht. rewrite Hnum, Hn. by apply H3, Hpop.
  - intros t u Ht Hu. rewrite !Hnum. by apply H4; apply Hpop.
  - intros t u Ht He. rewrite !Hnum. by apply H5; [apply Hpop|].
Qed.

Lemma GreyUpdate_SccInv (s : Z) (d d' : DfsStateScc) :
  GreyUpdate s (base_state d) (base_state d') →
  scc_ (visitor_scc d') = scc_ (visitor_scc d) →
  nscc_ (visitor_ (visitor_scc d')) = nscc_ (visitor_ (visitor_scc d)) →
  SccInv fst d → SccInv fst d'.
Proof.
  intros Hgu Hscc Hn. apply SccInv_same; try done.
  - exact (f_equal length (gu_dfnumber _ _ _ Hgu)).
  - intros t. by apply (GreyUpdate_popped s).
Qed.

(** The completed components are closed under the arcs. *)
Lemma popped_reach (d : DfsState) (t u : Z) :
  GI fst d → popped d t → reach fst t u → popped d u.
Proof.
  intros Hgi Ht Hr. unfold reach in Hr.
  induction Hr as [|x y z He _ IH]; [done|].
  apply IH. by apply (gi_popped_closed _ _ Hgi x y).
Qed.

(** *** A state is finished *)

Lemma FinishState_nscc (s p : Z) (v : SccVisitor) :
  nscc_ (FinishState fst s p v)
  = if bool_decide (vget (-1) (dfnumber_ v) s = vget (-1) (lowlink_ v) s)
    then nscc_ v + 1 else nscc_ v.
Proof.
  unfold FinishState. simpl. case_bool_decide; simpl.
  - destruct (pop_scc s _ _ _ _) as [[stack co] on]. simpl.
    by case_bool_decide.
  - by case_bool_decide.
Qed.

Lemma FinishState_dfnumber (s p : Z) (v : SccVisitor) :
  dfnumber_ (FinishState fst s p v) = dfnumber_ v.
Proof.
  unfold FinishState. simpl. case_bool_decide; simpl.
  - destruct (pop_scc s _ _ _ _) as [[stack co] on]. simpl.
    by case_bool_decide.
  - by case_bool_decide.
Qed.

Lemma finish_SccInv (root s p : Z) (d0 : DfsState) (d1 : DfsStateScc) :
  DfsPre fst s p d0 →
  LoopInv fst root s p d0 (base_state d1) (StateArcs fst s) →
  SccInv fst d1 →
  SccInv fst (with_visitor_scc (FinishStateScc fst s p)
                (set_color_scc s kDfsBlack d1)).
Proof.
  intros Hpre Hli Hsi.
  pose proof Hpre as (Hgi0 & Hvalid & Hwhite0 & _).
  set (b1 := base_state d1) in *.
  pose proof (li_inv _ _ _ _ _ _ _ Hli) as Hgi.
  pose proof (gi_shape _ _ Hgi) as Hsh.
  destruct (li_top _ _ _ _ _ _ _ Hli) as [Hgrey Htop].
  destruct (li_stack _ _ _ _ _ _ _ Hli) as (above & Hstk & Habove).
  destruct (sorted_stack_split b1 s above (stk d0) (gi_sorted _ _ Hgi) Hstk)
    as (Hs_above & Hs_below & Hab & _).
  assert (Hs_stk : s ∈ stk b1) by by apply (gi_grey_stack _ _ Hgi).
  pose proof (finish_final_GreyUpdate fst b1 s) as Hgu.
  set (d' := with_visitor_scc (FinishStateScc fst s p)
               (set_color_scc s kDfsBlack d1)).
  set (da := with_visitor (finish_final fst s) b1) in *.
  set (dk := set_color s kDfsBlack da).
  set (db := with_visitor (finish_pop s) dk).
  assert (Hbase : base_state d' = with_visitor (finish_parent s p) db).
  { unfold db, dk, da. rewrite <- finished_eq. reflexivity. }
  assert (Hpo : DfsPost fst root s p d0 (base_state d')).
  { rewrite Hbase. apply finish_parent_post; try done.
    by apply (finish_mid _ root s p). }
  pose proof (po_inv _ _ _ _ _ _ Hpo) as Hgi'.
  assert (Hpop_c : ∀ t, popped (base_state d') t ↔ popped db t).
  { intros t. rewrite Hbase.
    apply (GreyUpdate_popped p), finish_parent_GreyUpdate. }
  assert (Hrange : 0 <= s < Z.of_nat (length (state_color da))).
  { rewrite (gu_color _ _ _ Hgu), (sh_colors _ _ Hsh).
    pose proof (GI_valid fst b1 s Hgi) as Hv. rewrite Hgrey in Hv.
    by apply Hv. }
  assert (Hcolk : ∀ t, color_of dk t
                       = if decide (t = s) then kDfsBlack else color_of b1 t).
  { intros t. unfold dk. rewrite set_color_color by done.
    by rewrite (GreyUpdate_color s b1 da t Hgu). }
  assert (Hstkk : stk dk = above ++ s :: stk d0) by (by rewrite <- Hstk).
  assert (Hscc' : scc_ (visitor_scc d')
                  = if bool_decide (dfn b1 s = low b1 s)
                    then mark_scc s (nscc_ (visitor b1)) (stk b1)
                           (scc_ (visitor_scc d1))
                    else scc_ (visitor_scc d1)) by reflexivity.
  assert (Hnscc' : nscc_ (visitor_ (visitor_scc d'))
                   = if bool_decide (dfn b1 s = low b1 s)
                     then nscc_ (visitor b1) + 1 else nscc_ (visitor b1))
    by apply FinishState_nscc.
  assert (Hdfn' : dfnumber_ (visitor_ (visitor_scc d'))
                  = dfnumber_ (visitor b1)) by apply FinishState_dfnumber.
  assert (Hpopk : ∀ t, popped dk t ↔ popped b1 t).
  { intros t. unfold popped. rewrite Hcolk, Hstkk, <- Hstk.
    destruct (decide (t = s)) as [->|]; [|done].
    split; intros [_ Hn]; by destruct Hn. }
  destruct (decide (dfn b1 s = low b1 s)) as [Hroot|Hroot].
  2:{ rewrite bool_decide_eq_false_2 in Hscc', Hnscc' by done.
    apply (SccInv_same d1 d'); try done.
    - by rewrite Hdfn'.
    - intros t. rewrite Hpop_c. unfold db.
      rewrite finish_pop_keep by done. apply Hpopk. }
  rewrite bool_decide_eq_true_2 in Hscc', Hnscc' by done.
  assert (Hseg_stk : ∀ t, t ∈ above ++ [s] → t ∈ stk b1).
  { intros t Ht. rewrite Hstk.
    apply elem_of_app in Ht as [Ht|Ht%list_elem_of_singleton].
    - apply elem_of_app. by left.
    - subst t. apply elem_of_app. right. left. }
  assert (Hseg_dfn : ∀ t, t ∈ above ++ [s] → dfn b1 s <= dfn b1 t).
  { intros t [Ht|Ht%list_elem_of_singleton]%elem_of_app.
    - specialize (Hab t Ht). lia.
    - subst t. lia. }
  assert (Hseg_nw : ∀ t, t ∈ above ++ [s] → color_of b1 t ≠ kDfsWhite).
  { intros t Ht. by apply (gi_stack_nonwhite _ _ Hgi), Hseg_stk. }
  assert (Hseg_range : ∀ t, t ∈ above ++ [s] →
            0 <= t < Z.of_nat (length (scc_ (visitor_scc d1)))).
  { intros t Ht. rewrite (si_len _ _ Hsi).
    by apply (GI_range fst b1 t Hgi), Hseg_nw. }
  assert (Hseg_conn : ∀ t u, t ∈ above ++ [s] → u ∈ above ++ [s] →
                             reach fst t u).
  { intros t u Ht Hu. unfold reach. etrans.
    - apply (reach_top_grey fst b1 s t Hgi);
        [by split | by apply Hseg_stk | by apply Hseg_dfn].
    - apply (gi_reach _ _ Hgi); [done | by apply Hseg_stk | by apply Hseg_dfn]. }
  assert (Hseg0 : ∀ t, t ∈ above ++ [s] → t ∉ stk d0).
  { intros t Ht Hin. apply (gi_stack_nonwhite _ _ Hgi0) in Hin.
    apply elem_of_app in Ht as [Ht|Ht%list_elem_of_singleton].
    - by apply Habove in Ht.
    - by subst t. }
  destruct (finish_pop_PopStep dk s above (stk d0) Hroot Hstkk Hs_above)
    as [b Hps].
  { intros t Ht. change (visitor dk) with (visitor da).
    rewrite (gu_len_coacc _ _ _ Hgu), (sh_coaccess _ _ Hsh).
    by apply (GI_range fst b1 t Hgi), Hseg_nw. }
  { change (visitor dk) with (visitor da).
    rewrite (gu_len_coacc _ _ _ Hgu), (gu_onstack _ _ _ Hgu).
    by rewrite (sh_onstack _ _ Hsh), (sh_coaccess _ _ Hsh). }
  fold db in Hps.
  assert (Hpop_b : ∀ t, popped db t ↔ t ∈ above ++ [s] ∨ popped b1 t).
  { intros t. unfold popped at 1. rewrite (ps_stack _ _ _ _ _ Hps).
    change (color_of db t) with (vget kDfsWhite (state_color db) t).
    rewrite (ps_color _ _ _ _ _ Hps).
    change (vget kDfsWhite (state_color dk) t) with (color_of dk t).
    rewrite Hcolk. split.
    - intros [Hc Hn]. destruct (decide (t ∈ above ++ [s])) as [|Hseg];
        [by left | right].
      assert (Hts : t ≠ s).
      { intros ->. apply Hseg, elem_of_app. right. left. }
      rewrite decide_False in Hc by done. split; [done|].
      rewrite Hstk. intros Hin. apply Hseg.
      change (above ++ s :: stk d0) with (above ++ [s] ++ stk d0) in Hin.
      rewrite app_assoc in Hin. by apply elem_of_app in Hin as [Hin|Hin].
    - intros [Hseg|[Hc Hn]].
      + split; [|by apply Hseg0].
        destruct (decide (t = s)) as [|Hts]; [done|].
        apply Htop; [by apply Hseg_stk|].
        apply elem_of_app in Hseg as [Ht|Ht%list_elem_of_singleton];
          [by apply Hab | done].
      + split.
        * by destruct (decide (t = s)).
        * intros Hin. apply Hn. rewrite Hstk. apply elem_of_app.
          right. by right. }
  assert (Hseg_new : ∀ t, t ∈ above ++ [s] → ¬ popped b1 t).
  { intros t Ht [_ Hn]. by apply Hn, Hseg_stk. }
  destruct (mark_scc_spec s (nscc_ (visitor b1)) above (stk d0)
              (scc_ (visitor_scc d1)) Hs_above Hseg_range)
    as (Hlen & Hnum_seg0 & Hnum_old0).
  rewrite <- Hstk, <- Hscc' in Hlen, Hnum_seg0, Hnum_old0.
  assert (Hnum_seg : ∀ t, t ∈ above ++ [s] →
                          sccnum d' t = nscc_ (visitor b1))
    by exact Hnum_seg0.
  assert (Hnum_old : ∀ t, t ∉ above ++ [s] → sccnum d' t = sccnum d1 t)
    by exact Hnum_old0.
  pose proof (si_nscc _ _ Hsi) as Hn0. fold b1 in Hn0.
  change (visitor_ (visitor_scc d1)) with (visitor b1) in *.
  assert (Hold_range : ∀ t, popped b1 t →
                            0 <= sccnum d1 t < nscc_ (visitor b1))
    by apply (si_range _ _ Hsi).
  assert (Hold_not : ∀ t, popped b1 t → t ∉ above ++ [s]).
  { intros t Ht Hseg. by apply (Hseg_new t). }
  split.
  - rewrite Hlen, Hdfn'. apply (si_len _ _ Hsi).
  - rewrite Hnscc'. lia.
  - intros t [Hseg|Hold]%Hpop_c%Hpop_b; rewrite Hnscc'.
    + rewrite Hnum_seg by done. lia.
    + rewrite Hnum_old by by apply Hold_not.
      specialize (Hold_range t Hold). lia.
  - intros t u [Ht|Ht]%Hpop_c%Hpop_b [Hu|Hu]%Hpop_c%Hpop_b.
    + rewrite (Hnum_seg t Ht), (Hnum_seg u Hu). split; [intros _|done].
      split; by apply Hseg_conn.
    + rewrite (Hnum_seg t Ht), (Hnum_old u (Hold_not u Hu)).
      specialize (Hold_range u Hu). split; [lia|].
      intros [_ Hr]. exfalso. apply (Hseg_new t Ht).
      by apply (popped_reach b1 u t).
    + rewrite (Hnum_old t (Hold_not t Ht)), (Hnum_seg u Hu).
      specialize (Hold_range t Ht). split; [lia|].
      intros [Hr _]. exfalso. apply (Hseg_new u Hu).
      by apply (popped_reach b1 t u).
    + rewrite (Hnum_old t (Hold_not t Ht)), (Hnum_old u (Hold_not u Hu)).
      by apply (si_same _ _ Hsi).
  - intros t u Ht He.
    assert (Hu : popped (base_state d') u)
      by by apply (gi_popped_closed _ _ Hgi' t u).
    apply Hpop_c, Hpop_b in Ht as [Ht|Ht]; apply Hpop_c, Hpop_b in Hu as [Hu|Hu].
    + rewrite (Hnum_seg t Ht), (Hnum_seg u Hu). lia.
    + rewrite (Hnum_seg t Ht), (Hnum_old u (Hold_not u Hu)).
      specialize (Hold_range u Hu). lia.
    + exfalso. apply (Hseg_new u Hu).
      by apply (gi_popped_closed _ _ Hgi t u).
    + rewrite (Hnum_old t (Hold_not t Ht)), (Hnum_old u (Hold_not u Hu)).
      by apply (si_edge _ _ Hsi).
Qed.

End SccSteps.

(** *** One tree, then the forest *)

Section SccCorrect.

Context {W : Type} `{Weight W}.
Variable fst : MutableFst W.
Hypothesis Hwf : wf_fst fst.

Lemma scc_arcs_loop (fuel : nat) (root s p : Z) (d0 : DfsState) :
  (∀ s' p' d, DfsPre fst s' p' (base_state d) → SccInv fst d →
              (white_count (base_state d) < fuel)%nat →
              ∃ d', DfsFromScc fuel fst root s' p' d = Some d' ∧
                    DfsFrom fuel fst root s' p' (base_state d)
                    = Some (base_state d') ∧
                    DfsPost fst root s' p' (base_state d) (base_state d') ∧
                    SccInv fst d') →
  (white_count d0 <= fuel)%nat →
  DfsPre fst s p d0 →
  ∀ todo done d,
    StateArcs fst s = done ++ todo →
    LoopInv fst root s p d0 (base_state d) done →
    SccInv fst d →
    ∃ d', fold_opt
            (fun d arc =>
               match color_of_scc d (nextstate arc) with
               | kDfsWhite => DfsFromScc fuel fst root (nextstate arc) s d
               | kDfsGrey => Some (with_visitor_scc (BackArcScc s arc) d)
               | kDfsBlack =>
                   Some (with_visitor_scc (ForwardOrCrossArcScc s arc) d)
               end) d todo = Some d' ∧
          fold_opt
            (fun d arc =>
               match color_of d (nextstate arc) with
               | kDfsWhite => DfsFrom fuel fst root (nextstate arc) s d
               | kDfsGrey => Some (with_visitor (BackArc s arc) d)
               | kDfsBlack => Some (with_visitor (ForwardOrCrossArc s arc) d)
               end) (base_state d) todo = Some (base_state d') ∧
          LoopInv fst root s p d0 (base_state d') (StateArcs fst s) ∧
          SccInv fst d'.
Proof.
  intros IH Hfuel Hpre todo.
  induction todo as [|a todo IHtodo]; intros done d Harcs Hli Hsi.
  - exists d. split; [done|]. split; [done|]. rewrite Harcs.
    by rewrite app_nil_r.
  - assert (Ha : a ∈ StateArcs fst s).
    { rewrite Harcs. apply elem_of_app. right. left. }
    assert (Harcs' : StateArcs fst s = (done ++ [a]) ++ todo)
      by by rewrite Harcs, <- app_assoc.
    cbn [fold_opt].
    change (color_of (base_state d) (nextstate a))
      with (color_of_scc d (nextstate a)).
    destruct (color_of_scc d (nextstate a)) eqn:Hc.
    + pose proof (li_white _ _ _ _ _ _ _ Hli) as Hw.
      destruct (IH (nextstate a) s d) as (d2 & -> & -> & Hpo & Hsi2).
      { by apply (tree_DfsPre fst Hwf root s p d0 (base_state d) done). }
      { done. }
      { lia. }
      apply (IHtodo (done ++ [a])); [done | | done].
      by apply (tree_LoopInv fst root s p d0 (base_state d) (base_state d2) done).
    + apply (IHtodo (done ++ [a]) (with_visitor_scc (BackArcScc s a) d));
        [done | |].
      * by apply (back_LoopInv fst root s p d0 (base_state d)).
      * apply (GreyUpdate_SccInv fst s d); try done.
        apply (BackArc_GreyUpdate (base_state d) s a).
    + apply (IHtodo (done ++ [a])
               (with_visitor_scc (ForwardOrCrossArcScc s a) d)); [done | |].
      * by apply (cross_LoopInv fst root s p d0 (base_state d)).
      * apply (GreyUpdate_SccInv fst s d); try done.
        apply (ForwardOrCrossArc_GreyUpdate (base_state d) s a).
Qed.

(** [DfsFromScc] runs as [DfsFrom] does, and keeps what the numbers
    tell. *)
Lemma DfsFromScc_spec (fuel : nat) (root s p : Z) (d0 : DfsStateScc) :
  DfsPre fst s p (base_state d0) → SccInv fst d0 →
  (white_count (base_state d0) < fuel)%nat →
  ∃ d', DfsFromScc fuel fst root s p d0 = Some d' ∧
        DfsFrom fuel fst root s p (base_state d0) = Some (base_state d') ∧
        DfsPost fst root s p (base_state d0) (base_state d') ∧
        SccInv fst d'.
Proof.
  revert s p d0.
  induction fuel as [|fuel IH]; intros s p d0 Hpre Hsi Hfuel; [lia|].
  pose proof Hpre as (Hgi0 & Hvalid & Hwhite0 & _).
  pose proof (discover_LoopInv fst root s p (base_state d0) Hpre) as Hli.
  pose proof (discover_SccInv fst root s p d0 Hpre Hsi) as Hsi1.
  destruct (scc_arcs_loop fuel root s p (base_state d0) IH ltac:(lia) Hpre
              (StateArcs fst s) []
              (with_visitor_scc (InitStateScc s root)
                 (set_color_scc s kDfsGrey d0)) eq_refl Hli Hsi1)
    as (d1 & Hfold & Hfoldb & Hli1 & Hsi2).
  exists (with_visitor_scc (FinishStateScc fst s p)
            (set_color_scc s kDfsBlack d1)).
  split; [|split; [|split]].
  - cbn [DfsFromScc]. by rewrite Hfold.
  - cbn [DfsFrom]. unfold discovered in Hfoldb.
    change (base_state
              (with_visitor_scc (InitStateScc s root)
                 (set_color_scc s kDfsGrey d0)))
      with (with_visitor (InitState s root)
              (set_color s kDfsGrey (base_state d0))) in Hfoldb.
    by rewrite Hfoldb.
  - rewrite base_finished, finished_eq. apply finish_parent_post; try done.
    by apply (finish_mid _ root s p).
  - by apply (finish_SccInv fst root s p (base_state d0)).
Qed.

Lemma SccInv_init (props : Z) :
  SccInv fst (mkDfsScc (InitVisitScc fst props)
                (replicate (length (states fst)) kDfsWhite)).
Proof.
  assert (Hw : ∀ t, ¬ popped
                 (base_state (mkDfsScc (InitVisitScc fst props)
                    (replicate (length (states fst)) kDfsWhite))) t).
  { intros t [Hc _].
    change (color_of (mkDfs (InitVisit fst props)
                        (replicate (length (states fst)) kDfsWhite)) t
            = kDfsBlack) in Hc.
    by rewrite color_of_replicate in Hc. }
  split; try done.
  - intros t Ht. by apply Hw in Ht.
  - intros t u Ht. by apply Hw in Ht.
  - intros t u Ht. by apply Hw in Ht.
Qed.

Lemma scc_root_step (d : DfsStateScc) (root : Z) :
  ForestInv fst (base_state d) → SccInv fst d →
  valid_state fst root → color_of (base_state d) root = kDfsWhite →
  (root = start fst ∨ color_of (base_state d) (start fst) ≠ kDfsWhite) →
  ∃ d', DfsFromScc (S (length (states fst))) fst root root kNoStateId d
        = Some d' ∧
        DfsFrom (S (length (states fst))) fst root root kNoStateId
          (base_state d) = Some (base_state d') ∧
        ForestInv fst (base_state d') ∧ SccInv fst d' ∧
        color_of (base_state d') root = kDfsBlack ∧
        ∀ t, color_of (base_state d) t ≠ kDfsWhite →
             color_of (base_state d') t ≠ kDfsWhite.
Proof.
  intros Hfo Hsi Hvalid Hwhite Hstart.
  pose proof (fo_inv _ _ Hfo) as Hgi.
  destruct (root_step fst Hwf (base_state d) root Hfo Hvalid Hwhite Hstart)
    as (b' & Hrun & Hfo' & Hb & Hmono).
  assert (Hpre : DfsPre fst root kNoStateId (base_state d)).
  { split; [done|]. split; [done|]. split; [done|]. left.
    split; [done|]. split; [apply (fo_stack _ _ Hfo) | apply (fo_no_grey _ _ Hfo)]. }
  destruct (DfsFromScc_spec (S (length (states fst))) root root kNoStateId d
              Hpre Hsi) as (d' & Hrun' & Hrunb & _ & Hsi').
  { pose proof (white_count_le (base_state d)).
    rewrite (sh_colors _ _ (gi_shape _ _ Hgi)) in *. lia. }
  rewrite Hrun in Hrunb. injection Hrunb as ->.
  exists d'. by repeat (split; [done|]).
Qed.

Lemma scc_roots_loop (roots : list Z) (d : DfsStateScc) :
  ForestInv fst (base_state d) → SccInv fst d →
  color_of (base_state d) (start fst) ≠ kDfsWhite →
  (∀ r, r ∈ roots → valid_state fst r) →
  ∃ d', fold_opt
          (fun d root =>
             match color_of_scc d root with
             | kDfsWhite =>
                 DfsFromScc (S (length (states fst))) fst root root
                   kNoStateId d
             | _ => Some d
             end) d roots = Some d' ∧
        fold_opt
          (fun d root =>
             match color_of d root with
             | kDfsWhite =>
                 DfsFrom (S (length (states fst))) fst root root kNoStateId d
             | _ => Some d
             end) (base_state d) roots = Some (base_state d') ∧
        ForestInv fst (base_state d') ∧ SccInv fst d' ∧
        (∀ t, color_of (base_state d) t ≠ kDfsWhite →
              color_of (base_state d') t ≠ kDfsWhite) ∧
        (∀ r, r ∈ roots → color_of (base_state d') r ≠ kDfsWhite).
Proof.
  revert d. induction roots as [|r roots IH]; intros d Hfo Hsi Hstart Hvalid.
  - exists d. repeat (split; [done|]).
    intros r Hr. by apply elem_of_nil in Hr.
  - cbn [fold_opt].
    change (color_of (base_state d) r) with (color_of_scc d r).
    assert (Hstep : ∃ d1,
              match color_of_scc d r with
              | kDfsWhite =>
                  DfsFromScc (S (length (states fst))) fst r r kNoStateId d
              | _ => Some d
              end = Some d1 ∧
              match color_of_scc d r with
              | kDfsWhite =>
                  DfsFrom (S (length (states fst))) fst r r kNoStateId
                    (base_state d)
              | _ => Some (base_state d)
              end = Some (base_state d1) ∧
              ForestInv fst (base_state d1) ∧ SccInv fst d1 ∧
              (∀ t, color_of (base_state d) t ≠ kDfsWhite →
                    color_of (base_state d1) t ≠ kDfsWhite) ∧
              color_of (base_state d1) r ≠ kDfsWhite).
    { destruct (color_of_scc d r) eqn:Hc.
      - destruct (scc_root_step d r Hfo Hsi)
          as (d1 & Hrun & Hrunb & Hfo1 & Hsi1 & Hb & Hmono);
          [apply Hvalid; left | done | by right |].
        exists d1. repeat (split; [done|]). by rewrite Hb.
      - exists d. repeat (split; [done|]).
        change (color_of_scc d r ≠ kDfsWhite). by rewrite Hc.
      - exists d. repeat (split; [done|]).
        change (color_of_scc d r ≠ kDfsWhite). by rewrite Hc. }
    destruct Hstep as (d1 & Hrun & Hrunb & Hfo1 & Hsi1 & Hmono1 & Hr1).
    destruct (IH d1 Hfo1 Hsi1)
      as (d' & Hfold & Hfoldb & Hfo' & Hsi' & Hmono' & Hall).
    { by apply Hmono1. }
    { intros r' Hr'. apply Hvalid. by right. }
    exists d'. rewrite Hrun.
    assert (Hrunb' :
              match color_of_scc d r with
              | kDfsWhite =>
                  DfsFrom (S (length (states fst))) fst r r kNoStateId
                    (base_state d)
              | kDfsGrey => Some (base_state d)
              | kDfsBlack => Some (base_state d)
              end = Some (base_state d1))
      by (by destruct (color_of_scc d r)).
    rewrite Hrunb'.
    split; [done|]. split; [done|]. split; [done|]. split; [done|]. split.
    + intros t Ht. by apply Hmono', Hmono1.
    + intros r' [->|Hr']%elem_of_cons; [by apply Hmono' | by apply Hall].
Qed.

End SccCorrect.

Section SccVisit.

Context {W : Type} `{Weight W}.
Variable fst : MutableFst W.
Hypothesis Hwf : wf_fst fst.
Hypothesis Hstart : valid_state fst (start fst).

(** The state in which the traversal with the numbers ends. *)
Lemma DfsVisitScc_final_state (props : Z) :
  ∃ d, DfsVisitScc fst props = Some (FinishVisitScc (visitor_scc d)) ∧
       DfsVisit fst props = Some (visitor (base_state d)) ∧
       ForestInv fst (base_state d) ∧ SccInv fst d ∧
       ∀ t, valid_state fst t ↔ color_of (base_state d) t = kDfsBlack.
Proof.
  unfold DfsVisitScc, DfsVisit, dfs_roots.
  rewrite bool_decide_eq_false_2
    by (intros Hnone; rewrite Hnone in Hstart;
        unfold valid_state, kNoStateId in Hstart; lia).
  cbn [app fold_opt]. rewrite color_of_replicate.
  change (color_of_scc
            (mkDfsScc (InitVisitScc fst props)
               (replicate (length (states fst)) kDfsWhite)) (start fst))
    with (color_of
            (mkDfs (InitVisit fst props)
               (replicate (length (states fst)) kDfsWhite)) (start fst)).
  rewrite color_of_replicate.
  destruct (scc_root_step fst Hwf
              (mkDfsScc (InitVisitScc fst props)
                 (replicate (length (states fst)) kDfsWhite)) (start fst)
              (ForestInv_init fst props) (SccInv_init fst props) Hstart
              (color_of_replicate _ _ _) (or_introl eq_refl))
    as (d1 & Hrun & Hrunb & Hfo1 & Hsi1 & Hblack & _).
  rewrite Hrun.
  change (base_state
            (mkDfsScc (InitVisitScc fst props)
               (replicate (length (states fst)) kDfsWhite)))
    with (mkDfs (InitVisit fst props)
            (replicate (length (states fst)) kDfsWhite)) in Hrunb.
  rewrite Hrunb.
  destruct (scc_roots_loop fst Hwf
              (map Z.of_nat (seq 0 (length (states fst)))) d1 Hfo1 Hsi1)
    as (d' & Hfold & Hfoldb & Hfo & Hsi & _ & Hall).
  { by rewrite Hblack. }
  { apply root_valid_state. }
  rewrite Hfold, Hfoldb. exists d'.
  split; [done|]. split; [done|]. split; [done|]. split; [done|].
  intros t. split.
  - intros Ht. pose proof (Hall t (valid_state_root fst t Ht)) as Hnw.
    pose proof (fo_no_grey _ _ Hfo t). by destruct (color_of (base_state d') t).
  - intros Ht. apply (GI_valid fst (base_state d')); [apply Hfo | by rewrite Ht].
Qed.

End SccVisit.

(** [DfsVisitScc] returns, and leaves in [scc_] the number of the
    component of every state. *)
Lemma DfsVisitScc_spec {W : Type} `{Weight W}
    (fst : MutableFst W) (props : Z) :
  wf_fst fst → valid_state fst (start fst) →
  ∃ v, DfsVisitScc fst props = Some v ∧
       DfsVisit fst props = Some (visitor_ v) ∧
       length (scc_ v) = length (states fst) ∧
       (∀ t, valid_state fst t →
             0 <= vget (-1) (scc_ v) t < nscc_ (visitor_ v)) ∧
       (∀ t u, valid_state fst t → valid_state fst u →
               (vget (-1) (scc_ v) t = vget (-1) (scc_ v) u ↔
                strongly_connected fst t u)) ∧
       (∀ t u, edge fst t u →
               vget (-1) (scc_ v) t <= vget (-1) (scc_ v) u).
Proof.
  intros Hwf Hstart.
  destruct (DfsVisitScc_final_state fst Hwf Hstart props)
    as (d & Hrun & Hrunb & Hfo & Hsi & Hblack).
  exists (FinishVisitScc (visitor_scc d)).
  split; [done|]. split; [done|].
  pose proof (fo_inv _ _ Hfo) as Hgi.
  pose proof (gi_shape _ _ Hgi) as Hsh.
  assert (Hpop : ∀ t, valid_state fst t → popped (base_state d) t).
  { intros t Ht. split; [by apply Hblack|].
    rewrite (fo_stack _ _ Hfo). apply not_elem_of_nil. }
  assert (Hlen : length (scc_ (visitor_scc d)) = length (states fst)).
  { rewrite (si_len _ _ Hsi).
    pose proof (sh_size _ _ Hsh) as Hle.
    assert (Hlast : valid_state fst (NumStates fst - 1))
      by (unfold valid_state, NumStates in *; lia).
    assert (Hnw : color_of (base_state d) (NumStates fst - 1) ≠ kDfsWhite).
    { apply Hblack in Hlast. by rewrite Hlast. }
    pose proof (sh_nonwhite _ _ Hsh _ Hnw) as Hr.
    change (visitor (base_state d)) with (visitor_ (visitor_scc d)) in *.
    unfold NumStates in Hr. lia. }
  assert (Hnum : ∀ t, valid_state fst t →
            vget (-1) (scc_ (FinishVisitScc (visitor_scc d))) t
            = nscc_ (visitor_ (visitor_scc d)) - 1 - sccnum d t).
  { intros t Ht. unfold FinishVisitScc. cbn [scc_].
    rewrite vget_map_in; [done|]. rewrite Hlen.
    unfold valid_state, NumStates in Ht. lia. }
  assert (Hev : ∀ t u, edge fst t u → valid_state fst t ∧ valid_state fst u).
  { intros t u He. split; [by apply (edge_source_valid fst t u)|].
    destruct Hwf as [_ Harcs]. destruct He as (a & Ha & <-).
    by apply (Harcs t). }
  split; [|split; [|split]].
  - unfold FinishVisitScc. cbn [scc_]. by rewrite length_map.
  - intros t Ht. rewrite (Hnum t Ht).
    pose proof (si_range _ _ Hsi t (Hpop t Ht)) as Hr.
    change (nscc_ (visitor_ (FinishVisitScc (visitor_scc d))))
      with (nscc_ (visitor_ (visitor_scc d))). lia.
  - intros t u Ht Hu. rewrite (Hnum t Ht), (Hnum u Hu).
    rewrite <- (si_same _ _ Hsi t u (Hpop t Ht) (Hpop u Hu)). lia.
  - intros t u He. destruct (Hev t u He) as [Ht Hu].
    rewrite (Hnum t Ht), (Hnum u Hu).
    pose proof (si_edge _ _ Hsi t u (Hpop t Ht) He). lia.
Qed.

(** X26: the component numbers of [SccVisitor].  After the traversal of
    an automaton that keeps the data model and has a start state, [scc]
    holds one number per state, from 0 to the number of components less
    one; two states have the same number exactly when each can be reached
    from the other one; and the numbers are in topological order: along an
    arc the number does not decrease.  The other results of the visitor are
    those of the traversal without [scc]. *)
Theorem SccVisitor_scc_components {W : Type} `{Weight W}
    (fst : MutableFst W) (props : Z) :
  wf_fst fst → valid_state fst (start fst) →
  ∃ v, DfsVisitScc fst props = Some v ∧
       DfsVisit fst props = Some (visitor_ v) ∧
       length (scc_ v) = length (states fst) ∧
       (∀ t, valid_state fst t →
             0 <= vget (-1) (scc_ v) t < nscc_ (visitor_ v)) ∧
       (∀ t u, valid_state fst t → valid_state fst u →
               (vget (-1) (scc_ v) t = vget (-1) (scc_ v) u ↔
                strongly_connected fst t u)) ∧
       (∀ t u, edge fst t u →
               vget (-1) (scc_ v) t <= vget (-1) (scc_ v) u).
Proof. intros Hwf Hstart. by apply DfsVisitScc_spec. Qed.

Lemma SccVisitor_scc_components_witness :
  ∃ v, DfsVisitScc dead_end_fst 0 = Some v ∧
       DfsVisit dead_end_fst 0 = Some (visitor_ v) ∧
       length (scc_ v) = length (states dead_end_fst) ∧
       (∀ t, valid_state dead_end_fst t →
             0 <= vget (-1) (scc_ v) t < nscc_ (visitor_ v)) ∧
       (∀ t u, valid_state dead_end_fst t → valid_state dead_end_fst u →
               (vget (-1) (scc_ v) t = vget (-1) (scc_ v) u ↔
                strongly_connected dead_end_fst t u)) ∧
       (∀ t u, edge dead_end_fst t u →
               vget (-1) (scc_ v) t <= vget (-1) (scc_ v) u).
Proof.
  apply (SccVisitor_scc_components dead_end_fst 0).
  - apply check_wf_sound. reflexivity.
  - unfold valid_state, NumStates. simpl. lia.
Defined.

(** X27: the numbers and the cyclicity bits agree.  After the traversal
    with [scc] of an automaton that keeps the data model and has a start
    state, the property word tests true for kAcyclic exactly when the
    number of the component increases strictly along every arc; the numbers
    of two distinct states are then distinct. *)
Theorem SccVisitor_scc_acyclic {W : Type} `{Weight W}
    (fst : MutableFst W) (props : Z) :
  wf_fst fst → valid_state fst (start fst) →
  ∃ v, DfsVisitScc fst props = Some v ∧
       (has_property (props_ (visitor_ v)) kAcyclic = true ↔
        ∀ t u, edge fst t u →
               vget (-1) (scc_ v) t < vget (-1) (scc_ v) u) ∧
       (has_property (props_ (visitor_ v)) kAcyclic = true →
        ∀ t u, valid_state fst t → valid_state fst u →
               vget (-1) (scc_ v) t = vget (-1) (scc_ v) u → t = u).
Proof.
  intros Hwf Hstart.
  destruct (DfsVisitScc_spec fst props Hwf Hstart)
    as (v & Hrun & Hrunb & _ & _ & Hsame & Hedge).
  destruct (DfsVisit_final_state fst Hwf Hstart props)
    as (d & Hrund & _ & Hpi & Hblack).
  rewrite Hrunb in Hrund. injection Hrund as Hv.
  exists v. split; [done|].
  change kAcyclic with (2 ^ 35). rewrite has_property_pow2 by lia.
  pose proof (pi_acyclic_bit _ _ _ Hpi) as H35. unfold pbit in H35.
  rewrite <- Hv in H35. rewrite H35.
  assert (Hev : ∀ t u, edge fst t u → valid_state fst t ∧ valid_state fst u).
  { intros t u He. split; [by apply (edge_source_valid fst t u)|].
    destruct Hwf as [_ Harcs]. destruct He as (a & Ha & <-).
    by apply (Harcs t). }
  assert (Hacyc : negb (Z.testbit (props_ (visitor_ v)) 34) = true →
                  ∀ u, ¬ on_cycle fst u).
  { intros Hb%negb_true_iff u Hcyc. rewrite Hv in Hb.
    apply (pi_black_acyclic _ _ _ Hpi Hb u); [|done].
    apply Hblack. destruct Hcyc as (w & _ & He). by apply (Hev w u). }
  split; [split|].
  - intros Hb t u He. specialize (Hedge t u He).
    destruct (decide (vget (-1) (scc_ v) t = vget (-1) (scc_ v) u))
      as [Heq|Hne]; [|lia].
    exfalso. destruct (Hev t u He) as [Ht Hu].
    apply (Hsame t u Ht Hu) in Heq as [_ Hr].
    apply (Hacyc Hb u). by exists t.
  - intros Hstrict.
    destruct (Z.testbit (props_ (visitor_ v)) 34) eqn:Hb; [|done].
    exfalso. rewrite Hv in Hb.
    destruct (pi_cyclic _ _ _ Hpi Hb) as (u & w & Hr & He).
    specialize (Hstrict w u He). destruct (Hev w u He) as [Hw Hu].
    assert (Heq : vget (-1) (scc_ v) w = vget (-1) (scc_ v) u).
    { apply (Hsame w u Hw Hu). split; [by apply rtc_once | done]. }
    lia.
  - intros Hb t u Ht Hu Heq.
    apply (Hsame t u Ht Hu) in Heq as [Htu Hut].
    destruct (decide (t = u)) as [|Hne]; [done|]. exfalso.
    apply rtc_inv_r in Hut as [Hut|(y & Huy & Hyt)]; [done|].
    apply (Hacyc Hb t). exists y. split; [|done].
    unfold reach in *. by etrans.
Qed.

Lemma SccVisitor_scc_acyclic_witness :
  ∃ v, DfsVisitScc dead_end_fst 0 = Some v ∧
       (has_property (props_ (visitor_ v)) kAcyclic = true ↔
        ∀ t u, edge dead_end_fst t u →
               vget (-1) (scc_ v) t < vget (-1) (scc_ v) u) ∧
       (has_property (props_ (visitor_ v)) kAcyclic = true →
        ∀ t u, valid_state dead_end_fst t → valid_state dead_end_fst u →
               vget (-1) (scc_ v) t = vget (-1) (scc_ v) u → t = u).
Proof.
  apply (SccVisitor_scc_acyclic dead_end_fst 0).
  - apply check_wf_sound. reflexivity.
  - unfold valid_state, NumStates. simpl. lia.
Defined.

(** * The final weight of a composition state, and the trimming of an
      automaton with or without a start state *)

Section FinalClaims.

Context {W : Type} `{Weight W} {FS : Type} `{EqDecision FS}.
Variable filter_ : ComposeFilter W FS.
Variable matcher1_ matcher2_ : Matcher W.

Local Abbreviation Impl := (ComposeFstImpl W FS).

(** C6, as the code has it.  The final weight of the composition state
    with tuple (s1, s2, f) is [Times] of the two final weights as
    [FilterFinal] leaves them, with the short circuit on Zero: when the
    final weight at s1 is Zero the result is Zero and neither the final
    weight at s2 nor the filter is consulted; when the final weight at s2
    is Zero the result is Zero and the filter is not called.  It is not
    computed on expansion: it is computed by [ComputeFinal] when [Final(s)]
    is asked for and the cache holds no final weight for the state, and
    [Final] then records it in the cache.  An expansion of the state leaves
    its cache entry marked as expanded, and records no final weight: a
    state without a final weight in the cache has none after it. *)
Theorem Final_short_circuit (s : Z) (impl : Impl) (s1 s2 : Z) (fs : FS) :
  Tuple (state_table_ impl) s = Some (s1, s2, fs) →
  let final1 := MFinal matcher1_ s1 in
  let final2 := MFinal matcher2_ s2 in
  let computed :=
    if bool_decide (final1 = Zero) then (Zero, [CallFinal1 s1], impl)
    else if bool_decide (final2 = Zero)
    then (Zero, [CallFinal1 s1; CallFinal2 s2], impl)
    else (Times (FilterFinal filter_ (s1, s2, fs) final1 final2).1
                (FilterFinal filter_ (s1, s2, fs) final1 final2).2,
          [CallFinal1 s1; CallFinal2 s2; CallSetState (s1, s2, fs);
           CallFilterFinal final1 final2],
          filter_SetState (s1, s2, fs) impl) in
  ComputeFinal filter_ matcher1_ matcher2_ s impl = Some computed ∧
  (HasFinal s (cache_store_ impl) = false →
   ∃ impl' : Impl,
     ImplFinal filter_ matcher1_ matcher2_ s impl
     = Some (computed.1.1, impl') ∧
     cs_final (GetMutableState s (cache_store_ impl')) = Some computed.1.1) ∧
  ∃ impl' : Impl,
    Expand filter_ matcher1_ matcher2_ s impl = Some impl' ∧
    HasArcs s (cache_store_ impl') = true ∧
    (HasFinal s (cache_store_ impl) = false →
     HasFinal s (cache_store_ impl') = false).
Proof.
  intros Htuple final1 final2 computed.
  pose proof (ComputeFinal_value filter_ matcher1_ matcher2_ s impl s1 s2 fs
                Htuple) as Hcf.
  cbn zeta in Hcf. fold final1 final2 in Hcf. fold computed in Hcf.
  split; [exact Hcf|]. split.
  - intros Hno. unfold ImplFinal. rewrite Hno, Hcf.
    destruct computed as [[w calls] impl0]. cbn [mbind option_bind fst snd].
    eexists. split; [reflexivity|].
    cbn [set_cache cache_store_]. unfold SetFinal, GetMutableState.
    by rewrite lookup_insert_eq.
  - destruct (Expand_blocks filter_ matcher1_ matcher2_ s impl s1 s2 fs Htuple)
      as (impl' & blocks & He & _ & _ & Hh & _).
    exists impl'. split; [done|]. split; [done|].
    destruct (Expand_expand_frame filter_ matcher1_ matcher2_ s impl impl' He)
      as (Hfr & _).
    unfold HasFinal. by rewrite (ef_final _ _ _ Hfr).
Qed.

End FinalClaims.

Lemma Final_short_circuit_witness :
  Tuple (state_table_ example_impl_expanded) 1 = Some (1, 1, true) ∧
  ComputeFinal accept_all_filter sorted_matcher1 sorted_matcher2 1
    example_impl_expanded
  = Some (Trop 0,
          [CallFinal1 1; CallFinal2 1; CallSetState (1, 1, true);
           CallFilterFinal (Trop 0) (Trop 0)],
          filter_SetState (1, 1, true) example_impl_expanded).
Proof.
  split; [reflexivity|].
  destruct (Final_short_circuit accept_all_filter sorted_matcher1
              sorted_matcher2 1 example_impl_expanded 1 1 true)
    as [Hfinal _]; [reflexivity|].
  exact Hfinal.
Defined.

(** C6 as stated fails: the composition state 1, with tuple (1, 1, f), has
    the final weight [Trop 0], which is not Zero; its expansion marks the
    cache entry as expanded and records no final weight; the weight is
    computed and recorded when [Final] is asked for. *)
Lemma Expand_records_no_final :
  Tuple (state_table_ example_impl_expanded) 1 = Some (1, 1, true) ∧
  HasFinal 1 (cache_store_ example_impl_expanded) = false ∧
  ∃ impl',
    Expand accept_all_filter sorted_matcher1 sorted_matcher2 1
      example_impl_expanded = Some impl' ∧
    HasArcs 1 (cache_store_ impl') = true ∧
    HasFinal 1 (cache_store_ impl') = false ∧
    ∃ impl'',
      ImplFinal accept_all_filter sorted_matcher1 sorted_matcher2 1 impl'
      = Some (Trop 0, impl'') ∧
      HasFinal 1 (cache_store_ impl'') = true.
Proof.
  split; [reflexivity|]. split; [reflexivity|].
  eexists. split; [reflexivity|]. split; [reflexivity|].
  split; [reflexivity|].
  eexists. split; reflexivity.
Qed.



